(** * Consulente di Ricette: the rule base, its prompts and the engine that runs it

    The development follows the Python sources
      - [src/ClassiSupporto/interfacciaConUtente.py] (prompts, evaluator adapter),
      - [src/SistemaEsperto/consulenteRicette.py]    (the rule base),
      - [src/ReteBayesiana/retiBayesiane.py]         (the network),
      - [src/ReteBayesiana/valutazione.py]           (the validation script),
      - [main.py]                                    (the sessions),
    and the engine contract of sections 3 and 4 of the specification. *)

From Stdlib Require Import List String Ascii ZArith QArith Bool Arith Lia Lqa.
From Stdlib Require DecimalString Floats.
Import ListNotations.
Close Scope Q_scope.
Open Scope string_scope.
Open Scope list_scope.
Set Warnings "-register-all".
Set Warnings "-inexact-float".

(** ** Text primitives used by the prompts

    Python's [str.strip], [str.lower], [str.split(',')] and [int(str)], over
    8-bit text.  Characters outside ASCII are left untouched by [lower] and are
    never white space or digits here. *)

Module Text.

Definition is_space (c : ascii) : bool :=
  let n := nat_of_ascii c in
  (n =? 32)%nat || ((9 <=? n)%nat && (n <=? 13)%nat) || ((28 <=? n)%nat && (n <=? 31)%nat).

Fixpoint lstrip (s : string) : string :=
  match s with
  | EmptyString => EmptyString
  | String c s' => if is_space c then lstrip s' else s
  end.

Fixpoint rstrip (s : string) : string :=
  match s with
  | EmptyString => EmptyString
  | String c s' =>
      match rstrip s' with
      | EmptyString => if is_space c then EmptyString else String c EmptyString
      | r => String c r
      end
  end.

Definition strip (s : string) : string := rstrip (lstrip s).

Definition lower_char (c : ascii) : ascii :=
  let n := nat_of_ascii c in
  if ((65 <=? n)%nat && (n <=? 90)%nat) then ascii_of_nat (n + 32) else c.

Fixpoint lower (s : string) : string :=
  match s with
  | EmptyString => EmptyString
  | String c s' => String (lower_char c) (lower s')
  end.

(** [s.split(',')]: never empty, [''.split(',') = ['']]. *)
Fixpoint split_comma (s : string) : list string :=
  match s with
  | EmptyString => [EmptyString]
  | String c s' =>
      match split_comma s' with
      | [] => [String c EmptyString]
      | h :: t => if Ascii.eqb c "," then EmptyString :: h :: t else String c h :: t
      end
  end.

Definition digit_of (c : ascii) : option Z :=
  let n := nat_of_ascii c in
  if ((48 <=? n)%nat && (n <=? 57)%nat) then Some (Z.of_nat (n - 48)) else None.

(** Digits after the first one; a single underscore may separate two digits. *)
Fixpoint digits (acc : Z) (after_underscore : bool) (s : string) : option Z :=
  match s with
  | EmptyString => if after_underscore then None else Some acc
  | String c s' =>
      if Ascii.eqb c "_" then
        if after_underscore then None else digits acc true s'
      else
        match digit_of c with
        | Some d => digits (10 * acc + d) false s'
        | None => None
        end
  end.

(** [int(s)] in base ten; [None] stands for [ValueError]. *)
Definition py_int (s : string) : option Z :=
  let s := strip s in
  let '(sign, body) :=
    match s with
    | String "+" r => (1%Z, r)
    | String "-" r => ((-1)%Z, r)
    | _ => (1%Z, s)
    end in
  match body with
  | EmptyString => None
  | String c r =>
      match digit_of c with
      | Some d => option_map (Z.mul sign) (digits d false r)
      | None => None
      end
  end.

(** Truthiness of a Python string: [not s] holds exactly for the empty one. *)
Definition is_empty (s : string) : bool :=
  match s with EmptyString => true | _ => false end.

End Text.

(** ** The console and the collaborators

    [input()] takes the next line typed by the user.  A run that reaches a
    prompt with no line left is waiting at that prompt: the function has not
    returned, which is [None] below.  (On an input that is closed [input()]
    raises [EOFError] there; [Principale] below tells the two apart.) *)

Inductive Prompt : Type :=
| PIngredienti | PMinuti | PPreferenze | PScelta (n : nat) | PRete | PAlternativa.

Inductive Event : Type :=
| EInput (p : Prompt)                 (* one call of [input] *)
| EElenco (candidati : list string)   (* the numbered list of candidates is printed *)
| EUnico (ricetta : string)           (* single candidate, chosen without asking *)
| EParziali (ingredienti : list string)   (* [cerca_ricette_parziali] is called *)
| EDettagli (nome : string)           (* [trova_dettagli_ricetta_in_ontologia] is called *)
| EBayes (ricetta : string) (tempo : option string)
                                      (* [calcola_rischio_o_successo_ricetta] is called *)
| ETerminata.                         (* the closing banner *)

Record World : Type := mkWorld {
  inputs : list string;
  log : list Event
}.

Definition emit (e : Event) (w : World) : World :=
  mkWorld (inputs w) (log w ++ [e]).

Definition input (p : Prompt) (w : World) : option (string * World) :=
  match inputs w with
  | [] => None
  | l :: rest => Some (l, mkWorld rest (log w ++ [EInput p]))
  end.

(** What the ontology returns for a recipe name: the [dettagli] dictionary. *)
Record Dettagli : Type := mkDettagli {
  d_tempo : option Z;
  d_descrizione : option string;
  d_alternativa : option string
}.

(** Outcome of [rb.ottieni_risultato_query(rete.inferenza(evidenza))] followed by
    the read of the "Successo" column and its conversion to a float. *)
Inductive Esito : Type :=
| ErroreInferenza              (* any exception raised while inferring *)
| NodoMancante                 (* KeyError on "Successo" *)
| NonNumerico                  (* the conversion to float fails *)
| Stima (percentuale : string) (* the text of round(100 * p, 2) *).

(** The state of the network object when inference is asked of it.
    [impara_dataset] works on the object that [rb.BayesianaRicette()] built:
    it replaces [self.DAG] by the bare structure of the data set before it
    learns the parameters, so a learning that fails half way leaves an object
    that is neither the default network nor the learnt one. *)
Inductive Oggetto : Type :=
| Predefinita       (* [self.DAG] as [__init__] built it *)
| SenzaParametri    (* [self.DAG] is the structure of the data set, nothing learnt *)
| Appresa.          (* [self.DAG] carries the parameters learnt *)

(** How [pd.read_csv] followed by [impara_dataset] ends. *)
Inductive Apprendimento : Type :=
| DatasetNonLetto       (* [pd.read_csv] raises: the object is not touched *)
| DagNonCreato          (* [bnlearn.make_DAG] raises: [Bordi] is replaced, [DAG] is not *)
| ParametriNonAppresi   (* the conversion of the columns or [fit] raises *)
| Imparato.             (* [impara_dataset] returns *)

Record Collab : Type := mkCollab {
  rete_ok : bool;             (* [rb.BayesianaRicette()] returns *)
  impara : Apprendimento;
  inferenza : Oggetto -> option Z -> Esito;   (* the object, the evidence on Tempo *)
  ontologia : string -> option Dettagli
}.

(** ** interfacciaConUtente.py *)

Module Interfaccia.
Import Text.

Definition converti_tempo_in_categoria (minuti : Z) : string :=
  if (minuti <=? 20)%Z then "poco"
  else if (minuti <=? 60)%Z then "medio"
  else "molto".

Definition converti_tempo_in_indice (categoria_tempo : string) : Z :=
  if String.eqb categoria_tempo "poco" then 0%Z
  else if String.eqb categoria_tempo "medio" then 1%Z
  else if String.eqb categoria_tempo "molto" then 2%Z
  else 1%Z.

Definition chiedi_ingredienti_disponibili (w : World) : option (list string * World) :=
  match input PIngredienti w with
  | None => None
  | Some (line, w1) =>
      let risposta := strip line in
      if is_empty risposta then Some ([], w1)
      else Some (map (fun ing => lower (strip ing)) (split_comma risposta), w1)
  end.

(** The [while True] loop of [chiedi_tempo_disponibile], one iteration per line
    typed. *)
Fixpoint tempo_loop (ins : list string) (lg : list Event) : option (string * World) :=
  match ins with
  | [] => None
  | line :: rest =>
      let lg1 := lg ++ [EInput PMinuti] in
      match py_int (strip line) with
      | None => tempo_loop rest lg1
      | Some minuti =>
          if (minuti <=? 0)%Z then tempo_loop rest lg1
          else Some (converti_tempo_in_categoria minuti, mkWorld rest lg1)
      end
  end.

Definition chiedi_tempo_disponibile (w : World) : option (string * World) :=
  tempo_loop (inputs w) (log w).

Definition chiedi_preferenze_alimentari (w : World) : option (list string * World) :=
  match input PPreferenze w with
  | None => None
  | Some (line, w1) =>
      let risposta := lower (strip line) in
      if is_empty risposta || String.eqb risposta "nessuna" then Some ([], w1)
      else Some (map strip (split_comma risposta), w1)
  end.

(** The [while scelta_rete not in ["1", "2"]] loop. *)
Fixpoint rete_loop (ins : list string) (lg : list Event) : option (string * World) :=
  match ins with
  | [] => None
  | line :: rest =>
      let lg1 := lg ++ [EInput PRete] in
      let scelta_rete := strip line in
      if String.eqb scelta_rete "1" || String.eqb scelta_rete "2"
      then Some (scelta_rete, mkWorld rest lg1)
      else rete_loop rest lg1
  end.

Definition msg_non_disponibile : string := "Valutazione non disponibile.".
Definition msg_impossibile : string := "Impossibile calcolare la stima.".
Definition msg_stima (percentuale : string) : string :=
  ("Probabilità di successo stimata: " ++ percentuale ++ "%")%string.

(** The object in [rete_da_usare] after the [try] of choice 2: in each of its
    branches it is the object built at the start, as [impara_dataset] left
    it. *)
Definition dopo_apprendimento (a : Apprendimento) : Oggetto :=
  match a with
  | DatasetNonLetto => Predefinita
  | DagNonCreato => Predefinita
  | ParametriNonAppresi => SenzaParametri
  | Imparato => Appresa
  end.

Definition calcola_rischio_o_successo_ricetta
    (K : Collab) (nome_ricetta : string) (fatti_tempo : option string) (w : World)
  : option (string * World) :=
  if negb (rete_ok K) then Some (msg_non_disponibile, w)
  else
    let evidenza := option_map converti_tempo_in_indice fatti_tempo in
    match rete_loop (inputs w) (log w) with
    | None => None
    | Some (scelta_rete, w1) =>
        let rete_da_usare :=
          if String.eqb scelta_rete "2" then dopo_apprendimento (impara K)
          else Predefinita in
        match inferenza K rete_da_usare evidenza with
        | Stima p => Some (msg_stima p, w1)
        | NonNumerico => Some (msg_impossibile, w1)
        | NodoMancante => Some (msg_impossibile, w1)
        | ErroreInferenza => Some (msg_impossibile, w1)
        end
    end.

Definition trova_dettagli_ricetta_in_ontologia
    (K : Collab) (nome_ricetta : string) (w : World) : option Dettagli * World :=
  (ontologia K nome_ricetta, emit (EDettagli nome_ricetta) w).

Definition cerca_ricette_parziali (lista_ingredienti : list string) (w : World) : World :=
  emit (EParziali lista_ingredienti) w.

End Interfaccia.

(** ** Facts

    Every fact of the rule base is [Fact(name=value)] with one field and a
    string value. *)

Inductive Field : Type :=
| azione | ingrediente | tempo_disponibile | preferenza
| candidato | ricetta_suggerita | valutazione_ricetta.

Record Fact : Type := mkFact { field : Field; value : string }.

Definition Field_eq_dec (a b : Field) : {a = b} + {a <> b}.
Proof. decide equality. Defined.

(** Equality of contents, the field first. *)
Definition Fact_eq_dec (a b : Fact) : {a = b} + {a <> b} :=
  match a, b with
  | mkFact fa va, mkFact fb vb =>
      match Field_eq_dec fa fb with
      | left ef =>
          match string_dec va vb with
          | left ev => left (f_equal2 mkFact ef ev)
          | right n => right (fun h : mkFact fa va = mkFact fb vb => n (f_equal value h))
          end
      | right n => right (fun h : mkFact fa va = mkFact fb vb => n (f_equal field h))
      end
  end.

(** ** The engine

    The rule base subclasses [KnowledgeEngine] of the [experta] package, which
    the sources import and do not contain.  Its fact store, condition
    evaluator and agenda are written here after sections 3, 4.1, 4.2 and 4.3
    of the specification. *)

Module Engine.

(** A stored fact: its content, the index it got when inserted and the cycle
    in which it was asserted. *)
Record Entry : Type := mkEntry { eid : nat; born : nat; content : Fact }.

Record Store : Type := mkStore { entries : list Entry; next_id : nat }.

Definition empty_store : Store := mkStore [] 1.

Definition contents (s : Store) : list Fact := map content (entries s).

Definition present (f : Fact) (s : Store) : bool :=
  existsb (fun e => if Fact_eq_dec (content e) f then true else false) (entries s).

(** Modelled from the spec: [insert] of the Fact Store (the engine class is not
    in the sources); true if newly added, false and no change on a duplicate. *)
Definition insert (cyc : nat) (f : Fact) (s : Store) : Store * bool :=
  if present f s then (s, false)
  else (mkStore (entries s ++ [mkEntry (next_id s) cyc f]) (S (next_id s)), true).

(** Modelled from the spec: [retract] of the Fact Store (the engine class is
    not in the sources); true if removed, false if absent. *)
Definition retract (f : Fact) (s : Store) : Store * bool :=
  if present f s
  then (mkStore (filter (fun e => if Fact_eq_dec (content e) f then false else true)
                        (entries s)) (next_id s), true)
  else (s, false).

(** Conditions of section 3.  [Exists_ f (Some x)] is [Fact(f=MATCH.x)] and
    [Exists_ f None] is [Fact(f=W())], whose variable has no name. *)
Inductive Cond : Type :=
| FieldEquals (f : Field) (v : string)
| Exists_ (f : Field) (x : option string)
| Not_ (c : Cond)
| Or_ (cs : list Cond).

Definition Binding : Type := list (string * string).

Fixpoint lookup (x : string) (b : Binding) : option string :=
  match b with
  | [] => None
  | (y, v) :: r => if String.eqb x y then Some v else lookup x r
  end.

Definition pair_eq_dec (x y : string * string) : {x = y} + {x <> y} :=
  match x, y with
  | (x1, x2), (y1, y2) =>
      match string_dec x1 y1 with
      | left e1 =>
          match string_dec x2 y2 with
          | left e2 => left (f_equal2 pair e1 e2)
          | right n => right (fun h : (x1, x2) = (y1, y2) => n (f_equal snd h))
          end
      | right n => right (fun h : (x1, x2) = (y1, y2) => n (f_equal fst h))
      end
  end.

Definition same_binding (b c : Binding) : bool :=
  if list_eq_dec pair_eq_dec b c then true else false.

(** A partial match: the indices of the facts matched so far, in the order of
    the conditions, and the values of the variables. *)
Definition Partial : Type := (list nat * Binding)%type.

(** The name under which the value matched by [W()] is kept in the binding;
    no action asks for it. *)
Definition senza_nome : string := "".

(** Modelled from the spec: [Exists] of section 3 binds the value of the fact
    it matches to its variable (the engine class is not in the sources).  A
    variable met again must have the same value; the variable of [W()] is
    new each time. *)
Definition extend (p : Partial) (e : Entry) (x : option string) : list Partial :=
  match x with
  | None => [(fst p ++ [eid e], snd p ++ [(senza_nome, value (content e))])]
  | Some var =>
      match lookup var (snd p) with
      | None => [(fst p ++ [eid e], snd p ++ [(var, value (content e))])]
      | Some v => if String.eqb v (value (content e))
                  then [(fst p ++ [eid e], snd p)] else []
      end
  end.

(** Modelled from the spec: the union of binding sets that section 4.2 asks of
    [Or] (the engine class is not in the sources): of the partial matches that
    carry the same binding the first is kept. *)
Fixpoint unione (l : list Partial) : list Partial :=
  match l with
  | [] => []
  | p :: r => p :: filter (fun q => negb (same_binding (snd p) (snd q))) (unione r)
  end.

(** Modelled from the spec: the Condition Evaluator of section 4.2 (the engine
    class is not in the sources), one condition against one partial match. *)
Fixpoint eval_cond (wm : list Entry) (c : Cond) (p : Partial) : list Partial :=
  match c with
  | FieldEquals f v =>
      flat_map (fun e => if Fact_eq_dec (content e) (mkFact f v)
                         then [(fst p ++ [eid e], snd p)] else []) wm
  | Exists_ f x =>
      flat_map (fun e => if Field_eq_dec (field (content e)) f
                         then extend p e x else []) wm
  | Not_ c' =>
      match eval_cond wm c' p with
      | [] => [p]
      | _ :: _ => []
      end
  | Or_ cs =>
      unione
        ((fix branches (l : list Cond) : list Partial :=
            match l with
            | [] => []
            | c' :: r => eval_cond wm c' p ++ branches r
            end) cs)
  end.

(** Modelled from the spec: the left-to-right conjunction of section 4.2 (the
    engine class is not in the sources). *)
Fixpoint eval_conds (wm : list Entry) (cs : list Cond) (ps : list Partial)
  : list Partial :=
  match cs with
  | [] => ps
  | c :: r => eval_conds wm r (flat_map (eval_cond wm c) ps)
  end.

Definition start : list Partial := [([], [])].

(** An activation: the rule (its position in the table, which is the order of
    declaration) and the binding, which make its identity, and with them the
    facts that support the match, which steps 2 and 4 of section 4.3 read. *)
Record Activation : Type := mkAct {
  a_rule : nat;
  a_support : list nat;
  a_binding : Binding
}.

(** Modelled from the spec: equality of activations, section 3 (the engine
    class is not in the sources): the same rule and the same binding. *)
Definition same_activation (a b : Activation) : bool :=
  Nat.eqb (a_rule a) (a_rule b) && same_binding (a_binding a) (a_binding b).

Inductive Effect : Type :=
| DeclareFact (f : Fact)
| Retract (f : Fact)
| Halt.

(** An action reads the binding and the facts, talks to the console and the
    collaborators, and returns its effects in program order; [None] when it is
    waiting at a prompt. *)
Definition Action : Type :=
  Binding -> list Fact -> World -> option (list Effect * World).

Record Rule : Type := mkRule {
  r_name : string;
  r_conds : list Cond;
  r_salience : Q;
  r_action : Action
}.

Record State : Type := mkState {
  store : Store;
  cycle : nat;
  fired : list Activation
}.

Definition wm (st : State) : list Fact := contents (store st).

Section WithRules.

Variable rules : list Rule.

Fixpoint matches_from (i : nat) (rs : list Rule) (es : list Entry) : list Activation :=
  match rs with
  | [] => []
  | r :: rest =>
      map (fun p => mkAct i (fst p) (snd p)) (eval_conds es (r_conds r) start)
      ++ matches_from (S i) rest es
  end.

(** Modelled from the spec: activation discovery, step 1 of section 4.3 (the
    engine class is not in the sources). *)
Definition matches (es : list Entry) : list Activation := matches_from 0 rules es.

(** Modelled from the spec: membership in the refraction set, steps 1 and 3 of
    section 4.3 (the engine class is not in the sources): an activation with
    the rule and the binding of [a] has fired and is still supported. *)
Definition refracted (st : State) (a : Activation) : bool :=
  existsb (same_activation a) (fired st).

Definition agenda (st : State) : list Activation :=
  filter (fun a => negb (refracted st a)) (matches (entries (store st))).

Definition salience_of (a : Activation) : Q :=
  match nth_error rules (a_rule a) with
  | Some r => r_salience r
  | None => 0%Q
  end.

Definition born_of (es : list Entry) (i : nat) : nat :=
  match find (fun e => Nat.eqb (eid e) i) es with
  | Some e => born e
  | None => 0
  end.

(** The cycle in which the last supporting fact was asserted. *)
Definition enabled_at (es : list Entry) (a : Activation) : nat :=
  fold_right (fun i m => Nat.max (born_of es i) m) 0 (a_support a).

(** Modelled from the spec: conflict resolution, step 2 of section 4.3 (the
    engine class is not in the sources): higher salience, then later enabling
    cycle, then earlier declaration. *)
Definition before (es : list Entry) (a b : Activation) : bool :=
  match (salience_of a ?= salience_of b)%Q with
  | Gt => true
  | Lt => false
  | Eq =>
      if (enabled_at es b <? enabled_at es a)%nat then true
      else if (enabled_at es a <? enabled_at es b)%nat then false
      else (a_rule a <? a_rule b)%nat
  end.

(** The first activation, in discovery order, that no other one precedes. *)
Fixpoint top (es : list Entry) (l : list Activation) : option Activation :=
  match l with
  | [] => None
  | a :: r =>
      match top es r with
      | None => Some a
      | Some b => if before es b a then Some b else Some a
      end
  end.

Definition apply_effect (cyc : nat) (s : Store) (e : Effect) : Store :=
  match e with
  | DeclareFact f => fst (insert cyc f s)
  | Retract f => fst (retract f s)
  | Halt => s
  end.

Definition halts (effs : list Effect) : bool :=
  existsb (fun e => match e with Halt => true | _ => false end) effs.

Definition supported (s : Store) (a : Activation) : bool :=
  forallb (fun i => existsb (fun e => Nat.eqb (eid e) i) (entries s)) (a_support a).

Inductive Outcome : Type :=
| Quiescent
| Waiting (a : Activation)
| Fired (a : Activation) (halt : bool) (st : State) (w : World).

(** Modelled from the spec: one cycle of the agenda, steps 1 to 4 of section
    4.3 (the engine class is not in the sources). *)
Definition step (st : State) (w : World) : Outcome :=
  match top (entries (store st)) (agenda st) with
  | None => Quiescent
  | Some a =>
      match nth_error rules (a_rule a) with
      | None => Quiescent
      | Some r =>
          match r_action r (a_binding a) (wm st) w with
          | None => Waiting a
          | Some (effs, w') =>
              let cyc := S (cycle st) in
              let s' := fold_left (apply_effect cyc) effs (store st) in
              Fired a (halts effs)
                    (mkState s' cyc (filter (supported s') (a :: fired st))) w'
          end
      end
  end.

Inductive Status : Type := Done | Halted | Blocked | OutOfFuel.

Record Run : Type := mkRun {
  status : Status;
  trace : list Activation;
  final : State;
  world : World
}.

(** Modelled from the spec: the loop to quiescence, step 5 of section 4.3 (the
    engine class is not in the sources). *)
Fixpoint run (fuel : nat) (st : State) (w : World) : Run :=
  match fuel with
  | O => mkRun OutOfFuel [] st w
  | S n =>
      match step st w with
      | Quiescent => mkRun Done [] st w
      | Waiting _ => mkRun Blocked [] st w
      | Fired a true st' w' => mkRun Halted [a] st' w'
      | Fired a false st' w' =>
          let r := run n st' w' in
          mkRun (status r) (a :: trace r) (final r) (world r)
      end
  end.

Definition name_of (a : Activation) : string :=
  match nth_error rules (a_rule a) with
  | Some r => r_name r
  | None => ""
  end.

(** The firings of a run, each with the state it found and the state it left. *)
Fixpoint firings (fuel : nat) (st : State) (w : World)
  : list (State * Activation * State) :=
  match fuel with
  | O => []
  | S n =>
      match step st w with
      | Fired a true st' w' => [(st, a, st')]
      | Fired a false st' w' => (st, a, st') :: firings n st' w'
      | _ => []
      end
  end.

End WithRules.

(** [reset]: a fresh store holding the initial facts. *)
Definition reset (deffacts : list Fact) : State :=
  mkState (fold_left (fun s f => fst (insert 0 f s)) deffacts empty_store) 0 [].

End Engine.

(** ** consulenteRicette.py: the rule base *)

Module Consulente.
Import Text Interfaccia Engine.

(** The values of the facts that carry field [f], in the order of
    [self.facts.values()]. *)
Definition values_of (f : Field) (facts : list Fact) : list string :=
  map value (filter (fun x => if Field_eq_dec (field x) f then true else false) facts).

(** [list(set(...))]: each value once.  Python leaves the order of a set
    unspecified; the order of first occurrence is taken here. *)
Fixpoint distinct (l : list string) : list string :=
  match l with
  | [] => []
  | x :: r => x :: filter (fun y => negb (String.eqb x y)) (distinct r)
  end.

Definition declare_all (f : Field) (vs : list string) : list Effect :=
  map (fun v => DeclareFact (mkFact f v)) vs.

Definition chiedi_ingredienti : Action := fun _ _ w =>
  match chiedi_ingredienti_disponibili w with
  | None => None
  | Some (ingredienti_utente, w1) =>
      match ingredienti_utente with
      | [] => Some ([DeclareFact (mkFact azione "termina")], w1)
      | _ :: _ =>
          Some (declare_all ingrediente (map (fun i => lower (strip i)) ingredienti_utente)
                ++ [DeclareFact (mkFact azione "chiediTempo")], w1)
      end
  end.

Definition chiedi_tempo : Action := fun _ _ w =>
  match chiedi_tempo_disponibile w with
  | None => None
  | Some (tempo, w1) =>
      Some ([DeclareFact (mkFact tempo_disponibile tempo);
             DeclareFact (mkFact azione "chiediPreferenze")], w1)
  end.

Definition chiedi_preferenze : Action := fun _ _ w =>
  match chiedi_preferenze_alimentari w with
  | None => None
  | Some (prefs, w1) =>
      Some (declare_all preferenza (map (fun p => lower (strip p)) prefs)
            ++ [DeclareFact (mkFact azione "trovaRicetta")], w1)
  end.

Definition suggerisci (nome : string) : Action := fun _ _ w =>
  Some ([DeclareFact (mkFact candidato nome)], w).

(** The [while scelta < 1 or scelta > len(candidati_lista)] loop: a line that
    is not a number leaves [scelta] out of range and the prompt is repeated. *)
Fixpoint scelta_loop (n : nat) (ins : list string) (lg : list Event)
  : option (Z * World) :=
  match ins with
  | [] => None
  | line :: rest =>
      let lg1 := lg ++ [EInput (PScelta n)] in
      match py_int (strip line) with
      | None => scelta_loop n rest lg1
      | Some scelta =>
          if ((scelta <? 1) || (Z.of_nat n <? scelta))%Z
          then scelta_loop n rest lg1
          else Some (scelta, mkWorld rest lg1)
      end
  end.

Definition scegli_candidati : Action := fun _ facts w =>
  let candidati_lista := distinct (values_of candidato facts) in
  let scelta :=
    match candidati_lista with
    | [ricetta_scelta] => Some (ricetta_scelta, emit (EUnico ricetta_scelta) w)
    | _ =>
        let w1 := emit (EElenco candidati_lista) w in
        match scelta_loop (List.length candidati_lista) (inputs w1) (log w1) with
        | None => None
        | Some (scelta, w2) =>
            Some (nth (Z.to_nat (scelta - 1)) candidati_lista "", w2)
        end
    end in
  match scelta with
  | None => None
  | Some (ricetta_scelta, w') =>
      Some ([DeclareFact (mkFact ricetta_suggerita ricetta_scelta);
             DeclareFact (mkFact azione "valutaRicetta")], w')
  end.

Definition nessuna_ricetta_trovata : Action := fun _ facts w =>
  let ingredienti_utente := values_of ingrediente facts in
  let w1 :=
    match ingredienti_utente with
    | [] => w
    | _ :: _ => cerca_ricette_parziali ingredienti_utente w
    end in
  Some ([DeclareFact (mkFact azione "termina")], w1).

(** [fatti_per_bayes['tempo']] after the loop over the facts: the value of the
    last [tempo_disponibile] fact, if any. *)
Definition fatti_tempo (facts : list Fact) : option string :=
  match rev (values_of tempo_disponibile facts) with
  | [] => None
  | t :: _ => Some t
  end.

Definition valuta_ricetta_con_bayes (K : Collab) : Action := fun b facts w =>
  match lookup "ricetta" b with
  | None => None
  | Some ricetta =>
      let fatti := fatti_tempo facts in
      match calcola_rischio_o_successo_ricetta K ricetta fatti
              (emit (EBayes ricetta fatti) w) with
      | None => None
      | Some (rischio_o_successo, w1) =>
          Some ([DeclareFact (mkFact valutazione_ricetta rischio_o_successo);
                 DeclareFact (mkFact azione "stampaRisultato")], w1)
      end
  end.

Definition _stampa_dettagli_ricetta (K : Collab) (nome_ricetta : string) (w : World)
  : option string * World :=
  let '(dettagli_ontologia, w1) := trova_dettagli_ricetta_in_ontologia K nome_ricetta w in
  (match dettagli_ontologia with
   | Some d => d_alternativa d
   | None => None
   end, w1).

(** The [while risposta not in ['s', 'n']] loop. *)
Fixpoint alternativa_loop (ins : list string) (lg : list Event)
  : option (string * World) :=
  match ins with
  | [] => None
  | line :: rest =>
      let lg1 := lg ++ [EInput PAlternativa] in
      let risposta := lower (strip line) in
      if String.eqb risposta "s" || String.eqb risposta "n"
      then Some (risposta, mkWorld rest lg1)
      else alternativa_loop rest lg1
  end.

Definition stampare_risultato_finale (K : Collab) : Action := fun b _ w =>
  match lookup "ricetta" b, lookup "valutazione" b with
  | Some ricetta, Some _ =>
      let '(nome_alternativa, w1) := _stampa_dettagli_ricetta K ricetta w in
      let fine :=
        match nome_alternativa with
        | None => Some w1
        | Some alt =>
            if is_empty alt then Some w1
            else
              match alternativa_loop (inputs w1) (log w1) with
              | None => None
              | Some (risposta, w2) =>
                  if String.eqb risposta "s"
                  then Some (snd (_stampa_dettagli_ricetta K alt w2))
                  else Some w2
              end
        end in
      match fine with
      | None => None
      | Some w' => Some ([DeclareFact (mkFact azione "termina")], w')
      end
  | _, _ => None
  end.

Definition terminare_esecuzione : Action := fun _ _ w =>
  Some ([], emit ETerminata w).

(** The rules in the order of their declaration in the class. *)
Definition rules (K : Collab) : list Rule :=
  [ mkRule "chiedi_ingredienti"
      [FieldEquals azione "chiediIngredienti"] 10 chiedi_ingredienti;
    mkRule "chiedi_tempo"
      [FieldEquals azione "chiediTempo"] 9 chiedi_tempo;
    mkRule "chiedi_preferenze"
      [FieldEquals azione "chiediPreferenze"] 8 chiedi_preferenze;
    mkRule "suggerisci_pasta_pomodoro"
      [FieldEquals azione "trovaRicetta";
       FieldEquals ingrediente "pasta";
       FieldEquals ingrediente "pomodoro";
       Or_ [FieldEquals tempo_disponibile "medio"; FieldEquals tempo_disponibile "molto"]]
      1 (suggerisci "Pasta al Pomodoro");
    mkRule "suggerisci_uova_strapazzate"
      [FieldEquals azione "trovaRicetta";
       FieldEquals ingrediente "uova";
       FieldEquals tempo_disponibile "poco"]
      1 (suggerisci "Uova Strapazzate");
    mkRule "suggerisci_insalata"
      [FieldEquals azione "trovaRicetta";
       FieldEquals ingrediente "lattuga";
       FieldEquals ingrediente "pomodoro";
       FieldEquals tempo_disponibile "poco"]
      1 (suggerisci "Insalata Mista");
    mkRule "scegli_candidati"
      [FieldEquals azione "trovaRicetta"; Exists_ candidato None]
      (1 # 2) scegli_candidati;
    mkRule "nessuna_ricetta_trovata"
      [FieldEquals azione "trovaRicetta"; Not_ (Exists_ candidato None)]
      0 nessuna_ricetta_trovata;
    mkRule "valuta_ricetta_con_bayes"
      [FieldEquals azione "valutaRicetta"; Exists_ ricetta_suggerita (Some "ricetta")]
      (- (1 # 2)) (valuta_ricetta_con_bayes K);
    mkRule "stampare_risultato_finale"
      [FieldEquals azione "stampaRisultato";
       Exists_ ricetta_suggerita (Some "ricetta");
       Exists_ valutazione_ricetta (Some "valutazione")]
      (- 1) (stampare_risultato_finale K);
    mkRule "terminare_esecuzione"
      [FieldEquals azione "termina"] (- 10) terminare_esecuzione ]%Q.

(** [_initial_action] *)
Definition deffacts : list Fact := [mkFact azione "chiediIngredienti"].

(** [avvia_consulente_ricette]: [reset] then [run]. *)
Definition avvia_consulente_ricette (K : Collab) (fuel : nat) (lines : list string) : Run :=
  run (rules K) fuel (reset deffacts) (mkWorld lines []).

Definition names (K : Collab) (r : Run) : list string :=
  map (name_of (rules K)) (trace r).

End Consulente.

(** ** Notions used in the statements *)

Module Notions.
Import Text Interfaccia Engine Consulente.

(** A line that [chiedi_tempo_disponibile] accepts: a positive integer. *)
Definition minuti_validi (line : string) : bool :=
  match py_int (strip line) with
  | Some m => (0 <? m)%Z
  | None => false
  end.

(** A line that the selection prompt accepts: an integer in [1, n]. *)
Definition scelta_valida (n : nat) (line : string) : bool :=
  match py_int (strip line) with
  | Some z => ((1 <=? z) && (z <=? Z.of_nat n))%Z
  | None => false
  end.

Definition categoria (t : string) : Prop :=
  t = "poco" \/ t = "medio" \/ t = "molto".

(** A store obtained from the empty one by any sequence of assertions and
    retractions, each stamped with the cycle in which it happens. *)
Definition build (ops : list (nat * Effect)) : Store :=
  fold_left (fun s o => apply_effect (fst o) s (snd o)) ops empty_store.

Definition ids (s : Store) : list nat := map eid (entries s).

(** Indices are distinct and below the next one, contents are distinct. *)
Definition wf_store (s : Store) : Prop :=
  NoDup (ids s) /\ NoDup (contents s) /\ Forall (fun e => eid e < next_id s) (entries s).

(** The stored fact with index [k], if any. *)
Definition entry_of (s : Store) (k : nat) : option Entry :=
  find (fun e => Nat.eqb (eid e) k) (entries s).

(** A well-formed engine state: a well-formed store, and a refraction set
    whose activations are all supported by stored facts. *)
Definition wf_state (st : State) : Prop :=
  wf_store (store st) /\ Forall (fun a => supported (store st) a = true) (fired st).

(** An activation that cannot be on the agenda: it is in the refraction set,
    or one of its supporting facts has been retracted. *)
Definition spent (st : State) (a : Activation) : Prop :=
  In a (fired st) \/
  exists k, In k (a_support a) /\ k < next_id (store st) /\ ~ In k (ids (store st)).

(** A one-rule table whose action retracts its own trigger and asserts it
    again. *)
Definition rimetti : list Rule :=
  [ mkRule "rimetti" [FieldEquals azione "ping"] 0%Q
      (fun _ _ w => Some ([Retract (mkFact azione "ping");
                           DeclareFact (mkFact azione "ping")], w)) ].

(** A one-rule table whose rule is satisfied by either of two facts and
    whose action replaces the first by the second. *)
Definition alterna : list Rule :=
  [ mkRule "alterna" [Or_ [FieldEquals azione "a"; FieldEquals azione "b"]] 0%Q
      (fun _ _ w => Some ([Retract (mkFact azione "a");
                           DeclareFact (mkFact azione "b")], w)) ].

(** The condition is not a disjunction. *)
Definition senza_or (c : Cond) : bool :=
  match c with Or_ _ => false | _ => true end.

(** The contents of the facts with the indices [l]. *)
Definition fatti_di (s : Store) (l : list nat) : list (option Fact) :=
  map (fun k => option_map content (entry_of s k)) l.

(** The reading of C6 as it is worded: when a rule fires again with the
    binding of an earlier firing, one of the facts that supported the earlier
    firing has been retracted and asserted again. *)
Definition refraction_as_claimed : Prop :=
  forall (rules : list Rule) (deffacts : list Fact) (w : World) (n i j : nat)
         (bi si bj sj : State) (ai aj : Activation),
    nth_error (firings rules n (reset deffacts) w) i = Some (bi, ai, si) ->
    nth_error (firings rules n (reset deffacts) w) j = Some (bj, aj, sj) ->
    i < j -> a_rule aj = a_rule ai -> a_binding aj = a_binding ai ->
    exists k e,
      In k (a_support ai) /\ entry_of (store bi) k = Some e /\
      ~ In k (ids (store bj)) /\ In (content e) (contents (store bj)).

(** The facts that stage the consultation. *)
Definition termina : Fact := mkFact azione "termina".
Definition trovaRicetta : Fact := mkFact azione "trovaRicetta".

(** A firing asserts [f]: the fact is absent before it and stored after it. *)
Definition asserts (f : Fact) (x : State * Activation * State) : Prop :=
  present f (store (fst (fst x))) = false /\ present f (store (snd x)) = true.

(** The reading of C2 as it is worded: in every consultation nothing fires
    after a firing that asserts [azione="termina"]. *)
Definition halts_on_termina : Prop :=
  forall (K : Collab) (fuel : nat) (lines : list string) pre x post,
    firings (rules K) fuel (reset deffacts) (mkWorld lines []) = pre ++ x :: post ->
    asserts termina x -> post = [].

(** Collaborators that work: an estimate of 85 per cent, no entry in the
    ontology. *)
Definition collab_base : Collab :=
  mkCollab true Imparato (fun _ _ => Stima "85.0") (fun _ => None).

(** The states of the consultation in which no ingredient is typed: after
    [chiedi_ingredienti] has fired, and after [terminare_esecuzione] has. *)
Definition dopo_ingredienti_vuoti : State :=
  mkState (mkStore [mkEntry 1 0 (mkFact azione "chiediIngredienti");
                    mkEntry 2 1 termina] 3)
          1 [mkAct 0 [1] []].

Definition dopo_terminare : State :=
  mkState (mkStore [mkEntry 1 0 (mkFact azione "chiediIngredienti");
                    mkEntry 2 1 termina] 3)
          2 [mkAct 10 [2] []; mkAct 0 [1] []].

(** The working memory of the first scenario, and the state that the firing
    of [suggerisci_pasta_pomodoro] leaves. *)
Definition seme_pasta : State :=
  reset [mkFact ingrediente "pasta"; mkFact ingrediente "pomodoro";
         mkFact tempo_disponibile "medio"; trovaRicetta].

Definition dopo_pasta : State :=
  mkState (mkStore [mkEntry 1 0 (mkFact ingrediente "pasta");
                    mkEntry 2 0 (mkFact ingrediente "pomodoro");
                    mkEntry 3 0 (mkFact tempo_disponibile "medio");
                    mkEntry 4 0 trovaRicetta;
                    mkEntry 5 1 (mkFact candidato "Pasta al Pomodoro")] 6)
          1 [mkAct 3 [4; 1; 2; 3] []].

(** [f] is one of the facts. *)
Definition holds (f : Fact) (facts : list Fact) : bool :=
  existsb (fun g => if Fact_eq_dec g f then true else false) facts.

(** The conditions of the three candidate rules, [azione="trovaRicetta"]
    apart, read on the working memory. *)
Definition candidato_possibile (facts : list Fact) : bool :=
  (holds (mkFact ingrediente "pasta") facts
   && holds (mkFact ingrediente "pomodoro") facts
   && (holds (mkFact tempo_disponibile "medio") facts
       || holds (mkFact tempo_disponibile "molto") facts))
  || (holds (mkFact ingrediente "uova") facts
      && holds (mkFact tempo_disponibile "poco") facts)
  || (holds (mkFact ingrediente "lattuga") facts
      && holds (mkFact ingrediente "pomodoro") facts
      && holds (mkFact tempo_disponibile "poco") facts).

(** Counting the events of a log. *)
Definition conta (p : Event -> bool) (lg : list Event) : nat :=
  List.length (filter p lg).

Definition is_elenco (e : Event) : bool :=
  match e with EElenco _ => true | _ => false end.

Definition is_scelta (e : Event) : bool :=
  match e with EInput (PScelta _) => true | _ => false end.

Definition is_bayes (e : Event) : bool :=
  match e with EBayes _ _ => true | _ => false end.

(** A line that the prompt of [calcola_rischio_o_successo_ricetta] accepts. *)
Definition rete_valida (line : string) : bool :=
  String.eqb (strip line) "1" || String.eqb (strip line) "2".

(** The object that inference is asked of once the user has typed
    [scelta]. *)
Definition rete_usata (K : Collab) (scelta : string) : Oggetto :=
  if String.eqb scelta "2" then dopo_apprendimento (impara K) else Predefinita.

(** The evaluation asked with the choice [scelta] and the evidence
    [evidenza] fails: the network cannot be built, or inference on the
    object the choice leads to gives no estimate (it raises, the node
    "Successo" is missing, or its value is not a number). *)
Definition stima_fallita (K : Collab) (scelta : string) (evidenza : option Z) : Prop :=
  rete_ok K = false \/
  match inferenza K (rete_usata K scelta) evidenza with
  | Stima _ => False
  | _ => True
  end.

Definition ricaduta (m : string) : Prop :=
  m = msg_non_disponibile \/ m = msg_impossibile.

(** The states of the first scenario after [scegli_candidati], after
    [valuta_ricetta_con_bayes] has asserted the valuation [v], after
    [stampare_risultato_finale] and after [terminare_esecuzione]. *)
Definition pasta_facts : list Entry :=
  [mkEntry 1 0 (mkFact ingrediente "pasta");
   mkEntry 2 0 (mkFact ingrediente "pomodoro");
   mkEntry 3 0 (mkFact tempo_disponibile "medio");
   mkEntry 4 0 trovaRicetta;
   mkEntry 5 1 (mkFact candidato "Pasta al Pomodoro");
   mkEntry 6 2 (mkFact ricetta_suggerita "Pasta al Pomodoro");
   mkEntry 7 2 (mkFact azione "valutaRicetta")].

Definition valutata (v : string) : list Entry :=
  [mkEntry 8 3 (mkFact valutazione_ricetta v);
   mkEntry 9 3 (mkFact azione "stampaRisultato")].

Definition att_pasta : Activation := mkAct 3 [4; 1; 2; 3] [].
Definition att_scelta : Activation :=
  mkAct 6 [4; 5] [(senza_nome, "Pasta al Pomodoro")].
Definition att_valuta : Activation :=
  mkAct 8 [7; 6] [("ricetta", "Pasta al Pomodoro")].
Definition att_stampa (v : string) : Activation :=
  mkAct 9 [9; 6; 8] [("ricetta", "Pasta al Pomodoro"); ("valutazione", v)].
Definition att_termina : Activation := mkAct 10 [10] [].

Definition dopo_scelta : State :=
  mkState (mkStore pasta_facts 8) 2 [att_scelta; att_pasta].

Definition dopo_valuta (v : string) : State :=
  mkState (mkStore (pasta_facts ++ valutata v) 10) 3
          [att_valuta; att_scelta; att_pasta].

Definition dopo_stampa (v : string) : State :=
  mkState (mkStore (pasta_facts ++ valutata v ++ [mkEntry 10 4 termina]) 11) 4
          [att_stampa v; att_valuta; att_scelta; att_pasta].

Definition dopo_fine (v : string) : State :=
  mkState (mkStore (pasta_facts ++ valutata v ++ [mkEntry 10 4 termina]) 11) 5
          [att_termina; att_stampa v; att_valuta; att_scelta; att_pasta].

(** Collaborators whose learning stops after the structure of the data set has
    replaced the default network: inference works on the default network
    and raises on the object that the failed learning leaves. *)
Definition collab_parziale : Collab :=
  mkCollab true ParametriNonAppresi
    (fun rete _ => match rete with
                   | Predefinita => Stima "85.0"
                   | _ => ErroreInferenza
                   end)
    (fun _ => None).

(** Every index of a partial match is the index of a stored fact. *)
Definition grounded (es : list Entry) (p : Partial) : Prop :=
  Forall (fun i => In i (map eid es)) (fst p).

(** Case analysis on the rule an index denotes. *)
Ltac each_rule H :=
  unfold rules in H;
  repeat match type of H with
         | nth_error (_ :: _) ?i = Some _ =>
             destruct i; cbn [nth_error] in H; [injection H as <- | ]
         end;
  try (exfalso;
       match type of H with
       | nth_error [] ?i = Some _ => destruct i; discriminate H
       end).

(** The facts that lead the consultation through its questions, in order. *)
Definition stage_names : list string :=
  ["chiediIngredienti"; "chiediTempo"; "chiediPreferenze"; "trovaRicetta"].

Definition stage_fact (i : nat) : Fact := mkFact azione (nth i stage_names "").

(** The fields of the facts that carry what the user typed. *)
Definition user_field (f : Field) : Prop :=
  f = ingrediente \/ f = tempo_disponibile \/ f = preferenza.

(** The consultation has reached question [i] (3: the search for a recipe):
    the fact of that stage is stored, no later stage fact is, the earlier
    asking rules have fired and nothing else has, and working memory holds
    only stage facts and facts typed by the user. *)
Definition stage (K : Collab) (i : nat) (st : State) : Prop :=
  wf_state st /\
  In (stage_fact i) (wm st) /\
  (forall f, In f (wm st) ->
             field f = azione /\ In (value f) (firstn (S i) stage_names)
             \/ user_field (field f)) /\
  (forall b, In b (matches (rules K) (entries (store st))) -> a_rule b < i ->
             In b (fired st)) /\
  (forall b, In b (fired st) -> a_rule b < i).

(** What the two asking rules make of an item typed by the user. *)
Definition norm (x : string) : string := lower (strip x).

(** The facts asserted from the ingredients and the time typed. *)
Definition dati (ingredienti : list string) (tempo : string) : list Fact :=
  map (mkFact ingrediente) (map norm ingredienti) ++ [mkFact tempo_disponibile tempo].

(** Some activation of rule [k] is in the refraction set. *)
Definition rule_fired (st : State) (k : nat) : Prop :=
  exists b, In b (fired st) /\ a_rule b = k.

Definition has_field (f : Field) (st : State) : Prop :=
  exists x, In x (wm st) /\ field x = f.

(** What has fired has left its facts: the invariant of a consultation. *)
Definition progresso (K : Collab) (st : State) : Prop :=
  wf_state st /\
  In (stage_fact 0) (wm st) /\
  (rule_fired st 0 -> In (stage_fact 1) (wm st) \/ In termina (wm st)) /\
  (rule_fired st 1 -> In (stage_fact 2) (wm st)) /\
  (rule_fired st 2 -> In trovaRicetta (wm st)) /\
  (rule_fired st 6 ->
   has_field ricetta_suggerita st /\ In (mkFact azione "valutaRicetta") (wm st)) /\
  (rule_fired st 7 -> In termina (wm st)) /\
  (rule_fired st 8 ->
   has_field valutazione_ricetta st /\ In (mkFact azione "stampaRisultato") (wm st)) /\
  (rule_fired st 9 -> In termina (wm st)) /\
  (forall v, In (mkFact valutazione_ricetta v) (wm st) ->
             exists ricetta fatti w0 w1,
               calcola_rischio_o_successo_ricetta K ricetta fatti w0 = Some (v, w1)).

End Notions.

(** ** Notions used in the statements about what the user types *)

Module Risposta.
Import Text Interfaccia Engine Consulente Notions.



(** An item as the rule base stores it: [x.strip().lower()] leaves it alone. *)
Definition normale (x : string) : Prop := lower (strip x) = x.

End Risposta.

(** ** Notions used in the statements about the final advice *)

Module Consiglio.
Import Text Interfaccia Engine Consulente Notions.

(** A line that a yes/no prompt accepts: "s" or "n", in any case and with any
    white space around it. *)
Definition si_no (line : string) : bool :=
  String.eqb (lower (strip line)) "s" || String.eqb (lower (strip line)) "n".

(** The alternative that [stampare_risultato_finale] offers for a recipe:
    the one of the ontology, unless it is missing or empty. *)
Definition alternativa_di (K : Collab) (ricetta : string) : option string :=
  match ontologia K ricetta with
  | Some d =>
      match d_alternativa d with
      | Some alt => if is_empty alt then None else Some alt
      | None => None
      end
  | None => None
  end.

Definition is_dettagli (e : Event) : bool :=
  match e with EDettagli _ => true | _ => false end.

End Consiglio.

(** ** interfacciaConUtente.py: what is read from the ontology

    The ontology file and the [owlready2] package are outside the sources:
    the individual that [search_one] finds, the instances of its class and
    the recipes that [search] returns for an ingredient are given. *)

Module Ontologia.

(** [s.replace(old, new)] for one-character [old] and [new]. *)
Fixpoint replace (old new : ascii) (s : string) : string :=
  match s with
  | EmptyString => EmptyString
  | String c s' => String (if Ascii.eqb c old then new else c) (replace old new s')
  end.

(** [nome_ricetta.replace(" ", "_")]: the name searched for. *)
Definition nome_individuo (nome_ricetta : string) : string := replace " " "_" nome_ricetta.

(** [name.replace("_", " ")]: the name shown. *)
Definition nome_mostrato (name : string) : string := replace "_" " " name.

(** An individual: its name, the values of its two data properties and the
    names of [is_a[0].instances()], [None] when that raises. *)
Record Individuo : Type := mkIndividuo {
  name : string;
  haTempoPreparazioneMinuti : list Z;
  haDescrizionePassaggi : list string;
  instances : option (list string)
}.

(** [altre_ricette]: the other instances of the class, in order. *)
Definition altre_ricette (individuo : Individuo) : list string :=
  match instances individuo with
  | Some l => filter (fun alt => negb (String.eqb alt (name individuo))) l
  | None => []
  end.

(** The dictionary [dettagli] filled for an individual that was found. *)
Definition dettagli (individuo : Individuo) : Dettagli :=
  mkDettagli (hd_error (haTempoPreparazioneMinuti individuo))
             (hd_error (haDescrizionePassaggi individuo))
             (option_map nome_mostrato (hd_error (altre_ricette individuo))).

(** [ricette_trovate.setdefault(k, []).append(v)] on a dictionary kept in
    insertion order. *)
Fixpoint setdefault_append (k v : string) (d : list (string * list string))
  : list (string * list string) :=
  match d with
  | [] => [(k, [v])]
  | (k', vs) :: r =>
      if String.eqb k' k then (k', vs ++ [v]) :: r
      else (k', vs) :: setdefault_append k v r
  end.

(** The dictionary [ricette_trovate] of [cerca_ricette_parziali]:
    [search ingrediente] is the list of the names found for an ingredient,
    [None] when the search raises. *)
Definition ricette_trovate (search : string -> option (list string))
           (lista_ingredienti : list string) : list (string * list string) :=
  fold_left
    (fun d ingrediente =>
       match search ingrediente with
       | None => d
       | Some risultati =>
           fold_left (fun d ricetta =>
                        setdefault_append (nome_mostrato ricetta) ingrediente d)
                     risultati d
       end)
    lista_ingredienti [].

(** [d.get(k, [])]. *)
Fixpoint get (k : string) (d : list (string * list string)) : list string :=
  match d with
  | [] => []
  | (k', vs) :: r => if String.eqb k' k then vs else get k r
  end.

Definition keys (d : list (string * list string)) : list string := map fst d.

(** How many of the recipes found for an ingredient are shown as [nome]. *)
Definition volte (search : string -> option (list string)) (nome ingrediente : string)
  : nat :=
  match search ingrediente with
  | None => 0
  | Some risultati =>
      List.length (filter (fun r => String.eqb (nome_mostrato r) nome) risultati)
  end.

(** The ingredients of the list that lead to [nome], in the order of the
    list. *)
Definition usati (search : string -> option (list string)) (nome : string)
           (lista_ingredienti : list string) : list string :=
  flat_map (fun ing => repeat ing (volte search nome ing)) lista_ingredienti.

(** The dictionary is well formed: its keys are distinct and are the names
    with a non-empty list. *)
Definition ben_formato (d : list (string * list string)) : Prop :=
  NoDup (keys d) /\ forall n, In n (keys d) <-> get n d <> [].

Fixpoint senza (c : ascii) (s : string) : bool :=
  match s with
  | EmptyString => true
  | String a s' => negb (Ascii.eqb a c) && senza c s'
  end.

End Ontologia.

(** ** retiBayesiane.py

    The [bnlearn], [pgmpy] and [pandas] packages are outside the sources:
    which of their calls return and which raise is given. *)

Module Rete.
Import Floats.

Definition Bordo : Type := (string * string)%type.

(** What [bnlearn] was last asked to build for [self.DAG]. *)
Inductive Grafo : Type :=
| ConCPD (bordi : list Bordo)     (* [make_DAG(bordi, CPD=[...])], the default tables *)
| SenzaCPD (bordi : list Bordo)   (* [make_DAG(bordi)], no table *)
| Appreso (bordi : list Bordo).   (* [parameter_learning.fit] on [make_DAG(bordi)] *)

Record BayesianaRicette : Type := mkRete {
  Bordi : list Bordo;
  DAG : Grafo
}.

(** The calls that return; the others raise. *)
Record Bnlearn : Type := mkBnlearn {
  make_DAG_CPD : list Bordo -> bool;
  make_DAG : list Bordo -> bool;
  fit : list Bordo -> bool
}.

Definition bordi_default : list Bordo :=
  [("Tempo", "Successo"); ("Difficolta", "Successo"); ("QualitaIngredienti", "Successo")].

(** [__init__]: [structure or [...]], then the graph with the default
    tables, or the bare graph if that raises; [None] if both raise. *)
Definition init (B : Bnlearn) (structure : option (list Bordo)) : option BayesianaRicette :=
  let bordi :=
    match structure with
    | Some (b :: r) => b :: r
    | _ => bordi_default
    end in
  if make_DAG_CPD B bordi then Some (mkRete bordi (ConCPD bordi))
  else if make_DAG B bordi then Some (mkRete bordi (SenzaCPD bordi))
  else None.

(** [impara_dataset] on a data frame with the given columns: the object
    after the call, and whether the call returned ([false]: it raised).  The
    attributes are assigned one after the other, as in the source. *)
Definition impara_dataset (B : Bnlearn) (colonne : list string) (self : BayesianaRicette)
  : BayesianaRicette * bool :=
  let bordi := map (fun c => (c, "Successo"))
                   (filter (fun c => negb (String.eqb c "Successo")) colonne) in
  if negb (make_DAG B bordi) then (mkRete bordi (DAG self), false)
  else if negb (fit B bordi) then (mkRete bordi (SenzaCPD bordi), false)
  else (mkRete bordi (Appreso bordi), true).

(** The object on which [calcola_rischio_o_successo_ricetta] runs the
    inference, and whether it logged that the network was updated.
    [read_csv] is the list of the columns of the data set, [None] when the
    file cannot be read.  [rete_da_usare] and [rete_bayesiana_temp] are the
    same object throughout. *)
Definition rete_da_usare (B : Bnlearn) (scelta_rete : string)
           (read_csv : option (list string)) (rete_bayesiana_temp : BayesianaRicette)
  : BayesianaRicette * bool :=
  if String.eqb scelta_rete "2" then
    match read_csv with
    | None => (rete_bayesiana_temp, false)
    | Some colonne => impara_dataset B colonne rete_bayesiana_temp
    end
  else (rete_bayesiana_temp, false).

(** [str(int(v))] for an integer. *)
Definition str_int (v : Z) : string :=
  DecimalString.NilZero.string_of_int (Z.to_int v).

(** [state_names] of [Tempo] in [_create_default_cpd]. *)
Definition stati_tempo : list string := ["0"; "1"; "2"].

(** The dictionary [evidenza] of [calcola_rischio_o_successo_ricetta] as
    [inferenza] passes it on in [evidenze_ok]: the values as strings. *)
Definition evidenze_ok (fatti_tempo : option string) : list (string * string) :=
  match fatti_tempo with
  | Some t => [("Tempo", str_int (Interfaccia.converti_tempo_in_indice t))]
  | None => []
  end.

Local Open Scope float_scope.

(** [max(a, b)] and [min(a, b)] of Python on two floats. *)
Definition py_max (a b : float) : float := if PrimFloat.ltb a b then b else a.
Definition py_min (a b : float) : float := if PrimFloat.ltb b a then b else a.

(** An integer of a [range] as a float. *)
Fixpoint float_of_nat (n : nat) : float :=
  match n with
  | O => 0
  | S k => float_of_nat k + 1
  end.

(** The body of the three loops of [genera_cpd_successo]. *)
Definition prob_successo (tempo diff qualita : nat) : float :=
  let rischio := 0.0 in
  let rischio :=
    if ((tempo =? 0) && (0 <? diff))%nat then rischio + 0.3 * float_of_nat diff
    else rischio in
  let rischio :=
    if (diff =? 2)%nat then rischio + 0.5
    else if (diff =? 1)%nat then rischio + 0.2
    else rischio in
  let rischio := if (qualita =? 0)%nat then rischio + 0.4 else rischio in
  py_max 0.1 (py_min 0.95 (1.0 - rischio)).

(** [genera_cpd_successo]: the rows [fallimento] and [successo]. *)
Definition genera_cpd_successo : list float * list float :=
  let successo :=
    flat_map (fun tempo =>
      flat_map (fun diff =>
        map (fun qualita => prob_successo tempo diff qualita) (seq 0 2))
        (seq 0 3))
      (seq 0 3) in
  (map (fun p => 1 - p) successo, successo).

End Rete.

(** ** Notions used in the statements about what the rules read *)

Module Campi.
Import Engine Consulente.

(** The condition reads facts with field [f]. *)
Fixpoint legge (f : Field) (c : Cond) : bool :=
  match c with
  | FieldEquals g _ => if Field_eq_dec g f then true else false
  | Exists_ g _ => if Field_eq_dec g f then true else false
  | Not_ c' => legge f c'
  | Or_ cs =>
      (fix qualcuna (l : list Cond) : bool :=
         match l with
         | [] => false
         | c' :: r => legge f c' || qualcuna r
         end) cs
  end.

Definition altro_campo (f : Field) (x : Fact) : bool :=
  if Field_eq_dec (field x) f then false else true.

(** Working memory without the facts with field [f]. *)
Definition senza_campo (f : Field) (es : list Entry) : list Entry :=
  filter (fun e => altro_campo f (content e)) es.

Definition fatti_senza (f : Field) (facts : list Fact) : list Fact :=
  filter (altro_campo f) facts.

End Campi.

(** ** Notions used in the statements about every consultation *)

Module Misura.
Import Text Interfaccia Engine Consulente Notions Risposta.

(** The recipes that the rule base can propose. *)
Definition ricettario : list string :=
  ["Pasta al Pomodoro"; "Uova Strapazzate"; "Insalata Mista"].

(** The evidence on [Tempo] that can reach the network. *)
Definition evidenze : list (option Z) := [None; Some 0%Z; Some 1%Z; Some 2%Z].

(** The texts that [calcola_rischio_o_successo_ricetta] can return. *)
Definition valutazioni (K : Collab) : list string :=
  msg_non_disponibile :: msg_impossibile ::
  flat_map (fun rete =>
              flat_map (fun ev => match inferenza K rete ev with
                                  | Stima p => [msg_stima p]
                                  | _ => []
                                  end) evidenze)
           [Predefinita; dopo_apprendimento (impara K)].

(** What a fact of working memory can be, given the other facts. *)
Definition ammesso (K : Collab) (facts : list Fact) (f : Fact) : Prop :=
  match field f with
  | azione => True
  | ingrediente => normale (value f)
  | preferenza => normale (value f)
  | tempo_disponibile => categoria (value f)
  | candidato => In (value f) ricettario
  | ricetta_suggerita => In (mkFact candidato (value f)) facts
  | valutazione_ricetta => In (value f) (valutazioni K)
  end.

Definition non_negata (c : Cond) : bool :=
  match c with Not_ _ => false | _ => true end.

(** No negation at any depth. *)
Fixpoint positivo (c : Cond) : bool :=
  match c with
  | Not_ _ => false
  | Or_ cs =>
      (fix tutte (l : list Cond) : bool :=
         match l with
         | [] => true
         | c' :: r => positivo c' && tutte r
         end) cs
  | _ => true
  end.

(** The conditions of a rule that are not negations. *)
Definition affermate (r : Rule) : list Cond := filter non_negata (r_conds r).

(** The number of stored facts with field [f]. *)
Definition quanti (f : Field) (es : list Entry) : nat :=
  List.length (filter (fun e => if Field_eq_dec (field (content e)) f then true else false)
                      es).

(** A bound on the number of ways a condition extends a partial match. *)
Fixpoint peso (es : list Entry) (c : Cond) : nat :=
  match c with
  | FieldEquals _ _ => 1
  | Exists_ f _ => quanti f es
  | Not_ _ => 1
  | Or_ cs =>
      (fix somma (l : list Cond) : nat :=
         match l with
         | [] => 0
         | c' :: r => peso es c' + somma r
         end) cs
  end.

Definition peso_lista (es : list Entry) (cs : list Cond) : nat :=
  fold_right Nat.mul 1 (map (peso es) cs).

(** What makes the identity of an activation: its rule and its binding. *)
Definition chiave (a : Activation) : nat * Binding := (a_rule a, a_binding a).

(** The invariant of a consultation: a well-formed state whose facts are
    admissible, and a refraction set that holds no rule and binding twice and
    whose bindings satisfy the conditions of their rules that are not
    negations. *)
Definition sano (K : Collab) (st : State) : Prop :=
  wf_state st /\
  (forall f, In f (wm st) -> ammesso K (wm st) f) /\
  NoDup (map chiave (fired st)) /\
  (forall b, In b (fired st) ->
             exists r q, nth_error (rules K) (a_rule b) = Some r /\
                         In q (eval_conds (entries (store st)) (affermate r) start) /\
                         snd q = a_binding b).

(** No consultation takes more cycles. *)
Definition cicli_massimi : nat := 45.

End Misura.

(** ** main.py *)

Module Principale.
Import Text Interfaccia Engine Consulente Notions Consiglio Misura.

(** The [while risposta not in ['s', 'n']] loop of [main]: the answer and the
    lines left, [None] while no line is a valid answer. *)
Fixpoint nuova_loop (ins : list string) : option (string * list string) :=
  match ins with
  | [] => None
  | line :: rest =>
      let risposta := lower (strip line) in
      if String.eqb risposta "s" || String.eqb risposta "n" then Some (risposta, rest)
      else nuova_loop rest
  end.

(** How a call of [avvia_sistema] ends. *)
Inductive Esito : Type :=
| Tornata       (* it returned *)
| Eccezione     (* it raised an [Exception], which the handler of [main] logs *)
| Ferma         (* it is waiting for a line at a prompt *)
| Incompiuta.   (* the cycles granted to the engine did not suffice *)

(** A call of [avvia_sistema]: the consultation, how it ended and the lines it
    left unread. *)
Record Consulenza : Type := mkConsulenza {
  corsa : Run;
  esito : Esito;
  righe : list string
}.

(** How [main] stands when the lines typed are used up: it has returned,
    leaving the lines it did not read; it is waiting for a line; or the
    question met the end of a closed input, and the [EOFError] of [input],
    raised outside the [try], has ended the program. *)
Inductive Fine : Type :=
| Uscita (resto : list string)
| InAttesa
| Interrotto.

(** [main], for any [avvia_sistema]: the calls it makes, in order, and how it
    stands; [chiuso] tells whether the input is closed after the lines typed,
    [giri] bounds the number of calls, [None] when it or the cycles of a
    consultation are too small.  After a call that returned and after a call
    whose exception the handler caught, the question is put. *)
Fixpoint main (avvia_sistema : list string -> Consulenza) (chiuso : bool)
              (giri : nat) (ins : list string) : list Consulenza * option Fine :=
  match giri with
  | O => ([], None)
  | S g =>
      let x := avvia_sistema ins in
      match esito x with
      | Incompiuta => ([x], None)
      | Ferma => ([x], Some InAttesa)
      | _ =>
          match nuova_loop (righe x) with
          | None => ([x], Some (if chiuso then Interrotto else InAttesa))
          | Some (risposta, rest) =>
              if String.eqb risposta "n" then ([x], Some (Uscita rest))
              else let '(cs, f) := main avvia_sistema chiuso g rest in (x :: cs, f)
          end
      end
  end.

(** [avvia_sistema] of the program: a new engine, run for more cycles than any
    consultation takes.  A consultation that reaches a prompt with no line
    left has read every line; on a closed input its [input] raises
    [EOFError], which no rule catches and the engine hands to its caller. *)
Definition avvia_sistema (K : Collab) (chiuso : bool) (ins : list string) : Consulenza :=
  let c := avvia_consulente_ricette K (S cicli_massimi) ins in
  match status c with
  | Done => mkConsulenza c Tornata (inputs (world c))
  | Halted => mkConsulenza c Tornata (inputs (world c))
  | Blocked => mkConsulenza c (if chiuso then Eccezione else Ferma) []
  | OutOfFuel => mkConsulenza c Incompiuta (inputs (world c))
  end.

(** An [avvia_sistema] that raises before it reads a line: no rule has
    fired. *)
Definition solleva_subito (ins : list string) : Consulenza :=
  mkConsulenza (run [] 0 (reset []) (mkWorld ins [])) Eccezione ins.

(** A consultation that came to rest with [azione="termina"] asserted. *)
Definition conclusa (c : Run) : Prop :=
  status c = Done /\ In termina (wm (final c)).

(** The call returned or raised: the question follows. *)
Definition alla_domanda (x : Consulenza) : Prop :=
  esito x = Tornata \/ esito x = Eccezione.

(** The sessions of a run of [main] on the lines [ins]: each call of
    [avvia_sistema] is made on the lines left by what came before; after a
    call that returned or raised, the question is asked until the answer is
    "s" or "n"; "s" starts the next call, "n" ends the program; otherwise
    the program is waiting, in a consultation or at the question, or, at the
    end of a closed input, ended by the [EOFError] of the question. *)
Inductive sessioni (avvia : list string -> Consulenza) (chiuso : bool)
  : list string -> list Consulenza -> option Fine -> Prop :=
| troncata ins :
    sessioni avvia chiuso ins [] None
| incompiuta ins :
    esito (avvia ins) = Incompiuta ->
    sessioni avvia chiuso ins [avvia ins] None
| in_consulenza ins :
    esito (avvia ins) = Ferma ->
    sessioni avvia chiuso ins [avvia ins] (Some InAttesa)
| senza_risposta ins :
    alla_domanda (avvia ins) ->
    forallb (fun l => negb (si_no l)) (righe (avvia ins)) = true ->
    sessioni avvia chiuso ins [avvia ins]
             (Some (if chiuso then Interrotto else InAttesa))
| uscita ins pre line resto :
    alla_domanda (avvia ins) ->
    righe (avvia ins) = pre ++ line :: resto ->
    forallb (fun l => negb (si_no l)) pre = true ->
    lower (strip line) = "n" ->
    sessioni avvia chiuso ins [avvia ins] (Some (Uscita resto))
| ancora ins pre line resto cs f :
    alla_domanda (avvia ins) ->
    righe (avvia ins) = pre ++ line :: resto ->
    forallb (fun l => negb (si_no l)) pre = true ->
    lower (strip line) = "s" ->
    sessioni avvia chiuso resto cs f ->
    sessioni avvia chiuso ins (avvia ins :: cs) f.

(** What a call of [avvia_sistema] of the program can be: returned, with the
    consultation at rest and [azione="termina"] asserted; or stopped at a
    prompt with every line read, waiting when the input is open, ended by
    [EOFError] when it is closed. *)
Definition regolare (chiuso : bool) (x : Consulenza) : Prop :=
  match esito x with
  | Tornata => conclusa (corsa x)
  | Eccezione => chiuso = true /\ status (corsa x) = Blocked /\ righe x = []
  | Ferma => chiuso = false /\ status (corsa x) = Blocked /\ righe x = []
  | Incompiuta => False
  end.

(** The lines of [w'] are what is left of the lines of [w]. *)
Definition consuma (w w' : World) : Prop :=
  exists pre, inputs w = pre ++ inputs w'.

End Principale.

(** ** Notions used in the statements about the recipes proposed *)

Module Proposte.
Import Engine Consulente Notions.

(** A condition without variables holds in working memory. *)
Fixpoint vale (facts : list Fact) (c : Cond) : Prop :=
  match c with
  | FieldEquals f v => In (mkFact f v) facts
  | Exists_ f _ => exists v, In (mkFact f v) facts
  | Not_ c' => ~ vale facts c'
  | Or_ cs =>
      (fix una (l : list Cond) : Prop :=
         match l with
         | [] => False
         | c' :: r => vale facts c' \/ una r
         end) cs
  end.

(** The condition names no variable: whether it is satisfied does not depend
    on the binding it starts from. *)
Fixpoint chiusa (c : Cond) : bool :=
  match c with
  | FieldEquals _ _ => true
  | Exists_ _ None => true
  | Exists_ _ (Some _) => false
  | Not_ c' => chiusa c'
  | Or_ cs =>
      (fix tutte (l : list Cond) : bool :=
         match l with
         | [] => true
         | c' :: r => chiusa c' && tutte r
         end) cs
  end.

(** The candidates in working memory are those of the candidate rules that
    have fired. *)
Definition proposte (st : State) : Prop :=
  (rule_fired st 3 <-> In (mkFact candidato "Pasta al Pomodoro") (wm st)) /\
  (rule_fired st 4 <-> In (mkFact candidato "Uova Strapazzate") (wm st)) /\
  (rule_fired st 5 <-> In (mkFact candidato "Insalata Mista") (wm st)).

End Proposte.

(** ** Notions used in the statements about how often a rule fires *)

Module Volte.
Import Engine Consulente Notions Misura.

(** How many times the rule called [nome] fires in a run. *)
Definition spari (K : Collab) (nome : string) (c : Run) : nat :=
  count_occ string_dec (names K c) nome.

(** The rules that fire at most once in a consultation. *)
Definition una_sola_volta : list string :=
  ["chiedi_ingredienti"; "chiedi_tempo"; "chiedi_preferenze";
   "suggerisci_pasta_pomodoro"; "suggerisci_uova_strapazzate"; "suggerisci_insalata";
   "nessuna_ricetta_trovata"; "terminare_esecuzione"].

(** The time is stored only by [chiedi_tempo], and once. *)
Definition tempo_unico (st : State) : Prop :=
  quanti tempo_disponibile (entries (store st)) = 0 \/
  rule_fired st 1 /\ quanti tempo_disponibile (entries (store st)) <= 1.

End Volte.

(** ** valutazione.py

    The script, fold by fold: the rows of the training fold are completed so
    that every state of every variable occurs, the network is trained, and a
    prediction is asked for every test row.  The [pandas], [sklearn] and
    [bnlearn] packages are outside the sources: a data frame is the list of
    its rows, and what the network would answer is given. *)

Module Valutazione.

Inductive Colonna : Type := Tempo | Difficolta | QualitaIngredienti | Successo.

Record Riga : Type := mkRiga {
  r_tempo : Z;
  r_difficolta : Z;
  r_qualita : Z;
  r_successo : Z
}.

(** [riga[col]] *)
Definition leggi (col : Colonna) (r : Riga) : Z :=
  match col with
  | Tempo => r_tempo r
  | Difficolta => r_difficolta r
  | QualitaIngredienti => r_qualita r
  | Successo => r_successo r
  end.

(** [riga[col] = val] *)
Definition scrivi (col : Colonna) (val : Z) (r : Riga) : Riga :=
  match col with
  | Tempo => mkRiga val (r_difficolta r) (r_qualita r) (r_successo r)
  | Difficolta => mkRiga (r_tempo r) val (r_qualita r) (r_successo r)
  | QualitaIngredienti => mkRiga (r_tempo r) (r_difficolta r) val (r_successo r)
  | Successo => mkRiga (r_tempo r) (r_difficolta r) (r_qualita r) val
  end.

Definition DOMINI : list (Colonna * list Z) :=
  [(Tempo, [0; 1; 2]); (Difficolta, [0; 1; 2]);
   (QualitaIngredienti, [0; 1]); (Successo, [0; 1])]%Z.

(** One turn of [for val in mancanti]: the first row with [col] set to
    [val] is appended; [None] is the IndexError of [iloc[0]] on an empty
    frame. *)
Definition aggiungi (col : Colonna) (train_data_fold : list Riga) (val : Z)
  : option (list Riga) :=
  match train_data_fold with
  | [] => None
  | prima :: _ => Some (train_data_fold ++ [scrivi col val prima])
  end.

Fixpoint aggiungi_mancanti (col : Colonna) (mancanti : list Z)
         (train_data_fold : list Riga) : option (list Riga) :=
  match mancanti with
  | [] => Some train_data_fold
  | val :: rest =>
      match aggiungi col train_data_fold val with
      | None => None
      | Some df => aggiungi_mancanti col rest df
      end
  end.

(** The body of [for col, stati_possibili in DOMINI.items()]. *)
Definition completa_colonna (train_data_fold : list Riga) (d : Colonna * list Z)
  : option (list Riga) :=
  let '(col, stati_possibili) := d in
  let valori_presenti := nodup Z.eq_dec (map (leggi col) train_data_fold) in
  let mancanti :=
    filter (fun v => negb (existsb (Z.eqb v) valori_presenti)) stati_possibili in
  aggiungi_mancanti col mancanti train_data_fold.

(** The whole loop over [DOMINI]. *)
Definition completa (train_data_fold : list Riga) : option (list Riga) :=
  fold_left (fun acc d => match acc with
                          | None => None
                          | Some df => completa_colonna df d
                          end)
            DOMINI (Some train_data_fold).

(** A call [f(k1=v1, ...)] of a function whose parameters, after [self],
    are [parametri], none with a default: [None] is the TypeError raised
    for an unexpected or a missing argument. *)
Definition chiama {A B : Type} (parametri : list string) (corpo : list (string * A) -> B)
           (kwargs : list (string * A)) : option B :=
  if forallb (fun kv => existsb (String.eqb (fst kv)) parametri) kwargs
     && forallb (fun p => existsb (fun kv => String.eqb (fst kv) p) kwargs) parametri
  then Some (corpo kwargs)
  else None.

(** The parameters of [BayesianaRicette.inferenza]. *)
Definition parametri_inferenza : list string := ["evidenze"].

(** One turn of [for i, test_row in X_test.iterrows()]: the prediction
    appended to [y_pred_list], [None] for [np.nan].  [rete] is what the body
    of [inferenza] and the lines after the call would give for the row:
    a prediction, or [None] when they raise. *)
Definition predizione (rete : Riga -> option Z) (test_row : Riga) : option Z :=
  match chiama parametri_inferenza
               (fun args => match args with
                            | (_, evidenze) :: _ => rete evidenze
                            | [] => None
                            end)
               [("dati", test_row)] with
  | Some (Some p) => Some p
  | _ => None
  end.

Definition y_pred_list (rete : Riga -> option Z) (X_test : list Riga) : list (option Z) :=
  map (predizione rete) X_test.

(** [[y for y in y_pred_list if not np.isnan(y)]] *)
Definition y_pred_clean (preds : list (option Z)) : list Z :=
  flat_map (fun y => match y with Some p => [p] | None => [] end) preds.

(** [[y for i, y in enumerate(y_test_true) if not np.isnan(y_pred_list[i])]];
    the two lists have the same length. *)
Definition y_test_clean (y_test_true : list Z) (preds : list (option Z)) : list Z :=
  flat_map (fun yp => match snd yp with Some _ => [fst yp] | None => [] end)
           (combine y_test_true preds).

(** Whether the fold records its metrics: [len(y_pred_clean) > 0]. *)
Definition registra (preds : list (option Z)) : bool :=
  match y_pred_clean preds with [] => false | _ :: _ => true end.

End Valutazione.

(** * Properties *)

(** ** The prompts recover from malformed input *)

Module PromptFacts.
Import Text Interfaccia Engine Consulente Notions.

Lemma converti_tempo_in_categoria_ok (m : Z) : categoria (converti_tempo_in_categoria m).
Proof.
  unfold categoria, converti_tempo_in_categoria.
  destruct (m <=? 20)%Z; [now left|].
  destruct (m <=? 60)%Z; [right; now left | right; now right].
Qed.

(** What [tempo_loop] returns is decided by the first valid line. *)
Lemma tempo_loop_spec (ins : list string) :
  forall lg,
    match tempo_loop ins lg with
    | Some (t, w') =>
        exists pre line m,
          ins = pre ++ line :: inputs w' /\
          forallb (fun l => negb (minuti_validi l)) pre = true /\
          py_int (strip line) = Some m /\ (0 < m)%Z /\
          t = converti_tempo_in_categoria m /\
          log w' = lg ++ repeat (EInput PMinuti) (S (List.length pre))
    | None => forallb (fun l => negb (minuti_validi l)) ins = true
    end.
Proof.
  induction ins as [|line rest IH]; intro lg; cbn [tempo_loop forallb]; [reflexivity|].
  assert (Hskip :
    minuti_validi line = false ->
    match tempo_loop rest (lg ++ [EInput PMinuti]) with
    | Some (t, w') =>
        exists pre l m,
          line :: rest = pre ++ l :: inputs w' /\
          forallb (fun l => negb (minuti_validi l)) pre = true /\
          py_int (strip l) = Some m /\ (0 < m)%Z /\
          t = converti_tempo_in_categoria m /\
          log w' = lg ++ repeat (EInput PMinuti) (S (List.length pre))
    | None => negb (minuti_validi line)
              && forallb (fun l => negb (minuti_validi l)) rest = true
    end).
  { intro Hbad. specialize (IH (lg ++ [EInput PMinuti])).
    destruct (tempo_loop rest (lg ++ [EInput PMinuti])) as [[t w']|].
    - destruct IH as (pre & l & m' & -> & Hpre & Hl & Hm & Ht & Hlog).
      exists (line :: pre), l, m'. repeat split; auto.
      + cbn [forallb]. rewrite Hbad. exact Hpre.
      + rewrite Hlog, <- app_assoc. reflexivity.
    - rewrite Hbad. exact IH. }
  destruct (py_int (strip line)) as [m|] eqn:E.
  - destruct (m <=? 0)%Z eqn:Em.
    + apply Hskip. unfold minuti_validi. rewrite E.
      apply Z.ltb_ge. apply Z.leb_le in Em. exact Em.
    + exists [], line, m. cbn. repeat split; auto.
      apply Z.leb_gt in Em. exact Em.
  - apply Hskip. unfold minuti_validi. rewrite E. reflexivity.
Qed.

Lemma scelta_loop_spec (n : nat) (ins : list string) :
  forall lg,
    match scelta_loop n ins lg with
    | Some (z, w') =>
        exists pre line,
          ins = pre ++ line :: inputs w' /\
          forallb (fun l => negb (scelta_valida n l)) pre = true /\
          py_int (strip line) = Some z /\ (1 <= z <= Z.of_nat n)%Z /\
          log w' = lg ++ repeat (EInput (PScelta n)) (S (List.length pre))
    | None => forallb (fun l => negb (scelta_valida n l)) ins = true
    end.
Proof.
  induction ins as [|line rest IH]; intro lg; cbn [scelta_loop forallb]; [reflexivity|].
  assert (Hskip :
    scelta_valida n line = false ->
    match scelta_loop n rest (lg ++ [EInput (PScelta n)]) with
    | Some (z, w') =>
        exists pre l,
          line :: rest = pre ++ l :: inputs w' /\
          forallb (fun l => negb (scelta_valida n l)) pre = true /\
          py_int (strip l) = Some z /\ (1 <= z <= Z.of_nat n)%Z /\
          log w' = lg ++ repeat (EInput (PScelta n)) (S (List.length pre))
    | None => negb (scelta_valida n line)
              && forallb (fun l => negb (scelta_valida n l)) rest = true
    end).
  { intro Hbad. specialize (IH (lg ++ [EInput (PScelta n)])).
    destruct (scelta_loop n rest (lg ++ [EInput (PScelta n)])) as [[z' w']|].
    - destruct IH as (pre & l & -> & Hpre & Hl & Hz & Hlog).
      exists (line :: pre), l. repeat split; auto; try lia.
      + cbn [forallb]. rewrite Hbad. exact Hpre.
      + rewrite Hlog, <- app_assoc. reflexivity.
    - rewrite Hbad. exact IH. }
  destruct (py_int (strip line)) as [z|] eqn:E.
  - destruct ((z <? 1) || (Z.of_nat n <? z))%Z eqn:Ez.
    + apply Hskip. unfold scelta_valida. rewrite E.
      apply orb_true_iff in Ez. apply andb_false_iff.
      destruct Ez as [H|H]; [left | right]; apply Z.leb_gt; apply Z.ltb_lt in H; lia.
    + apply orb_false_iff in Ez. destruct Ez as [H1 H2].
      apply Z.ltb_ge in H1. apply Z.ltb_ge in H2.
      exists [], line. cbn. repeat split; auto.
  - apply Hskip. unfold scelta_valida. rewrite E. reflexivity.
Qed.

(** C8. Malformed input is recovered by asking again.  For every sequence of
    lines typed by the user, [chiedi_tempo_disponibile] skips every line that
    is not a positive integer and returns at the first one that is, with one
    of "poco", "medio", "molto"; the selection prompt of [scegli_candidati]
    skips every line that is not an integer between 1 and the number of
    candidates and returns at the first one that is, with one of the
    candidates.  When no typed line is acceptable the function is still
    asking: it has returned nothing. *)
Theorem input_errors_recovered (w : World) :
  match chiedi_tempo_disponibile w with
  | Some (t, w') =>
      categoria t /\
      exists pre line,
        inputs w = pre ++ line :: inputs w' /\
        forallb (fun l => negb (minuti_validi l)) pre = true /\
        minuti_validi line = true
  | None => forallb (fun l => negb (minuti_validi l)) (inputs w) = true
  end
  /\
  forall (b : Binding) (facts : list Fact),
    let candidati_lista := distinct (values_of candidato facts) in
    let n := List.length candidati_lista in
    match scegli_candidati b facts w with
    | Some (effs, w') =>
        exists ricetta_scelta,
          In ricetta_scelta candidati_lista /\
          effs = [DeclareFact (mkFact ricetta_suggerita ricetta_scelta);
                  DeclareFact (mkFact azione "valutaRicetta")] /\
          (n = 1 /\ inputs w' = inputs w
           \/
           n <> 1 /\
           exists pre line,
             inputs w = pre ++ line :: inputs w' /\
             forallb (fun l => negb (scelta_valida n l)) pre = true /\
             scelta_valida n line = true)
    | None =>
        n <> 1 /\ forallb (fun l => negb (scelta_valida n l)) (inputs w) = true
    end.
Proof.
  split.
  - unfold chiedi_tempo_disponibile.
    pose proof (tempo_loop_spec (inputs w) (log w)) as H.
    destruct (tempo_loop (inputs w) (log w)) as [[t w']|]; [|exact H].
    destruct H as (pre & line & m & Hin & Hpre & Hl & Hm & Ht & _).
    split.
    + subst t. apply converti_tempo_in_categoria_ok.
    + exists pre, line. repeat split; auto.
      unfold minuti_validi. rewrite Hl. apply Z.ltb_lt. exact Hm.
  - intros b facts candidati_lista n. unfold scegli_candidati.
    fold candidati_lista.
    assert (Hmany :
      n <> 1 ->
      match
        match scelta_loop (List.length candidati_lista)
                (inputs (emit (EElenco candidati_lista) w))
                (log (emit (EElenco candidati_lista) w)) with
        | Some (scelta, w2) =>
            Some (nth (Z.to_nat (scelta - 1)) candidati_lista "", w2)
        | None => None
        end
      with
      | Some (ricetta_scelta, w') =>
          Some ([DeclareFact (mkFact ricetta_suggerita ricetta_scelta);
                 DeclareFact (mkFact azione "valutaRicetta")], w')
      | None => None
      end = scegli_candidati b facts w ->
      match scegli_candidati b facts w with
      | Some (effs, w') =>
          exists ricetta_scelta,
            In ricetta_scelta candidati_lista /\
            effs = [DeclareFact (mkFact ricetta_suggerita ricetta_scelta);
                    DeclareFact (mkFact azione "valutaRicetta")] /\
            (n = 1 /\ inputs w' = inputs w
             \/
             n <> 1 /\
             exists pre line,
               inputs w = pre ++ line :: inputs w' /\
               forallb (fun l => negb (scelta_valida n l)) pre = true /\
               scelta_valida n line = true)
      | None =>
          n <> 1 /\ forallb (fun l => negb (scelta_valida n l)) (inputs w) = true
      end).
    { intros Hn <-. fold n.
      pose proof (scelta_loop_spec n (inputs (emit (EElenco candidati_lista) w))
                    (log (emit (EElenco candidati_lista) w))) as H.
      destruct (scelta_loop n (inputs (emit (EElenco candidati_lista) w))
                  (log (emit (EElenco candidati_lista) w))) as [[z w2]|].
      - destruct H as (pre & line & Hin & Hpre & Hl & Hz & _).
        exists (nth (Z.to_nat (z - 1)) candidati_lista ""). split; [|split].
        + apply nth_In. fold n. lia.
        + reflexivity.
        + right. split; [exact Hn|]. exists pre, line. repeat split; auto.
          unfold scelta_valida. rewrite Hl. apply andb_true_iff.
          split; apply Z.leb_le; lia.
      - split; [exact Hn | exact H]. }
    unfold scegli_candidati in Hmany. fold candidati_lista in Hmany.
    destruct candidati_lista as [|r [|r' rest]] eqn:El.
    + apply Hmany; [subst n; simpl; lia | reflexivity].
    + exists r. split; [now left|]. split; [reflexivity|]. left.
      split; reflexivity.
    + apply Hmany; [subst n; simpl; lia | reflexivity].
Qed.

End PromptFacts.

(** ** The fact store *)

Module StoreFacts.
Import Engine Notions.

Lemma present_true (f : Fact) (s : Store) :
  present f s = true <-> In f (contents s).
Proof.
  unfold present, contents. rewrite existsb_exists, in_map_iff. split.
  - intros (e & He & Hf). exists e. split; [|exact He].
    destruct (Fact_eq_dec (content e) f); [assumption | discriminate].
  - intros (e & Hf & He). exists e. split; [exact He|].
    destruct (Fact_eq_dec (content e) f); [reflexivity | contradiction].
Qed.

Lemma present_false (f : Fact) (s : Store) :
  present f s = false <-> ~ In f (contents s).
Proof.
  rewrite <- present_true. destruct (present f s); split; intro H;
    try discriminate; try reflexivity; try (intro; discriminate).
  exfalso. apply H. reflexivity.
Qed.

Lemma wf_empty : wf_store empty_store.
Proof. repeat split; constructor. Qed.

Lemma wf_insert (cyc : nat) (f : Fact) (s : Store) :
  wf_store s -> wf_store (fst (insert cyc f s)).
Proof.
  intros (Hi & Hc & Hb). unfold insert.
  destruct (present f s) eqn:Hp; [repeat split; assumption|].
  apply present_false in Hp. cbn [fst].
  unfold wf_store, ids, contents in *. cbn [entries next_id].
  rewrite !map_app. cbn [map eid content]. repeat split.
  - apply NoDup_app; [exact Hi | repeat constructor; intros [] | ].
    intros x Hx [<-|[]]. apply in_map_iff in Hx. destruct Hx as (e & He & Hin).
    rewrite Forall_forall in Hb. specialize (Hb e Hin). lia.
  - apply NoDup_app; [exact Hc | repeat constructor; intros [] | ].
    intros x Hx [<-|[]]. exact (Hp Hx).
  - apply Forall_app. split.
    + eapply Forall_impl; [|exact Hb]. cbn. intros; lia.
    + repeat constructor.
Qed.

Lemma NoDup_map_filter {A B : Type} (g : A -> B) (p : A -> bool) (l : list A) :
  NoDup (map g l) -> NoDup (map g (filter p l)).
Proof.
  induction l as [|a l IH]; cbn; intro H; [constructor|].
  inversion H as [|? ? Hn Hr]; subst. destruct (p a); cbn; auto.
  constructor; auto. intro Hin. apply Hn.
  apply in_map_iff in Hin. destruct Hin as (x & Hx & Hf).
  apply filter_In in Hf. apply in_map_iff. exists x. tauto.
Qed.

Lemma NoDup_map_inj {A B : Type} (g : A -> B) (l : list A) (x y : A) :
  NoDup (map g l) -> In x l -> In y l -> g x = g y -> x = y.
Proof.
  induction l as [|a l IH]; cbn; intros Hn Hx Hy Hg; [destruct Hx|].
  inversion Hn as [|? ? Hna Hnl]; subst.
  destruct Hx as [<-|Hx], Hy as [<-|Hy]; auto.
  - exfalso. apply Hna. rewrite Hg. apply in_map. exact Hy.
  - exfalso. apply Hna. rewrite <- Hg. apply in_map. exact Hx.
Qed.

Lemma wf_retract (f : Fact) (s : Store) :
  wf_store s -> wf_store (fst (retract f s)).
Proof.
  intros (Hi & Hc & Hb). unfold retract.
  destruct (present f s); [|repeat split; assumption].
  cbn [fst]. unfold wf_store, ids, contents in *. cbn [entries next_id].
  repeat split.
  - apply NoDup_map_filter. exact Hi.
  - apply NoDup_map_filter. exact Hc.
  - rewrite Forall_forall in *. intros e He. apply filter_In in He. apply Hb, He.
Qed.

Lemma wf_apply_effect (cyc : nat) (s : Store) (e : Effect) :
  wf_store s -> wf_store (apply_effect cyc s e).
Proof.
  destruct e; cbn; auto using wf_insert, wf_retract.
Qed.

Lemma wf_effects (cyc : nat) (effs : list Effect) :
  forall s, wf_store s -> wf_store (fold_left (apply_effect cyc) effs s).
Proof.
  induction effs as [|e r IH]; cbn; auto using wf_apply_effect.
Qed.

Lemma wf_build (ops : list (nat * Effect)) : wf_store (build ops).
Proof.
  unfold build. generalize wf_empty. generalize empty_store.
  induction ops as [|o r IH]; cbn; auto using wf_apply_effect.
Qed.

Lemma wf_reset (deffacts : list Fact) : wf_store (store (reset deffacts)).
Proof.
  unfold reset. cbn [store]. generalize wf_empty. generalize empty_store.
  induction deffacts as [|f r IH]; cbn; auto using wf_insert.
Qed.

End StoreFacts.

(** ** The condition evaluator and the agenda *)

Module EngineFacts.
Import Engine Notions StoreFacts.

(** Induction on conditions that reaches the branches of a disjunction. *)
Lemma Cond_induction (P : Cond -> Prop) :
  (forall f v, P (FieldEquals f v)) ->
  (forall f x, P (Exists_ f x)) ->
  (forall c, P c -> P (Not_ c)) ->
  (forall cs, Forall P cs -> P (Or_ cs)) ->
  forall c, P c.
Proof.
  intros hF hE hN hO. fix IH 1. intros [f v|f x|c|cs].
  - apply hF.
  - apply hE.
  - apply hN, IH.
  - apply hO. induction cs as [|c cs IHcs]; constructor; [apply IH | exact IHcs].
Qed.

Lemma same_binding_true (b c : Binding) : same_binding b c = true <-> b = c.
Proof.
  unfold same_binding. destruct (list_eq_dec pair_eq_dec b c); split; auto; discriminate.
Qed.

Lemma same_binding_refl (b : Binding) : same_binding b b = true.
Proof. apply same_binding_true. reflexivity. Qed.

Lemma same_activation_true (a b : Activation) :
  same_activation a b = true <-> a_rule a = a_rule b /\ a_binding a = a_binding b.
Proof.
  unfold same_activation. rewrite andb_true_iff, Nat.eqb_eq, same_binding_true. tauto.
Qed.

Lemma same_activation_refl (a : Activation) : same_activation a a = true.
Proof. apply same_activation_true. auto. Qed.

(** What [unione] keeps was there, every binding that was there is kept, and
    no binding is kept twice. *)
Lemma unione_in (l : list Partial) (q : Partial) : In q (unione l) -> In q l.
Proof.
  revert q. induction l as [|p r IH]; cbn [unione]; intros q H; [exact H|].
  destruct H as [H|H]; [now left | right].
  apply filter_In in H. apply IH, H.
Qed.

Lemma unione_covers (l : list Partial) (q : Partial) :
  In q l -> exists q', In q' (unione l) /\ snd q' = snd q.
Proof.
  induction l as [|p r IH]; cbn [unione]; intro H; [destruct H|].
  destruct H as [->|H]; [exists q; split; [now left | reflexivity]|].
  destruct (IH H) as (q' & Hq' & Hs).
  destruct (same_binding (snd p) (snd q')) eqn:E.
  - exists p. split; [now left|]. apply same_binding_true in E. congruence.
  - exists q'. split; [|exact Hs]. right. apply filter_In. rewrite E. auto.
Qed.

Lemma unione_length (l : list Partial) : List.length (unione l) <= List.length l.
Proof.
  induction l as [|p r IH]; cbn [unione List.length]; [lia|].
  apply le_n_S. etransitivity; [|exact IH].
  apply (filter_length_le (fun q => negb (same_binding (snd p) (snd q))) (unione r)).
Qed.

Lemma unione_NoDup (l : list Partial) : NoDup (map snd (unione l)).
Proof.
  induction l as [|p r IH]; cbn [unione map]; constructor.
  - intro H. apply in_map_iff in H. destruct H as (q & Hq & Hin).
    apply filter_In in Hin. destruct Hin as [_ Hn].
    rewrite Hq, same_binding_refl in Hn. discriminate.
  - apply NoDup_map_filter. exact IH.
Qed.

Section Evaluator.

Variable es : list Entry.

Lemma extend_grounded (p : Partial) (e : Entry) (x : option string) (q : Partial) :
  grounded es p -> In e es -> In q (extend p e x) -> grounded es q.
Proof.
  intros Hp He Hq. unfold extend in Hq.
  assert (Hg : Forall (fun i => In i (map eid es)) (fst p ++ [eid e])).
  { apply Forall_app. split; [exact Hp|]. constructor; [|constructor].
    apply in_map. exact He. }
  destruct x as [var|].
  - destruct (lookup var (snd p)) as [v|].
    + destruct (String.eqb v (value (content e))); [|destruct Hq].
      destruct Hq as [<-|[]]. exact Hg.
    + destruct Hq as [<-|[]]. exact Hg.
  - destruct Hq as [<-|[]]. exact Hg.
Qed.

Lemma eval_cond_grounded (c : Cond) :
  forall p q, grounded es p -> In q (eval_cond es c p) -> grounded es q.
Proof.
  induction c as [f v|f x|c IH|cs IH] using Cond_induction; intros p q Hp Hq.
  - cbn [eval_cond] in Hq. apply in_flat_map in Hq. destruct Hq as (e & He & Hq).
    destruct (Fact_eq_dec (content e) (mkFact f v)); [|destruct Hq].
    destruct Hq as [<-|[]]. apply Forall_app. split; [exact Hp|].
    constructor; [apply in_map; exact He | constructor].
  - cbn [eval_cond] in Hq. apply in_flat_map in Hq. destruct Hq as (e & He & Hq).
    destruct (Field_eq_dec (field (content e)) f); [|destruct Hq].
    eapply extend_grounded; eauto.
  - cbn [eval_cond] in Hq. destruct (eval_cond es c p); [|destruct Hq].
    destruct Hq as [<-|[]]. exact Hp.
  - cbn [eval_cond] in Hq. apply unione_in in Hq.
    induction IH as [|c cs Hc _ IHcs]; [destruct Hq|].
    apply in_app_or in Hq. destruct Hq as [Hq|Hq]; [eapply Hc; eauto | auto].
Qed.

Lemma eval_conds_grounded (cs : list Cond) :
  forall ps q, Forall (grounded es) ps -> In q (eval_conds es cs ps) -> grounded es q.
Proof.
  induction cs as [|c r IH]; cbn; intros ps q Hps Hq.
  - rewrite Forall_forall in Hps. auto.
  - apply (IH _ _ ) in Hq; [exact Hq|].
    rewrite Forall_forall in *. intros x Hx. apply in_flat_map in Hx.
    destruct Hx as (p & Hp & Hx). eapply eval_cond_grounded; eauto.
Qed.

Lemma eval_conds_nil (cs : list Cond) : eval_conds es cs [] = [].
Proof. induction cs; cbn; auto. Qed.

Lemma eval_conds_app (cs : list Cond) :
  forall ps qs, eval_conds es cs (ps ++ qs) = eval_conds es cs ps ++ eval_conds es cs qs.
Proof.
  induction cs as [|c r IH]; cbn; intros; [reflexivity|].
  rewrite flat_map_app. apply IH.
Qed.

(** A condition that nothing satisfies empties the conjunction. *)
Lemma eval_conds_dead (c : Cond) (cs : list Cond) :
  (forall p, eval_cond es c p = []) -> In c cs -> forall ps, eval_conds es cs ps = [].
Proof.
  intros Hc. induction cs as [|d r IH]; intros Hin ps; [destruct Hin|].
  cbn. destruct Hin as [->|Hin]; [|apply IH; exact Hin].
  replace (flat_map (eval_cond es c) ps) with (@nil Partial).
  - apply eval_conds_nil.
  - symmetry. induction ps as [|p ps IHps]; cbn; [reflexivity|].
    rewrite Hc. exact IHps.
Qed.

(** *** Membership in the result of the evaluator *)

Lemma in_FieldEquals (f : Field) (v : string) (p q : Partial) :
  In q (eval_cond es (FieldEquals f v) p) <->
  exists e, In e es /\ content e = mkFact f v /\ q = (fst p ++ [eid e], snd p).
Proof.
  cbn [eval_cond]. rewrite in_flat_map. split.
  - intros (e & He & Hq). exists e.
    destruct (Fact_eq_dec (content e) (mkFact f v)); [|destruct Hq].
    destruct Hq as [<-|[]]. auto.
  - intros (e & He & Hc & ->). exists e. split; [exact He|].
    destruct (Fact_eq_dec (content e) (mkFact f v)); [now left | contradiction].
Qed.

(** The partial matches of the branches of a disjunction, before the union. *)
Lemma in_branches (cs : list Cond) (p q : Partial) :
  In q ((fix branches (l : list Cond) : list Partial :=
           match l with
           | [] => []
           | c' :: r => eval_cond es c' p ++ branches r
           end) cs) <->
  exists c, In c cs /\ In q (eval_cond es c p).
Proof.
  induction cs as [|c cs IH].
  - split; [intros [] | intros (c & [] & _)].
  - rewrite in_app_iff, IH. split.
    + intros [H|(c' & Hc & H)]; [exists c; split; [now left | exact H]|].
      exists c'. split; [now right | exact H].
    + intros (c' & [<-|Hc] & H); [now left | right; eauto].
Qed.

Lemma in_Exists (f : Field) (x : option string) (p q : Partial) :
  In q (eval_cond es (Exists_ f x) p) <->
  exists e, In e es /\ field (content e) = f /\ In q (extend p e x).
Proof.
  cbn [eval_cond]. rewrite in_flat_map. split.
  - intros (e & He & Hq). exists e.
    destruct (Field_eq_dec (field (content e)) f); [auto | destruct Hq].
  - intros (e & He & Hc & Hq). exists e. split; [exact He|].
    destruct (Field_eq_dec (field (content e)) f); [exact Hq | contradiction].
Qed.

Lemma in_Not (c : Cond) (p q : Partial) :
  In q (eval_cond es (Not_ c) p) <-> q = p /\ eval_cond es c p = [].
Proof.
  cbn [eval_cond]. destruct (eval_cond es c p); cbn; split.
  - intros [<-|[]]. auto.
  - intros [-> _]. now left.
  - intros [].
  - intros [_ H]. discriminate.
Qed.

(** A match of a disjunction is a match of one of its branches; a match of a
    branch is there, or another match with its binding is. *)
Lemma in_Or (cs : list Cond) (p q : Partial) :
  In q (eval_cond es (Or_ cs) p) -> exists c, In c cs /\ In q (eval_cond es c p).
Proof.
  cbn [eval_cond]. intro H. apply unione_in in H. apply in_branches. exact H.
Qed.

Lemma in_Or_branch (cs : list Cond) (c : Cond) (p q : Partial) :
  In c cs -> In q (eval_cond es c p) ->
  exists q', In q' (eval_cond es (Or_ cs) p) /\ snd q' = snd q.
Proof.
  intros Hc Hq. cbn [eval_cond]. apply unione_covers. apply in_branches. eauto.
Qed.

Lemma in_eval_conds_cons (c : Cond) (cs : list Cond) (ps : list Partial) (q : Partial) :
  In q (eval_conds es (c :: cs) ps) <->
  exists p p', In p ps /\ In p' (eval_cond es c p) /\ In q (eval_conds es cs [p']).
Proof.
  cbn [eval_conds]. revert ps. 
  assert (Hsplit : forall l, In q (eval_conds es cs l) <->
                             exists p', In p' l /\ In q (eval_conds es cs [p'])).
  { induction l as [|a l IH].
    - rewrite eval_conds_nil. split; [intros [] | intros (? & [] & _)].
    - change (a :: l) with ([a] ++ l). rewrite eval_conds_app, in_app_iff, IH.
      split.
      + intros [H|(p' & Hp & H)]; [exists a; split; [now left | exact H]|].
        exists p'. split; [now right | exact H].
      + intros (p' & [<-|Hp] & H); [now left | right; eauto]. }
  intro ps. rewrite Hsplit. split.
  - intros (p' & Hp' & H). apply in_flat_map in Hp'. destruct Hp' as (p & Hp & Hp').
    eauto.
  - intros (p & p' & Hp & Hp' & H). exists p'. split; [|exact H].
    apply in_flat_map. eauto.
Qed.

Lemma in_eval_conds_nil (ps : list Partial) (q : Partial) :
  In q (eval_conds es [] ps) <-> In q ps.
Proof. reflexivity. Qed.

End Evaluator.

Section Agenda.

Variable rules : list Rule.

Lemma in_matches_from (es : list Entry) (a : Activation) :
  forall rs i,
    In a (matches_from i rs es) <->
    exists k r, nth_error rs k = Some r /\ a_rule a = i + k /\
                In (a_support a, a_binding a) (eval_conds es (r_conds r) start).
Proof.
  induction rs as [|r0 rs IH]; intro i; cbn [matches_from].
  - split; [intros [] | intros (k & r & H & _)]. destruct k; discriminate.
  - rewrite in_app_iff, in_map_iff, IH. split.
    + intros [(p & <- & Hp)|(k & r & Hk & Hi & Hin)].
      * exists 0, r0. cbn. rewrite Nat.add_0_r. destruct p. auto.
      * exists (S k), r. cbn. repeat split; auto. lia.
    + intros (k & r & Hk & Hi & Hin). destruct k as [|k].
      * left. cbn in Hk. injection Hk as <-.
        exists (a_support a, a_binding a). split; [|exact Hin].
        destruct a; cbn in *. f_equal. lia.
      * right. exists k, r. repeat split; auto. lia.
Qed.

Lemma in_matches (es : list Entry) (a : Activation) :
  In a (matches rules es) <->
  exists r, nth_error rules (a_rule a) = Some r /\
            In (a_support a, a_binding a) (eval_conds es (r_conds r) start).
Proof.
  unfold matches. rewrite in_matches_from. split.
  - intros (k & r & Hk & Hi & Hin). cbn in Hi. subst k. eauto.
  - intros (r & Hr & Hin). exists (a_rule a), r. auto.
Qed.

Lemma matches_grounded (es : list Entry) (a : Activation) :
  In a (matches rules es) -> Forall (fun i => In i (map eid es)) (a_support a).
Proof.
  intro H. apply in_matches in H. destruct H as (r & _ & H).
  apply (eval_conds_grounded es (r_conds r) start (a_support a, a_binding a)).
  - constructor; [constructor | constructor].
  - exact H.
Qed.

Lemma supported_true (s : Store) (a : Activation) :
  supported s a = true <-> Forall (fun i => In i (ids s)) (a_support a).
Proof.
  unfold supported. rewrite forallb_forall, Forall_forall.
  split; intros H i Hi; specialize (H i Hi).
  - apply existsb_exists in H. destruct H as (e & He & Heq).
    apply Nat.eqb_eq in Heq. subst i. apply in_map. exact He.
  - apply existsb_exists. apply in_map_iff in H. destruct H as (e & <- & He).
    exists e. split; [exact He | apply Nat.eqb_refl].
Qed.

Lemma refracted_true (st : State) (a : Activation) :
  refracted st a = true <->
  exists b, In b (fired st) /\ a_rule a = a_rule b /\ a_binding a = a_binding b.
Proof.
  unfold refracted. rewrite existsb_exists. split; intros (b & Hb & H); exists b;
    (split; [exact Hb|]); apply same_activation_true; exact H.
Qed.

Lemma refracted_false (st : State) (a : Activation) :
  refracted st a = false <->
  forall b, In b (fired st) -> a_rule a = a_rule b -> a_binding a = a_binding b -> False.
Proof.
  split.
  - intros H b Hb Hr Hbn.
    assert (Ht : refracted st a = true) by (apply refracted_true; eauto).
    congruence.
  - intro H. destruct (refracted st a) eqn:E; [|reflexivity].
    apply refracted_true in E. destruct E as (b & Hb & Hr & Hbn).
    destruct (H b Hb Hr Hbn).
Qed.

(** On the agenda: a match whose rule and binding are not in the refraction
    set. *)
Lemma in_agenda (st : State) (a : Activation) :
  In a (agenda rules st) <->
  In a (matches rules (entries (store st))) /\ refracted st a = false.
Proof.
  unfold agenda. rewrite filter_In.
  destruct (refracted st a); cbn; intuition discriminate.
Qed.

Lemma agenda_not_fired (st : State) (a : Activation) :
  In a (agenda rules st) -> ~ In a (fired st).
Proof.
  intros H Hf. apply in_agenda in H. destruct H as [_ H].
  apply (proj1 (refracted_false st a) H a Hf); reflexivity.
Qed.

Lemma not_refracted_not_fired (st : State) (a : Activation) :
  refracted st a = false -> ~ In a (fired st).
Proof.
  intros H Hf. apply (proj1 (refracted_false st a) H a Hf); reflexivity.
Qed.

(** A refraction set that keeps its activations keeps what it suppresses. *)
Lemma refracted_mono (st st' : State) (a : Activation) :
  (forall c, In c (fired st) -> In c (fired st')) ->
  refracted st a = true -> refracted st' a = true.
Proof.
  intros H Ha. apply refracted_true in Ha. destruct Ha as (c & Hc & Hs).
  apply refracted_true. exists c. auto.
Qed.

Lemma supported_mono (s s' : Store) (a : Activation) :
  incl (entries s) (entries s') -> supported s a = true -> supported s' a = true.
Proof.
  intros H Ha. apply supported_true. apply supported_true in Ha.
  eapply Forall_impl; [|exact Ha]. cbn. intros k Hk.
  apply in_map_iff in Hk. destruct Hk as (e & <- & He). apply in_map. apply H, He.
Qed.

(** *** The order of the agenda *)

Lemma before_true (es : list Entry) (a b : Activation) :
  before rules es a b = true <->
  (salience_of rules b < salience_of rules a)%Q \/
  (salience_of rules a == salience_of rules b)%Q /\
  (enabled_at es b < enabled_at es a \/
   enabled_at es a = enabled_at es b /\ a_rule a < a_rule b).
Proof.
  unfold before.
  destruct (Qcompare_spec (salience_of rules a) (salience_of rules b)) as [H|H|H].
  - destruct (Nat.ltb_spec (enabled_at es b) (enabled_at es a)).
    + split; auto.
    + destruct (Nat.ltb_spec (enabled_at es a) (enabled_at es b)).
      * split; [discriminate|]. intros [?|[_ [?|[? _]]]]; try lra; lia.
      * rewrite Nat.ltb_lt. split; [intro; right; split; auto; right; split; auto; lia|].
        intros [?|[_ [?|[_ ?]]]]; try lra; try lia.
  - split; [discriminate|]. intros [?|[? _]]; lra.
  - split; auto.
Qed.

Lemma before_irrefl (es : list Entry) (a : Activation) : before rules es a a = false.
Proof.
  destruct (before rules es a a) eqn:E; [|reflexivity].
  apply before_true in E. destruct E as [?|[_ [?|[_ ?]]]]; try lra; lia.
Qed.

Lemma before_asym (es : list Entry) (a b : Activation) :
  before rules es a b = true -> before rules es b a = false.
Proof.
  intro H. destruct (before rules es b a) eqn:E; [|reflexivity].
  apply before_true in H. apply before_true in E.
  destruct H as [?|[? [?|[? ?]]]], E as [?|[? [?|[? ?]]]]; try lra; lia.
Qed.

(** Two activations neither of which precedes the other agree on salience,
    enabling cycle and rule. *)
Lemma before_tie (es : list Entry) (a b : Activation) :
  before rules es a b = false -> before rules es b a = false ->
  (salience_of rules a == salience_of rules b)%Q /\
  enabled_at es a = enabled_at es b /\ a_rule a = a_rule b.
Proof.
  intros H1 H2.
  assert (N1 : ~ before rules es a b = true) by (rewrite H1; discriminate).
  assert (N2 : ~ before rules es b a = true) by (rewrite H2; discriminate).
  rewrite before_true in N1, N2.
  assert (Hs : (salience_of rules a == salience_of rules b)%Q).
  { destruct (Qcompare_spec (salience_of rules a) (salience_of rules b)); tauto. }
  assert (Hs' : (salience_of rules b == salience_of rules a)%Q) by lra.
  split; [exact Hs|].
  assert (He : enabled_at es a = enabled_at es b).
  { destruct (Nat.lt_trichotomy (enabled_at es a) (enabled_at es b))
      as [?|[?|?]]; tauto. }
  split; [exact He|].
  destruct (Nat.lt_trichotomy (a_rule a) (a_rule b)) as [?|[?|?]]; auto.
  - exfalso. apply N1. right. tauto.
  - exfalso. apply N2. right. split; auto.
Qed.

Lemma before_neg_trans (es : list Entry) (a b c : Activation) :
  before rules es b a = false -> before rules es c b = false ->
  before rules es c a = false.
Proof.
  intros H1 H2. destruct (before rules es c a) eqn:E; [|reflexivity].
  exfalso.
  assert (N1 : ~ before rules es b a = true) by (rewrite H1; discriminate).
  assert (N2 : ~ before rules es c b = true) by (rewrite H2; discriminate).
  rewrite before_true in N1, N2, E.
  destruct (Qcompare_spec (salience_of rules b) (salience_of rules a)) as [Q1|Q1|Q1];
    [| |apply N1; left; exact Q1].
  - destruct (Qcompare_spec (salience_of rules c) (salience_of rules b)) as [Q2|Q2|Q2];
      [| |apply N2; left; exact Q2].
    + destruct E as [?|[_ E]]; [lra|].
      destruct (Nat.lt_trichotomy (enabled_at es b) (enabled_at es a)) as [?|[?|?]];
        [|
         |apply N1; right; split; [exact Q1 | left; assumption]].
      * destruct (Nat.lt_trichotomy (enabled_at es c) (enabled_at es b)) as [?|[?|?]];
          [destruct E as [?|[? _]]; lia
          |destruct E as [?|[? _]]; lia
          |apply N2; right; split; [exact Q2 | left; assumption]].
      * destruct (Nat.lt_trichotomy (enabled_at es c) (enabled_at es b)) as [?|[?|?]];
          [destruct E as [?|[? _]]; lia
          |
          |apply N2; right; split; [exact Q2 | left; assumption]].
        destruct E as [?|[_ E]]; [lia|].
        destruct (Nat.lt_trichotomy (a_rule b) (a_rule a)) as [?|[?|?]];
          [apply N1; right; split; [exact Q1 | right; split; [lia | assumption]]
          |
          |].
        -- destruct (Nat.lt_trichotomy (a_rule c) (a_rule b)) as [?|[?|?]];
             [apply N2; right; split; [exact Q2 | right; split; [lia | assumption]]
             |lia|lia].
        -- destruct (Nat.lt_trichotomy (a_rule c) (a_rule b)) as [?|[?|?]];
             [apply N2; right; split; [exact Q2 | right; split; [lia | assumption]]
             |lia|lia].
    + destruct E as [?|[? _]]; lra.
  - destruct (Qcompare_spec (salience_of rules c) (salience_of rules b)) as [Q2|Q2|Q2];
      [| |apply N2; left; exact Q2]; destruct E as [?|[? _]]; lra.
Qed.

Lemma top_none (es : list Entry) (l : list Activation) :
  top rules es l = None <-> l = [].
Proof.
  destruct l as [|a r]; cbn; [tauto|].
  destruct (top rules es r) as [b|]; [destruct (before rules es b a)|];
    split; discriminate.
Qed.

Lemma top_in (es : list Entry) (l : list Activation) (a : Activation) :
  top rules es l = Some a -> In a l.
Proof.
  revert a. induction l as [|x r IH]; cbn; intros a H; [discriminate|].
  destruct (top rules es r) as [b|].
  - destruct (before rules es b x); injection H as <-; auto.
  - injection H as <-. auto.
Qed.

(** Nothing on the list precedes the activation that [top] picks. *)
Lemma top_max (es : list Entry) (l : list Activation) (a : Activation) :
  top rules es l = Some a -> forall b, In b l -> before rules es b a = false.
Proof.
  revert a. induction l as [|x r IH]; cbn [top]; intros a H b Hb; [destruct Hb|].
  destruct (top rules es r) as [m|] eqn:Er.
  - destruct (before rules es m x) eqn:Em; injection H as <-.
    + destruct Hb as [<-|Hb]; [apply before_asym; exact Em | apply (IH m); auto].
    + destruct Hb as [<-|Hb]; [apply before_irrefl|].
      eapply before_neg_trans; [exact Em | apply (IH m); auto].
  - injection H as <-. apply top_none in Er. subst r.
    destruct Hb as [<-|[]]. apply before_irrefl.
Qed.

Lemma top_some (es : list Entry) (l : list Activation) :
  l <> [] -> exists a, top rules es l = Some a.
Proof.
  intro H. destruct (top rules es l) as [a|] eqn:E; [eauto|].
  apply top_none in E. contradiction.
Qed.

End Agenda.

(** *** One cycle *)

Section Cycle.

Variable rules : list Rule.

Lemma step_fired (st : State) (w : World) (a : Activation) (h : bool)
      (st' : State) (w' : World) :
  step rules st w = Fired a h st' w' ->
  exists r effs,
    top rules (entries (store st)) (agenda rules st) = Some a /\
    nth_error rules (a_rule a) = Some r /\
    r_action r (a_binding a) (wm st) w = Some (effs, w') /\
    h = halts effs /\
    store st' = fold_left (apply_effect (S (cycle st))) effs (store st) /\
    cycle st' = S (cycle st) /\
    fired st' = filter (supported (store st')) (a :: fired st).
Proof.
  unfold step. intro H.
  destruct (top rules (entries (store st)) (agenda rules st)) as [b|]; [|discriminate].
  destruct (nth_error rules (a_rule b)) as [r|] eqn:Er; [|discriminate].
  destruct (r_action r (a_binding b) (wm st) w) as [[effs w1]|] eqn:Ea; [|discriminate].
  injection H as <- <- <- <-. exists r, effs. cbn. auto 10.
Qed.

Lemma step_quiescent (st : State) (w : World) :
  step rules st w = Quiescent -> agenda rules st = [].
Proof.
  unfold step. intro H.
  destruct (top rules (entries (store st)) (agenda rules st)) as [b|] eqn:Et.
  - exfalso. apply top_in, in_agenda in Et. destruct Et as [Hm _].
    apply in_matches in Hm. destruct Hm as (r & Hr & _). rewrite Hr in H.
    destruct (r_action r (a_binding b) (wm st) w) as [[? ?]|]; discriminate.
  - apply top_none in Et. exact Et.
Qed.

(** The activation that strictly precedes every other eligible one fires. *)
Lemma step_intro (st : State) (w : World) (a : Activation) (r : Rule)
      (effs : list Effect) (w' : World) :
  In a (agenda rules st) ->
  (forall b, In b (agenda rules st) ->
             b = a \/ before rules (entries (store st)) a b = true) ->
  nth_error rules (a_rule a) = Some r ->
  r_action r (a_binding a) (wm st) w = Some (effs, w') ->
  step rules st w =
  Fired a (halts effs)
        (mkState (fold_left (apply_effect (S (cycle st))) effs (store st))
                 (S (cycle st))
                 (filter (supported (fold_left (apply_effect (S (cycle st))) effs (store st)))
                         (a :: fired st))) w'.
Proof.
  intros Ha Hbest Hr Hact. unfold step.
  destruct (top rules (entries (store st)) (agenda rules st)) as [t|] eqn:Et.
  - assert (t = a).
    { destruct (Hbest t (top_in _ _ _ _ Et)) as [H|H]; [exact H|].
      pose proof (top_max _ _ _ _ Et a Ha). congruence. }
    subst t. rewrite Hr, Hact. reflexivity.
  - apply top_none in Et. rewrite Et in Ha. destruct Ha.
Qed.

Lemma step_idle (st : State) (w : World) :
  agenda rules st = [] -> step rules st w = Quiescent.
Proof. intro H. unfold step. rewrite H. reflexivity. Qed.

Lemma next_id_apply (cyc : nat) (s : Store) (e : Effect) :
  next_id s <= next_id (apply_effect cyc s e).
Proof.
  destruct e as [f|f|]; cbn; unfold insert, retract;
    try destruct (present f s); cbn; lia.
Qed.

(** A stored fact whose index was already given out is an old one. *)
Lemma old_entry_apply (cyc : nat) (s : Store) (e : Effect) (x : Entry) :
  In x (entries (apply_effect cyc s e)) -> eid x < next_id s -> In x (entries s).
Proof.
  destruct e as [f|f|]; cbn; unfold insert, retract;
    try destruct (present f s); cbn; auto.
  - rewrite in_app_iff. intros [H|[<-|[]]] Hlt; [exact H | cbn in Hlt; lia].
  - rewrite filter_In. tauto.
Qed.

Lemma next_id_effects (cyc : nat) (effs : list Effect) :
  forall s, next_id s <= next_id (fold_left (apply_effect cyc) effs s).
Proof.
  induction effs as [|e r IH]; cbn; intro s; [lia|].
  etransitivity; [apply (next_id_apply cyc s e) | apply IH].
Qed.

Lemma old_entry_effects (cyc : nat) (effs : list Effect) (x : Entry) :
  forall s, In x (entries (fold_left (apply_effect cyc) effs s)) ->
            eid x < next_id s -> In x (entries s).
Proof.
  induction effs as [|e r IH]; cbn; intros s H Hlt; [exact H|].
  apply (old_entry_apply cyc s e); [|exact Hlt].
  apply IH; [exact H|]. pose proof (next_id_apply cyc s e). lia.
Qed.

Lemma step_wf (st : State) (w : World) (a : Activation) (h : bool)
      (st' : State) (w' : World) :
  wf_state st -> step rules st w = Fired a h st' w' -> wf_state st'.
Proof.
  intros [Hs _] H. apply step_fired in H.
  destruct H as (r & effs & _ & _ & _ & _ & Hst & _ & Hf). split.
  - rewrite Hst. apply wf_effects. exact Hs.
  - rewrite Hf. apply Forall_forall. intros x Hx. apply filter_In in Hx. tauto.
Qed.

Lemma step_old_entry (st : State) (w : World) (a : Activation) (h : bool)
      (st' : State) (w' : World) (x : Entry) :
  step rules st w = Fired a h st' w' ->
  In x (entries (store st')) -> eid x < next_id (store st) -> In x (entries (store st)).
Proof.
  intros H. apply step_fired in H.
  destruct H as (r & effs & _ & _ & _ & _ & Hst & _). rewrite Hst.
  apply old_entry_effects.
Qed.

Lemma step_next_id (st : State) (w : World) (a : Activation) (h : bool)
      (st' : State) (w' : World) :
  step rules st w = Fired a h st' w' -> next_id (store st) <= next_id (store st').
Proof.
  intros H. apply step_fired in H.
  destruct H as (r & effs & _ & _ & _ & _ & Hst & _). rewrite Hst.
  apply next_id_effects.
Qed.

Lemma ids_below (s : Store) (k : nat) :
  wf_store s -> In k (ids s) -> k < next_id s.
Proof.
  intros (_ & _ & Hb) Hk. apply in_map_iff in Hk. destruct Hk as (e & <- & He).
  rewrite Forall_forall in Hb. auto.
Qed.

Lemma spent_not_on_agenda (st : State) (a : Activation) :
  spent st a -> ~ In a (agenda rules st).
Proof.
  intros [Hf|(k & Hk & _ & Hn)] Ha.
  - exact (agenda_not_fired rules st a Ha Hf).
  - apply in_agenda in Ha. destruct Ha as [Hm _].
    apply matches_grounded in Hm. rewrite Forall_forall in Hm. apply Hn, Hm, Hk.
Qed.

(** An activation in the refraction set keeps every activation with its rule
    and its binding off the agenda. *)
Lemma refraction_set_blocks (st : State) (a b : Activation) :
  In a (fired st) -> a_rule b = a_rule a -> a_binding b = a_binding a ->
  ~ In b (agenda rules st).
Proof.
  intros Hf Hr Hb Hin. apply in_agenda in Hin. destruct Hin as [_ Hn].
  exact (proj1 (refracted_false st b) Hn a Hf Hr Hb).
Qed.

Lemma grounded_or_dead (s : Store) (a : Activation) :
  supported s a = true \/ exists k, In k (a_support a) /\ ~ In k (ids s).
Proof.
  destruct (supported s a) eqn:E; [now left | right].
  unfold supported in E.
  assert (H : ~ forallb (fun i => existsb (fun e => Nat.eqb (eid e) i) (entries s))
                (a_support a) = true) by (rewrite E; discriminate).
  rewrite forallb_forall in H.
  induction (a_support a) as [|i l IH].
  - exfalso. apply H. intros ? [].
  - destruct (existsb (fun e => Nat.eqb (eid e) i) (entries s)) eqn:Ei.
    + destruct IH as (k & Hk & Hn).
      * cbn in E. rewrite Ei in E. exact E.
      * intros Hall. apply H. intros x [<-|Hx]; auto.
      * exists k. split; [now right | exact Hn].
    + exists i. split; [now left|]. intro Hin.
      apply in_map_iff in Hin. destruct Hin as (e & He & Hin).
      assert (existsb (fun e => Nat.eqb (eid e) i) (entries s) = true).
      { apply existsb_exists. exists e. split; [exact Hin | apply Nat.eqb_eq, He]. }
      congruence.
Qed.

(** Once spent, an activation stays spent; the activation that fires is
    spent from then on. *)
Lemma spent_step (st : State) (w : World) (a : Activation) (h : bool)
      (st' : State) (w' : World) :
  wf_state st -> step rules st w = Fired a h st' w' ->
  spent st' a /\ forall c, spent st c -> spent st' c.
Proof.
  intros [Hs Hf] H. pose proof (step_next_id _ _ _ _ _ _ H) as Hn.
  pose proof (fun x => step_old_entry _ _ _ _ _ _ x H) as Hold.
  apply step_fired in H.
  destruct H as (r & effs & Ht & _ & _ & _ & _ & _ & Hf').
  assert (Hkeep : forall c, (In c (fired st) \/ c = a) ->
                            Forall (fun i => In i (ids (store st))) (a_support c) ->
                            spent st' c).
  { intros c Hc Hg. destruct (grounded_or_dead (store st') c) as [Hsup|(k & Hk & Hd)].
    - left. rewrite Hf'. apply filter_In. split; [|exact Hsup].
      destruct Hc as [Hc| ->]; [now right | now left].
    - right. exists k. repeat split; auto.
      rewrite Forall_forall in Hg. pose proof (ids_below _ _ Hs (Hg k Hk)). lia. }
  split.
  - apply Hkeep; [now right|]. apply top_in, in_agenda in Ht.
    apply (matches_grounded rules), Ht.
  - intros c [Hc|(k & Hk & Hlt & Hd)].
    + apply Hkeep; [now left|]. rewrite Forall_forall in Hf.
      apply supported_true, Hf, Hc.
    + right. exists k. repeat split; auto; [lia|].
      intro Hin. apply Hd. apply in_map_iff in Hin. destruct Hin as (e & <- & He).
      apply in_map. apply Hold; assumption.
Qed.

Lemma firings_cons (n : nat) (st : State) (w : World) (x : State * Activation * State)
      (l : list (State * Activation * State)) :
  firings rules n st w = x :: l ->
  exists m h w', n = S m /\ step rules st w = Fired (snd (fst x)) h (snd x) w' /\
                 fst (fst x) = st /\
                 (l = [] \/ l = firings rules m (snd x) w').
Proof.
  destruct n as [|m]; cbn; [discriminate|].
  destruct (step rules st w) as [| |a [|] st' w'] eqn:E; try discriminate;
    intro H; injection H as <- <-; exists m; eauto 10.
Qed.

(** Along a run every state is well formed, and what was spent when the run
    started is spent at every firing. *)
Lemma firings_invariant (n : nat) :
  forall st w b a s',
    wf_state st -> In (b, a, s') (firings rules n st w) ->
    wf_state b /\ wf_state s' /\ In a (agenda rules b) /\
    (forall c, spent st c -> spent b c) /\
    (forall x, In x (entries (store b)) -> eid x < next_id (store st) ->
               In x (entries (store st))).
Proof.
  induction n as [|n IH]; intros st w b a s' Hwf Hin; [destruct Hin|].
  destruct (firings rules (S n) st w) as [|x l] eqn:E; [destruct Hin|].
  apply firings_cons in E. destruct E as (m & h & w' & Hm & Hstep & Hst & Hl).
  injection Hm as <-. destruct x as [[b0 a0] s0]. cbn in Hstep, Hst, Hl. subst b0.
  destruct Hin as [Heq|Hin].
  - injection Heq as <- <- <-.
    split; [exact Hwf|]. split; [eapply step_wf; eauto|].
    split; [|split; auto].
    apply step_fired in Hstep. destruct Hstep as (? & ? & Ht & _).
    apply top_in in Ht. exact Ht.
  - destruct Hl as [->| ->]; [destruct Hin|].
    pose proof (step_wf _ _ _ _ _ _ Hwf Hstep) as Hwf'.
    destruct (IH _ _ _ _ _ Hwf' Hin) as (H1 & H2 & H3 & H4 & H5).
    split; [exact H1|]. split; [exact H2|]. split; [exact H3|]. split.
    + intros c Hc. apply H4. apply (spent_step _ _ _ _ _ _ Hwf Hstep). exact Hc.
    + intros x Hx Hlt. apply (step_old_entry _ _ _ _ _ _ x Hstep); [|exact Hlt].
      apply H5; [exact Hx|].
      pose proof (step_next_id _ _ _ _ _ _ Hstep). lia.
Qed.

(** Of two firings of a run, the later one finds the earlier activation
    spent and the facts of the earlier state unchanged where still stored. *)
Lemma firings_later (n : nat) :
  forall st w i j bi ai si bj aj sj,
    wf_state st ->
    nth_error (firings rules n st w) i = Some (bi, ai, si) ->
    nth_error (firings rules n st w) j = Some (bj, aj, sj) ->
    i < j ->
    spent bj ai /\
    (forall x, In x (entries (store bj)) -> eid x < next_id (store bi) ->
               In x (entries (store bi))).
Proof.
  induction n as [|n IH]; intros st w i j bi ai si bj aj sj Hwf Hi Hj Hlt.
  - destruct i; discriminate.
  - destruct (firings rules (S n) st w) as [|x l] eqn:E; [destruct i; discriminate|].
    apply firings_cons in E. destruct E as (m & h & w' & Hm & Hstep & Hst & Hl).
    injection Hm as <-. destruct x as [[b0 a0] s0]. cbn in Hstep, Hst, Hl. subst b0.
    pose proof (step_wf _ _ _ _ _ _ Hwf Hstep) as Hwf'.
    destruct j as [|j]; [lia|]. cbn in Hj.
    destruct Hl as [->| ->]; [destruct j; discriminate|].
    destruct i as [|i].
    + cbn in Hi. injection Hi as <- <- <-.
      apply nth_error_In in Hj.
      destruct (firings_invariant _ _ _ _ _ _ Hwf' Hj) as (_ & _ & _ & H4 & H5).
      split.
      * apply H4. destruct (spent_step _ _ _ _ _ _ Hwf Hstep) as [Hsp _]. exact Hsp.
      * intros x Hx Hlt'. apply (step_old_entry _ _ _ _ _ _ x Hstep); [|exact Hlt'].
        apply H5; [exact Hx|].
        pose proof (step_next_id _ _ _ _ _ _ Hstep). lia.
    + cbn in Hi. eapply IH; eauto. lia.
Qed.

End Cycle.

End EngineFacts.

(** ** Refraction and the absence of duplicates *)

Module EngineClaims.
Import Engine Notions StoreFacts EngineFacts.

Lemma entry_of_some (s : Store) (k : nat) (e : Entry) :
  entry_of s k = Some e -> In e (entries s) /\ eid e = k.
Proof.
  unfold entry_of. intro H. apply find_some in H.
  destruct H as [Hin Heq]. apply Nat.eqb_eq in Heq. auto.
Qed.

Lemma entry_of_in (s : Store) (e : Entry) :
  NoDup (ids s) -> In e (entries s) -> entry_of s (eid e) = Some e.
Proof.
  intros Hn He. destruct (entry_of s (eid e)) as [x|] eqn:E.
  - apply entry_of_some in E. destruct E as [Hx Hid]. f_equal.
    apply (NoDup_map_inj eid (entries s)); auto.
  - unfold entry_of in E. eapply find_none in E; [|exact He].
    rewrite Nat.eqb_refl in E. discriminate.
Qed.

Lemma wf_state_reset (deffacts : list Fact) : wf_state (reset deffacts).
Proof. split; [apply wf_reset | constructor]. Qed.

Lemma firings_step (rules : list Rule) (n : nat) :
  forall st w b a s',
    In (b, a, s') (firings rules n st w) ->
    exists wb h ws, step rules b wb = Fired a h s' ws.
Proof.
  induction n as [|n IH]; intros st w b a s' Hin; [destruct Hin|].
  destruct (firings rules (S n) st w) as [|x l] eqn:E; [destruct Hin|].
  apply firings_cons in E. destruct E as (m & h & w' & Hm & Hstep & Hst & Hl).
  injection Hm as <-. destruct x as [[b0 a0] s0]. cbn in Hstep, Hst, Hl. subst b0.
  destruct Hin as [Heq|Hin].
  - injection Heq as <- <- <-. eauto.
  - destruct Hl as [->| ->]; [destruct Hin|]. eapply IH; eauto.
Qed.

(** After it has fired, an activation is spent in every later state of the
    run. *)
Lemma spent_after (rules : list Rule) (deffacts : list Fact) (w : World) (n i j : nat)
      (bi si bj sj : State) (ai aj : Activation) :
  nth_error (firings rules n (reset deffacts) w) i = Some (bi, ai, si) ->
  nth_error (firings rules n (reset deffacts) w) j = Some (bj, aj, sj) ->
  i <= j -> spent sj ai.
Proof.
  intros Hi Hj Hle. pose proof (wf_state_reset deffacts) as Hwf.
  destruct (firings_invariant rules n _ _ _ _ _ Hwf (nth_error_In _ _ Hj))
    as (Hwj & _).
  destruct (firings_step rules n _ _ _ _ _ (nth_error_In _ _ Hj))
    as (wb & h & ws & Hstep).
  destruct (spent_step rules bj wb aj h sj ws Hwj Hstep) as [Hsp Hkeep].
  destruct (Nat.eq_dec i j) as [->|Hne].
  - rewrite Hi in Hj. injection Hj as _ <- _. exact Hsp.
  - apply Hkeep.
    destruct (firings_later rules n _ _ _ _ _ _ _ _ _ _ Hwf Hi Hj) as [H _]; [lia|].
    exact H.
Qed.

(** *** The binding of a rule without disjunction tells the facts it matched *)

Lemma extend_cases (p q : Partial) (e : Entry) (x : option string) :
  In q (extend p e x) ->
  fst q = fst p ++ [eid e] /\
  ((snd q = snd p /\
    exists var, x = Some var /\ lookup var (snd p) = Some (value (content e))) \/
   (exists nome, snd q = snd p ++ [(nome, value (content e))] /\
                 match x with
                 | Some var => lookup var (snd p) = None
                 | None => True
                 end)).
Proof.
  unfold extend. destruct x as [var|].
  - destruct (lookup var (snd p)) as [v|] eqn:El.
    + destruct (String.eqb v (value (content e))) eqn:Ev; [|intros []].
      apply String.eqb_eq in Ev. subst v. intros [<-|[]].
      split; [reflexivity|]. left. split; [reflexivity|]. exists var. auto.
    + intros [<-|[]]. split; [reflexivity|]. right. exists var. auto.
  - intros [<-|[]]. split; [reflexivity|]. right. exists senza_nome. auto.
Qed.

(** A condition adds to the binding at its end. *)
Lemma legame_cresce_cond (es : list Entry) (c : Cond) :
  forall p q, In q (eval_cond es c p) -> exists rest, snd q = snd p ++ rest.
Proof.
  induction c as [f v|f x|c IH|cs IH] using Cond_induction; intros p q Hq.
  - apply in_FieldEquals in Hq. destruct Hq as (e & _ & _ & ->).
    exists []. cbn. now rewrite app_nil_r.
  - apply in_Exists in Hq. destruct Hq as (e & _ & _ & Hq).
    apply extend_cases in Hq. destruct Hq as [_ [[Hs _]|(nome & Hs & _)]].
    + exists []. now rewrite app_nil_r.
    + eauto.
  - apply in_Not in Hq. destruct Hq as [-> _]. exists []. now rewrite app_nil_r.
  - apply in_Or in Hq. destruct Hq as (c & Hc & Hq).
    rewrite Forall_forall in IH. exact (IH c Hc p q Hq).
Qed.

Lemma legame_cresce (es : list Entry) (cs : list Cond) :
  forall p q, In q (eval_conds es cs [p]) -> exists rest, snd q = snd p ++ rest.
Proof.
  induction cs as [|c r IH]; intros p q Hq.
  - destruct Hq as [<-|[]]. exists []. now rewrite app_nil_r.
  - apply in_eval_conds_cons in Hq. destruct Hq as (p0 & p' & [<-|[]] & Hp' & Hq).
    destruct (legame_cresce_cond es c _ _ Hp') as (r1 & H1).
    destruct (IH _ _ Hq) as (r2 & H2).
    exists (r1 ++ r2). rewrite H2, H1, app_assoc. reflexivity.
Qed.

Lemma fatti_di_snoc (s : Store) (l : list nat) (e : Entry) :
  NoDup (ids s) -> In e (entries s) ->
  fatti_di s (l ++ [eid e]) = fatti_di s l ++ [Some (content e)].
Proof.
  intros Hn He. unfold fatti_di. rewrite map_app. cbn [map].
  rewrite (entry_of_in s e Hn He). reflexivity.
Qed.

(** One condition that is not a disjunction, evaluated in two stores from
    the same binding towards the same binding: it binds the same, and it
    matches facts of the same content. *)
Lemma passo_determinato (s1 s2 : Store) (c : Cond) (p1 p2 q1 q2 : Partial)
      (t1 t2 : Binding) :
  NoDup (ids s1) -> NoDup (ids s2) ->
  senza_or c = true ->
  snd p1 = snd p2 ->
  In q1 (eval_cond (entries s1) c p1) -> In q2 (eval_cond (entries s2) c p2) ->
  snd q1 ++ t1 = snd q2 ++ t2 ->
  snd q1 = snd q2 /\
  (fatti_di s1 (fst p1) = fatti_di s2 (fst p2) ->
   fatti_di s1 (fst q1) = fatti_di s2 (fst q2)).
Proof.
  intros Hn1 Hn2 Hc Hp H1 H2 Ht. destruct c as [f v|f x|c|cs]; [| | |discriminate Hc].
  - apply in_FieldEquals in H1. destruct H1 as (e1 & He1 & Hc1 & ->).
    apply in_FieldEquals in H2. destruct H2 as (e2 & He2 & Hc2 & ->).
    cbn [fst snd]. split; [exact Hp|]. intro Hf.
    rewrite (fatti_di_snoc s1 _ e1 Hn1 He1), (fatti_di_snoc s2 _ e2 Hn2 He2).
    rewrite Hf, Hc1, Hc2. reflexivity.
  - apply in_Exists in H1. destruct H1 as (e1 & He1 & Hf1 & H1).
    apply in_Exists in H2. destruct H2 as (e2 & He2 & Hf2 & H2).
    apply extend_cases in H1. destruct H1 as [Hq1 H1].
    apply extend_cases in H2. destruct H2 as [Hq2 H2].
    assert (Hfatti : value (content e1) = value (content e2) ->
                     fatti_di s1 (fst p1) = fatti_di s2 (fst p2) ->
                     fatti_di s1 (fst q1) = fatti_di s2 (fst q2)).
    { intros Hv Hf. rewrite Hq1, Hq2.
      rewrite (fatti_di_snoc s1 _ e1 Hn1 He1), (fatti_di_snoc s2 _ e2 Hn2 He2).
      rewrite Hf. do 3 f_equal.
      destruct (content e1), (content e2); cbn in *; congruence. }
    destruct H1 as [[Hs1 (var1 & Hx1 & Hl1)]|(n1 & Hs1 & Hx1)];
      destruct H2 as [[Hs2 (var2 & Hx2 & Hl2)]|(n2 & Hs2 & Hx2)].
    + split; [congruence|]. apply Hfatti.
      rewrite Hx1 in Hx2. injection Hx2 as <-. rewrite Hp in Hl1. congruence.
    + exfalso. rewrite Hx1 in Hx2. rewrite Hp in Hl1. congruence.
    + exfalso. rewrite Hx2 in Hx1. rewrite Hp in Hx1. congruence.
    + rewrite Hs1, Hs2, Hp, <- !app_assoc in Ht. apply app_inv_head in Ht.
      cbn [app] in Ht. injection Ht as Hn Hv _.
      split; [rewrite Hs1, Hs2, Hp, Hn, Hv; reflexivity|]. apply Hfatti. exact Hv.
  - apply in_Not in H1. destruct H1 as [-> _].
    apply in_Not in H2. destruct H2 as [-> _]. auto.
Qed.

(** The conditions of a rule without disjunction, matched in two stores with
    the same binding, are matched by facts of the same content. *)
Lemma legame_determina (s1 s2 : Store) (cs : list Cond) :
  NoDup (ids s1) -> NoDup (ids s2) -> forallb senza_or cs = true ->
  forall p1 p2 q1 q2,
    snd p1 = snd p2 -> fatti_di s1 (fst p1) = fatti_di s2 (fst p2) ->
    In q1 (eval_conds (entries s1) cs [p1]) ->
    In q2 (eval_conds (entries s2) cs [p2]) ->
    snd q1 = snd q2 -> fatti_di s1 (fst q1) = fatti_di s2 (fst q2).
Proof.
  intros Hn1 Hn2. induction cs as [|c r IH]; intros Hcs p1 p2 q1 q2 Hp Hf H1 H2 Hq.
  - destruct H1 as [<-|[]], H2 as [<-|[]]. exact Hf.
  - cbn [forallb] in Hcs. apply andb_true_iff in Hcs. destruct Hcs as [Hc Hr].
    apply in_eval_conds_cons in H1. destruct H1 as (x1 & p1' & [<-|[]] & Hp1 & H1).
    apply in_eval_conds_cons in H2. destruct H2 as (x2 & p2' & [<-|[]] & Hp2 & H2).
    destruct (legame_cresce _ _ _ _ H1) as (t1 & Ht1).
    destruct (legame_cresce _ _ _ _ H2) as (t2 & Ht2).
    assert (Ht : snd p1' ++ t1 = snd p2' ++ t2) by congruence.
    destruct (passo_determinato s1 s2 c p1 p2 p1' p2' t1 t2 Hn1 Hn2 Hc Hp Hp1 Hp2 Ht)
      as [Hs' Hf'].
    exact (IH Hr p1' p2' q1 q2 Hs' (Hf' Hf) H1 H2 Hq).
Qed.

Lemma fatti_posizione (s1 s2 : Store) (l1 : list nat) :
  forall l2, fatti_di s1 l1 = fatti_di s2 l2 ->
             forall k, In k l1 ->
                       exists k', In k' l2 /\
                                  option_map content (entry_of s2 k')
                                  = option_map content (entry_of s1 k).
Proof.
  induction l1 as [|a l1 IH]; intros [|b l2] H k Hk; try discriminate H; [destruct Hk|].
  cbn [fatti_di map] in H. injection H as Hh Ht. destruct Hk as [<-|Hk].
  - exists b. split; [now left | symmetry; exact Hh].
  - destruct (IH l2 Ht k Hk) as (k' & Hk' & He). exists k'. split; [now right | exact He].
Qed.

(** C6, as amended.  Refraction.  Take any rule table, any initial facts and
    any run.  Once an activation has fired, in every later state of the run
    an activation with its rule and its binding is on the agenda only if one
    of the facts that supported the firing, stored then, is stored no longer;
    and the rule fires again with that binding only if one of those facts
    has been retracted.  So while the supporting facts of a fired activation
    all stay in the store, that rule and binding are not on the agenda and do
    not fire again.  When the rule has no disjunction among its conditions,
    the fact retracted has moreover been asserted again: a fact of the same
    content is in the store, under an index given after the first firing. *)
Theorem refraction
    (rules : list Rule) (deffacts : list Fact) (w : World) (n i j : nat)
    (bi si bj sj : State) (ai aj : Activation) :
  nth_error (firings rules n (reset deffacts) w) i = Some (bi, ai, si) ->
  nth_error (firings rules n (reset deffacts) w) j = Some (bj, aj, sj) ->
  i <= j ->
  (forall b, In b (agenda rules sj) ->
             a_rule b = a_rule ai -> a_binding b = a_binding ai ->
             exists k, In k (a_support ai) /\ In k (ids (store bi)) /\
                       ~ In k (ids (store sj))) /\
  (i < j -> a_rule aj = a_rule ai -> a_binding aj = a_binding ai ->
   (exists k, In k (a_support ai) /\ In k (ids (store bi)) /\
              ~ In k (ids (store bj))) /\
   (forall r, nth_error rules (a_rule ai) = Some r ->
              forallb senza_or (r_conds r) = true ->
              exists k e e',
                In k (a_support ai) /\ entry_of (store bi) k = Some e /\
                ~ In k (ids (store bj)) /\
                In e' (entries (store bj)) /\ content e' = content e /\
                next_id (store bi) <= eid e')).
Proof.
  intros Hi Hj Hle.
  pose proof (wf_state_reset deffacts) as Hwf.
  destruct (firings_invariant rules n _ _ _ _ _ Hwf (nth_error_In _ _ Hi))
    as ([Hwi _] & _ & Hai & _ & _).
  destruct (firings_invariant rules n _ _ _ _ _ Hwf (nth_error_In _ _ Hj))
    as ([Hwj _] & _ & Haj & _ & _).
  assert (Hgi : Forall (fun k => In k (ids (store bi))) (a_support ai)).
  { apply in_agenda in Hai. apply (matches_grounded rules), Hai. }
  assert (Hgone : forall st b,
             spent st ai -> In b (agenda rules st) ->
             a_rule b = a_rule ai -> a_binding b = a_binding ai ->
             exists k, In k (a_support ai) /\ In k (ids (store bi)) /\
                       ~ In k (ids (store st))).
  { intros st b [Hf|(k & Hk & _ & Hn)] Hb Hr Hbn.
    - destruct (refraction_set_blocks rules st ai b Hf Hr Hbn Hb).
    - exists k. rewrite Forall_forall in Hgi. auto. }
  split.
  - intros b Hb Hr Hbn.
    exact (Hgone sj b (spent_after rules deffacts w n i j _ _ _ _ _ _ Hi Hj Hle) Hb Hr Hbn).
  - intros Hlt Hr Hbn.
    destruct (firings_later rules n _ _ _ _ _ _ _ _ _ _ Hwf Hi Hj Hlt) as [Hspent Hold].
    destruct (Hgone bj aj Hspent Haj Hr Hbn) as (k & Hk & Hki & Hkj).
    split; [exists k; auto|].
    intros r Hrule Hor.
    assert (Hfatti : fatti_di (store bi) (a_support ai) = fatti_di (store bj) (a_support aj)).
    { apply in_agenda in Hai. destruct Hai as [Hmi _].
      apply in_agenda in Haj. destruct Haj as [Hmj _].
      apply in_matches in Hmi. destruct Hmi as (ri & Hri & Hini).
      apply in_matches in Hmj. destruct Hmj as (rj & Hrj & Hinj).
      rewrite Hrule in Hri. injection Hri as <-.
      rewrite Hr, Hrule in Hrj. injection Hrj as <-.
      destruct Hwi as (Hni & _). destruct Hwj as (Hnj & _).
      exact (legame_determina (store bi) (store bj) (r_conds r) Hni Hnj Hor
               ([], []) ([], []) (a_support ai, a_binding ai)
               (a_support aj, a_binding aj) eq_refl eq_refl Hini Hinj
               (eq_sym Hbn)). }
    destruct (fatti_posizione _ _ _ _ Hfatti k Hk) as (k' & Hk' & Hc).
    apply in_map_iff in Hki. destruct Hki as (e & Hek & He).
    destruct Hwi as (Hni & Hci & _).
    pose proof (entry_of_in (store bi) e Hni He) as Hei. rewrite Hek in Hei.
    assert (Hgj : In k' (ids (store bj))).
    { apply in_agenda in Haj. destruct Haj as [Hmj _].
      apply (matches_grounded rules) in Hmj. rewrite Forall_forall in Hmj. auto. }
    apply in_map_iff in Hgj. destruct Hgj as (e' & Hek' & He').
    destruct Hwj as (Hnj & _).
    pose proof (entry_of_in (store bj) e' Hnj He') as Hej. rewrite Hek' in Hej.
    rewrite Hei, Hej in Hc. cbn [option_map] in Hc. injection Hc as Hc.
    exists k, e, e'. split; [exact Hk|]. split; [exact Hei|]. split; [exact Hkj|].
    split; [exact He'|]. split; [exact Hc|].
    destruct (Nat.lt_ge_cases (eid e') (next_id (store bi))) as [Hlow|Hge]; [|exact Hge].
    exfalso. apply Hkj.
    assert (e' = e).
    { apply (NoDup_map_inj content (entries (store bi))); auto. }
    subst e'. rewrite <- Hek. apply in_map. exact He'.
Qed.

(** The rule of [rimetti] fires in two successive cycles on the fact
    [azione="ping"]: its action retracts the fact and asserts it again. *)
Lemma refraction_witness :
  (exists k, In k [1] /\ In k [1] /\ ~ In k [2]) /\
  exists k e e',
    In k [1] /\
    entry_of (mkStore [mkEntry 1 0 (mkFact azione "ping")] 2) k = Some e /\
    ~ In k [2] /\
    In e' [mkEntry 2 1 (mkFact azione "ping")] /\ content e' = content e /\
    2 <= eid e'.
Proof.
  destruct (refraction rimetti [mkFact azione "ping"] (mkWorld [] []) 2 0 1
              (reset [mkFact azione "ping"])
              (mkState (mkStore [mkEntry 2 1 (mkFact azione "ping")] 3) 1 [])
              (mkState (mkStore [mkEntry 2 1 (mkFact azione "ping")] 3) 1 [])
              (mkState (mkStore [mkEntry 3 2 (mkFact azione "ping")] 4) 2 [])
              (mkAct 0 [1] []) (mkAct 0 [2] [])
              eq_refl eq_refl (le_S 0 0 (le_n 0))) as [_ H].
  destruct (H (le_n 1) eq_refl eq_refl) as [H1 H2].
  split; [exact H1|]. exact (H2 _ eq_refl eq_refl).
Defined.

(** C6, as it is worded, fails.  The rule of [alterna] fires on
    [azione="a"], which its action retracts while it asserts [azione="b"];
    the rule then fires again, with the same binding, on [azione="b"]: the
    fact that supported the first firing has been retracted and has not been
    asserted again. *)
Lemma refraction_as_claimed_fails : ~ refraction_as_claimed.
Proof.
  intro H.
  destruct (H alterna [mkFact azione "a"] (mkWorld [] []) 2 0 1
              (reset [mkFact azione "a"])
              (mkState (mkStore [mkEntry 2 1 (mkFact azione "b")] 3) 1 [])
              (mkState (mkStore [mkEntry 2 1 (mkFact azione "b")] 3) 1 [])
              (mkState (mkStore [mkEntry 2 1 (mkFact azione "b")] 3) 2
                       [mkAct 0 [2] []])
              (mkAct 0 [1] []) (mkAct 0 [2] [])
              eq_refl eq_refl (le_n 1) eq_refl eq_refl)
    as (k & e & Hk & He & _ & Hin).
  destruct Hk as [<-|[]]. cbn in He. injection He as <-.
  cbn in Hin. destruct Hin as [Hin|[]]. discriminate Hin.
Qed.

(** C7. Asserting a fact whose content is already stored changes nothing and
    reports a duplicate; a store built from the empty one by assertions and
    retractions never holds the same content twice, and neither does the
    working memory of any state of any run. *)
Theorem no_duplicate_facts :
  (forall (s : Store) (cyc : nat) (f : Fact),
      if present f s then insert cyc f s = (s, false)
      else insert cyc f s =
           (mkStore (entries s ++ [mkEntry (next_id s) cyc f]) (S (next_id s)), true)) /\
  (forall (s : Store) (c1 c2 : nat) (f : Fact),
      let s1 := fst (insert c1 f s) in
      insert c2 f s1 = (s1, false) /\
      List.length (entries (fst (insert c2 f s1))) = List.length (entries s1)) /\
  (forall ops : list (nat * Effect), NoDup (contents (build ops))) /\
  (forall (rules : list Rule) (deffacts : list Fact) (w : World) (n : nat),
      Forall (fun x => NoDup (wm (fst (fst x))) /\ NoDup (wm (snd x)))
             (firings rules n (reset deffacts) w)).
Proof.
  split; [|split; [|split]].
  - intros s cyc f. unfold insert. destruct (present f s); reflexivity.
  - intros s c1 c2 f s1.
    assert (H : present f s1 = true).
    { subst s1. unfold insert. destruct (present f s) eqn:E; [exact E|].
      cbn [fst]. apply present_true. unfold contents. cbn [entries].
      rewrite map_app, in_app_iff. right. now left. }
    unfold insert at 1 2. rewrite H. auto.
  - intro ops. apply (wf_build ops).
  - intros rules deffacts w n. apply Forall_forall. intros [[b a] s'] Hin.
    destruct (firings_invariant rules n _ _ _ _ _ (wf_state_reset deffacts) Hin)
      as ([Hb _] & [Hs _] & _).
    split; [apply Hb | apply Hs].
Qed.

End EngineClaims.

(** ** The rule base on the engine *)

Module RuleFacts.
Import Text Interfaccia Engine Consulente Notions StoreFacts EngineFacts.

Lemma halts_app (l1 l2 : list Effect) : halts (l1 ++ l2) = halts l1 || halts l2.
Proof. unfold halts. apply existsb_app. Qed.

Lemma halts_declare (f : Fact) (l : list Effect) : halts (DeclareFact f :: l) = halts l.
Proof. reflexivity. Qed.

Lemma halts_declare_all (f : Field) (vs : list string) : halts (declare_all f vs) = false.
Proof. induction vs; cbn; auto. Qed.

(** No action of the rule base stops the engine. *)
Lemma no_action_halts (K : Collab) (i : nat) (r : Rule) (b : Binding)
      (facts : list Fact) (w w' : World) (effs : list Effect) :
  nth_error (rules K) i = Some r ->
  r_action r b facts w = Some (effs, w') -> halts effs = false.
Proof.
  intros Hr Ha. each_rule Hr; cbn [r_action] in Ha.
  - unfold chiedi_ingredienti in Ha.
    destruct (chiedi_ingredienti_disponibili w) as [[[|x l] w1]|]; try discriminate;
      injection Ha as <- <-; [reflexivity|].
    rewrite halts_declare, halts_app, halts_declare_all. reflexivity.
  - unfold chiedi_tempo in Ha.
    destruct (chiedi_tempo_disponibile w) as [[t w1]|]; try discriminate.
    injection Ha as <- <-. reflexivity.
  - unfold chiedi_preferenze in Ha.
    destruct (chiedi_preferenze_alimentari w) as [[l w1]|]; try discriminate.
    injection Ha as <- <-. rewrite halts_app, halts_declare_all. reflexivity.
  - injection Ha as <- <-. reflexivity.
  - injection Ha as <- <-. reflexivity.
  - injection Ha as <- <-. reflexivity.
  - unfold scegli_candidati in Ha.
    match type of Ha with
    | match ?x with _ => _ end = _ => destruct x as [[rs w1]|]
    end; try discriminate.
    injection Ha as <- <-. reflexivity.
  - injection Ha as <- <-. reflexivity.
  - unfold valuta_ricetta_con_bayes in Ha.
    destruct (lookup "ricetta" b); try discriminate.
    match type of Ha with
    | match ?x with _ => _ end = _ => destruct x as [[rs w1]|]
    end; try discriminate.
    injection Ha as <- <-. reflexivity.
  - unfold stampare_risultato_finale in Ha.
    destruct (lookup "ricetta" b); try discriminate.
    destruct (lookup "valutazione" b); try discriminate.
    destruct (_stampa_dettagli_ricetta K s w) as [alt w1].
    match type of Ha with
    | match ?x with _ => _ end = _ => destruct x
    end; try discriminate.
    injection Ha as <- <-. reflexivity.
  - injection Ha as <- <-. reflexivity.
Qed.

Lemma before_false_salience (rs : list Rule) (es : list Entry) (a b : Activation) :
  before rs es b a = false -> (salience_of rs b <= salience_of rs a)%Q.
Proof.
  intro H.
  assert (N : ~ before rs es b a = true) by (rewrite H; discriminate).
  rewrite before_true in N.
  destruct (Qlt_le_dec (salience_of rs a) (salience_of rs b)); [|assumption].
  exfalso. apply N. now left.
Qed.

(** The activations of a rule with a single condition [Fact(f=v)]. *)
Lemma single_fact_rule (es : list Entry) (f : Field) (v : string) (q : Partial) :
  In q (eval_conds es [FieldEquals f v] start) <->
  exists e, In e es /\ content e = mkFact f v /\ q = ([eid e], []).
Proof.
  rewrite in_eval_conds_cons. split.
  - intros (p & p' & [<-|[]] & Hp' & [<-|[]]).
    apply in_FieldEquals in Hp'. exact Hp'.
  - intros (e & He & Hc & ->). exists ([], []), ([eid e], []).
    split; [now left|]. split; [|now left].
    apply in_FieldEquals. exists e. auto.
Qed.

Lemma nil_if_no_member {A : Type} (l : list A) : (forall x, ~ In x l) -> l = [].
Proof. destruct l as [|a l]; [reflexivity|]. intro H. destruct (H a). now left. Qed.

End RuleFacts.

(** ** What asserting [azione="termina"] does *)

Module Termina.
Import Text Interfaccia Engine Consulente Notions StoreFacts EngineFacts RuleFacts.

Lemma rule_of_terminare (K : Collab) (a : Activation) (r : Rule) :
  nth_error (rules K) (a_rule a) = Some r ->
  name_of (rules K) a = "terminare_esecuzione" ->
  a_rule a = 10 /\ r = mkRule "terminare_esecuzione"
                         [FieldEquals azione "termina"] (- 10)%Q terminare_esecuzione.
Proof.
  intros Hr Hn. unfold name_of in Hn. rewrite Hr in Hn.
  destruct a as [i sup bnd]. cbn [a_rule] in *.
  each_rule Hr; cbn in Hn; try discriminate Hn. auto.
Qed.

(** An activation whose salience is at most -10 is one of
    [terminare_esecuzione]. *)
Lemma lowest_is_terminare (K : Collab) (b : Activation) (r : Rule) :
  nth_error (rules K) (a_rule b) = Some r ->
  (salience_of (rules K) b <= - 10)%Q ->
  a_rule b = 10.
Proof.
  intros Hr Hle. unfold salience_of in Hle. rewrite Hr in Hle.
  destruct b as [i sup bnd]. cbn [a_rule] in *.
  each_rule Hr; cbn in Hle; try reflexivity; exfalso; lra.
Qed.

Lemma terminare_matches (K : Collab) (es : list Entry) (b : Activation) :
  In b (matches (rules K) es) -> a_rule b = 10 ->
  exists e, In e es /\ content e = termina /\ b = mkAct 10 [eid e] [].
Proof.
  intros Hm Hi. apply in_matches in Hm. destruct Hm as (r & Hr & Hin).
  rewrite Hi in Hr. cbn in Hr. injection Hr as <-. cbn [r_conds] in Hin.
  apply single_fact_rule in Hin. destruct Hin as (e & He & Hc & Hq).
  exists e. split; [exact He|]. split; [exact Hc|].
  destruct b as [i sup bnd]. cbn in *. injection Hq as -> ->. subst i. reflexivity.
Qed.

(** The working memory of a well-formed state holds [azione="termina"] at
    most once, so [terminare_esecuzione] has at most one activation. *)
Lemma terminare_unique (K : Collab) (s : Store) (a b : Activation) :
  wf_store s ->
  In a (matches (rules K) (entries s)) -> In b (matches (rules K) (entries s)) ->
  a_rule a = 10 -> a_rule b = 10 -> b = a.
Proof.
  intros (_ & Hc & _) Ha Hb Hia Hib.
  destruct (terminare_matches K _ a Ha Hia) as (ea & Hea & Hca & ->).
  destruct (terminare_matches K _ b Hb Hib) as (eb & Heb & Hcb & ->).
  replace eb with ea; [reflexivity|].
  apply (NoDup_map_inj content (entries s)); auto. congruence.
Qed.

(** When [terminare_esecuzione] fires it is alone on the agenda, it changes
    no fact and leaves nothing to fire. *)
Lemma terminare_ends
    (K : Collab) (st : State) (w : World) (a : Activation) (h : bool)
    (st' : State) (w' : World) :
  wf_state st ->
  step (rules K) st w = Fired a h st' w' ->
  name_of (rules K) a = "terminare_esecuzione" ->
  (forall b, In b (agenda (rules K) st) -> b = a) /\
  wm st' = wm st /\
  step (rules K) st' w' = Quiescent.
Proof.
  intros Hwf Hstep Hn. apply step_fired in Hstep.
  destruct Hstep as (r & effs & Ht & Hr & Ha & Hh & Hst & Hcyc & Hf).
  destruct (rule_of_terminare K a r Hr Hn) as [Hi ->].
  cbn [r_action] in Ha. unfold terminare_esecuzione in Ha. injection Ha as <- <-.
  cbn [fold_left] in Hst.
  pose proof (top_in _ _ _ _ Ht) as Hia. apply in_agenda in Hia.
  destruct Hia as [Hma Hnfa].
  assert (Hone : forall b, In b (agenda (rules K) st) -> b = a).
  { intros b Hb. pose proof (top_max _ _ _ _ Ht b Hb) as Hle.
    apply before_false_salience in Hle.
    apply in_agenda in Hb. destruct Hb as [Hmb _].
    pose proof Hmb as Hmb'. apply in_matches in Hmb'. destruct Hmb' as (rb & Hrb & _).
    assert (Hsa : salience_of (rules K) a = (- 10)%Q).
    { unfold salience_of. rewrite Hr. reflexivity. }
    rewrite Hsa in Hle.
    destruct Hwf as [Hws _].
    apply (terminare_unique K (store st)); auto.
    eapply lowest_is_terminare; eauto. }
  split; [exact Hone|]. split; [unfold wm; rewrite Hst; reflexivity|].
  apply step_idle. apply nil_if_no_member. intros b Hb.
  apply in_agenda in Hb. destruct Hb as [Hmb Hnfb]. rewrite Hst in Hmb.
  assert (Hkeep : forall c, In c (a :: fired st) -> supported (store st) c = true ->
                            In c (fired st')).
  { intros c Hc Hs. rewrite Hf. apply filter_In. rewrite Hst. auto. }
  destruct (refracted st b) eqn:Eb.
  - apply refracted_true in Eb. destruct Eb as (c & Hc & Hr1 & Hb1).
    apply (proj1 (refracted_false st' b) Hnfb c); auto.
    apply Hkeep; [now right|]. destruct Hwf as [_ Hfs].
    rewrite Forall_forall in Hfs. auto.
  - assert (b = a) by (apply Hone; apply in_agenda; auto). subst b.
    apply (proj1 (refracted_false st' a) Hnfb a); auto.
    apply Hkeep; [now left|]. apply supported_true.
    apply (matches_grounded (rules K)). exact Hma.
Qed.

(** C2, as the code has it.  No action of the rule base stops the engine:
    asserting [azione="termina"] only makes [terminare_esecuzione] (salience
    -10, the lowest) eligible.  When that rule fires, its activation is the
    only one on the agenda, it changes no fact, and the next cycle finds
    nothing to fire: the run ends there, by quiescence. *)
Theorem terminare_fires_last
    (K : Collab) (st : State) (w : World) (a : Activation) (h : bool)
    (st' : State) (w' : World) :
  wf_state st ->
  step (rules K) st w = Fired a h st' w' ->
  h = false /\
  (In termina (wm st') ->
   exists b, In b (matches (rules K) (entries (store st'))) /\
             name_of (rules K) b = "terminare_esecuzione") /\
  (name_of (rules K) a = "terminare_esecuzione" ->
   (forall b, In b (agenda (rules K) st) -> b = a) /\
   wm st' = wm st /\
   step (rules K) st' w' = Quiescent).
Proof.
  intros Hwf Hstep. pose proof Hstep as Hs.
  apply step_fired in Hs.
  destruct Hs as (r & effs & Ht & Hr & Ha & Hh & Hst & Hcyc & Hf).
  split; [|split].
  - rewrite Hh. eapply no_action_halts; eauto.
  - intro Hin. unfold wm, contents in Hin. apply in_map_iff in Hin.
    destruct Hin as (e & Hc & He).
    exists (mkAct 10 [eid e] []). split; [|reflexivity].
    apply in_matches. eexists. split; [reflexivity|]. cbn [r_conds a_support a_binding].
    apply single_fact_rule. exists e. auto.
  - intro Hn. eapply terminare_ends; eauto.
Qed.

(** The consultation with an empty list of ingredients: [chiedi_ingredienti]
    asserts [azione="termina"], then [terminare_esecuzione] fires and the
    engine stops for want of activations. *)
Lemma terminare_fires_last_witness :
  false = false /\
  (In termina (wm dopo_terminare) ->
   exists b, In b (matches (rules collab_base) (entries (store dopo_terminare))) /\
             name_of (rules collab_base) b = "terminare_esecuzione") /\
  (name_of (rules collab_base) (mkAct 10 [2] []) = "terminare_esecuzione" ->
   (forall b, In b (agenda (rules collab_base) dopo_ingredienti_vuoti) ->
              b = mkAct 10 [2] []) /\
   wm dopo_terminare = wm dopo_ingredienti_vuoti /\
   step (rules collab_base) dopo_terminare
        (mkWorld [] [EInput PIngredienti; ETerminata]) = Quiescent).
Proof.
  apply (terminare_fires_last collab_base dopo_ingredienti_vuoti
           (mkWorld [] [EInput PIngredienti]) (mkAct 10 [2] []) false dopo_terminare
           (mkWorld [] [EInput PIngredienti; ETerminata])).
  - split; [split; [|split]|].
    + repeat constructor; cbn; intuition discriminate.
    + repeat constructor; cbn; intuition discriminate.
    + repeat constructor.
    + repeat constructor.
  - reflexivity.
Defined.

(** C2 as worded fails: with no ingredient typed, [chiedi_ingredienti]
    asserts [azione="termina"] and [terminare_esecuzione] still fires after
    it. *)
Lemma halts_on_termina_fails : ~ halts_on_termina.
Proof.
  intro H.
  specialize (H collab_base 3 [""] []
                (reset deffacts, mkAct 0 [1] [], dopo_ingredienti_vuoti)
                [(dopo_ingredienti_vuoti, mkAct 10 [2] [], dopo_terminare)]
                eq_refl (conj eq_refl eq_refl)).
  discriminate H.
Qed.

End Termina.

(** ** The order of firing *)

Module Order.
Import Text Interfaccia Engine Consulente Notions StoreFacts EngineFacts RuleFacts.







End Order.

(** ** The consultation without ingredients *)

Module SenzaIngredienti.
Import Text Interfaccia Engine Consulente Notions StoreFacts EngineFacts RuleFacts.

Lemma chiedi_ingredienti_vuoto (line : string) (rest : list string) (lg : list Event) :
  strip line = "" ->
  chiedi_ingredienti_disponibili (mkWorld (line :: rest) lg)
  = Some ([], mkWorld rest (lg ++ [EInput PIngredienti])).
Proof.
  intro H. unfold chiedi_ingredienti_disponibili, input. cbn [inputs log].
  rewrite H. reflexivity.
Qed.

Lemma primo_passo (K : Collab) (line : string) (rest : list string) :
  strip line = "" ->
  step (rules K) (reset deffacts) (mkWorld (line :: rest) [])
  = Fired (mkAct 0 [1] []) false dopo_ingredienti_vuoti
          (mkWorld rest [EInput PIngredienti]).
Proof.
  intro H.
  rewrite (step_intro (rules K) (reset deffacts) (mkWorld (line :: rest) [])
             (mkAct 0 [1] [])
             (mkRule "chiedi_ingredienti" [FieldEquals azione "chiediIngredienti"] 10
                     chiedi_ingredienti)
             [DeclareFact termina] (mkWorld rest [EInput PIngredienti])).
  - reflexivity.
  - now left.
  - intros b Hb. vm_compute in Hb. destruct Hb as [<-|[]]. now left.
  - reflexivity.
  - cbn [r_action]. unfold chiedi_ingredienti.
    rewrite (chiedi_ingredienti_vuoto line rest [] H). reflexivity.
Qed.

(** C10. When the line typed at the first prompt is empty or blank,
    [chiedi_ingredienti_disponibili] returns the empty list, the rule
    [chiedi_ingredienti] asserts [azione="termina"] and nothing else, and the
    only other firing is [terminare_esecuzione]: the run ends with the two
    facts [azione="chiediIngredienti"] and [azione="termina"] in working
    memory, having asked neither the time nor the preferences and having
    read no further line. *)
Theorem empty_ingredients_terminate
    (K : Collab) (line : string) (rest : list string) (n : nat) :
  strip line = "" ->
  let w := mkWorld (line :: rest) [] in
  let r := avvia_consulente_ricette K (3 + n) (line :: rest) in
  chiedi_ingredienti_disponibili w = Some ([], mkWorld rest [EInput PIngredienti]) /\
  firings (rules K) (3 + n) (reset deffacts) w
  = [(reset deffacts, mkAct 0 [1] [], dopo_ingredienti_vuoti);
     (dopo_ingredienti_vuoti, mkAct 10 [2] [], dopo_terminare)] /\
  status r = Done /\
  names K r = ["chiedi_ingredienti"; "terminare_esecuzione"] /\
  wm (final r) = [mkFact azione "chiediIngredienti"; termina] /\
  world r = mkWorld rest [EInput PIngredienti; ETerminata].
Proof.
  intros H w r. split; [apply (chiedi_ingredienti_vuoto line rest [] H)|].
  subst w r. unfold avvia_consulente_ricette, names.
  change (3 + n) with (S (S (S n))). cbn [run firings].
  rewrite (primo_passo K line rest H). cbn [run firings].
  change (step (rules K) dopo_ingredienti_vuoti (mkWorld rest [EInput PIngredienti]))
    with (Fired (mkAct 10 [2] []) false dopo_terminare
                (mkWorld rest [EInput PIngredienti; ETerminata])).
  cbn [run firings].
  change (step (rules K) dopo_terminare (mkWorld rest [EInput PIngredienti; ETerminata]))
    with Quiescent.
  cbn. auto 10.
Qed.

(** A line of blanks at the first prompt, with a line left unread. *)
Lemma empty_ingredients_terminate_witness :
  status (avvia_consulente_ricette collab_base 3 ["   "; "30"]) = Done /\
  world (avvia_consulente_ricette collab_base 3 ["   "; "30"])
  = mkWorld ["30"] [EInput PIngredienti; ETerminata].
Proof.
  pose proof (empty_ingredients_terminate collab_base "   " ["30"] 0 eq_refl) as H.
  cbv zeta in H. destruct H as (_ & _ & Hs & _ & _ & Hw). split; assumption.
Defined.

End SenzaIngredienti.

(** ** The fallback rule *)

Module Fallback.
Import Text Interfaccia Engine Consulente Notions StoreFacts EngineFacts RuleFacts Termina.

Lemma holds_true (f : Fact) (facts : list Fact) : holds f facts = true <-> In f facts.
Proof.
  unfold holds. rewrite existsb_exists. split.
  - intros (g & Hg & H). destruct (Fact_eq_dec g f); [subst; exact Hg | discriminate].
  - intro H. exists f. split; [exact H|]. destruct (Fact_eq_dec f f); congruence.
Qed.

Lemma holds_app (f : Fact) (l1 l2 : list Fact) :
  holds f (l1 ++ l2) = holds f l1 || holds f l2.
Proof. unfold holds. apply existsb_app. Qed.

Lemma dead_fact (es : list Entry) (f : Field) (v : string) :
  holds (mkFact f v) (map content es) = false ->
  forall p, eval_cond es (FieldEquals f v) p = [].
Proof.
  intros H p. apply nil_if_no_member. intros q Hq.
  apply in_FieldEquals in Hq. destruct Hq as (e & He & Hc & _).
  assert (holds (mkFact f v) (map content es) = true).
  { apply holds_true. rewrite <- Hc. apply in_map. exact He. }
  congruence.
Qed.

Lemma dead_or (es : list Entry) (cs : list Cond) :
  (forall c, In c cs -> forall p, eval_cond es c p = []) ->
  forall p, eval_cond es (Or_ cs) p = [].
Proof.
  intros H p. apply nil_if_no_member. intros q Hq.
  apply in_Or in Hq. destruct Hq as (c & Hc & Hq). rewrite (H c Hc) in Hq. exact Hq.
Qed.

Lemma dead_field (es : list Entry) (f : Field) (x : option string) :
  (forall e, In e es -> field (content e) <> f) ->
  forall p, eval_cond es (Exists_ f x) p = [].
Proof.
  intros H p. apply nil_if_no_member. intros q Hq.
  apply in_Exists in Hq. destruct Hq as (e & He & Hf & _). exact (H e He Hf).
Qed.

(** When the conditions of the candidate rules do not hold, none of them has
    an activation. *)
Lemma no_candidate_rule (K : Collab) (es : list Entry) (b : Activation) :
  candidato_possibile (map content es) = false ->
  In b (matches (rules K) es) -> a_rule b < 3 \/ 5 < a_rule b.
Proof.
  intros H Hb. apply in_matches in Hb. destruct Hb as (r & Hr & Hin).
  unfold candidato_possibile in H.
  apply orb_false_iff in H. destruct H as [H H3].
  apply orb_false_iff in H. destruct H as [H1 H2].
  destruct b as [i sup bnd]. cbn [a_rule a_support a_binding] in *.
  each_rule Hr; try (left; lia); try (right; lia); exfalso; cbn [r_conds] in Hin.
  - apply andb_false_iff in H1. destruct H1 as [H1|H1].
    + apply andb_false_iff in H1. destruct H1 as [H1|H1].
      * rewrite (eval_conds_dead es (FieldEquals ingrediente "pasta")) in Hin;
          [exact Hin | apply dead_fact; exact H1 | cbn; auto].
      * rewrite (eval_conds_dead es (FieldEquals ingrediente "pomodoro")) in Hin;
          [exact Hin | apply dead_fact; exact H1 | cbn; auto].
    + apply orb_false_iff in H1. destruct H1 as [Hm Hl].
      rewrite (eval_conds_dead es
                 (Or_ [FieldEquals tempo_disponibile "medio";
                       FieldEquals tempo_disponibile "molto"])) in Hin;
        [exact Hin | | cbn; auto].
      apply dead_or. intros c [<-|[<-|[]]]; apply dead_fact; assumption.
  - apply andb_false_iff in H2. destruct H2 as [H2|H2].
    + rewrite (eval_conds_dead es (FieldEquals ingrediente "uova")) in Hin;
        [exact Hin | apply dead_fact; exact H2 | cbn; auto].
    + rewrite (eval_conds_dead es (FieldEquals tempo_disponibile "poco")) in Hin;
        [exact Hin | apply dead_fact; exact H2 | cbn; auto].
  - apply andb_false_iff in H3. destruct H3 as [H3|H3].
    + apply andb_false_iff in H3. destruct H3 as [H3|H3].
      * rewrite (eval_conds_dead es (FieldEquals ingrediente "lattuga")) in Hin;
          [exact Hin | apply dead_fact; exact H3 | cbn; auto].
      * rewrite (eval_conds_dead es (FieldEquals ingrediente "pomodoro")) in Hin;
          [exact Hin | apply dead_fact; exact H3 | cbn; auto].
    + rewrite (eval_conds_dead es (FieldEquals tempo_disponibile "poco")) in Hin;
        [exact Hin | apply dead_fact; exact H3 | cbn; auto].
Qed.

(** The first condition of a rule needs its fact. *)
Lemma first_fact (es : list Entry) (f : Field) (v : string) (cs : list Cond) (q : Partial) :
  In q (eval_conds es (FieldEquals f v :: cs) start) ->
  exists e, In e es /\ content e = mkFact f v /\ In q (eval_conds es cs [([eid e], [])]).
Proof.
  intro H. apply in_eval_conds_cons in H.
  destruct H as (p & p' & [<-|[]] & Hp' & Hq).
  apply in_FieldEquals in Hp'. destruct Hp' as (e & He & Hc & ->). eauto.
Qed.

(** The activations of [nessuna_ricetta_trovata]. *)
Lemma fallback_matches (es : list Entry) (q : Partial) :
  In q (eval_conds es [FieldEquals azione "trovaRicetta"; Not_ (Exists_ candidato None)]
          start) <->
  exists e, In e es /\ content e = trovaRicetta /\ q = ([eid e], []) /\
            forall x, In x es -> field (content x) <> candidato.
Proof.
  split.
  - intro H. apply first_fact in H. destruct H as (e & He & Hc & Hq).
    apply in_eval_conds_cons in Hq. destruct Hq as (p & p' & [<-|[]] & Hp' & [<-|[]]).
    apply in_Not in Hp'. destruct Hp' as [-> Hnone].
    exists e. repeat split; auto. intros x Hx Hf.
    assert (Hin : In ([eid e; eid x], [(senza_nome, value (content x))])
                     (eval_cond es (Exists_ candidato None) ([eid e], []))).
    { apply in_Exists. exists x. repeat split; auto. now left. }
    rewrite Hnone in Hin. exact Hin.
  - intros (e & He & Hc & -> & Hno).
    apply in_eval_conds_cons. exists ([], []), ([eid e], []).
    split; [now left|]. split; [apply in_FieldEquals; exists e; auto|].
    apply in_eval_conds_cons. exists ([eid e], []), ([eid e], []).
    split; [now left|]. split; [|now left].
    apply in_Not. split; [reflexivity|]. apply dead_field. exact Hno.
Qed.

(** What an activation of each rule needs in working memory. *)
Lemma match_needs (K : Collab) (es : list Entry) (b : Activation) :
  In b (matches (rules K) es) ->
  (exists e, In e es /\ content e = mkFact azione "chiediIngredienti" /\
             b = mkAct 0 [eid e] []) \/
  (exists e, In e es /\ content e = mkFact azione "chiediTempo" /\
             b = mkAct 1 [eid e] []) \/
  (exists e, In e es /\ content e = mkFact azione "chiediPreferenze" /\
             b = mkAct 2 [eid e] []) \/
  (3 <= a_rule b <= 5 /\ In trovaRicetta (map content es)) \/
  (a_rule b = 6 /\ In trovaRicetta (map content es) /\
   exists x, In x es /\ field (content x) = candidato) \/
  (exists e, In e es /\ content e = trovaRicetta /\ b = mkAct 7 [eid e] [] /\
             forall x, In x es -> field (content x) <> candidato) \/
  (a_rule b = 8 /\ In (mkFact azione "valutaRicetta") (map content es)) \/
  (a_rule b = 9 /\ In (mkFact azione "stampaRisultato") (map content es)) \/
  (exists e, In e es /\ content e = termina /\ b = mkAct 10 [eid e] []).
Proof.
  intro Hb. apply in_matches in Hb. destruct Hb as (r & Hr & Hin).
  destruct b as [i sup bnd]. cbn [a_rule a_support a_binding] in *.
  each_rule Hr; cbn [r_conds] in Hin.
  - left. apply single_fact_rule in Hin. destruct Hin as (e & He & Hc & Hq).
    injection Hq as -> ->. eauto.
  - right; left. apply single_fact_rule in Hin. destruct Hin as (e & He & Hc & Hq).
    injection Hq as -> ->. eauto.
  - do 2 right; left. apply single_fact_rule in Hin. destruct Hin as (e & He & Hc & Hq).
    injection Hq as -> ->. eauto.
  - do 3 right; left. split; [lia|].
    apply first_fact in Hin. destruct Hin as (e & He & Hc & _).
    unfold trovaRicetta. rewrite <- Hc. apply in_map. exact He.
  - do 3 right; left. split; [lia|].
    apply first_fact in Hin. destruct Hin as (e & He & Hc & _).
    unfold trovaRicetta. rewrite <- Hc. apply in_map. exact He.
  - do 3 right; left. split; [lia|].
    apply first_fact in Hin. destruct Hin as (e & He & Hc & _).
    unfold trovaRicetta. rewrite <- Hc. apply in_map. exact He.
  - do 4 right; left. split; [reflexivity|].
    apply first_fact in Hin. destruct Hin as (e & He & Hc & Hq).
    split; [unfold trovaRicetta; rewrite <- Hc; apply in_map; exact He|].
    apply in_eval_conds_cons in Hq. destruct Hq as (p & p' & _ & Hp' & _).
    apply in_Exists in Hp'. destruct Hp' as (x & Hx & Hf & _). eauto.
  - do 5 right; left. apply fallback_matches in Hin.
    destruct Hin as (e & He & Hc & Hq & Hno). injection Hq as -> ->. eauto 10.
  - do 6 right; left. split; [reflexivity|].
    apply first_fact in Hin. destruct Hin as (e & He & Hc & _).
    rewrite <- Hc. apply in_map. exact He.
  - do 7 right; left. split; [reflexivity|].
    apply first_fact in Hin. destruct Hin as (e & He & Hc & _).
    rewrite <- Hc. apply in_map. exact He.
  - do 8 right. apply single_fact_rule in Hin. destruct Hin as (e & He & Hc & Hq).
    injection Hq as -> ->. eauto.
Qed.

Lemma fallback_needs_no_candidate
    (K : Collab) (st : State) (w : World) (a : Activation) (h : bool)
    (st' : State) (w' : World) :
  step (rules K) st w = Fired a h st' w' ->
  name_of (rules K) a = "nessuna_ricetta_trovata" ->
  forall f, In f (wm st) -> field f <> candidato.
Proof.
  intros Hstep Hn. apply step_fired in Hstep.
  destruct Hstep as (r & effs & Ht & Hr & _).
  apply top_in, in_agenda in Ht. destruct Ht as [Hm _].
  apply in_matches in Hm. destruct Hm as (r' & Hr' & Hin).
  rewrite Hr in Hr'. injection Hr' as <-.
  unfold name_of in Hn. rewrite Hr in Hn.
  destruct a as [i sup bnd]. cbn [a_rule a_support a_binding] in *.
  each_rule Hr; cbn in Hn; try discriminate Hn.
  cbn [r_conds] in Hin. apply fallback_matches in Hin.
  destruct Hin as (e & _ & _ & _ & Hno).
  intros f Hf. unfold wm, contents in Hf. apply in_map_iff in Hf.
  destruct Hf as (x & <- & Hx). apply Hno, Hx.
Qed.

(** The two cycles that follow [azione="trovaRicetta"] when no candidate
    rule matches. *)
Lemma fallback_run
    (K : Collab) (st : State) (w : World) :
  wf_state st ->
  In trovaRicetta (wm st) ->
  (forall f, In f (wm st) -> field f <> candidato) ->
  candidato_possibile (wm st) = false ->
  ~ In (mkFact azione "valutaRicetta") (wm st) ->
  ~ In (mkFact azione "stampaRisultato") (wm st) ->
  ~ In termina (wm st) ->
  (forall a, In a (agenda (rules K) st) -> 3 <= a_rule a) ->
  (forall a, In a (fired st) -> a_rule a <> 7) ->
  (forall a, In a (fired st) -> a_rule a <> 10) ->
  exists a7 a10 st1 st2,
    let w1 := match values_of ingrediente (wm st) with
              | [] => w
              | _ :: _ => cerca_ricette_parziali (values_of ingrediente (wm st)) w
              end in
    a_rule a7 = 7 /\ a_rule a10 = 10 /\
    step (rules K) st w = Fired a7 false st1 w1 /\
    wm st1 = wm st ++ [termina] /\
    step (rules K) st1 w1 = Fired a10 false st2 (emit ETerminata w1) /\
    wm st2 = wm st ++ [termina] /\
    step (rules K) st2 (emit ETerminata w1) = Quiescent.
Proof.
  intros Hwf Htr Hnc Hcp Hnv Hns Hnt Hasked Hfresh Hopen.
  destruct Hwf as [Hws Hwfired]. pose proof Hws as (Hni & Hnd & Hbelow).
  unfold wm, contents in Htr. apply in_map_iff in Htr. destruct Htr as (et & Hct & Het).
  set (es := entries (store st)) in *.
  set (a7 := mkAct 7 [eid et] []).
  assert (Hno : forall x, In x es -> field (content x) <> candidato).
  { intros x Hx. apply Hnc. unfold wm, contents. apply in_map. exact Hx. }
  (* the agenda holds the fallback activation and nothing else *)
  assert (Ha7 : In a7 (agenda (rules K) st)).
  { apply in_agenda. split.
    - apply in_matches. eexists. split; [reflexivity|].
      cbn [r_conds a_support a_binding]. apply fallback_matches. exists et. auto.
    - apply refracted_false. intros b Hb Hr _.
      apply (Hfresh b Hb). symmetry. exact Hr. }
  assert (Honly : forall b, In b (agenda (rules K) st) -> b = a7).
  { intros b Hb. pose proof (Hasked b Hb) as H3.
    apply in_agenda in Hb. destruct Hb as [Hmb _].
    pose proof (no_candidate_rule K es b Hcp Hmb) as Hcand.
    destruct (match_needs K es b Hmb)
      as [(e & _ & _ & ->)|[(e & _ & _ & ->)|[(e & _ & _ & ->)|[[H _]|[(_ & _ & x & Hx & Hf)|
          [(e & He & Hc & -> & _)|[[_ H]|[[_ H]|(e & He & Hc & ->)]]]]]]]];
      cbn [a_rule] in *; try lia.
    - destruct (Hno x Hx Hf).
    - unfold a7. replace e with et; [reflexivity|].
      apply (NoDup_map_inj content es); auto. congruence.
    - destruct (Hnv H).
    - destruct (Hns H).
    - destruct Hnt. unfold wm, contents. rewrite <- Hc. apply in_map. exact He. }
  set (w1 := match values_of ingrediente (wm st) with
             | [] => w
             | _ :: _ => cerca_ricette_parziali (values_of ingrediente (wm st)) w
             end).
  set (enew := mkEntry (next_id (store st)) (S (cycle st)) termina).
  set (s1 := mkStore (es ++ [enew]) (S (next_id (store st)))).
  assert (Hs1 : fold_left (apply_effect (S (cycle st))) [DeclareFact termina] (store st) = s1).
  { cbn [fold_left apply_effect]. unfold insert.
    replace (present termina (store st)) with false; [reflexivity|].
    symmetry. apply present_false. exact Hnt. }
  set (st1 := mkState s1 (S (cycle st)) (filter (supported s1) (a7 :: fired st))).
  assert (Hstep1 : step (rules K) st w = Fired a7 false st1 w1).
  { rewrite (step_intro (rules K) st w a7
               (mkRule "nessuna_ricetta_trovata"
                  [FieldEquals azione "trovaRicetta"; Not_ (Exists_ candidato None)] 0
                  nessuna_ricetta_trovata)
               [DeclareFact termina] w1 Ha7).
    - rewrite Hs1. reflexivity.
    - intros b Hb. left. apply Honly, Hb.
    - reflexivity.
    - cbn [r_action]. unfold nessuna_ricetta_trovata. subst w1.
      destruct (values_of ingrediente (wm st)); reflexivity. }
  assert (Hwf1 : wf_state st1).
  { apply (step_wf (rules K) st w a7 false st1 w1); [split; assumption | exact Hstep1]. }
  assert (Hwm1 : wm st1 = wm st ++ [termina]).
  { unfold wm, contents. cbn [store st1 s1 entries]. rewrite map_app. reflexivity. }
  set (a10 := mkAct 10 [next_id (store st)] []).
  assert (Hold : forall e, In e (entries s1) -> content e <> termina -> In e es).
  { intros e He Hc. cbn [s1 entries] in He. apply in_app_or in He.
    destruct He as [He|[<-|[]]]; [exact He | destruct Hc; reflexivity]. }
  assert (Hfired1 : forall b, In b (matches (rules K) (entries s1)) ->
                              In b (a7 :: fired st) -> In b (fired st1)).
  { intros b Hm Hin. cbn [fired st1]. apply filter_In. split; [exact Hin|].
    apply supported_true. apply (matches_grounded (rules K)). exact Hm. }
  assert (Hkept : forall c, In c (fired st) -> In c (fired st1)).
  { intros c Hc. cbn [fired st1]. apply filter_In. split; [now right|].
    rewrite Forall_forall in Hwfired.
    apply (supported_mono (store st) s1); [|apply Hwfired; exact Hc].
    intros e He. cbn [s1 entries]. apply in_or_app. now left. }
  assert (Hasked1 : forall i e,
             i < 3 ->
             In (mkAct i [eid e] []) (matches (rules K) es) ->
             refracted st1 (mkAct i [eid e] []) = true).
  { intros i e Hi Hm.
    destruct (refracted st (mkAct i [eid e] [])) eqn:E.
    - exact (refracted_mono st st1 _ Hkept E).
    - exfalso. assert (Hag : In (mkAct i [eid e] []) (agenda (rules K) st)).
      { apply in_agenda. auto. }
      specialize (Hasked _ Hag). cbn in Hasked. lia. }
  assert (Ha10 : In a10 (agenda (rules K) st1)).
  { apply in_agenda. split.
    - apply in_matches. eexists. split; [reflexivity|].
      cbn [r_conds a_support a_binding]. apply single_fact_rule. exists enew.
      split; [|auto]. cbn [store st1 s1 entries]. apply in_or_app. right. now left.
    - apply refracted_false. intros b Hb Hr _. cbn [fired st1] in Hb.
      apply filter_In in Hb. destruct Hb as [[<-|Hb] _].
      + discriminate Hr.
      + apply (Hopen b Hb). symmetry. exact Hr. }
  assert (Honly1 : forall b, In b (agenda (rules K) st1) -> b = a10).
  { intros b Hb. apply in_agenda in Hb. destruct Hb as [Hmb Hnf].
    cbn [store st1] in Hmb.
    assert (Hcp1 : candidato_possibile (map content (entries s1)) = false).
    { cbn [s1 entries]. rewrite map_app. cbn [map enew content].
      unfold candidato_possibile in *. rewrite !holds_app. cbn.
      rewrite !orb_false_r. exact Hcp. }
    pose proof (no_candidate_rule K (entries s1) b Hcp1 Hmb) as Hcand.
    destruct (match_needs K (entries s1) b Hmb)
      as [(e & He & Hc & Hbe)|[(e & He & Hc & Hbe)|[(e & He & Hc & Hbe)|[[H _]|
          [(_ & _ & x & Hx & Hf)|
          [(e & He & Hc & Hbe & _)|[[_ H]|[[_ H]|(e & He & Hc & Hbe)]]]]]]]].
    - exfalso. subst b. rewrite Hasked1 in Hnf; [discriminate Hnf | lia |].
      apply in_matches. eexists. split; [reflexivity|].
      cbn [r_conds a_support a_binding]. apply single_fact_rule. exists e.
      split; [|auto]. apply Hold; [exact He | rewrite Hc; discriminate].
    - exfalso. subst b. rewrite Hasked1 in Hnf; [discriminate Hnf | lia |].
      apply in_matches. eexists. split; [reflexivity|].
      cbn [r_conds a_support a_binding]. apply single_fact_rule. exists e.
      split; [|auto]. apply Hold; [exact He | rewrite Hc; discriminate].
    - exfalso. subst b. rewrite Hasked1 in Hnf; [discriminate Hnf | lia |].
      apply in_matches. eexists. split; [reflexivity|].
      cbn [r_conds a_support a_binding]. apply single_fact_rule. exists e.
      split; [|auto]. apply Hold; [exact He | rewrite Hc; discriminate].
    - lia.
    - exfalso. cbn [s1 entries] in Hx. apply in_app_or in Hx.
      destruct Hx as [Hx|[<-|[]]]; [exact (Hno x Hx Hf) | discriminate Hf].
    - exfalso. apply (not_refracted_not_fired _ _ Hnf). apply Hfired1; [exact Hmb|]. left.
      subst b. unfold a7. replace e with et; [reflexivity|].
      apply (NoDup_map_inj content es); auto; [|congruence].
      apply Hold; [exact He | rewrite Hc; discriminate].
    - exfalso. apply Hnv. unfold wm, contents. fold es.
      cbn [s1 entries] in H. rewrite map_app in H. apply in_app_or in H.
      destruct H as [H|[H|[]]]; [exact H | discriminate H].
    - exfalso. apply Hns. unfold wm, contents. fold es.
      cbn [s1 entries] in H. rewrite map_app in H. apply in_app_or in H.
      destruct H as [H|[H|[]]]; [exact H | discriminate H].
    - subst b. unfold a10. cbn [s1 entries] in He. apply in_app_or in He.
      destruct He as [He|[<-|[]]]; [|reflexivity].
      exfalso. apply Hnt. unfold wm, contents. rewrite <- Hc. apply in_map. exact He. }
  set (st2 := mkState s1 (S (S (cycle st))) (filter (supported s1) (a10 :: fired st1))).
  assert (Hstep2 : step (rules K) st1 w1 = Fired a10 false st2 (emit ETerminata w1)).
  { rewrite (step_intro (rules K) st1 w1 a10
               (mkRule "terminare_esecuzione" [FieldEquals azione "termina"] (- 10)
                  terminare_esecuzione)
               [] (emit ETerminata w1) Ha10).
    - reflexivity.
    - intros b Hb. left. apply Honly1, Hb.
    - reflexivity.
    - reflexivity. }
  exists a7, a10, st1, st2. cbv zeta. fold w1.
  split; [reflexivity|]. split; [reflexivity|]. split; [exact Hstep1|].
  split; [exact Hwm1|]. split; [exact Hstep2|]. split; [exact Hwm1|].
  apply (terminare_ends K st1 w1 a10 false st2 (emit ETerminata w1) Hwf1 Hstep2 eq_refl).
Qed.

(** From any state in which [azione="trovaRicetta"] is asserted, the three
    questions have been dealt with, no candidate rule matches and none has
    left a [candidato], and at least one ingredient is stored: the fallback
    rule fires once, calls the lookup, asserts [azione="termina"], and the
    closing rule ends the run. *)
Lemma fallback_from_state
    (K : Collab) (st : State) (w : World) (n : nat) :
  wf_state st ->
  In trovaRicetta (wm st) ->
  (forall f, In f (wm st) -> field f <> candidato /\ field f <> ricetta_suggerita) ->
  candidato_possibile (wm st) = false ->
  ~ In (mkFact azione "valutaRicetta") (wm st) ->
  ~ In (mkFact azione "stampaRisultato") (wm st) ->
  ~ In termina (wm st) ->
  (forall a, In a (agenda (rules K) st) -> 3 <= a_rule a) ->
  (forall a, In a (fired st) -> a_rule a <> 7) ->
  (forall a, In a (fired st) -> a_rule a <> 10) ->
  values_of ingrediente (wm st) <> [] ->
  let r := run (rules K) (3 + n) st w in
  status r = Done /\
  map (name_of (rules K)) (trace r)
  = ["nessuna_ricetta_trovata"; "terminare_esecuzione"] /\
  wm (final r) = wm st ++ [termina] /\
  world r = emit ETerminata
              (cerca_ricette_parziali (values_of ingrediente (wm st)) w) /\
  (forall x, In x (firings (rules K) (3 + n) st w) ->
             forall f, In f (wm (snd x)) ->
                       field f <> candidato /\ field f <> ricetta_suggerita).
Proof.
  intros Hwf Htr Hnone Hcp Hnv Hns Hnt Hasked Hfresh Hopen Hing r.
  assert (Hnc : forall f, In f (wm st) -> field f <> candidato).
  { intros f Hf. apply (Hnone f Hf). }
  destruct (fallback_run K st w Hwf Htr Hnc Hcp Hnv Hns Hnt Hasked Hfresh Hopen)
    as (a7 & a10 & st1 & st2 & H).
  cbv zeta in H. destruct H as (H7 & H10 & Hs1 & Hw1 & Hs2 & Hw2 & Hs3).
  assert (Hw : match values_of ingrediente (wm st) with
               | [] => w
               | _ :: _ => cerca_ricette_parziali (values_of ingrediente (wm st)) w
               end = cerca_ricette_parziali (values_of ingrediente (wm st)) w).
  { destruct (values_of ingrediente (wm st)); [contradiction | reflexivity]. }
  rewrite Hw in Hs1, Hs2, Hs3.
  subst r. change (3 + n) with (S (S (S n))). cbn [run firings].
  rewrite Hs1. cbn [run firings]. rewrite Hs2. cbn [run firings]. rewrite Hs3.
  cbn [status trace final world map].
  split; [reflexivity|]. split.
  { unfold name_of. rewrite H7, H10. reflexivity. }
  split; [exact Hw2|]. split; [reflexivity|].
  assert (Hboth : forall f, In f (wm st ++ [termina]) ->
                              field f <> candidato /\ field f <> ricetta_suggerita).
  { intros f Hf. apply in_app_or in Hf. destruct Hf as [Hf|[<-|[]]]; [auto|].
    split; discriminate. }
  intros x [<-|[<-|[]]] f Hf; cbn [snd] in Hf; apply Hboth; congruence.
Qed.

End Fallback.

(** ** The scenario with pasta and tomato *)

Module Pasta.
Import Text Interfaccia Engine Consulente Notions StoreFacts EngineFacts RuleFacts Termina.

Lemma passo_pasta (K : Collab) (w : World) :
  step (rules K) seme_pasta w = Fired att_pasta false dopo_pasta w.
Proof. reflexivity. Qed.

Lemma passo_scelta (K : Collab) (w : World) :
  step (rules K) dopo_pasta w
  = Fired att_scelta false dopo_scelta (emit (EUnico "Pasta al Pomodoro") w).
Proof. reflexivity. Qed.

Lemma passo_valuta (K : Collab) (v : string) (w w1 : World) :
  calcola_rischio_o_successo_ricetta K "Pasta al Pomodoro" (Some "medio")
    (emit (EBayes "Pasta al Pomodoro" (Some "medio")) w) = Some (v, w1) ->
  step (rules K) dopo_scelta w = Fired att_valuta false (dopo_valuta v) w1.
Proof.
  intro H.
  rewrite (step_intro (rules K) dopo_scelta w att_valuta
             (mkRule "valuta_ricetta_con_bayes"
                [FieldEquals azione "valutaRicetta";
                 Exists_ ricetta_suggerita (Some "ricetta")]
                (- (1 # 2)) (valuta_ricetta_con_bayes K))
             [DeclareFact (mkFact valutazione_ricetta v);
              DeclareFact (mkFact azione "stampaRisultato")] w1).
  - reflexivity.
  - now left.
  - intros b Hb. vm_compute in Hb. destruct Hb as [<-|[]]. now left.
  - reflexivity.
  - cbn [r_action]. unfold valuta_ricetta_con_bayes.
    change (lookup "ricetta" (a_binding att_valuta)) with (Some "Pasta al Pomodoro").
    change (fatti_tempo (wm dopo_scelta)) with (Some "medio").
    cbv beta iota. rewrite H. reflexivity.
Qed.

Lemma passo_stampa (K : Collab) (v : string) (w1 w2 : World) :
  stampare_risultato_finale K (a_binding (att_stampa v)) (wm (dopo_valuta v)) w1
  = Some ([DeclareFact termina], w2) ->
  step (rules K) (dopo_valuta v) w1 = Fired (att_stampa v) false (dopo_stampa v) w2.
Proof.
  intro H.
  rewrite (step_intro (rules K) (dopo_valuta v) w1 (att_stampa v)
             (mkRule "stampare_risultato_finale"
                [FieldEquals azione "stampaRisultato";
                 Exists_ ricetta_suggerita (Some "ricetta");
                 Exists_ valutazione_ricetta (Some "valutazione")]
                (- 1) (stampare_risultato_finale K))
             [DeclareFact termina] w2).
  - reflexivity.
  - apply in_agenda. split.
    + vm_compute. auto 10.
    + cbn. intuition discriminate.
  - intros b Hb. apply in_agenda in Hb. destruct Hb as [Hm Hnf].
    vm_compute in Hm.
    destruct Hm as [<-|[<-|[<-|[<-|[]]]]]; try (now left);
      exfalso; apply Hnf; cbn; auto 10.
  - reflexivity.
  - exact H.
Qed.

Lemma passo_termina (K : Collab) (v : string) (w2 : World) :
  step (rules K) (dopo_stampa v) w2
  = Fired att_termina false (dopo_fine v) (emit ETerminata w2).
Proof.
  rewrite (step_intro (rules K) (dopo_stampa v) w2 att_termina
             (mkRule "terminare_esecuzione" [FieldEquals azione "termina"] (- 10)
                terminare_esecuzione)
             [] (emit ETerminata w2)).
  - reflexivity.
  - apply in_agenda. split.
    + vm_compute. auto 10.
    + cbn. intuition discriminate.
  - intros b Hb. apply in_agenda in Hb. destruct Hb as [Hm Hnf].
    apply not_refracted_not_fired in Hnf.
    vm_compute in Hm.
    destruct Hm as [<-|[<-|[<-|[<-|[<-|[]]]]]]; try (now left);
      exfalso; apply Hnf; cbn; auto 10.
  - reflexivity.
  - reflexivity.
Qed.

Lemma quiete (K : Collab) (v : string) (w : World) :
  step (rules K) (dopo_fine v) w = Quiescent.
Proof.
  apply step_idle. apply nil_if_no_member. intros b Hb.
  apply in_agenda in Hb. destruct Hb as [Hm Hnf].
    apply not_refracted_not_fired in Hnf. vm_compute in Hm.
  destruct Hm as [<-|[<-|[<-|[<-|[<-|[]]]]]]; apply Hnf; cbn; auto 10.
Qed.

Lemma conta_app (p : Event -> bool) (l1 l2 : list Event) :
  conta p (l1 ++ l2) = conta p l1 + conta p l2.
Proof. unfold conta. rewrite filter_app, length_app. reflexivity. Qed.

(** The text that the evaluator adapter returns once the user has typed
    [scelta], read off the outcomes of the collaborators. *)
Lemma testo_ricaduta (K : Collab) (scelta : string) (evidenza : option Z) (m : string) :
  m = (if rete_ok K
       then match inferenza K (rete_usata K scelta) evidenza with
            | Stima p => msg_stima p
            | _ => msg_impossibile
            end
       else msg_non_disponibile) ->
  stima_fallita K scelta evidenza -> ricaduta m.
Proof.
  intros -> [Hf|Hf].
  - rewrite Hf. left. reflexivity.
  - destruct (rete_ok K); [|left; reflexivity].
    destruct (inferenza K (rete_usata K scelta) evidenza);
      first [right; reflexivity | destruct Hf].
Qed.

(** What the evaluator adapter returns in the scenario, the user answering
    "1" or "2" to its question. *)
Lemma esito_bayes (K : Collab) (s : string) (lg : list Event) :
  s = "1" \/ s = "2" ->
  exists v w1,
    calcola_rischio_o_successo_ricetta K "Pasta al Pomodoro" (Some "medio")
      (mkWorld [s; "n"] lg) = Some (v, w1) /\
    (inputs w1 = [s; "n"] /\ log w1 = lg \/
     inputs w1 = ["n"] /\ log w1 = lg ++ [EInput PRete]) /\
    v = (if rete_ok K
         then match inferenza K (rete_usata K s) (Some 1%Z) with
              | Stima p => msg_stima p
              | _ => msg_impossibile
              end
         else msg_non_disponibile).
Proof.
  intro Hs. unfold calcola_rischio_o_successo_ricetta.
  destruct (rete_ok K) eqn:Er; cbn [negb].
  - cbn [inputs log].
    assert (Hl : rete_loop [s; "n"] lg = Some (s, mkWorld ["n"] (lg ++ [EInput PRete])))
      by (destruct Hs as [-> | ->]; reflexivity).
    rewrite Hl. cbv beta iota zeta.
    change (option_map converti_tempo_in_indice (Some "medio")) with (Some 1%Z).
    fold (rete_usata K s).
    destruct (inferenza K (rete_usata K s) (Some 1%Z)) as [| | |p];
      eexists; eexists; (split; [reflexivity|]); (split; [right; split; reflexivity|]);
      reflexivity.
  - eexists; eexists. split; [reflexivity|]. split; [left; split; reflexivity|].
    reflexivity.
Qed.

(** What the last rule does in the scenario, the user answering "n" when an
    alternative is offered. *)
Lemma esito_stampa (K : Collab) (s v : string) (ins : list string) (lg : list Event) :
  s = "1" \/ s = "2" ->
  ins = [s; "n"] \/ ins = ["n"] ->
  exists w2 extra,
    stampare_risultato_finale K (a_binding (att_stampa v)) (wm (dopo_valuta v))
      (mkWorld ins lg) = Some ([DeclareFact termina], w2) /\
    log w2 = lg ++ EDettagli "Pasta al Pomodoro" :: extra /\
    Forall (fun e => e = EInput PAlternativa) extra.
Proof.
  intros Hs Hins. unfold stampare_risultato_finale.
  change (lookup "ricetta" (a_binding (att_stampa v))) with (Some "Pasta al Pomodoro").
  change (lookup "valutazione" (a_binding (att_stampa v))) with (Some v).
  cbv beta iota. unfold _stampa_dettagli_ricetta, trova_dettagli_ricetta_in_ontologia.
  cbv beta iota.
  destruct (ontologia K "Pasta al Pomodoro") as [[t d [[|c alt]|]]|];
    cbn [d_alternativa is_empty];
    try (exists (emit (EDettagli "Pasta al Pomodoro") (mkWorld ins lg)), [];
         split; [reflexivity|]; split; [reflexivity | constructor]).
  destruct Hins as [-> | ->]; [destruct Hs as [-> | ->]|]; cbn.
  - eexists; exists [EInput PAlternativa; EInput PAlternativa].
    split; [reflexivity|]. split; [rewrite <- !app_assoc; reflexivity|].
    repeat constructor.
  - eexists; exists [EInput PAlternativa; EInput PAlternativa].
    split; [reflexivity|]. split; [rewrite <- !app_assoc; reflexivity|].
    repeat constructor.
  - eexists; exists [EInput PAlternativa].
    split; [reflexivity|]. split; [rewrite <- !app_assoc; reflexivity|].
    repeat constructor.
Qed.

Lemma conta_alternativa (p : Event -> bool) (extra : list Event) :
  p (EInput PAlternativa) = false ->
  Forall (fun e => e = EInput PAlternativa) extra -> conta p extra = 0.
Proof.
  intros Hp H. induction H as [|e l He _ IH]; [reflexivity|].
  subst e. unfold conta in *. cbn [filter]. rewrite Hp. exact IH.
Qed.

(** The run of the scenario, for any collaborators and either choice of
    network. *)
Lemma pasta_run (K : Collab) (s : string) (n : nat) :
  s = "1" \/ s = "2" ->
  exists v w1 w2 extra,
    calcola_rischio_o_successo_ricetta K "Pasta al Pomodoro" (Some "medio")
      (mkWorld [s; "n"]
         [EUnico "Pasta al Pomodoro"; EBayes "Pasta al Pomodoro" (Some "medio")])
    = Some (v, w1) /\
    v = (if rete_ok K
         then match inferenza K (rete_usata K s) (Some 1%Z) with
              | Stima p => msg_stima p
              | _ => msg_impossibile
              end
         else msg_non_disponibile) /\
    (log w1 = [EUnico "Pasta al Pomodoro"; EBayes "Pasta al Pomodoro" (Some "medio")] \/
     log w1 = [EUnico "Pasta al Pomodoro"; EBayes "Pasta al Pomodoro" (Some "medio");
               EInput PRete]) /\
    log w2 = log w1 ++ EDettagli "Pasta al Pomodoro" :: extra /\
    Forall (fun e => e = EInput PAlternativa) extra /\
    run (rules K) (6 + n) seme_pasta (mkWorld [s; "n"] [])
    = mkRun Done [att_pasta; att_scelta; att_valuta; att_stampa v; att_termina]
            (dopo_fine v) (emit ETerminata w2).
Proof.
  intro Hscelta.
  destruct (esito_bayes K s [EUnico "Pasta al Pomodoro";
                             EBayes "Pasta al Pomodoro" (Some "medio")] Hscelta)
    as (v & w1 & Hb & Hw1 & Hfail).
  assert (Hins : inputs w1 = [s; "n"] \/ inputs w1 = ["n"]) by tauto.
  destruct w1 as [ins1 lg1]. cbn [inputs log] in *.
  destruct (esito_stampa K s v ins1 lg1 Hscelta Hins) as (w2 & extra & Hs & Hl2 & Hex).
  exists v, (mkWorld ins1 lg1), w2, extra.
  split; [exact Hb|]. split; [exact Hfail|]. split; [cbn [log]; tauto|].
  split; [exact Hl2|]. split; [exact Hex|].
  change (6 + n) with (S (S (S (S (S (S n)))))). cbn [run].
  rewrite passo_pasta. cbn [run]. rewrite passo_scelta. cbn [run].
  rewrite (passo_valuta K v (emit (EUnico "Pasta al Pomodoro") (mkWorld [s; "n"] []))
             (mkWorld ins1 lg1) Hb). cbn [run].
  rewrite (passo_stampa K v (mkWorld ins1 lg1) w2 Hs). cbn [run].
  rewrite passo_termina. cbn [run]. rewrite quiete. reflexivity.
Qed.

Lemma rete_loop_spec (ins : list string) :
  forall lg,
    match rete_loop ins lg with
    | Some (s, w') => s = "1" \/ s = "2"
    | None => forallb (fun l => negb (rete_valida l)) ins = true
    end.
Proof.
  induction ins as [|line rest IH]; intro lg; cbn [rete_loop forallb]; [reflexivity|].
  unfold rete_valida at 1.
  destruct (String.eqb (strip line) "1") eqn:E1; cbn [orb negb andb].
  - left. apply String.eqb_eq. exact E1.
  - destruct (String.eqb (strip line) "2") eqn:E2; cbn [negb andb].
    + right. apply String.eqb_eq. exact E2.
    + apply IH.
Qed.

(** C1. With working memory holding [ingrediente="pasta"],
    [ingrediente="pomodoro"], [tempo_disponibile="medio"] and
    [azione="trovaRicetta"], whatever the collaborators answer, the engine
    fires [suggerisci_pasta_pomodoro] (the only candidate rule to fire, which
    asserts the only [candidato]), then [scegli_candidati], which takes the
    single candidate without printing a list or asking, then
    [valuta_ricetta_con_bayes], which calls the evaluator once, then
    [stampare_risultato_finale], which asserts [azione="termina"], then
    [terminare_esecuzione]; and it stops.  The consultation typed as
    "pasta, pomodoro", 30 minutes, no preference goes the same way. *)
Theorem pasta_scenario (K : Collab) (n : nat) :
  let r := run (rules K) (6 + n) seme_pasta (mkWorld ["1"; "n"] []) in
  wm seme_pasta = [mkFact ingrediente "pasta"; mkFact ingrediente "pomodoro";
                   mkFact tempo_disponibile "medio"; trovaRicetta] /\
  status r = Done /\
  map (name_of (rules K)) (trace r)
  = ["suggerisci_pasta_pomodoro"; "scegli_candidati"; "valuta_ricetta_con_bayes";
     "stampare_risultato_finale"; "terminare_esecuzione"] /\
  (exists v,
      wm (final r)
      = [mkFact ingrediente "pasta"; mkFact ingrediente "pomodoro";
         mkFact tempo_disponibile "medio"; trovaRicetta;
         mkFact candidato "Pasta al Pomodoro";
         mkFact ricetta_suggerita "Pasta al Pomodoro";
         mkFact azione "valutaRicetta";
         mkFact valutazione_ricetta v;
         mkFact azione "stampaRisultato"; termina]) /\
  (exists rest,
      log (world r)
      = EUnico "Pasta al Pomodoro" :: EBayes "Pasta al Pomodoro" (Some "medio") :: rest /\
      conta is_bayes rest = 0 /\ conta is_elenco rest = 0 /\ conta is_scelta rest = 0) /\
  (let c := avvia_consulente_ricette collab_base 9 ["pasta, pomodoro"; "30"; ""; "1"] in
   status c = Done /\
   names collab_base c
   = ["chiedi_ingredienti"; "chiedi_tempo"; "chiedi_preferenze";
      "suggerisci_pasta_pomodoro"; "scegli_candidati"; "valuta_ricetta_con_bayes";
      "stampare_risultato_finale"; "terminare_esecuzione"] /\
   log (world c)
   = [EInput PIngredienti; EInput PMinuti; EInput PPreferenze;
      EUnico "Pasta al Pomodoro"; EBayes "Pasta al Pomodoro" (Some "medio");
      EInput PRete; EDettagli "Pasta al Pomodoro"; ETerminata] /\
   holds termina (wm (final c)) = true).
Proof.
  intro r. split; [reflexivity|].
  destruct (pasta_run K "1" n (or_introl eq_refl))
    as (v & w1 & w2 & extra & _ & _ & Hl1 & Hl2 & Hex & Hrun).
  subst r. rewrite Hrun. cbn [status trace final world].
  split; [reflexivity|]. split; [reflexivity|]. split; [exists v; reflexivity|].
  split.
  - cbn [emit log]. rewrite Hl2.
    pose proof (conta_alternativa is_bayes extra eq_refl Hex) as C1.
    pose proof (conta_alternativa is_elenco extra eq_refl Hex) as C2.
    pose proof (conta_alternativa is_scelta extra eq_refl Hex) as C3.
    destruct Hl1 as [-> | ->].
    + exists (EDettagli "Pasta al Pomodoro" :: extra ++ [ETerminata]).
      split; [reflexivity|].
      change (EDettagli "Pasta al Pomodoro" :: extra ++ [ETerminata])
        with ([EDettagli "Pasta al Pomodoro"] ++ extra ++ [ETerminata]).
      rewrite !conta_app, C1, C2, C3. auto.
    + exists (EInput PRete :: EDettagli "Pasta al Pomodoro" :: extra ++ [ETerminata]).
      split; [reflexivity|].
      change (EInput PRete :: EDettagli "Pasta al Pomodoro" :: extra ++ [ETerminata])
        with ([EInput PRete; EDettagli "Pasta al Pomodoro"] ++ extra ++ [ETerminata]).
      rewrite !conta_app, C1, C2, C3. auto.
  - vm_compute. auto.
Qed.

(** What [calcola_rischio_o_successo_ricetta] returns, call by call: no
    network, the first fallback message and no question; otherwise, once a
    choice is typed, the estimate of the object the choice leads to or, when
    inference gives none, the second fallback message. *)
Lemma calcola_per_casi (K : Collab) (nome : string) (fatti : option string) (w : World) :
  match calcola_rischio_o_successo_ricetta K nome fatti w with
  | Some (m, w') =>
      if rete_ok K
      then exists scelta,
             rete_loop (inputs w) (log w) = Some (scelta, w') /\
             (scelta = "1" \/ scelta = "2") /\
             m = match inferenza K (rete_usata K scelta)
                         (option_map converti_tempo_in_indice fatti) with
                 | Stima p => msg_stima p
                 | _ => msg_impossibile
                 end
      else m = msg_non_disponibile /\ w' = w
  | None => rete_ok K = true /\
            forallb (fun l => negb (rete_valida l)) (inputs w) = true
  end.
Proof.
  unfold calcola_rischio_o_successo_ricetta.
  destruct (rete_ok K) eqn:Er; cbn [negb]; [|split; reflexivity].
  pose proof (rete_loop_spec (inputs w) (log w)) as Hl.
  destruct (rete_loop (inputs w) (log w)) as [[s w1]|]; [|split; [reflexivity | exact Hl]].
  cbv zeta. fold (rete_usata K s).
  destruct (inferenza K (rete_usata K s) (option_map converti_tempo_in_indice fatti))
    eqn:Ei;
    exists s; (split; [reflexivity|]); (split; [exact Hl | rewrite Ei; reflexivity]).
Qed.

End Pasta.

(** ** Two candidates *)

Module DueCandidati.
Import Text Interfaccia Engine Consulente Notions EngineFacts.

(** [scegli_candidati] has an activation for each [candidato] fact. *)
Lemma scegli_per_candidato (K : Collab) (es : list Entry) (e x : Entry) :
  In e es -> content e = trovaRicetta ->
  In x es -> field (content x) = candidato ->
  In (mkAct 6 [eid e; eid x] [(senza_nome, value (content x))]) (matches (rules K) es).
Proof.
  intros He Hc Hx Hf. apply in_matches. eexists. split; [reflexivity|].
  cbn [r_conds a_support a_binding].
  apply in_eval_conds_cons. exists ([], []), ([eid e], []).
  split; [now left|]. split; [apply in_FieldEquals; exists e; auto|].
  apply in_eval_conds_cons.
  exists ([eid e], []), ([eid e; eid x], [(senza_nome, value (content x))]).
  split; [now left|]. split; [|now left].
  apply in_Exists. exists x. split; [exact Hx|]. split; [exact Hf | now left].
Qed.

(** C4, what the code does.  [scegli_candidati] has one activation for each
    [candidato] fact, and the activations of two candidates are different
    activations: they bind different values.  With eggs, lettuce and tomato
    and ten minutes two candidates are asserted, the rule fires twice, and
    twice the list of the same candidates is printed and the user asked to
    choose, although the first answer was valid. *)
Theorem two_candidates_asked_twice :
  (forall (K : Collab) (es : list Entry) (e x y : Entry),
      In e es -> content e = trovaRicetta ->
      In x es -> field (content x) = candidato ->
      In y es -> field (content y) = candidato ->
      In (mkAct 6 [eid e; eid x] [(senza_nome, value (content x))])
         (matches (rules K) es) /\
      In (mkAct 6 [eid e; eid y] [(senza_nome, value (content y))])
         (matches (rules K) es) /\
      (value (content x) <> value (content y) ->
       same_activation (mkAct 6 [eid e; eid x] [(senza_nome, value (content x))])
                       (mkAct 6 [eid e; eid y] [(senza_nome, value (content y))])
       = false)) /\
  let r := avvia_consulente_ricette collab_base 11
             ["uova, lattuga, pomodoro"; "10"; ""; "1"; "1"; "1"] in
  status r = Done /\
  values_of candidato (wm (final r)) = ["Uova Strapazzate"; "Insalata Mista"] /\
  count_occ string_dec (names collab_base r) "scegli_candidati" = 2 /\
  conta is_elenco (log (world r)) = 2 /\
  conta is_scelta (log (world r)) = 2 /\
  values_of ricetta_suggerita (wm (final r)) = ["Uova Strapazzate"].
Proof.
  split.
  - intros K es e x y He Hc Hx Hfx Hy Hfy.
    split; [|split]; try (apply scegli_per_candidato; assumption).
    intro Hd. destruct (same_activation _ _) eqn:E; [|reflexivity].
    apply same_activation_true in E. cbn [a_binding] in E.
    destruct E as [_ E]. injection E as E. contradiction.
  - vm_compute. auto 10.
Qed.

End DueCandidati.

(** ** The three questions *)

Module Domande.
Import Text Interfaccia Engine Consulente Notions StoreFacts EngineFacts RuleFacts Fallback.

(** What a sequence of assertions does to the store. *)
Lemma declared (cyc : nat) (fs : list Fact) :
  forall s,
    let s' := fold_left (apply_effect cyc) (map DeclareFact fs) s in
    (forall e, In e (entries s) -> In e (entries s')) /\
    (forall e, In e (entries s') -> In e (entries s) \/ In (content e) fs) /\
    (forall f, In f fs -> In f (contents s')).
Proof.
  induction fs as [|f fs IH]; intro s; cbn [map fold_left].
  - cbv zeta. repeat split; auto. intros f [].
  - specialize (IH (apply_effect cyc s (DeclareFact f))). cbv zeta in *.
    destruct IH as (IH1 & IH2 & IH3).
    assert (Hkeep : forall e, In e (entries s) ->
                              In e (entries (apply_effect cyc s (DeclareFact f)))).
    { intros e He. cbn [apply_effect]. unfold insert.
      destruct (present f s); cbn; [exact He | apply in_or_app; now left]. }
    assert (Hnew : forall e, In e (entries (apply_effect cyc s (DeclareFact f))) ->
                             In e (entries s) \/ content e = f).
    { intros e He. cbn [apply_effect] in He. unfold insert in He.
      destruct (present f s); cbn in He; [now left|].
      apply in_app_or in He. destruct He as [He|[<-|[]]]; auto. }
    assert (Hhas : In f (contents (apply_effect cyc s (DeclareFact f)))).
    { cbn [apply_effect]. unfold insert. destruct (present f s) eqn:E; cbn [fst].
      - apply present_true. exact E.
      - unfold contents. cbn [entries]. rewrite map_app. apply in_or_app. right. now left. }
    repeat split.
    + intros e He. apply IH1, Hkeep, He.
    + intros e He. destruct (IH2 e He) as [H|H]; [|right; now right].
      destruct (Hnew e H) as [H'|H']; [now left | right; now left].
    + intros g [<-|Hg]; [|apply IH3, Hg].
      unfold contents in *. apply in_map_iff in Hhas. destruct Hhas as (e & Hc & He).
      apply in_map_iff. exists e. split; [exact Hc | apply IH1, He].
Qed.

Lemma stage_rule (K : Collab) (i : nat) :
  i < 3 ->
  exists nm sal act,
    nth_error (rules K) i
    = Some (mkRule nm [FieldEquals azione (nth i stage_names "")] sal act).
Proof.
  intro Hi. destruct i as [|[|[|i]]]; [| | |lia]; cbn; eauto.
Qed.

(** An [azione] fact of working memory at stage [i] is one of the first
    [i + 1] stage facts. *)
Lemma stage_azione (K : Collab) (i : nat) (st : State) (v : string) :
  stage K i st -> In (mkFact azione v) (wm st) -> In v (firstn (S i) stage_names).
Proof.
  intros (_ & _ & Hf & _) Hin. destruct (Hf _ Hin) as [[_ H]|H]; [exact H|].
  destruct H as [H|[H|H]]; discriminate H.
Qed.

Lemma entry_of_fact (st : State) (f : Fact) :
  In f (wm st) -> exists e, In e (entries (store st)) /\ content e = f.
Proof.
  unfold wm, contents. rewrite in_map_iff. intros (e & Hc & He). eauto.
Qed.

Lemma fact_of_entry (st : State) (e : Entry) :
  In e (entries (store st)) -> In (content e) (wm st).
Proof. intro H. unfold wm, contents. apply in_map. exact H. Qed.

Lemma same_entry (st : State) (e e' : Entry) :
  wf_state st -> In e (entries (store st)) -> In e' (entries (store st)) ->
  content e = content e' -> e = e'.
Proof.
  intros [(_ & Hc & _) _] He He' H.
  apply (NoDup_map_inj content (entries (store st))); auto.
Qed.

(** At a question the agenda holds the activation of the asking rule and
    nothing else. *)
Lemma stage_agenda (K : Collab) (i : nat) (st : State) :
  stage K i st -> i < 3 ->
  exists e,
    In e (entries (store st)) /\ content e = stage_fact i /\
    In (mkAct i [eid e] []) (agenda (rules K) st) /\
    forall b, In b (agenda (rules K) st) -> b = mkAct i [eid e] [].
Proof.
  intros Hst Hi. pose proof Hst as (Hwf & Hsf & Hfacts & Hdone & Hfired).
  destruct (entry_of_fact st _ Hsf) as (e & He & Hc).
  exists e. split; [exact He|]. split; [exact Hc|]. split.
  - apply in_agenda. split.
    + destruct (stage_rule K i Hi) as (nm & sal & act & Hr).
      apply in_matches. eexists. split; [exact Hr|].
      cbn [r_conds a_support a_binding]. apply single_fact_rule. exists e. auto.
    + apply refracted_false. intros b Hb Hr _.
      specialize (Hfired _ Hb). cbn in Hr. lia.
  - intros b Hb. apply in_agenda in Hb. destruct Hb as [Hm Hnf].
    apply not_refracted_not_fired in Hnf.
    assert (Hv : forall x v, In x (entries (store st)) -> content x = mkFact azione v ->
                             In v (firstn (S i) stage_names)).
    { intros x v Hx Hcx. apply (stage_azione K i st v Hst).
      rewrite <- Hcx. apply fact_of_entry, Hx. }
    assert (Hw : forall v, In (mkFact azione v) (map content (entries (store st))) ->
                           In v (firstn (S i) stage_names)).
    { intros v Hin. apply (stage_azione K i st v Hst). exact Hin. }
    assert (Hsame : forall x, In x (entries (store st)) -> content x = stage_fact i ->
                              x = e).
    { intros x Hx Hcx. apply (same_entry st); auto. congruence. }
    assert (Hold : forall j, j < i -> forall x, mkAct j [eid x] [] = b -> False).
    { intros j Hj x Hjb. apply Hnf. apply Hdone; [exact Hm|]. subst b. exact Hj. }
    destruct (match_needs K _ b Hm)
      as [(x & Hx & Hcx & Hbx)|[(x & Hx & Hcx & Hbx)|[(x & Hx & Hcx & Hbx)|[[_ H]|
          [(_ & H & _)|[(x & Hx & Hcx & _)|[[_ H]|[[_ H]|(x & Hx & Hcx & _)]]]]]]]];
      try (apply Hw in H); try (pose proof (Hv x _ Hx Hcx) as Hval);
      destruct i as [|[|[|i]]]; try lia;
      cbn [firstn stage_names In] in *;
      try (exfalso; intuition discriminate);
      try (subst b; f_equal; f_equal; f_equal; apply Hsame; assumption);
      try (exfalso; subst b; eapply Hold; [|reflexivity]; lia).
Qed.

Lemma halts_map_declare (fs : list Fact) : halts (map DeclareFact fs) = false.
Proof. induction fs; cbn; auto. Qed.

Lemma stage_names_distinct (i j : nat) :
  i < 4 -> j < 4 -> nth i stage_names "" = nth j stage_names "" -> i = j.
Proof.
  intros Hi Hj.
  destruct i as [|[|[|[|i]]]]; try lia;
    destruct j as [|[|[|[|j]]]]; try lia; cbn; intro H;
    try reflexivity; discriminate H.
Qed.

Lemma firstn_grow {A : Type} (l : list A) (v : A) :
  forall n, In v (firstn n l) -> In v (firstn (S n) l).
Proof.
  induction l as [|a l IH]; intros [|n]; cbn [firstn]; intro Hv;
    try (destruct Hv; fail).
  destruct Hv as [Hv|Hv]; [now left | right; apply IH, Hv].
Qed.

Lemma stage_names_grow (i : nat) (v : string) :
  In v (firstn (S i) stage_names) -> In v (firstn (S (S i)) stage_names).
Proof. apply firstn_grow. Qed.

Lemma stage_names_next (i : nat) :
  i < 3 -> In (nth (S i) stage_names "") (firstn (S (S i)) stage_names).
Proof.
  intro Hi. destruct i as [|[|[|i]]]; try lia; cbn; tauto.
Qed.

(** An asking rule fires at its question and leads to the next stage. *)
Lemma stage_step (K : Collab) (i : nat) (st : State) (w w' : World) (r : Rule)
      (fs : list Fact) :
  stage K i st -> i < 3 ->
  nth_error (rules K) i = Some r ->
  r_action r [] (wm st) w = Some (map DeclareFact (fs ++ [stage_fact (S i)]), w') ->
  Forall (fun f => user_field (field f)) fs ->
  exists a st',
    a_rule a = i /\
    step (rules K) st w = Fired a false st' w' /\
    stage K (S i) st' /\
    (forall f, In f (wm st') <-> In f (wm st) \/ In f fs \/ f = stage_fact (S i)).
Proof.
  intros Hst Hi Hr Hact Hfs.
  destruct (stage_agenda K i st Hst Hi) as (e & He & Hc & Ha & Honly).
  pose proof Hst as (Hwf & Hsf & Hfacts & Hdone & Hfired).
  set (a := mkAct i [eid e] []) in *.
  set (effs := map DeclareFact (fs ++ [stage_fact (S i)])) in *.
  set (s' := fold_left (apply_effect (S (cycle st))) effs (store st)).
  set (st' := mkState s' (S (cycle st)) (filter (supported s') (a :: fired st))).
  assert (Hstep : step (rules K) st w = Fired a false st' w').
  { rewrite (step_intro (rules K) st w a r effs w' Ha).
    - unfold effs. rewrite halts_map_declare. reflexivity.
    - intros b Hb. left. apply Honly, Hb.
    - exact Hr.
    - exact Hact. }
  destruct (declared (S (cycle st)) (fs ++ [stage_fact (S i)]) (store st))
    as (D1 & D2 & D3). fold effs in D1, D2, D3. fold s' in D1, D2, D3.
  assert (Hwf' : wf_state st') by (eapply step_wf; eauto).
  assert (Hmem : forall f, In f (wm st') <->
                           In f (wm st) \/ In f fs \/ f = stage_fact (S i)).
  { intro f. split.
    - intro Hf. destruct (entry_of_fact st' f Hf) as (x & Hx & <-).
      destruct (D2 x Hx) as [H|H]; [left; apply fact_of_entry, H|].
      apply in_app_or in H. destruct H as [H|[H|[]]]; auto.
    - intros [Hf|[Hf|Hf]].
      + destruct (entry_of_fact st f Hf) as (x & Hx & <-).
        apply (fact_of_entry st'). apply D1, Hx.
      + apply D3. apply in_or_app. now left.
      + apply D3. apply in_or_app. right. left. auto. }
  assert (Hkept : forall b, In b (matches (rules K) s'.(entries)) ->
                            In b (a :: fired st) -> In b (fired st')).
  { intros b Hm Hin. cbn [fired st']. apply filter_In. split; [exact Hin|].
    apply supported_true. apply (matches_grounded (rules K)). exact Hm. }
  exists a, st'. split; [reflexivity|]. split; [exact Hstep|]. split; [|exact Hmem].
  split; [exact Hwf'|]. split; [|split; [|split]].
  - apply Hmem. right. right. reflexivity.
  - intros f Hf. apply Hmem in Hf. destruct Hf as [Hf|[Hf|Hf]].
    + destruct (Hfacts f Hf) as [[Hz Hv]|Hu]; [left|right; exact Hu].
      split; [exact Hz | apply stage_names_grow, Hv].
    + right. rewrite Forall_forall in Hfs. apply Hfs, Hf.
    + left. subst f. split; [reflexivity | apply stage_names_next, Hi].
  - intros b Hm Hlt. cbn [store st'] in Hm. apply Hkept; [exact Hm|].
    assert (Hback : forall j x, j <= i -> In x (entries s') ->
                                content x = stage_fact j -> In x (entries (store st))).
    { intros j x Hj Hx Hcx. destruct (D2 x Hx) as [H|H]; [exact H|]. exfalso.
      apply in_app_or in H. destruct H as [H|[H|[]]].
      - rewrite Forall_forall in Hfs. specialize (Hfs _ H). rewrite Hcx in Hfs.
        destruct Hfs as [Hu|[Hu|Hu]]; discriminate Hu.
      - rewrite Hcx in H. unfold stage_fact in H.
        assert (Hn : nth (S i) stage_names "" = nth j stage_names "") by congruence.
        apply stage_names_distinct in Hn; lia. }
    destruct (match_needs K _ b Hm)
      as [(x & Hx & Hcx & Hbx)|[(x & Hx & Hcx & Hbx)|[(x & Hx & Hcx & Hbx)|[[H _]|
          [(H & _)|[(x & _ & _ & Hbx & _)|[[H _]|[[H _]|(x & _ & _ & Hbx)]]]]]]]];
      try (subst b; cbn [a_rule] in Hlt; lia); try lia.
    + subst b. cbn [a_rule] in Hlt.
      assert (Hxo : In x (entries (store st))) by (apply (Hback 0 x); auto; lia).
      destruct (Nat.eq_dec i 0) as [->|Hne].
      * left. unfold a. f_equal. f_equal. f_equal.
        apply (same_entry st); auto. rewrite Hc, Hcx. reflexivity.
      * right. apply Hdone; [|cbn; lia].
        apply in_matches. eexists. split; [reflexivity|].
        cbn [r_conds a_support a_binding]. apply single_fact_rule. exists x. auto.
    + subst b. cbn [a_rule] in Hlt.
      assert (Hxo : In x (entries (store st))) by (apply (Hback 1 x); auto; lia).
      destruct (Nat.eq_dec i 1) as [->|Hne].
      * left. unfold a. f_equal. f_equal. f_equal.
        apply (same_entry st); auto. rewrite Hc, Hcx. reflexivity.
      * right. apply Hdone; [|cbn; lia].
        apply in_matches. eexists. split; [reflexivity|].
        cbn [r_conds a_support a_binding]. apply single_fact_rule. exists x. auto.
    + subst b. cbn [a_rule] in Hlt.
      assert (Hxo : In x (entries (store st))) by (apply (Hback 2 x); auto; lia).
      destruct (Nat.eq_dec i 2) as [->|Hne]; [|lia].
      left. unfold a. f_equal. f_equal. f_equal.
      apply (same_entry st); auto. rewrite Hc, Hcx. reflexivity.
  - intros b Hb. cbn [fired st'] in Hb. apply filter_In in Hb.
    destruct Hb as [[<-|Hb] _]; [cbn; lia|]. specialize (Hfired b Hb). lia.
Qed.

Lemma stage_reset (K : Collab) : stage K 0 (reset deffacts).
Proof.
  split; [|split; [|split; [|split]]].
  - split; [split; [|split]|]; repeat constructor; cbn; intuition discriminate.
  - now left.
  - intros f [<-|[]]. left. split; [reflexivity | now left].
  - intros b _ H. lia.
  - intros b [].
Qed.

Lemma declare_all_map (f : Field) (vs : list string) :
  declare_all f vs = map DeclareFact (map (mkFact f) vs).
Proof. unfold declare_all. rewrite map_map. reflexivity. Qed.

Lemma azione_ingredienti (l : list string) (w w1 : World) (b : Binding) (facts : list Fact) :
  chiedi_ingredienti_disponibili w = Some (l, w1) -> l <> [] ->
  chiedi_ingredienti b facts w
  = Some (map DeclareFact (map (mkFact ingrediente) (map norm l) ++ [stage_fact 1]), w1).
Proof.
  intros H Hl. unfold chiedi_ingredienti. rewrite H.
  destruct l as [|x l]; [contradiction|].
  rewrite declare_all_map, map_app. reflexivity.
Qed.

Lemma azione_tempo (t : string) (w w1 : World) (b : Binding) (facts : list Fact) :
  chiedi_tempo_disponibile w = Some (t, w1) ->
  chiedi_tempo b facts w
  = Some (map DeclareFact ([mkFact tempo_disponibile t] ++ [stage_fact 2]), w1).
Proof. intro H. unfold chiedi_tempo. rewrite H. reflexivity. Qed.

Lemma azione_preferenze (ps : list string) (w w1 : World) (b : Binding)
      (facts : list Fact) :
  chiedi_preferenze_alimentari w = Some (ps, w1) ->
  chiedi_preferenze b facts w
  = Some (map DeclareFact (map (mkFact preferenza) (map norm ps) ++ [stage_fact 3]), w1).
Proof.
  intro H. unfold chiedi_preferenze. rewrite H.
  rewrite declare_all_map, map_app. reflexivity.
Qed.

Lemma user_facts (f : Field) (vs : list string) :
  user_field f -> Forall (fun x => user_field (field x)) (map (mkFact f) vs).
Proof.
  intro H. apply Forall_forall. intros x Hx. apply in_map_iff in Hx.
  destruct Hx as (v & <- & _). exact H.
Qed.

(** [candidato_possibile] reads only which ingredients and which time are
    among the facts. *)
Lemma candidato_possibile_ext (l1 l2 : list Fact) :
  (forall f, field f = ingrediente \/ field f = tempo_disponibile ->
             (In f l1 <-> In f l2)) ->
  candidato_possibile l1 = candidato_possibile l2.
Proof.
  intro H.
  assert (Hh : forall f, field f = ingrediente \/ field f = tempo_disponibile ->
                         holds f l1 = holds f l2).
  { intros f Hf. specialize (H f Hf). rewrite <- !holds_true in H.
    destruct (holds f l1), (holds f l2); auto; destruct H as [H1 H2];
      [symmetry; apply H1 | apply H2]; reflexivity. }
  unfold candidato_possibile.
  rewrite !(Hh (mkFact ingrediente _)) by (left; reflexivity).
  rewrite !(Hh (mkFact tempo_disponibile _)) by (right; reflexivity).
  reflexivity.
Qed.

(** The facts of working memory at stage 3 never include a candidate, a
    suggestion or a later stage fact. *)
Lemma stage_plain (K : Collab) (i : nat) (st : State) (f : Fact) :
  stage K i st -> i <= 3 -> In f (wm st) ->
  field f <> candidato /\ field f <> ricetta_suggerita /\
  f <> mkFact azione "valutaRicetta" /\ f <> mkFact azione "stampaRisultato" /\
  f <> termina.
Proof.
  intros (_ & _ & Hf & _) Hi Hin. destruct (Hf f Hin) as [[Hz Hv]|Hu].
  - repeat split; try (rewrite Hz; discriminate);
      intros ->; cbn [value] in Hv;
      destruct i as [|[|[|[|i]]]]; try lia; cbn in Hv; intuition discriminate.
  - destruct Hu as [Hu|[Hu|Hu]]; repeat split;
      try (rewrite Hu; discriminate); intros ->; discriminate Hu.
Qed.

Lemma in_values_of (f0 : Field) (facts : list Fact) (v : string) :
  In v (values_of f0 facts) <-> In (mkFact f0 v) facts.
Proof.
  unfold values_of. rewrite in_map_iff. split.
  - intros (f & <- & Hf). apply filter_In in Hf. destruct Hf as [Hf Hd].
    destruct (Field_eq_dec (field f) f0) as [<-|]; [|discriminate].
    destruct f. exact Hf.
  - intro H. exists (mkFact f0 v). split; [reflexivity|].
    apply filter_In. split; [exact H|]. cbn.
    destruct (Field_eq_dec f0 f0); [reflexivity | contradiction].
Qed.

(** The consultation in which the user gives ingredients, a time and
    preferences, and no candidate rule matches them. *)
Lemma fallback_in_consultation
    (K : Collab) (w0 w1 w2 w3 : World) (l ps : list string) (t : string) (n : nat) :
  chiedi_ingredienti_disponibili w0 = Some (l, w1) -> l <> [] ->
  chiedi_tempo_disponibile w1 = Some (t, w2) ->
  chiedi_preferenze_alimentari w2 = Some (ps, w3) ->
  candidato_possibile (dati l t) = false ->
  let r := run (rules K) (6 + n) (reset deffacts) w0 in
  status r = Done /\
  map (name_of (rules K)) (trace r)
  = ["chiedi_ingredienti"; "chiedi_tempo"; "chiedi_preferenze";
     "nessuna_ricetta_trovata"; "terminare_esecuzione"] /\
  (exists ings,
      (forall x, In x ings <-> In x (map norm l)) /\
      world r = emit ETerminata (cerca_ricette_parziali ings w3)) /\
  In termina (wm (final r)) /\
  (forall x, In x (firings (rules K) (6 + n) (reset deffacts) w0) ->
             forall f, In f (wm (snd x)) ->
                       field f <> candidato /\ field f <> ricetta_suggerita).
Proof.
  intros Hi Hl Ht Hp Hcp r.
  destruct (stage_step K 0 (reset deffacts) w0 w1
              (mkRule "chiedi_ingredienti" [FieldEquals azione "chiediIngredienti"] 10
                      chiedi_ingredienti)
              (map (mkFact ingrediente) (map norm l))
              (stage_reset K) (Nat.lt_0_succ 2) eq_refl
              (azione_ingredienti l w0 w1 _ _ Hi Hl)
              (user_facts ingrediente _ (or_introl eq_refl)))
    as (a0 & st1 & Ha0 & Hs0 & S1 & M1).
  destruct (stage_step K 1 st1 w1 w2
              (mkRule "chiedi_tempo" [FieldEquals azione "chiediTempo"] 9 chiedi_tempo)
              [mkFact tempo_disponibile t]
              S1 (Nat.lt_lt_succ_r 1 2 (Nat.lt_succ_diag_r 1))
              eq_refl (azione_tempo t w1 w2 _ _ Ht)
              (user_facts tempo_disponibile [t] (or_intror (or_introl eq_refl))))
    as (a1 & st2 & Ha1 & Hs1 & S2 & M2).
  destruct (stage_step K 2 st2 w2 w3
              (mkRule "chiedi_preferenze" [FieldEquals azione "chiediPreferenze"] 8
                      chiedi_preferenze)
              (map (mkFact preferenza) (map norm ps))
              S2 (Nat.lt_succ_diag_r 2) eq_refl (azione_preferenze ps w2 w3 _ _ Hp)
              (user_facts preferenza _ (or_intror (or_intror eq_refl))))
    as (a2 & st3 & Ha2 & Hs2 & S3 & M3).
  pose proof S3 as (Hwf3 & Hsf3 & Hf3 & Hdone3 & Hfired3).
  assert (Hplain : forall i st, stage K i st -> i <= 3 ->
                                forall f, In f (wm st) ->
                                          field f <> candidato /\ field f <> ricetta_suggerita).
  { intros i st Hst Hle f Hf. destruct (stage_plain K i st f Hst Hle Hf) as (? & ? & _).
    auto. }
  assert (Hing : forall v, In (mkFact ingrediente v) (wm st3) <-> In v (map norm l)).
  { intro v. rewrite M3, M2, M1.
    change (wm (reset deffacts)) with [mkFact azione "chiediIngredienti"].
    cbn [In]. split.
    - intro H.
      repeat match type of H with _ \/ _ => destruct H as [H|H] end;
        try (apply in_map_iff in H; destruct H as (y & Hy & Hin);
             first [injection Hy as <-; exact Hin | discriminate Hy]);
        try (destruct H; fail); discriminate H.
    - intro H. left. left. right. left. apply in_map. exact H. }
  assert (Hcp3 : candidato_possibile (wm st3) = false).
  { rewrite <- Hcp. apply candidato_possibile_ext. intros f Hf.
    unfold dati. rewrite in_app_iff, M3, M2, M1.
    change (wm (reset deffacts)) with [mkFact azione "chiediIngredienti"].
    cbn [In]. split.
    - intro H.
      repeat match type of H with _ \/ _ => destruct H as [H|H] end;
        try (destruct H; fail); auto;
        try (apply in_map_iff in H; destruct H as (y & <- & _));
        try subst f; cbn in Hf; destruct Hf as [Hf|Hf]; discriminate Hf.
    - intros [H|[H|[]]]; [left; left; right; left; exact H | left; right; left; left; exact H]. }
  destruct (fallback_run K st3 w3 Hwf3 Hsf3) as (a7 & a10 & st4 & st5 & H).
  { intros f Hf. apply (Hplain 3 st3 S3 (le_n 3) f Hf). }
  { exact Hcp3. }
  { intro Hf. destruct (stage_plain K 3 st3 _ S3 (le_n 3) Hf) as (_ & _ & Hx & _).
    apply Hx. reflexivity. }
  { intro Hf. destruct (stage_plain K 3 st3 _ S3 (le_n 3) Hf) as (_ & _ & _ & Hx & _).
    apply Hx. reflexivity. }
  { intro Hf. destruct (stage_plain K 3 st3 _ S3 (le_n 3) Hf) as (_ & _ & _ & _ & Hx).
    apply Hx. reflexivity. }
  { intros b Hb. apply in_agenda in Hb. destruct Hb as [Hm Hnf].
    destruct (Nat.lt_ge_cases (a_rule b) 3) as [Hlt|Hge]; [|exact Hge].
    destruct (not_refracted_not_fired _ _ Hnf (Hdone3 b Hm Hlt)). }
  { intros b Hb. specialize (Hfired3 b Hb). lia. }
  { intros b Hb. specialize (Hfired3 b Hb). lia. }
  cbv zeta in H. destruct H as (H7 & H10 & Hs3 & Hw4 & Hs4 & Hw5 & Hs5).
  destruct l as [|x0 l0]; [contradiction|].
  assert (Hne : exists v vs, values_of ingrediente (wm st3) = v :: vs).
  { destruct (values_of ingrediente (wm st3)) as [|v vs] eqn:E; [|eauto].
    exfalso. assert (Hin : In (norm x0) (values_of ingrediente (wm st3))).
    { apply in_values_of, Hing. now left. }
    rewrite E in Hin. exact Hin. }
  destruct Hne as (v & vs & Hvals). rewrite Hvals in Hs3, Hs4, Hs5. rewrite <- Hvals in *.
  subst r. change (6 + n) with (S (S (S (S (S (S n)))))). cbn [run firings].
  rewrite Hs0. cbn [run firings]. rewrite Hs1. cbn [run firings].
  rewrite Hs2. cbn [run firings]. rewrite Hs3. cbn [run firings].
  rewrite Hs4. cbn [run firings]. rewrite Hs5. cbn [status trace final world map].
  split; [reflexivity|]. split.
  { unfold name_of. rewrite Ha0, Ha1, Ha2, H7, H10. reflexivity. }
  split.
  { exists (values_of ingrediente (wm st3)). split; [|reflexivity].
    intro y. rewrite in_values_of. apply Hing. }
  split.
  { rewrite Hw5. apply in_or_app. right. now left. }
  assert (Hlate : forall f, In f (wm st3 ++ [termina]) ->
                            field f <> candidato /\ field f <> ricetta_suggerita).
  { intros f Hf. apply in_app_or in Hf. destruct Hf as [Hf|[<-|[]]].
    - apply (Hplain 3 st3 S3 (le_n 3) f Hf).
    - split; discriminate. }
  intros y [<-|[<-|[<-|[<-|[<-|[]]]]]] f Hf; cbn [snd] in Hf.
  - apply (Hplain 1 st1 S1); [lia | exact Hf].
  - apply (Hplain 2 st2 S2); [lia | exact Hf].
  - apply (Hplain 3 st3 S3); [lia | exact Hf].
  - apply Hlate. rewrite <- Hw4. exact Hf.
  - apply Hlate. rewrite <- Hw5. exact Hf.
Qed.

(** C5. In a consultation where the user gives ingredients, a time and
    preferences and no candidate rule matches them, the three asking rules
    fire, then [nessuna_ricetta_trovata], once; it calls
    [cerca_ricette_parziali] with the ingredients asserted and asserts
    [azione="termina"]; [terminare_esecuzione] follows and the run ends; no
    [candidato] and no [ricetta_suggerita] is in working memory at any point
    of the run.  The same holds from any state in which
    [azione="trovaRicetta"] is asserted, the questions are dealt with, no
    candidate rule matches, an ingredient is stored and neither
    [nessuna_ricetta_trovata] nor [terminare_esecuzione] is in the refraction
    set.  Conversely, in any state, [nessuna_ricetta_trovata] fires only when
    working memory holds no [candidato]. *)
Theorem fallback_fires_once
    (K : Collab) (w0 w1 w2 w3 : World) (l ps : list string) (t : string) (n : nat) :
  chiedi_ingredienti_disponibili w0 = Some (l, w1) -> l <> [] ->
  chiedi_tempo_disponibile w1 = Some (t, w2) ->
  chiedi_preferenze_alimentari w2 = Some (ps, w3) ->
  candidato_possibile (dati l t) = false ->
  (let r := run (rules K) (6 + n) (reset deffacts) w0 in
   status r = Done /\
   map (name_of (rules K)) (trace r)
   = ["chiedi_ingredienti"; "chiedi_tempo"; "chiedi_preferenze";
      "nessuna_ricetta_trovata"; "terminare_esecuzione"] /\
   (exists ings,
       (forall x, In x ings <-> In x (map norm l)) /\
       world r = emit ETerminata (cerca_ricette_parziali ings w3)) /\
   In termina (wm (final r)) /\
   (forall x, In x (firings (rules K) (6 + n) (reset deffacts) w0) ->
              forall f, In f (wm (snd x)) ->
                        field f <> candidato /\ field f <> ricetta_suggerita)) /\
  (forall (st : State) (w : World) (m : nat),
      wf_state st ->
      In trovaRicetta (wm st) ->
      (forall f, In f (wm st) -> field f <> candidato /\ field f <> ricetta_suggerita) ->
      candidato_possibile (wm st) = false ->
      ~ In (mkFact azione "valutaRicetta") (wm st) ->
      ~ In (mkFact azione "stampaRisultato") (wm st) ->
      ~ In termina (wm st) ->
      (forall a, In a (agenda (rules K) st) -> 3 <= a_rule a) ->
      (forall a, In a (fired st) -> a_rule a <> 7) ->
      (forall a, In a (fired st) -> a_rule a <> 10) ->
      values_of ingrediente (wm st) <> [] ->
      let r := run (rules K) (3 + m) st w in
      status r = Done /\
      map (name_of (rules K)) (trace r)
      = ["nessuna_ricetta_trovata"; "terminare_esecuzione"] /\
      wm (final r) = wm st ++ [termina] /\
      world r = emit ETerminata
                  (cerca_ricette_parziali (values_of ingrediente (wm st)) w) /\
      (forall x, In x (firings (rules K) (3 + m) st w) ->
                 forall f, In f (wm (snd x)) ->
                           field f <> candidato /\ field f <> ricetta_suggerita)) /\
  (forall st w a h st' w',
      step (rules K) st w = Fired a h st' w' ->
      name_of (rules K) a = "nessuna_ricetta_trovata" ->
      forall f, In f (wm st) -> field f <> candidato).
Proof.
  intros Hi Hl Ht Hp Hcp. split; [|split].
  - apply (fallback_in_consultation K w0 w1 w2 w3 l ps t n); assumption.
  - intros st w m. apply fallback_from_state.
  - intros st w a h st' w'. apply fallback_needs_no_candidate.
Qed.

(** The consultation "riso", 30 minutes, "vegano": the lookup is called with
    ["riso"] and the run ends after five firings. *)
Lemma fallback_fires_once_witness :
  status (run (rules collab_base) 6 (reset deffacts)
              (mkWorld ["riso"; "30"; "vegano"] [])) = Done /\
  map (name_of (rules collab_base))
      (trace (run (rules collab_base) 6 (reset deffacts)
                  (mkWorld ["riso"; "30"; "vegano"] [])))
  = ["chiedi_ingredienti"; "chiedi_tempo"; "chiedi_preferenze";
     "nessuna_ricetta_trovata"; "terminare_esecuzione"].
Proof.
  assert (H := fallback_fires_once collab_base
                 (mkWorld ["riso"; "30"; "vegano"] [])
                 (mkWorld ["30"; "vegano"] [EInput PIngredienti])
                 (mkWorld ["vegano"] [EInput PIngredienti; EInput PMinuti])
                 (mkWorld [] [EInput PIngredienti; EInput PMinuti; EInput PPreferenze])
                 ["riso"] ["vegano"] "medio" 0).
  destruct H as ((Hs & Hn & _) & _).
  - reflexivity.
  - discriminate.
  - reflexivity.
  - reflexivity.
  - reflexivity.
  - split; [exact Hs | exact Hn].
Defined.

End Domande.

(** ** Every consultation that comes to rest has asserted [azione="termina"] *)

Module Progresso.
Import Text Interfaccia Engine Consulente Notions StoreFacts EngineFacts RuleFacts
       Fallback Domande.

(** What each action asserts. *)
Lemma action_declares (K : Collab) (i : nat) (r : Rule) (b : Binding)
      (facts : list Fact) (w w' : World) (effs : list Effect) :
  nth_error (rules K) i = Some r ->
  r_action r b facts w = Some (effs, w') ->
  exists fs,
    effs = map DeclareFact fs /\
    (i = 0 -> In (stage_fact 1) fs \/ In termina fs) /\
    (i = 1 -> In (stage_fact 2) fs) /\
    (i = 2 -> In trovaRicetta fs) /\
    (i = 6 -> (exists v, In (mkFact ricetta_suggerita v) fs) /\
              In (mkFact azione "valutaRicetta") fs) /\
    (i = 7 -> In termina fs) /\
    (i = 8 -> (exists v, In (mkFact valutazione_ricetta v) fs) /\
              In (mkFact azione "stampaRisultato") fs) /\
    (i = 9 -> In termina fs) /\
    (forall v, In (mkFact valutazione_ricetta v) fs ->
               exists ricetta fatti w0 w1,
                 calcola_rischio_o_successo_ricetta K ricetta fatti w0 = Some (v, w1)).
Proof.
  intros Hr Ha.
  each_rule Hr; cbn [r_action] in Ha.
  - unfold chiedi_ingredienti in Ha.
    destruct (chiedi_ingredienti_disponibili w) as [[[|x l] w1]|]; try discriminate;
      injection Ha as <- <-.
    + exists [termina]. split; [reflexivity|].
      repeat split; intros; try discriminate; try lia; cbn in *; intuition discriminate.
    + exists (map (mkFact ingrediente) (map norm (x :: l)) ++ [stage_fact 1]).
      split; [rewrite map_app, <- declare_all_map; reflexivity|].
      repeat split; intros; try discriminate; try lia.
      * left. apply in_or_app. right. now left.
      * exfalso. apply in_app_or in H. destruct H as [H|[H|[]]]; [|discriminate H].
        apply in_map_iff in H. destruct H as (y & Hy & _). discriminate Hy.
  - unfold chiedi_tempo in Ha.
    destruct (chiedi_tempo_disponibile w) as [[t w1]|]; try discriminate.
    injection Ha as <- <-. eexists [_; _]. split; [reflexivity|].
    repeat split; intros; try discriminate; try lia; cbn in *; intuition discriminate.
  - unfold chiedi_preferenze in Ha.
    destruct (chiedi_preferenze_alimentari w) as [[l w1]|]; try discriminate.
    injection Ha as <- <-.
    exists (map (mkFact preferenza) (map norm l) ++ [trovaRicetta]).
    split; [rewrite map_app, <- declare_all_map; reflexivity|].
    repeat split; intros; try discriminate; try lia.
    + apply in_or_app. right. now left.
    + exfalso. apply in_app_or in H. destruct H as [H|[H|[]]]; [|discriminate H].
      apply in_map_iff in H. destruct H as (y & Hy & _). discriminate Hy.
  - injection Ha as <- <-. eexists [_]. split; [reflexivity|].
    repeat split; intros; try discriminate; try lia; cbn in *; intuition discriminate.
  - injection Ha as <- <-. eexists [_]. split; [reflexivity|].
    repeat split; intros; try discriminate; try lia; cbn in *; intuition discriminate.
  - injection Ha as <- <-. eexists [_]. split; [reflexivity|].
    repeat split; intros; try discriminate; try lia; cbn in *; intuition discriminate.
  - unfold scegli_candidati in Ha.
    match type of Ha with
    | match ?x with _ => _ end = _ => destruct x as [[rs w1]|]
    end; try discriminate.
    injection Ha as <- <-. eexists [_; _]. split; [reflexivity|].
    repeat split; intros; try discriminate; try lia; cbn in *;
      try (intuition discriminate); eauto.
  - injection Ha as <- <-. eexists [_]. split; [reflexivity|].
    repeat split; intros; try discriminate; try lia; cbn in *; intuition discriminate.
  - unfold valuta_ricetta_con_bayes in Ha.
    destruct (lookup "ricetta" b) as [ricetta|]; try discriminate.
    destruct (calcola_rischio_o_successo_ricetta K ricetta (fatti_tempo facts)
                (emit (EBayes ricetta (fatti_tempo facts)) w)) as [[m w1]|] eqn:E;
      try discriminate.
    injection Ha as <- <-. eexists [_; _]. split; [reflexivity|].
    repeat split; intros; try discriminate; try lia; cbn in *;
      try (intuition discriminate); eauto.
    destruct H as [H|[H|[]]]; [|discriminate H]. injection H as <-. eauto.
  - unfold stampare_risultato_finale in Ha.
    destruct (lookup "ricetta" b); try discriminate.
    destruct (lookup "valutazione" b); try discriminate.
    destruct (_stampa_dettagli_ricetta K s w) as [alt w1].
    match type of Ha with
    | match ?x with _ => _ end = _ => destruct x
    end; try discriminate.
    injection Ha as <- <-. eexists [_]. split; [reflexivity|].
    repeat split; intros; try discriminate; try lia; cbn in *; intuition discriminate.
  - injection Ha as <- <-. exists []. split; [reflexivity|].
    repeat split; intros; try discriminate; try lia; cbn in *; intuition discriminate.
Qed.

(** A cycle preserves the invariant. *)
Lemma progresso_step (K : Collab) (st : State) (w : World) (a : Activation) (h : bool)
      (st' : State) (w' : World) :
  progresso K st -> step (rules K) st w = Fired a h st' w' -> progresso K st'.
Proof.
  intros (Hwf & H0 & P0 & P1 & P2 & P6 & P7 & P8 & P9 & Pv) Hstep.
  pose proof (step_wf _ _ _ _ _ _ _ Hwf Hstep) as Hwf'.
  apply step_fired in Hstep.
  destruct Hstep as (r & effs & Ht & Hr & Ha & Hh & Hst & Hcyc & Hf).
  destruct (action_declares K _ r _ _ _ _ _ Hr Ha)
    as (fs & -> & A0 & A1 & A2 & A6 & A7 & A8 & A9 & Av).
  destruct (declared (S (cycle st)) fs (store st)) as (D1 & D2 & D3).
  rewrite <- Hst in D1, D2, D3.
  assert (Hmono : forall f, In f (wm st) -> In f (wm st')).
  { intros f Hin. destruct (entry_of_fact st f Hin) as (x & Hx & <-).
    apply fact_of_entry, D1, Hx. }
  assert (Hnew : forall f, In f fs -> In f (wm st')) by (intros f Hin; apply D3, Hin).
  assert (Hfired : forall k, rule_fired st' k -> a_rule a = k \/ rule_fired st k).
  { intros k (b & Hb & Hk). rewrite Hf in Hb. apply filter_In in Hb.
    destruct Hb as [[<-|Hb] _]; [now left | right; exists b; auto]. }
  assert (Hhas : forall f, has_field f st -> has_field f st').
  { intros f (x & Hx & Hfx). exists x. auto. }
  split; [exact Hwf'|]. split; [apply Hmono, H0|].
  split; [|split; [|split; [|split; [|split; [|split; [|split]]]]]].
  - intro H. destruct (Hfired _ H) as [Hk|Hk].
    + destruct (A0 Hk) as [Hx|Hx]; [left | right]; apply Hnew, Hx.
    + destruct (P0 Hk) as [Hx|Hx]; [left | right]; apply Hmono, Hx.
  - intro H. destruct (Hfired _ H) as [Hk|Hk]; [apply Hnew, A1, Hk | apply Hmono, P1, Hk].
  - intro H. destruct (Hfired _ H) as [Hk|Hk]; [apply Hnew, A2, Hk | apply Hmono, P2, Hk].
  - intro H. destruct (Hfired _ H) as [Hk|Hk].
    + destruct (A6 Hk) as [(v & Hv) Hx]. split; [|apply Hnew, Hx].
      exists (mkFact ricetta_suggerita v). split; [apply Hnew, Hv | reflexivity].
    + destruct (P6 Hk) as [Hx Hy]. split; [apply Hhas, Hx | apply Hmono, Hy].
  - intro H. destruct (Hfired _ H) as [Hk|Hk]; [apply Hnew, A7, Hk | apply Hmono, P7, Hk].
  - intro H. destruct (Hfired _ H) as [Hk|Hk].
    + destruct (A8 Hk) as [(v & Hv) Hx]. split; [|apply Hnew, Hx].
      exists (mkFact valutazione_ricetta v). split; [apply Hnew, Hv | reflexivity].
    + destruct (P8 Hk) as [Hx Hy]. split; [apply Hhas, Hx | apply Hmono, Hy].
  - intro H. destruct (Hfired _ H) as [Hk|Hk]; [apply Hnew, A9, Hk | apply Hmono, P9, Hk].
  - intros v Hv. destruct (entry_of_fact st' _ Hv) as (x & Hx & Hc).
    destruct (D2 x Hx) as [Hold|Hin].
    + apply Pv. rewrite <- Hc. apply fact_of_entry, Hold.
    + apply Av. rewrite <- Hc. exact Hin.
Qed.

Lemma progresso_reset (K : Collab) : progresso K (reset deffacts).
Proof.
  split; [split; [split; [|split]|]; repeat constructor; cbn; intuition discriminate|].
  split; [now left|].
  assert (Hno : forall k, ~ rule_fired (reset deffacts) k) by (intros k (b & [] & _)).
  repeat (split; [intro Hk; destruct (Hno _ Hk)|]).
  intros v [Hv|[]]. discriminate Hv.
Qed.

(** The invariant holds when a run stops; a run that is done has an empty
    agenda; no run is halted; what has fired is in the trace. *)
Lemma run_progresso (K : Collab) (n : nat) :
  forall st w,
    progresso K st ->
    progresso K (final (run (rules K) n st w)) /\
    (status (run (rules K) n st w) = Done ->
     agenda (rules K) (final (run (rules K) n st w)) = []) /\
    status (run (rules K) n st w) <> Halted /\
    (forall b, In b (fired (final (run (rules K) n st w))) ->
               In b (fired st) \/ In b (trace (run (rules K) n st w))).
Proof.
  induction n as [|n IH]; intros st w Hp; cbn [run].
  - cbn [status trace final world].
    split; [exact Hp|]. split; [discriminate|]. split; [discriminate|]. now left.
  - destruct (step (rules K) st w) as [| b | a [|] st' w'] eqn:E;
      cbn [status trace final world].
    + split; [exact Hp|]. split; [intros _; apply step_quiescent with (w := w); exact E|].
      split; [discriminate|]. now left.
    + split; [exact Hp|]. split; [discriminate|]. split; [discriminate|]. now left.
    + exfalso. pose proof E as E'. apply step_fired in E'.
      destruct E' as (r & effs & _ & Hr & Ha & Hh & _).
      rewrite (no_action_halts K _ r _ _ _ _ _ Hr Ha) in Hh. discriminate Hh.
    + destruct (IH st' w' (progresso_step K st w a false st' w' Hp E))
        as (I1 & I2 & I3 & I4).
      split; [exact I1|]. split; [exact I2|]. split; [exact I3|].
      intros b Hb. destruct (I4 b Hb) as [H|H]; [|right; now right].
      apply step_fired in E. destruct E as (r & effs & _ & _ & _ & _ & _ & _ & Hf).
      rewrite Hf in H. apply filter_In in H. destruct H as [[<-|H] _]; auto.
      right. now left.
Qed.

(** With an empty agenda the rule of every match has fired. *)
Lemma quiete_fired (K : Collab) (st : State) (b : Activation) :
  agenda (rules K) st = [] ->
  In b (matches (rules K) (entries (store st))) -> rule_fired st (a_rule b).
Proof.
  intros Hag Hb. destruct (refracted st b) eqn:E.
  - apply refracted_true in E. destruct E as (c & Hc & Hr & _).
    exists c. split; [exact Hc | symmetry; exact Hr].
  - exfalso. assert (Hin : In b (agenda (rules K) st)) by (apply in_agenda; auto).
    rewrite Hag in Hin. exact Hin.
Qed.

(** A rule whose only condition is an [azione] fact has fired when the fact
    is in working memory and the agenda is empty. *)
Lemma fires_single (K : Collab) (st : State) (i : nat) (nm : string) (v : string)
      (sal : Q) (act : Action) :
  nth_error (rules K) i = Some (mkRule nm [FieldEquals azione v] sal act) ->
  agenda (rules K) st = [] ->
  In (mkFact azione v) (wm st) -> rule_fired st i.
Proof.
  intros Hr Hag Hin. destruct (entry_of_fact st _ Hin) as (e & He & Hc).
  apply (quiete_fired K st (mkAct i [eid e] []) Hag). apply in_matches.
  exists (mkRule nm [FieldEquals azione v] sal act). split; [exact Hr|].
  cbn [r_conds a_support a_binding]. apply single_fact_rule. exists e. auto.
Qed.

(** [valuta_ricetta_con_bayes] has an activation for each suggested recipe. *)
Lemma valuta_per_ricetta (K : Collab) (es : list Entry) (e x : Entry) :
  In e es -> content e = mkFact azione "valutaRicetta" ->
  In x es -> field (content x) = ricetta_suggerita ->
  In (mkAct 8 [eid e; eid x] [("ricetta", value (content x))]) (matches (rules K) es).
Proof.
  intros He Hc Hx Hf. apply in_matches. eexists. split; [reflexivity|].
  cbn [r_conds a_support a_binding].
  apply in_eval_conds_cons. exists ([], []), ([eid e], []).
  split; [now left|]. split; [apply in_FieldEquals; exists e; auto|].
  apply in_eval_conds_cons.
  exists ([eid e], []), ([eid e; eid x], [("ricetta", value (content x))]).
  split; [now left|]. split; [|now left].
  apply in_Exists. exists x. split; [exact Hx|]. split; [exact Hf | now left].
Qed.

(** [stampare_risultato_finale] has an activation for each suggested recipe
    and each valuation. *)
Lemma stampa_per_valutazione (K : Collab) (es : list Entry) (e x y : Entry) :
  In e es -> content e = mkFact azione "stampaRisultato" ->
  In x es -> field (content x) = ricetta_suggerita ->
  In y es -> field (content y) = valutazione_ricetta ->
  In (mkAct 9 [eid e; eid x; eid y]
        [("ricetta", value (content x)); ("valutazione", value (content y))])
     (matches (rules K) es).
Proof.
  intros He Hc Hx Hfx Hy Hfy. apply in_matches. eexists. split; [reflexivity|].
  cbn [r_conds a_support a_binding].
  apply in_eval_conds_cons. exists ([], []), ([eid e], []).
  split; [now left|]. split; [apply in_FieldEquals; exists e; auto|].
  apply in_eval_conds_cons.
  exists ([eid e], []), ([eid e; eid x], [("ricetta", value (content x))]).
  split; [now left|].
  split; [apply in_Exists; exists x; split; [exact Hx|]; split; [exact Hfx | now left]|].
  apply in_eval_conds_cons.
  exists ([eid e; eid x], [("ricetta", value (content x))]),
         ([eid e; eid x; eid y],
          [("ricetta", value (content x)); ("valutazione", value (content y))]).
  split; [now left|]. split; [|now left].
  apply in_Exists. exists y. split; [exact Hy|]. split; [exact Hfy | now left].
Qed.

Lemma has_field_entry (f : Field) (st : State) :
  has_field f st -> exists x, In x (entries (store st)) /\ field (content x) = f.
Proof.
  intros (g & Hg & Hf). destruct (entry_of_fact st g Hg) as (x & Hx & Hc).
  exists x. rewrite Hc. auto.
Qed.

(** A consultation in progress whose agenda is empty has asserted
    [azione="termina"], and [terminare_esecuzione] has fired. *)
Lemma quiete_termina (K : Collab) (st : State) :
  progresso K st -> agenda (rules K) st = [] ->
  In termina (wm st) /\ rule_fired st 10.
Proof.
  intros (Hwf & H0 & P0 & P1 & P2 & P6 & P7 & P8 & P9 & Pv) Hag.
  assert (Hend : In termina (wm st) -> In termina (wm st) /\ rule_fired st 10).
  { intro Ht. split; [exact Ht|].
    apply (fires_single K st 10 "terminare_esecuzione" "termina"
             (- 10)%Q terminare_esecuzione eq_refl Hag Ht). }
  apply Hend.
  assert (F0 : rule_fired st 0).
  { apply (fires_single K st 0 "chiedi_ingredienti" "chiediIngredienti"
             10%Q chiedi_ingredienti eq_refl Hag H0). }
  destruct (P0 F0) as [H1|Ht]; [|exact Ht].
  assert (F1 : rule_fired st 1).
  { apply (fires_single K st 1 "chiedi_tempo" "chiediTempo"
             9%Q chiedi_tempo eq_refl Hag H1). }
  pose proof (P1 F1) as H2.
  assert (F2 : rule_fired st 2).
  { apply (fires_single K st 2 "chiedi_preferenze" "chiediPreferenze"
             8%Q chiedi_preferenze eq_refl Hag H2). }
  pose proof (P2 F2) as H3.
  destruct (entry_of_fact st _ H3) as (e & He & Hc).
  destruct (existsb (fun x => if Field_eq_dec (field (content x)) candidato
                              then true else false) (entries (store st))) eqn:E.
  - apply existsb_exists in E. destruct E as (x & Hx & Hfx).
    destruct (Field_eq_dec (field (content x)) candidato) as [Hf|]; [|discriminate].
    assert (F6 : rule_fired st 6).
    { apply (quiete_fired K st (mkAct 6 [eid e; eid x] [(senza_nome, value (content x))]) Hag).
      apply (DueCandidati.scegli_per_candidato K _ e x He Hc Hx Hf). }
    destruct (P6 F6) as [Hs Hv].
    destruct (has_field_entry _ _ Hs) as (xs & Hxs & Hfs).
    destruct (entry_of_fact st _ Hv) as (ev & Hev & Hcv).
    assert (F8 : rule_fired st 8).
    { apply (quiete_fired K st (mkAct 8 [eid ev; eid xs] [("ricetta", value (content xs))]) Hag).
      apply (valuta_per_ricetta K _ ev xs Hev Hcv Hxs Hfs). }
    destruct (P8 F8) as [Hval Hst].
    destruct (has_field_entry _ _ Hval) as (xv & Hxv & Hfv).
    destruct (entry_of_fact st _ Hst) as (ep & Hep & Hcp).
    assert (F9 : rule_fired st 9).
    { apply (quiete_fired K st
               (mkAct 9 [eid ep; eid xs; eid xv]
                  [("ricetta", value (content xs)); ("valutazione", value (content xv))])
               Hag).
      apply (stampa_per_valutazione K _ ep xs xv Hep Hcp Hxs Hfs Hxv Hfv). }
    exact (P9 F9).
  - assert (Hno : forall x, In x (entries (store st)) -> field (content x) <> candidato).
    { intros x Hx Hf.
      assert (Ex : existsb (fun x => if Field_eq_dec (field (content x)) candidato
                                     then true else false) (entries (store st)) = true).
      { apply existsb_exists. exists x. split; [exact Hx|].
        destruct (Field_eq_dec (field (content x)) candidato); [reflexivity | contradiction]. }
      rewrite E in Ex. discriminate Ex. }
    assert (F7 : rule_fired st 7).
    { apply (quiete_fired K st (mkAct 7 [eid e] []) Hag). apply in_matches. eexists. split; [reflexivity|].
      cbn [r_conds a_support a_binding]. apply fallback_matches. exists e. auto. }
    exact (P7 F7).
Qed.

(** Every consultation: it is never halted; the valuations in working memory
    were returned by [calcola_rischio_o_successo_ricetta]; and when it comes
    to rest [azione="termina"] is in working memory and
    [terminare_esecuzione] is among the rules that fired. *)
Lemma consultazione (K : Collab) (fuel : nat) (lines : list string) :
  status (avvia_consulente_ricette K fuel lines) <> Halted /\
  (forall v, In (mkFact valutazione_ricetta v)
                (wm (final (avvia_consulente_ricette K fuel lines))) ->
             exists ricetta fatti w0 w1,
               calcola_rischio_o_successo_ricetta K ricetta fatti w0 = Some (v, w1)) /\
  (status (avvia_consulente_ricette K fuel lines) = Done ->
   In termina (wm (final (avvia_consulente_ricette K fuel lines))) /\
   In "terminare_esecuzione" (names K (avvia_consulente_ricette K fuel lines))).
Proof.
  unfold avvia_consulente_ricette, names.
  destruct (run_progresso K fuel (reset deffacts) (mkWorld lines []) (progresso_reset K))
    as (Hp & Hq & Hh & Htr).
  split; [exact Hh|]. split.
  - destruct Hp as (_ & _ & _ & _ & _ & _ & _ & _ & _ & Pv). exact Pv.
  - intro Hd. destruct (quiete_termina K _ Hp (Hq Hd)) as (Ht & b & Hb & Hk).
    split; [exact Ht|].
    destruct (Htr b Hb) as [[]|Hin].
    apply in_map_iff. exists b. split; [|exact Hin].
    unfold name_of. rewrite Hk. reflexivity.
Qed.

End Progresso.

(** ** When the evaluation fails *)

Module Stima.
Import Text Interfaccia Engine Consulente Notions EngineFacts Pasta Progresso.

(** C9. Whatever the collaborators do, [calcola_rischio_o_successo_ricetta]
    returns a text or is still asking which network to use; it never fails.
    When the network cannot be built it returns "Valutazione non
    disponibile." without asking.  Otherwise, once the user has typed "1" or
    "2", inference is asked of the object that the choice leads to (after
    "2", the object as [impara_dataset] left it, learnt or not): an estimate
    is returned as its text, and every failure (an exception, the node
    "Successo" missing, a value that is not a number) as "Impossibile
    calcolare la stima.".  [valuta_ricetta_con_bayes] asserts the text
    returned as [valutazione_ricetta] together with
    [azione="stampaRisultato"].  The consultation of the first scenario then
    ends, whichever network is chosen, with that text and [azione="termina"]
    in working memory.  In every consultation, whatever the user types, no
    rule halts the engine, every valuation in working memory is a text that
    the function returned, hence a fallback message or the text of an
    estimate, and a consultation that has come to rest has asserted
    [azione="termina"] and fired [terminare_esecuzione]. *)
Theorem evaluation_failure_recovered (K : Collab) :
  (forall nome fatti w,
      match calcola_rischio_o_successo_ricetta K nome fatti w with
      | Some (m, w') =>
          if rete_ok K
          then exists scelta,
                 rete_loop (inputs w) (log w) = Some (scelta, w') /\
                 (scelta = "1" \/ scelta = "2") /\
                 m = match inferenza K (rete_usata K scelta)
                             (option_map converti_tempo_in_indice fatti) with
                     | Stima p => msg_stima p
                     | _ => msg_impossibile
                     end /\
                 (stima_fallita K scelta (option_map converti_tempo_in_indice fatti) ->
                  m = msg_impossibile)
          else m = msg_non_disponibile /\ w' = w
      | None => rete_ok K = true /\
                forallb (fun l => negb (rete_valida l)) (inputs w) = true
      end) /\
  (forall b facts w,
      match valuta_ricetta_con_bayes K b facts w with
      | Some (effs, w') =>
          exists ricetta m,
            lookup "ricetta" b = Some ricetta /\
            calcola_rischio_o_successo_ricetta K ricetta (fatti_tempo facts)
              (emit (EBayes ricetta (fatti_tempo facts)) w) = Some (m, w') /\
            effs = [DeclareFact (mkFact valutazione_ricetta m);
                    DeclareFact (mkFact azione "stampaRisultato")]
      | None =>
          forall ricetta,
            lookup "ricetta" b = Some ricetta ->
            calcola_rischio_o_successo_ricetta K ricetta (fatti_tempo facts)
              (emit (EBayes ricetta (fatti_tempo facts)) w) = None
      end) /\
  (forall (due : bool) (n : nat),
      let scelta := if due then "2" else "1" in
      let r := run (rules K) (6 + n) seme_pasta (mkWorld [scelta; "n"] []) in
      status r = Done /\
      map (name_of (rules K)) (trace r)
      = ["suggerisci_pasta_pomodoro"; "scegli_candidati"; "valuta_ricetta_con_bayes";
         "stampare_risultato_finale"; "terminare_esecuzione"] /\
      exists m,
        m = (if rete_ok K
             then match inferenza K (rete_usata K scelta) (Some 1%Z) with
                  | Stima p => msg_stima p
                  | _ => msg_impossibile
                  end
             else msg_non_disponibile) /\
        (stima_fallita K scelta (Some 1%Z) -> ricaduta m) /\
        In (mkFact valutazione_ricetta m) (wm (final r)) /\
        In termina (wm (final r))) /\
  (forall fuel lines,
      let c := avvia_consulente_ricette K fuel lines in
      status c <> Halted /\
      (forall v, In (mkFact valutazione_ricetta v) (wm (final c)) ->
                 (exists ricetta fatti w0 w1,
                     calcola_rischio_o_successo_ricetta K ricetta fatti w0 = Some (v, w1)) /\
                 (ricaduta v \/
                  exists rete evidenza p,
                    inferenza K rete evidenza = Stima p /\ v = msg_stima p)) /\
      (status c = Done ->
       In termina (wm (final c)) /\ In "terminare_esecuzione" (names K c))).
Proof.
  split; [|split; [|split]].
  - intros nome fatti w. pose proof (calcola_per_casi K nome fatti w) as H.
    destruct (calcola_rischio_o_successo_ricetta K nome fatti w) as [[m w']|];
      [|exact H].
    destruct (rete_ok K) eqn:Er; [|exact H].
    destruct H as (scelta & Hl & Hs & Hm). exists scelta.
    split; [exact Hl|]. split; [exact Hs|]. split; [exact Hm|].
    intros [Hf|Hf]; [congruence|]. rewrite Hm.
    destruct (inferenza K (rete_usata K scelta) (option_map converti_tempo_in_indice fatti));
      first [reflexivity | destruct Hf].
  - intros b facts w. unfold valuta_ricetta_con_bayes.
    destruct (lookup "ricetta" b) as [ricetta|]; [|intros ? H; discriminate H].
    destruct (calcola_rischio_o_successo_ricetta K ricetta (fatti_tempo facts)
                (emit (EBayes ricetta (fatti_tempo facts)) w)) as [[m w1]|] eqn:Ec.
    + exists ricetta, m. auto.
    + intros r0 H. injection H as <-. exact Ec.
  - intros due n scelta r.
    assert (Hs : scelta = "1" \/ scelta = "2") by (subst scelta; destruct due; auto).
    destruct (pasta_run K scelta n Hs) as (v & w1 & w2 & extra & _ & Hv & _ & _ & _ & Hrun).
    subst r. rewrite Hrun. cbn [status trace final world].
    split; [reflexivity|]. split; [reflexivity|].
    exists v. split; [exact Hv|].
    split; [exact (testo_ricaduta K scelta (Some 1%Z) v Hv)|]. split; cbn; auto 15.
  - intros fuel lines c.
    destruct (consultazione K fuel lines) as (Hh & Hv & Hd).
    split; [exact Hh|]. split; [|exact Hd].
    intros v Hin. split; [exact (Hv v Hin)|].
    destruct (Hv v Hin) as (ricetta & fatti & w0 & w1 & Hc).
    pose proof (calcola_per_casi K ricetta fatti w0) as H. rewrite Hc in H.
    destruct (rete_ok K); [|left; left; exact (proj1 H)].
    destruct H as (scelta & _ & _ & Hm).
    destruct (inferenza K (rete_usata K scelta) (option_map converti_tempo_in_indice fatti))
      as [| | |p] eqn:Ei; try (left; right; exact Hm).
    right. exists (rete_usata K scelta), (option_map converti_tempo_in_indice fatti), p.
    auto.
Qed.

(** With [collab_parziale] the evaluation fails after the choice "2" and not
    after the choice "1"; the consultation of the first scenario in which
    the user chooses "2" ends with "Impossibile calcolare la stima."
    asserted and [azione="termina"] in working memory. *)
Lemma evaluation_failure_recovered_witness :
  stima_fallita collab_parziale "2" (Some 1%Z) /\
  ~ stima_fallita collab_parziale "1" (Some 1%Z) /\
  let r := run (rules collab_parziale) 6 seme_pasta (mkWorld ["2"; "n"] []) in
  status r = Done /\
  In (mkFact valutazione_ricetta msg_impossibile) (wm (final r)) /\
  In termina (wm (final r)).
Proof.
  split; [right; exact I|].
  split; [intros [H|H]; [discriminate H | exact H]|].
  intro r.
  destruct (evaluation_failure_recovered collab_parziale) as (_ & _ & Hrun & _).
  specialize (Hrun true 0). cbv zeta in Hrun.
  destruct Hrun as (Hs & _ & m & Hm & _ & Hv & Ht).
  split; [exact Hs|]. split; [|exact Ht].
  cbn in Hm. subst m. exact Hv.
Defined.

End Stima.

(** ** Text: how [strip], [lower] and [split] compose *)

Module TextFacts.
Import Text.

Lemma is_space_lower_char (c : ascii) : is_space (lower_char c) = is_space c.
Proof. destruct c as [[] [] [] [] [] [] [] []]; reflexivity. Qed.

Lemma lower_char_idem (c : ascii) : lower_char (lower_char c) = lower_char c.
Proof. destruct c as [[] [] [] [] [] [] [] []]; reflexivity. Qed.


Lemma lower_idem (s : string) : lower (lower s) = lower s.
Proof. induction s as [|c s IH]; cbn; [reflexivity|]. now rewrite lower_char_idem, IH. Qed.

Lemma lstrip_lower (s : string) : lstrip (lower s) = lower (lstrip s).
Proof.
  induction s as [|c s IH]; cbn [lower lstrip]; [reflexivity|].
  rewrite is_space_lower_char. destruct (is_space c); [exact IH | reflexivity].
Qed.

Lemma rstrip_lower (s : string) : rstrip (lower s) = lower (rstrip s).
Proof.
  induction s as [|c s IH]; cbn [lower rstrip]; [reflexivity|].
  rewrite IH, is_space_lower_char.
  destruct (rstrip s); cbn [lower]; [destruct (is_space c)|]; reflexivity.
Qed.

Lemma strip_lower (s : string) : strip (lower s) = lower (strip s).
Proof. unfold strip. now rewrite lstrip_lower, rstrip_lower. Qed.

Lemma lstrip_head (s : string) (c : ascii) (r : string) :
  lstrip s = String c r -> is_space c = false.
Proof.
  induction s as [|a s IH]; cbn [lstrip]; [discriminate|].
  destruct (is_space a) eqn:E; [exact IH|]. intro H. injection H as <- _. exact E.
Qed.

Lemma rstrip_cons (c : ascii) (s : string) :
  is_space c = false -> rstrip (String c s) = String c (rstrip s).
Proof. intro H. cbn [rstrip]. rewrite H. destruct (rstrip s); reflexivity. Qed.

Lemma rstrip_idem (s : string) : rstrip (rstrip s) = rstrip s.
Proof.
  induction s as [|c s IH]; cbn [rstrip]; [reflexivity|].
  destruct (rstrip s) as [|a r] eqn:E.
  - destruct (is_space c) eqn:Ec; [reflexivity|]. cbn [rstrip]. now rewrite Ec.
  - cbn [rstrip]. cbn [rstrip] in IH. rewrite IH. reflexivity.
Qed.

Lemma strip_idem (s : string) : strip (strip s) = strip s.
Proof.
  unfold strip. destruct (lstrip s) as [|c r] eqn:E; [reflexivity|].
  pose proof (lstrip_head s c r E) as Hc.
  rewrite (rstrip_cons c r Hc). cbn [lstrip]. rewrite Hc.
  rewrite (rstrip_cons c _ Hc), rstrip_idem. reflexivity.
Qed.

(** [x.strip().lower()] applied twice is [x.strip().lower()]. *)
Lemma norm_idem (x : string) : lower (strip (lower (strip x))) = lower (strip x).
Proof. now rewrite strip_lower, strip_idem, lower_idem. Qed.



End TextFacts.

(** ** What the user types and what the rules store *)

Module RispostaFacts.
Import Text Interfaccia Engine Consulente Notions Risposta TextFacts.






End RispostaFacts.

(** ** The final advice *)

Module ConsiglioFacts.
Import Text Interfaccia Engine Consulente Notions Consiglio.

(** What [alternativa_loop] returns is decided by the first valid line. *)
Lemma alternativa_loop_spec (ins : list string) :
  forall lg,
    match alternativa_loop ins lg with
    | Some (r, w') =>
        exists pre line,
          ins = pre ++ line :: inputs w' /\
          forallb (fun l => negb (si_no l)) pre = true /\
          si_no line = true /\ r = lower (strip line) /\
          log w' = lg ++ repeat (EInput PAlternativa) (S (List.length pre))
    | None => forallb (fun l => negb (si_no l)) ins = true
    end.
Proof.
  induction ins as [|line rest IH]; intro lg; cbn [alternativa_loop forallb]; [reflexivity|].
  fold (si_no line). destruct (si_no line) eqn:E.
  - exists [], line. cbn. repeat split; auto.
  - cbn [negb andb]. specialize (IH (lg ++ [EInput PAlternativa])).
    destruct (alternativa_loop rest (lg ++ [EInput PAlternativa])) as [[r w']|]; [|exact IH].
    destruct IH as (pre & l & -> & Hpre & Hl & Hr & Hlog).
    exists (line :: pre), l. repeat split; auto.
    + cbn [forallb]. rewrite E. exact Hpre.
    + rewrite Hlog, <- app_assoc. reflexivity.
Qed.

(** X3. [stampare_risultato_finale], for every ontology and every input.  The
    ontology is asked for the suggested recipe; when it names no alternative
    (or an empty one) nothing is asked of the user; otherwise the yes/no
    prompt is repeated until the answer is "s" or "n", and only on "s" is the
    ontology asked once more, for the alternative, whose own alternative is
    not followed.  Whenever the action returns it asserts exactly
    [azione="termina"]; it does not return only while the prompt has had no
    valid answer. *)
Theorem consiglio_finale (K : Collab) (ricetta valutazione : string)
        (facts : list Fact) (w : World) :
  let b := [("ricetta", ricetta); ("valutazione", valutazione)] in
  match stampare_risultato_finale K b facts w with
  | Some (effs, w') =>
      effs = [DeclareFact termina] /\
      match alternativa_di K ricetta with
      | None => w' = emit (EDettagli ricetta) w
      | Some alt =>
          exists pre line,
            inputs w = pre ++ line :: inputs w' /\
            forallb (fun l => negb (si_no l)) pre = true /\
            si_no line = true /\
            log w' = log w ++ [EDettagli ricetta]
                     ++ repeat (EInput PAlternativa) (S (List.length pre))
                     ++ (if String.eqb (lower (strip line)) "s"
                         then [EDettagli alt] else [])
      end
  | None =>
      alternativa_di K ricetta <> None /\
      forallb (fun l => negb (si_no l)) (inputs w) = true
  end.
Proof.
  intro b. unfold stampare_risultato_finale, b. cbn [lookup String.eqb Ascii.eqb Bool.eqb].
  unfold _stampa_dettagli_ricetta, trova_dettagli_ricetta_in_ontologia, alternativa_di.
  destruct (ontologia K ricetta) as [d|]; [|split; reflexivity].
  destruct (d_alternativa d) as [alt|]; [|split; reflexivity].
  destruct (is_empty alt); [split; reflexivity|].
  cbn [inputs log emit].
  pose proof (alternativa_loop_spec (inputs w) (log w ++ [EDettagli ricetta])) as H.
  destruct (alternativa_loop (inputs w) (log w ++ [EDettagli ricetta])) as [[r w2]|].
  - destruct H as (pre & line & Hin & Hpre & Hl & -> & Hlog).
    destruct (String.eqb (lower (strip line)) "s") eqn:Es.
    + split; [reflexivity|]. exists pre, line. cbn [snd inputs log emit]. rewrite Es.
      split; [exact Hin|]. split; [exact Hpre|]. split; [exact Hl|].
      rewrite Hlog, <- !app_assoc. reflexivity.
    + split; [reflexivity|]. exists pre, line. rewrite Es.
      split; [exact Hin|]. split; [exact Hpre|]. split; [exact Hl|].
      rewrite Hlog, app_nil_r, <- !app_assoc. reflexivity.
  - split; [discriminate | exact H].
Qed.

End ConsiglioFacts.

(** ** What is read from the ontology *)

Module OntologiaFacts.
Import Ontologia.

Lemma replace_back (a b : ascii) (s : string) :
  senza b s = true -> replace b a (replace a b s) = s.
Proof.
  induction s as [|c s IH]; cbn [senza replace]; [reflexivity|].
  intro H. apply andb_true_iff in H. destruct H as [Hc Hs]. rewrite (IH Hs).
  destruct (Ascii.eqb c a) eqn:E.
  - rewrite Ascii.eqb_refl. apply Ascii.eqb_eq in E. now subst.
  - destruct (Ascii.eqb c b); [discriminate Hc | reflexivity].
Qed.

Lemma get_setdefault_append (k v n : string) (d : list (string * list string)) :
  get n (setdefault_append k v d)
  = if String.eqb k n then get k d ++ [v] else get n d.
Proof.
  induction d as [|[k' vs] r IH]; cbn [setdefault_append get].
  - destruct (String.eqb k n); reflexivity.
  - destruct (String.eqb k' k) eqn:E; cbn [get].
    + apply String.eqb_eq in E. subst k'.
      destruct (String.eqb k n); reflexivity.
    + rewrite IH. destruct (String.eqb k' n) eqn:E'; [|reflexivity].
      apply String.eqb_eq in E'. subst k'.
      rewrite String.eqb_sym, E. reflexivity.
Qed.

Lemma keys_setdefault_append (k v n : string) (d : list (string * list string)) :
  In n (keys (setdefault_append k v d)) <-> n = k \/ In n (keys d).
Proof.
  unfold keys. induction d as [|[k' vs] r IH]; cbn [setdefault_append map fst In].
  - intuition.
  - destruct (String.eqb k' k) eqn:E; cbn [map fst In].
    + apply String.eqb_eq in E. subst k'. intuition.
    + rewrite IH. intuition.
Qed.

Lemma NoDup_setdefault_append (k v : string) (d : list (string * list string)) :
  NoDup (keys d) -> NoDup (keys (setdefault_append k v d)).
Proof.
  unfold keys. induction d as [|[k' vs] r IH]; cbn [setdefault_append map fst]; intro H.
  - constructor; [intros []|constructor].
  - destruct (String.eqb k' k) eqn:E; cbn [map fst]; [exact H|].
    inversion H as [|? ? Hn Hr]; subst. constructor; [|apply IH, Hr].
    intro Hin. apply (keys_setdefault_append k v k' r) in Hin.
    destruct Hin as [->|Hin]; [|contradiction].
    rewrite String.eqb_refl in E. discriminate E.
Qed.

Lemma ben_formato_setdefault_append (k v : string) (d : list (string * list string)) :
  ben_formato d -> ben_formato (setdefault_append k v d).
Proof.
  intros [Hnd Hk]. split; [apply NoDup_setdefault_append, Hnd|].
  intro n. rewrite keys_setdefault_append, get_setdefault_append, Hk.
  destruct (String.eqb k n) eqn:E.
  - apply String.eqb_eq in E. subst n. split; [intros _|now left].
    destruct (get k d); discriminate.
  - split; [intros [->|H]; [|exact H]|now right].
    rewrite String.eqb_refl in E. discriminate E.
Qed.

Lemma step_ricette (nome ing : string) (risultati : list string) :
  forall d,
    ben_formato d ->
    let d' := fold_left (fun d ricetta =>
                           setdefault_append (nome_mostrato ricetta) ing d) risultati d in
    ben_formato d' /\
    get nome d' = get nome d
                  ++ repeat ing (List.length
                                   (filter (fun r => String.eqb (nome_mostrato r) nome)
                                           risultati)).
Proof.
  induction risultati as [|r rs IH]; intros d Hd; cbn [fold_left filter].
  - split; [exact Hd|]. cbn. now rewrite app_nil_r.
  - destruct (IH _ (ben_formato_setdefault_append (nome_mostrato r) ing d Hd))
      as [Hwf Hget].
    split; [exact Hwf|]. cbv zeta in Hget. rewrite Hget, get_setdefault_append.
    destruct (String.eqb (nome_mostrato r) nome) eqn:E; cbn [List.length repeat];
      [|reflexivity].
    apply String.eqb_eq in E. rewrite E, <- app_assoc. reflexivity.
Qed.

Lemma fold_ricette (search : string -> option (list string)) (nome : string)
      (lista : list string) :
  forall d,
    ben_formato d ->
    let d' := fold_left
                (fun d ingrediente =>
                   match search ingrediente with
                   | None => d
                   | Some risultati =>
                       fold_left (fun d ricetta =>
                                    setdefault_append (nome_mostrato ricetta) ingrediente d)
                                 risultati d
                   end) lista d in
    ben_formato d' /\ get nome d' = get nome d ++ usati search nome lista.
Proof.
  induction lista as [|ing rest IH]; intros d Hd; cbn [fold_left].
  - split; [exact Hd|]. cbn. now rewrite app_nil_r.
  - unfold usati. cbn [flat_map]. fold (usati search nome rest). unfold volte.
    destruct (search ing) as [rs|].
    + destruct (step_ricette nome ing rs d Hd) as [Hwf Hget]. cbv zeta in Hwf, Hget.
      destruct (IH _ Hwf) as [Hwf' Hget']. cbv zeta in Hget'.
      split; [exact Hwf'|]. rewrite Hget', Hget, <- app_assoc. reflexivity.
    + destruct (IH _ Hd) as [Hwf' Hget']. split; [exact Hwf'|exact Hget'].
Qed.

Lemma ricette_senza_errori (search : string -> option (list string))
      (lista : list string) :
  ricette_trovate search lista
  = ricette_trovate search
      (filter (fun i => match search i with Some _ => true | None => false end) lista).
Proof.
  unfold ricette_trovate. generalize (@nil (string * list string)).
  induction lista as [|i rest IH]; intro d0; cbn [fold_left filter]; [reflexivity|].
  destruct (search i) as [rs|] eqn:E; cbn [fold_left]; [rewrite E|]; apply IH.
Qed.

Lemma usati_nulla (search : string -> option (list string)) (nome : string)
      (lista : list string) :
  (forall i, In i lista -> search i = None \/ search i = Some []) ->
  usati search nome lista = [].
Proof.
  intro Hno. unfold usati. induction lista as [|i rest IH]; [reflexivity|].
  cbn [flat_map]. rewrite IH; [|intros j Hj; apply Hno; now right].
  unfold volte. destruct (Hno i (or_introl eq_refl)) as [-> | ->]; reflexivity.
Qed.

(** X4. [cerca_ricette_parziali] groups the ingredients by recipe.  Each
    recipe appears once in [ricette_trovate]; the list kept for a recipe is
    made of the ingredients of the input, in their order and as many times
    as the search for that ingredient found the recipe; a recipe is a key
    exactly when that list is not empty; an ingredient whose search raises
    adds nothing and does not stop the others; the dictionary is empty
    exactly when no search finds anything. *)
Theorem ricette_raggruppate (search : string -> option (list string))
        (lista_ingredienti : list string) :
  let d := ricette_trovate search lista_ingredienti in
  NoDup (keys d) /\
  (forall nome, get nome d = usati search nome lista_ingredienti) /\
  (forall nome, In nome (keys d) <-> usati search nome lista_ingredienti <> []) /\
  d = ricette_trovate search
        (filter (fun i => match search i with Some _ => true | None => false end)
                lista_ingredienti) /\
  (d = [] <-> forall i, In i lista_ingredienti -> search i = None \/ search i = Some []).
Proof.
  intro d.
  assert (H0 : ben_formato []).
  { split; [constructor|]. intro n. cbn. intuition. }
  assert (Hall : forall nome, ben_formato d /\ get nome d = usati search nome lista_ingredienti).
  { intro nome. exact (fold_ricette search nome lista_ingredienti [] H0). }
  assert (Hwf : ben_formato d) by exact (proj1 (Hall "")).
  assert (Hget : forall nome, get nome d = usati search nome lista_ingredienti)
    by (intro nome; exact (proj2 (Hall nome))).
  split; [exact (proj1 Hwf)|]. split; [exact Hget|].
  split; [intro nome; rewrite <- Hget; exact (proj2 Hwf nome)|].
  split.
  - apply ricette_senza_errori.
  - split.
    + intros Hd i Hi. destruct (search i) as [[|r rs]|] eqn:E; auto.
      exfalso. pose proof (Hget (nome_mostrato r)) as Hg. rewrite Hd in Hg. cbn in Hg.
      assert (Hin : In i (usati search (nome_mostrato r) lista_ingredienti)).
      { unfold usati. apply in_flat_map. exists i. split; [exact Hi|].
        unfold volte. rewrite E. cbn [filter]. rewrite String.eqb_refl. now left. }
      rewrite <- Hg in Hin. exact Hin.
    + intro Hno. destruct d as [|[k vs] r] eqn:Ed; [reflexivity|]. exfalso.
      assert (Hk : In k (keys d)) by (rewrite Ed; now left).
      rewrite <- Ed in Hwf, Hget.
      apply (proj2 Hwf) in Hk. rewrite Hget in Hk. apply Hk.
      apply usati_nulla, Hno.
Qed.

(** X5. The alternative offered for a recipe.  When the names of the
    ontology hold no space, the alternative is the shown name of another
    instance of the same class, the first one, never the recipe itself, and
    the name then searched to print its details is the name of that
    instance. *)
Theorem alternativa_altra (individuo : Individuo) (l : list string) :
  instances individuo = Some l ->
  senza " " (name individuo) = true ->
  Forall (fun n => senza " " n = true) l ->
  match d_alternativa (dettagli individuo) with
  | Some a =>
      exists pre alt post,
        l = pre ++ alt :: post /\
        Forall (fun n => n = name individuo) pre /\
        alt <> name individuo /\
        a = nome_mostrato alt /\
        nome_individuo a = alt /\
        a <> nome_mostrato (name individuo)
  | None => Forall (fun n => n = name individuo) l
  end.
Proof.
  intros Hl Hn Hall. unfold dettagli, altre_ricette. cbn [d_alternativa]. rewrite Hl.
  clear Hl. induction l as [|x l IH]; cbn [filter hd_error option_map]; [constructor|].
  inversion Hall as [|? ? Hx Hrest]; subst.
  destruct (String.eqb x (name individuo)) eqn:E; cbn [negb hd_error option_map].
  - apply String.eqb_eq in E. specialize (IH Hrest).
    destruct (option_map nome_mostrato
                (hd_error (filter (fun alt => negb (String.eqb alt (name individuo))) l)))
      as [a|].
    + destruct IH as (pre & alt & post & -> & Hpre & Ha & Ha' & Hb & Hc).
      exists (x :: pre), alt, post. repeat split; auto.
    + constructor; [exact E | exact IH].
  - apply String.eqb_neq in E. exists [], x, l.
    assert (Hback : nome_individuo (nome_mostrato x) = x)
      by (apply replace_back; exact Hx).
    repeat split; auto.
    intro Heq. apply E. rewrite <- Hback, Heq. apply replace_back. exact Hn.
Qed.

Lemma alternativa_altra_witness :
  d_alternativa (dettagli (mkIndividuo "Pasta_al_Pomodoro" [25%Z] []
                             (Some ["Pasta_al_Pomodoro"; "Pasta_al_Pesto"])))
  = Some "Pasta al Pesto" /\
  "Pasta al Pesto" <> nome_mostrato "Pasta_al_Pomodoro".
Proof.
  assert (Hall : Forall (fun n => senza " " n = true)
                        ["Pasta_al_Pomodoro"; "Pasta_al_Pesto"])
    by (repeat constructor).
  pose proof (alternativa_altra
                (mkIndividuo "Pasta_al_Pomodoro" [25%Z] []
                   (Some ["Pasta_al_Pomodoro"; "Pasta_al_Pesto"]))
                ["Pasta_al_Pomodoro"; "Pasta_al_Pesto"] eq_refl eq_refl Hall) as H.
  cbn in H. destruct H as (pre & alt & post & _ & _ & _ & _ & _ & Hc).
  split; [reflexivity | exact Hc].
Defined.

End OntologiaFacts.

(** ** The network *)

Module ReteFacts.
Import Text Interfaccia Rete.

(** X6. The time typed, as evidence.  The index of the category of [m]
    minutes is 0 up to 20 minutes, 1 up to 60 and 2 above, so it grows with
    the minutes; whatever the category, and for an unknown one too (index
    1), the value that reaches the network is one of the states "0", "1",
    "2" declared for [Tempo]. *)
Theorem tempo_come_evidenza :
  (forall m, converti_tempo_in_indice (converti_tempo_in_categoria m)
             = if (m <=? 20)%Z then 0%Z else if (m <=? 60)%Z then 1%Z else 2%Z) /\
  (forall m m', (m <= m')%Z ->
                (converti_tempo_in_indice (converti_tempo_in_categoria m)
                 <= converti_tempo_in_indice (converti_tempo_in_categoria m'))%Z) /\
  (forall t, t <> "poco" -> t <> "molto" -> converti_tempo_in_indice t = 1%Z) /\
  (forall fatti_tempo k s,
      In (k, s) (evidenze_ok fatti_tempo) -> k = "Tempo" /\ In s stati_tempo).
Proof.
  assert (H1 : forall m, converti_tempo_in_indice (converti_tempo_in_categoria m)
             = if (m <=? 20)%Z then 0%Z else if (m <=? 60)%Z then 1%Z else 2%Z).
  { intro m. unfold converti_tempo_in_categoria.
    destruct (m <=? 20)%Z; [reflexivity|]. destruct (m <=? 60)%Z; reflexivity. }
  split; [exact H1|]. split; [|split].
  - intros m m' Hle. rewrite !H1.
    destruct (Z.leb_spec m 20), (Z.leb_spec m' 20), (Z.leb_spec m 60),
      (Z.leb_spec m' 60); lia.
  - intros t Hp Hm. unfold converti_tempo_in_indice.
    apply String.eqb_neq in Hp. apply String.eqb_neq in Hm. rewrite Hp, Hm.
    destruct (String.eqb t "medio"); reflexivity.
  - intros [t|] k s; [|intros []]. intros [H|[]]. injection H as <- <-.
    split; [reflexivity|]. unfold converti_tempo_in_indice, stati_tempo.
    destruct (String.eqb t "poco"); [now left|].
    destruct (String.eqb t "medio"); [right; now left|].
    destruct (String.eqb t "molto"); [right; right; now left | right; now left].
Qed.

Lemma bordi_appresi (colonne : list string) (b : Bordo) :
  In b (map (fun c => (c, "Successo"))
            (filter (fun c => negb (String.eqb c "Successo")) colonne)) <->
  In (fst b) colonne /\ fst b <> "Successo" /\ snd b = "Successo".
Proof.
  rewrite in_map_iff. split.
  - intros (c & <- & Hc). apply filter_In in Hc. destruct Hc as [Hc Hn].
    cbn. repeat split; auto. apply negb_true_iff, String.eqb_neq in Hn. exact Hn.
  - intros (Hc & Hn & Hs). exists (fst b). split; [destruct b; cbn in *; now subst|].
    apply filter_In. split; [exact Hc|]. apply negb_true_iff, String.eqb_neq. exact Hn.
Qed.

(** X7. Learning from the data set is not all or nothing.  When the user
    chooses the learnt network, inference runs on the default graph only if
    the file cannot be read or the new graph cannot be built; when the graph
    is built and the fit raises, it runs on the bare graph of the data set,
    without tables, although nothing was learnt, which is not the graph of
    an object built with the default tables; in every case in which
    [impara_dataset] was called the edges of the object are those of the data
    set: one from each column other than "Successo" into "Successo".  With
    the other choice the object is untouched. *)
Theorem apprendimento_non_atomico (B : Bnlearn) (scelta_rete : string)
        (read_csv : option (list string)) (rete : BayesianaRicette) :
  let r := fst (rete_da_usare B scelta_rete read_csv rete) in
  let appresa := snd (rete_da_usare B scelta_rete read_csv rete) in
  (scelta_rete <> "2" \/ read_csv = None -> r = rete /\ appresa = false) /\
  (forall colonne,
      scelta_rete = "2" -> read_csv = Some colonne ->
      let bordi := map (fun c => (c, "Successo"))
                       (filter (fun c => negb (String.eqb c "Successo")) colonne) in
      Bordi r = bordi /\
      (forall b, In b (Bordi r) <->
                 In (fst b) colonne /\ fst b <> "Successo" /\ snd b = "Successo") /\
      (make_DAG B bordi = false -> DAG r = DAG rete /\ appresa = false) /\
      (make_DAG B bordi = true -> fit B bordi = false ->
       DAG r = SenzaCPD bordi /\ appresa = false) /\
      (make_DAG B bordi = true -> fit B bordi = true ->
       DAG r = Appreso bordi /\ appresa = true) /\
      (forall structure,
          init B structure = Some rete -> make_DAG_CPD B (Bordi rete) = true ->
          make_DAG B bordi = true -> fit B bordi = false ->
          DAG rete = ConCPD (Bordi rete) /\ DAG r <> DAG rete)).
Proof.
  cbv zeta. unfold rete_da_usare. split.
  - intros [H|H].
    + apply String.eqb_neq in H. rewrite H. auto.
    + rewrite H. destruct (String.eqb scelta_rete "2"); auto.
  - intros colonne -> ->. rewrite String.eqb_refl. unfold impara_dataset.
    set (bordi := map (fun c => (c, "Successo"))
                      (filter (fun c => negb (String.eqb c "Successo")) colonne)).
    assert (Hb : forall b, In b bordi <->
                 In (fst b) colonne /\ fst b <> "Successo" /\ snd b = "Successo")
      by (intro b; apply bordi_appresi).
    assert (Hinit : forall structure,
               init B structure = Some rete -> make_DAG_CPD B (Bordi rete) = true ->
               DAG rete = ConCPD (Bordi rete)).
    { intros structure Hi Hc. unfold init in Hi.
      destruct (make_DAG_CPD B _) eqn:E1.
      - injection Hi as <-. reflexivity.
      - destruct (make_DAG B _); [|discriminate]. injection Hi as <-.
        cbn [Bordi] in Hc. congruence. }
    destruct (make_DAG B bordi), (fit B bordi); cbn [negb fst snd Bordi DAG];
      (split; [reflexivity|]); (split; [exact Hb|]);
      (split; [intros; first [discriminate | split; reflexivity]|]);
      (split; [intros; first [discriminate | split; reflexivity]|]);
      (split; [intros; first [discriminate | split; reflexivity]|]);
      intros structure Hi Hc H1 H2; try discriminate.
    split; [exact (Hinit structure Hi Hc)|].
    rewrite (Hinit structure Hi Hc). discriminate.
Qed.

Section Tabella.
Import Floats.
Local Open Scope float_scope.

(** X8. The table of [Successo].  [genera_cpd_successo] gives two rows of 18
    cells; the cell of [tempo], [diff], [qualita] is at [6 tempo + 2 diff +
    qualita], the order of the evidence; every probability of success is
    between 0.1 and 0.95 and its column sums to exactly 1; success never
    gets likelier with more difficulty, worse ingredients or less time. *)
Theorem tabella_successo :
  List.length (fst genera_cpd_successo) = 18%nat /\
  List.length (snd genera_cpd_successo) = 18%nat /\
  (forall tempo diff qualita,
      (tempo < 3)%nat -> (diff < 3)%nat -> (qualita < 2)%nat ->
      let p := nth (6 * tempo + 2 * diff + qualita) (snd genera_cpd_successo) 0 in
      let q := nth (6 * tempo + 2 * diff + qualita) (fst genera_cpd_successo) 0 in
      p = prob_successo tempo diff qualita /\
      PrimFloat.leb 0.1 p = true /\ PrimFloat.leb p 0.95 = true /\
      PrimFloat.eqb (q + p) 1 = true) /\
  (forall tempo diff qualita,
      (tempo < 3)%nat -> (diff < 2)%nat -> (qualita < 2)%nat ->
      PrimFloat.leb (prob_successo tempo (S diff) qualita)
                    (prob_successo tempo diff qualita) = true) /\
  (forall tempo diff,
      (tempo < 3)%nat -> (diff < 3)%nat ->
      PrimFloat.leb (prob_successo tempo diff 0) (prob_successo tempo diff 1) = true) /\
  (forall tempo diff qualita,
      (tempo < 2)%nat -> (diff < 3)%nat -> (qualita < 2)%nat ->
      PrimFloat.leb (prob_successo tempo diff qualita)
                    (prob_successo (S tempo) diff qualita) = true).
Proof.
  split; [reflexivity|]. split; [reflexivity|].
  split; [|split; [|split]].
  - intros tempo diff qualita Ht Hd Hq.
    destruct tempo as [|[|[|?]]]; [| | |lia];
      (destruct diff as [|[|[|?]]]; [| | |lia]);
      (destruct qualita as [|[|?]]; [| |lia]); vm_compute; auto.
  - intros tempo diff qualita Ht Hd Hq.
    destruct tempo as [|[|[|?]]]; [| | |lia];
      (destruct diff as [|[|?]]; [| |lia]);
      (destruct qualita as [|[|?]]; [| |lia]); vm_compute; reflexivity.
  - intros tempo diff Ht Hd.
    destruct tempo as [|[|[|?]]]; [| | |lia];
      (destruct diff as [|[|[|?]]]; [| | |lia]); vm_compute; reflexivity.
  - intros tempo diff qualita Ht Hd Hq.
    destruct tempo as [|[|?]]; [| |lia];
      (destruct diff as [|[|[|?]]]; [| | |lia]);
      (destruct qualita as [|[|?]]; [| |lia]); vm_compute; reflexivity.
Qed.

End Tabella.

End ReteFacts.

(** ** The preferences are asked and never read *)

Module CampiFacts.
Import Text Interfaccia Engine Consulente Notions EngineFacts Campi.

Lemma flat_map_filter {A B : Type} (keep : A -> bool) (h : A -> list B) (l : list A) :
  (forall a, keep a = false -> h a = []) ->
  flat_map h (filter keep l) = flat_map h l.
Proof.
  intro H. induction l as [|a l IH]; cbn [filter flat_map]; [reflexivity|].
  destruct (keep a) eqn:E; cbn [flat_map]; [now rewrite IH|].
  rewrite (H a E). exact IH.
Qed.

Lemma eval_cond_senza (f : Field) (es : list Entry) (c : Cond) :
  legge f c = false ->
  forall p, eval_cond (senza_campo f es) c p = eval_cond es c p.
Proof.
  induction c as [g v|g x|c IH|cs IH] using Cond_induction; cbn [legge]; intros Hc p.
  - destruct (Field_eq_dec g f) as [|Hn]; [discriminate|].
    cbn [eval_cond]. apply flat_map_filter. intros e He.
    unfold altro_campo in He.
    destruct (Field_eq_dec (field (content e)) f) as [Hf|]; [|discriminate].
    destruct (Fact_eq_dec (content e) (mkFact g v)) as [Heq|]; [|reflexivity].
    rewrite Heq in Hf. cbn in Hf. contradiction.
  - destruct (Field_eq_dec g f) as [|Hn]; [discriminate|].
    cbn [eval_cond]. apply flat_map_filter. intros e He.
    unfold altro_campo in He.
    destruct (Field_eq_dec (field (content e)) f) as [Hf|]; [|discriminate].
    destruct (Field_eq_dec (field (content e)) g) as [Hg|]; [|reflexivity].
    congruence.
  - cbn [eval_cond]. now rewrite (IH Hc p).
  - cbn [eval_cond]. f_equal. induction IH as [|c cs Hc' _ IHcs]; [reflexivity|].
    apply orb_false_iff in Hc. destruct Hc as [H1 H2].
    rewrite (Hc' H1 p), (IHcs H2). reflexivity.
Qed.

Lemma eval_conds_senza (f : Field) (es : list Entry) (cs : list Cond) :
  forallb (fun c => negb (legge f c)) cs = true ->
  forall ps, eval_conds (senza_campo f es) cs ps = eval_conds es cs ps.
Proof.
  induction cs as [|c r IH]; cbn [forallb eval_conds]; intros H ps; [reflexivity|].
  apply andb_true_iff in H. destruct H as [Hc Hr]. apply negb_true_iff in Hc.
  rewrite (IH Hr). f_equal. apply flat_map_ext. intro p.
  apply eval_cond_senza, Hc.
Qed.

Lemma matches_from_senza (f : Field) (es : list Entry) (rs : list Rule) :
  forallb (fun r => forallb (fun c => negb (legge f c)) (r_conds r)) rs = true ->
  forall i, matches_from i rs (senza_campo f es) = matches_from i rs es.
Proof.
  induction rs as [|r rs IH]; cbn [forallb matches_from]; intros H i; [reflexivity|].
  apply andb_true_iff in H. destruct H as [Hr Hrs].
  rewrite (eval_conds_senza f es _ Hr), (IH Hrs). reflexivity.
Qed.

Lemma values_of_senza (f g : Field) (facts : list Fact) :
  g <> f -> values_of g (fatti_senza f facts) = values_of g facts.
Proof.
  intro Hn. unfold values_of, fatti_senza. f_equal.
  induction facts as [|x l IH]; cbn [filter]; [reflexivity|].
  unfold altro_campo at 1.
  destruct (Field_eq_dec (field x) f) as [Hf|Hf]; cbn [filter].
  - destruct (Field_eq_dec (field x) g) as [Hg|]; [congruence | exact IH].
  - now rewrite IH.
Qed.

(** X9. The preferences are never read.  No condition of the rule base
    reads a [preferenza] fact: the activations found in a working memory
    are those found without its [preferenza] facts; and every action does
    with the facts what it does without them. *)
Theorem preferenze_ignorate (K : Collab) :
  (forall r c, In r (rules K) -> In c (r_conds r) -> legge preferenza c = false) /\
  (forall es, matches (rules K) (senza_campo preferenza es) = matches (rules K) es) /\
  (forall r b facts w,
      In r (rules K) ->
      r_action r b (fatti_senza preferenza facts) w = r_action r b facts w).
Proof.
  assert (Hall : forallb (fun r => forallb (fun c => negb (legge preferenza c)) (r_conds r))
                         (rules K) = true) by reflexivity.
  split; [|split].
  - intros r c Hr Hc. rewrite forallb_forall in Hall. specialize (Hall r Hr).
    rewrite forallb_forall in Hall. apply negb_true_iff, Hall, Hc.
  - intro es. apply matches_from_senza, Hall.
  - intros r b facts w Hr. unfold rules in Hr. cbn [In] in Hr.
    repeat match type of Hr with
           | _ \/ _ => destruct Hr as [<-|Hr]
           end; try destruct Hr; cbn [r_action]; try reflexivity.
    + unfold scegli_candidati. rewrite values_of_senza; [reflexivity|discriminate].
    + unfold nessuna_ricetta_trovata. rewrite values_of_senza; [reflexivity|discriminate].
    + unfold valuta_ricetta_con_bayes, fatti_tempo.
      rewrite values_of_senza; [reflexivity|discriminate].
Qed.

End CampiFacts.

(** ** Every consultation is finite *)

Module MisuraFacts.
Import Text Interfaccia Engine Consulente Notions Risposta Misura.
Import StoreFacts EngineFacts RuleFacts TextFacts PromptFacts Domande.

(** *** Counting partial matches *)

Lemma filter_nil {A : Type} (t : A -> bool) (l : list A) :
  (forall a, In a l -> t a = false) -> filter t l = [].
Proof.
  induction l as [|a l IH]; intro H; cbn [filter]; [reflexivity|].
  rewrite (H a (or_introl eq_refl)). apply IH. intros b Hb. apply H. now right.
Qed.

Lemma length_flat_map_filter {A B : Type} (t : A -> bool) (g : A -> list B) (l : list A) :
  (forall a, List.length (g a) <= if t a then 1 else 0) ->
  List.length (flat_map g l) <= List.length (filter t l).
Proof.
  intro H. induction l as [|a l IH]; cbn [flat_map filter]; [cbn; lia|].
  rewrite length_app. specialize (H a). destruct (t a); cbn [List.length]; lia.
Qed.

Lemma length_flat_map_le {A B : Type} (g : A -> list B) (k : nat) (l : list A) :
  (forall a, List.length (g a) <= k) ->
  List.length (flat_map g l) <= k * List.length l.
Proof.
  intro H. induction l as [|a l IH]; cbn [flat_map List.length]; [lia|].
  rewrite length_app. specialize (H a). nia.
Qed.

Lemma extend_le (p : Partial) (e : Entry) (x : option string) :
  List.length (extend p e x) <= 1.
Proof.
  unfold extend. destruct x as [var|]; [|cbn; lia].
  destruct (lookup var (snd p)); [|cbn; lia].
  destruct (String.eqb _ _); cbn; lia.
Qed.

Lemma uno_solo (es : list Entry) (x : Fact) :
  NoDup (map content es) ->
  List.length (filter (fun e => if Fact_eq_dec (content e) x then true else false) es) <= 1.
Proof.
  induction es as [|e es IH]; cbn [map filter]; intro H; [cbn; lia|].
  inversion H as [|? ? Hn Hr]; subst.
  destruct (Fact_eq_dec (content e) x) as [Heq|]; [|apply IH, Hr].
  rewrite filter_nil; [cbn; lia|]. intros a Ha.
  destruct (Fact_eq_dec (content a) x) as [Heq'|]; [|reflexivity].
  exfalso. apply Hn. rewrite Heq, <- Heq'. apply in_map. exact Ha.
Qed.

Lemma peso_cond (es : list Entry) (c : Cond) :
  NoDup (map content es) ->
  forall p, List.length (eval_cond es c p) <= peso es c.
Proof.
  intro Hnd. induction c as [f v|f x|c IH|cs IH] using Cond_induction; intro p;
    cbn [eval_cond peso].
  - etransitivity; [|apply (uno_solo es (mkFact f v) Hnd)].
    apply length_flat_map_filter. intro e.
    destruct (Fact_eq_dec (content e) (mkFact f v)); cbn; lia.
  - unfold quanti. apply length_flat_map_filter. intro e.
    destruct (Field_eq_dec (field (content e)) f); [apply extend_le | cbn; lia].
  - destruct (eval_cond es c p); cbn; lia.
  - etransitivity; [apply unione_length|].
    induction IH as [|c cs Hc _ IHcs]; [cbn; lia|].
    rewrite length_app. specialize (Hc p). lia.
Qed.

Lemma peso_conds (es : list Entry) (cs : list Cond) :
  NoDup (map content es) ->
  forall ps, List.length (eval_conds es cs ps) <= peso_lista es cs * List.length ps.
Proof.
  intro Hnd. unfold peso_lista.
  induction cs as [|c r IH]; intro ps; cbn [eval_conds map fold_right]; [lia|].
  etransitivity; [apply IH|].
  pose proof (length_flat_map_le (eval_cond es c) (peso es c) ps (peso_cond es c Hnd)) as H.
  nia.
Qed.

Lemma peso_matches (es : list Entry) (rs : list Rule) :
  NoDup (map content es) ->
  forall i, List.length (matches_from i rs es)
            <= list_sum (map (fun r => peso_lista es (r_conds r)) rs).
Proof.
  intro Hnd. induction rs as [|r rs IH]; intro i; [cbn; lia|].
  cbn [matches_from map list_sum fold_right]. rewrite length_app, length_map.
  pose proof (peso_conds es (r_conds r) Hnd start) as H. unfold start in H at 2.
  cbn [List.length] in H. rewrite Nat.mul_1_r in H. specialize (IH (S i)).
  unfold list_sum in IH. apply Nat.add_le_mono; [exact H | exact IH].
Qed.

(** The facts of one field are at most as many as the values they can have. *)
Lemma quanti_le (es : list Entry) (f : Field) (L : list string) :
  NoDup (map content es) ->
  (forall e, In e es -> field (content e) = f -> In (value (content e)) L) ->
  quanti f es <= List.length L.
Proof.
  intros Hnd Hin. unfold quanti.
  set (t := fun e : Entry => if Field_eq_dec (field (content e)) f then true else false).
  rewrite <- (length_map (fun e => value (content e)) (filter t es)).
  apply NoDup_incl_length.
  - clear Hin. induction es as [|e es IH]; cbn [filter map]; [constructor|].
    cbn [map] in Hnd. inversion Hnd as [|? ? Hn Hr]; subst.
    destruct (t e) eqn:Et; [|apply IH, Hr]. cbn [map]. constructor; [|apply IH, Hr].
    intro Hv. apply in_map_iff in Hv. destruct Hv as (e' & Hv & He').
    apply filter_In in He'. destruct He' as [He' Ht']. apply Hn.
    unfold t in Et, Ht'.
    destruct (Field_eq_dec (field (content e)) f) as [Hf|]; [|discriminate].
    destruct (Field_eq_dec (field (content e')) f) as [Hf'|]; [|discriminate].
    replace (content e) with (content e'); [apply in_map, He'|].
    destruct (content e), (content e'); cbn in *; congruence.
  - intros v Hv. apply in_map_iff in Hv. destruct Hv as (e & <- & He).
    apply filter_In in He. destruct He as [He Ht]. apply Hin; [exact He|].
    unfold t in Ht. destruct (Field_eq_dec (field (content e)) f); [assumption|discriminate].
Qed.

(** *** Conditions without negation only gain matches when facts are added *)

Lemma map_snd_filter (t : Binding -> bool) (l : list Partial) :
  map snd (filter (fun q => t (snd q)) l) = filter t (map snd l).
Proof.
  induction l as [|q l IH]; cbn [filter map]; [reflexivity|].
  destruct (t (snd q)); cbn [map]; now rewrite IH.
Qed.

(** The bindings that [unione] keeps depend on the bindings it is given. *)
Lemma unione_snd (l : list Partial) :
  forall l', map snd l = map snd l' -> map snd (unione l) = map snd (unione l').
Proof.
  induction l as [|p r IH]; intros [|p' r'] H; try discriminate H; [reflexivity|].
  cbn [map] in H. injection H as Hp Hr. cbn [unione map].
  rewrite (map_snd_filter (fun b => negb (same_binding (snd p) b))).
  rewrite (map_snd_filter (fun b => negb (same_binding (snd p') b))).
  rewrite Hp, (IH r' Hr). reflexivity.
Qed.

Lemma extend_snd (p p' : Partial) (e : Entry) (x : option string) :
  snd p = snd p' -> map snd (extend p e x) = map snd (extend p' e x).
Proof.
  intro H. unfold extend. rewrite H. destruct x as [var|]; [|reflexivity].
  destruct (lookup var (snd p')); [|reflexivity].
  destruct (String.eqb _ _); reflexivity.
Qed.

(** The bindings that a condition gives depend on the binding it starts
    from, not on the facts matched before. *)
Lemma eval_cond_snd (es : list Entry) (c : Cond) :
  forall p p', snd p = snd p' ->
               map snd (eval_cond es c p) = map snd (eval_cond es c p').
Proof.
  induction c as [f v|f x|c IH|cs IH] using Cond_induction; intros p p' H;
    cbn [eval_cond].
  - induction es as [|e es IHes]; cbn [flat_map]; [reflexivity|].
    rewrite !map_app, IHes. f_equal.
    destruct (Fact_eq_dec (content e) (mkFact f v)); cbn [map snd]; congruence.
  - induction es as [|e es IHes]; cbn [flat_map]; [reflexivity|].
    rewrite !map_app. f_equal; [|exact IHes].
    destruct (Field_eq_dec (field (content e)) f); [|reflexivity].
    apply extend_snd, H.
  - specialize (IH p p' H).
    destruct (eval_cond es c p), (eval_cond es c p'); try discriminate IH;
      cbn [map]; congruence.
  - apply unione_snd. induction IH as [|c cs Hc _ IHcs]; [reflexivity|].
    cbn -[eval_cond]. rewrite !map_app. f_equal; [exact (Hc p p' H) | exact IHcs].
Qed.

(** A binding found from one partial match is found from any other that
    carries the same binding. *)
Lemma eval_cond_trasporta (es : list Entry) (c : Cond) (p p' q : Partial) :
  snd p = snd p' -> In q (eval_cond es c p) ->
  exists q', In q' (eval_cond es c p') /\ snd q' = snd q.
Proof.
  intros H Hq. pose proof (eval_cond_snd es c p p' H) as Hm.
  assert (Hin : In (snd q) (map snd (eval_cond es c p'))).
  { rewrite <- Hm. apply in_map, Hq. }
  apply in_map_iff in Hin. destruct Hin as (q' & Hs & Hq'). eauto.
Qed.

Lemma mono_cond (es es' : list Entry) (c : Cond) :
  incl es es' -> positivo c = true ->
  forall p q, In q (eval_cond es c p) ->
              exists q', In q' (eval_cond es' c p) /\ snd q' = snd q.
Proof.
  intro Hincl. induction c as [f v|f x|c IH|cs IH] using Cond_induction;
    cbn [positivo]; intros Hpos p q Hq.
  - exists q. split; [|reflexivity].
    apply in_FieldEquals in Hq. destruct Hq as (e & He & Hq).
    apply in_FieldEquals. exists e. split; [apply Hincl, He | exact Hq].
  - exists q. split; [|reflexivity].
    apply in_Exists in Hq. destruct Hq as (e & He & Hq).
    apply in_Exists. exists e. split; [apply Hincl, He | exact Hq].
  - discriminate.
  - apply in_Or in Hq. destruct Hq as (c & Hc & Hq).
    assert (Hbranch : exists q', In q' (eval_cond es' c p) /\ snd q' = snd q).
    { revert Hpos Hc Hq. clear -IH.
      induction IH as [|c0 cs Hc0 _ IHcs]; intros Hpos Hc Hq; [destruct Hc|].
      apply andb_true_iff in Hpos. destruct Hpos as [H1 H2].
      destruct Hc as [->|Hc]; [apply Hc0; assumption | apply IHcs; assumption]. }
    destruct Hbranch as (q' & Hq' & Hs).
    destruct (in_Or_branch es' cs c p q' Hc Hq') as (q'' & Hq'' & Hs').
    exists q''. split; [exact Hq'' | congruence].
Qed.

Lemma mono_conds (es es' : list Entry) (cs : list Cond) :
  incl es es' -> forallb positivo cs = true ->
  forall ps ps' q,
    (forall p, In p ps -> exists p', In p' ps' /\ snd p' = snd p) ->
    In q (eval_conds es cs ps) ->
    exists q', In q' (eval_conds es' cs ps') /\ snd q' = snd q.
Proof.
  intro Hincl. induction cs as [|c r IH]; intros Hpos ps ps' q Hps Hq.
  - apply Hps, Hq.
  - cbn [forallb] in Hpos. apply andb_true_iff in Hpos. destruct Hpos as [Hc Hr].
    cbn [eval_conds] in *.
    apply (IH Hr (flat_map (eval_cond es c) ps)); [|exact Hq].
    intros p1 Hp1. apply in_flat_map in Hp1. destruct Hp1 as (p & Hp & Hp1).
    destruct (Hps p Hp) as (p' & Hp' & Hs).
    destruct (mono_cond es es' c Hincl Hc p p1 Hp1) as (p2 & Hp2 & Hs2).
    destruct (eval_cond_trasporta es' c p p' p2 (eq_sym Hs) Hp2) as (p3 & Hp3 & Hs3).
    exists p3. split; [apply in_flat_map; eauto | congruence].
Qed.

(** Dropping the negations of a conjunction keeps its matches. *)
Lemma senza_negazioni (es : list Entry) (cs : list Cond) :
  forall ps q, In q (eval_conds es cs ps) ->
               In q (eval_conds es (filter non_negata cs) ps).
Proof.
  induction cs as [|c r IH]; intros ps q Hq; [exact Hq|].
  apply in_eval_conds_cons in Hq. destruct Hq as (p & p' & Hp & Hp' & Hq).
  cbn [filter]. destruct c as [f v|f x|c|cs]; cbn [non_negata].
  - apply in_eval_conds_cons. exists p, p'. auto.
  - apply in_eval_conds_cons. exists p, p'. auto.
  - apply in_Not in Hp'. destruct Hp' as [-> _].
    apply IH in Hq. clear -Hp Hq.
    assert (Hsplit : forall l, In p l -> In q (eval_conds es (filter non_negata r) l)).
    { induction l as [|a l IHl]; [intros []|]. intros [<-|Hin].
      - change (a :: l) with ([a] ++ l). rewrite eval_conds_app. apply in_or_app. now left.
      - change (a :: l) with ([a] ++ l). rewrite eval_conds_app. apply in_or_app.
        right. apply IHl, Hin. }
    apply Hsplit, Hp.
  - apply in_eval_conds_cons. exists p, p'. auto.
Qed.

Lemma affermate_positive (K : Collab) (r : Rule) :
  In r (rules K) -> forallb positivo (affermate r) = true.
Proof.
  assert (H : forallb (fun r => forallb positivo (affermate r)) (rules K) = true)
    by reflexivity.
  rewrite forallb_forall in H. exact (H r).
Qed.


(** *** What the actions assert *)

Lemma distinct_in (l : list string) (x : string) : In x (distinct l) -> In x l.
Proof.
  induction l as [|a l IH]; cbn [distinct]; [intros []|].
  intros [<-|H]; [now left|]. apply filter_In in H. right. apply IH, H.
Qed.

Lemma scegli_in_lista (b : Binding) (facts : list Fact) (w w' : World)
      (effs : list Effect) :
  scegli_candidati b facts w = Some (effs, w') ->
  exists r, In (mkFact candidato r) facts /\
            effs = map DeclareFact [mkFact ricetta_suggerita r;
                                    mkFact azione "valutaRicetta"].
Proof.
  unfold scegli_candidati.
  assert (Hin : forall r, In r (distinct (values_of candidato facts)) ->
                          In (mkFact candidato r) facts).
  { intros r Hr. apply in_values_of, distinct_in, Hr. }
  assert (Hmany :
    match
      match scelta_loop (List.length (distinct (values_of candidato facts)))
              (inputs (emit (EElenco (distinct (values_of candidato facts))) w))
              (log (emit (EElenco (distinct (values_of candidato facts))) w)) with
      | Some (scelta, w2) =>
          Some (nth (Z.to_nat (scelta - 1)) (distinct (values_of candidato facts)) "", w2)
      | None => None
      end
    with
    | Some (ricetta_scelta, w') =>
        Some ([DeclareFact (mkFact ricetta_suggerita ricetta_scelta);
               DeclareFact (mkFact azione "valutaRicetta")], w')
    | None => None
    end = Some (effs, w') ->
    exists r, In (mkFact candidato r) facts /\
              effs = map DeclareFact [mkFact ricetta_suggerita r;
                                      mkFact azione "valutaRicetta"]).
  { pose proof (scelta_loop_spec (List.length (distinct (values_of candidato facts)))
                  (inputs (emit (EElenco (distinct (values_of candidato facts))) w))
                  (log (emit (EElenco (distinct (values_of candidato facts))) w))) as H.
    destruct (scelta_loop (List.length (distinct (values_of candidato facts)))
                (inputs (emit (EElenco (distinct (values_of candidato facts))) w))
                (log (emit (EElenco (distinct (values_of candidato facts))) w)))
      as [[z w2]|]; [|discriminate].
    destruct H as (pre & line & _ & _ & _ & Hz & _). intro E. injection E as <- <-.
    exists (nth (Z.to_nat (z - 1)) (distinct (values_of candidato facts)) "").
    split; [|reflexivity]. apply Hin, nth_In. lia. }
  destruct (distinct (values_of candidato facts)) as [|r [|r' rest]] eqn:El.
  - exact Hmany.
  - intro E. injection E as <- <-. exists r. split; [|reflexivity].
    apply Hin. now left.
  - exact Hmany.
Qed.

Lemma indice_noto (t : string) :
  In (Some (converti_tempo_in_indice t)) evidenze.
Proof.
  unfold converti_tempo_in_indice, evidenze.
  destruct (String.eqb t "poco"); [right; now left|].
  destruct (String.eqb t "medio"); [right; right; now left|].
  destruct (String.eqb t "molto"); [right; right; right; now left | right; right; now left].
Qed.

Lemma valutazione_nota (K : Collab) (ricetta : string) (fatti : option string)
      (w w1 : World) (v : string) :
  calcola_rischio_o_successo_ricetta K ricetta fatti w = Some (v, w1) ->
  In v (valutazioni K).
Proof.
  unfold calcola_rischio_o_successo_ricetta, valutazioni.
  destruct (rete_ok K); cbn [negb]; [|intro H; injection H as <- _; now left].
  destruct (rete_loop (inputs w) (log w)) as [[s w2]|]; [|discriminate].
  cbv zeta.
  destruct (inferenza K (if String.eqb s "2" then dopo_apprendimento (impara K)
                         else Predefinita)
              (option_map converti_tempo_in_indice fatti)) as [| | |p] eqn:E;
    intro H; injection H as <- _; try (right; now left).
  right; right. apply in_flat_map.
  exists (if String.eqb s "2" then dopo_apprendimento (impara K) else Predefinita).
  split; [destruct (String.eqb s "2"); cbn; auto|].
  apply in_flat_map. exists (option_map converti_tempo_in_indice fatti).
  split; [|rewrite E; now left].
  destruct fatti as [t|]; [apply indice_noto | now left].
Qed.

Lemma valutazioni_length (K : Collab) : List.length (valutazioni K) <= 10.
Proof.
  unfold valutazioni. cbn [List.length].
  pose proof (length_flat_map_le
                (fun rete =>
                   flat_map (fun ev => match inferenza K rete ev with
                                       | Stima p => [msg_stima p]
                                       | _ => []
                                       end) evidenze) 4
                [Predefinita; dopo_apprendimento (impara K)]) as H.
  cbn [List.length] in H. 
  assert (H4 : forall a, List.length
                 (flat_map (fun ev => match inferenza K a ev with
                                      | Stima p => [msg_stima p]
                                      | _ => []
                                      end) evidenze) <= 4).
  { intro a.
    pose proof (length_flat_map_le
                  (fun ev => match inferenza K a ev with
                             | Stima p => [msg_stima p]
                             | _ => []
                             end) 1 evidenze) as H1.
    cbn [List.length evidenze] in H1. unfold evidenze at 1.
    etransitivity; [apply H1|lia].
    intro e. destruct (inferenza K a e); cbn; lia. }
  specialize (H H4). lia.
Qed.

(** What an action asserts is admissible in the working memory it read. *)
Lemma azione_ammessa (K : Collab) (i : nat) (r : Rule) (b : Binding)
      (facts : list Fact) (w w' : World) (effs : list Effect) :
  nth_error (rules K) i = Some r ->
  r_action r b facts w = Some (effs, w') ->
  exists fs, effs = map DeclareFact fs /\ forall f, In f fs -> ammesso K facts f.
Proof.
  intros Hr Ha. each_rule Hr; cbn [r_action] in Ha.
  - unfold chiedi_ingredienti in Ha.
    destruct (chiedi_ingredienti_disponibili w) as [[[|x l] w1]|]; try discriminate;
      injection Ha as <- <-.
    + exists [termina]. split; [reflexivity|]. intros f [<-|[]]. exact I.
    + exists (map (mkFact ingrediente) (map (fun i => lower (strip i)) (x :: l))
              ++ [mkFact azione "chiediTempo"]).
      split; [rewrite map_app, <- declare_all_map; reflexivity|].
      intros f Hf. apply in_app_or in Hf. destruct Hf as [Hf|[<-|[]]]; [|exact I].
      apply in_map_iff in Hf. destruct Hf as (v & <- & Hv).
      apply in_map_iff in Hv. destruct Hv as (y & <- & _). apply norm_idem.
  - unfold chiedi_tempo, chiedi_tempo_disponibile in Ha.
    pose proof (tempo_loop_spec (inputs w) (log w)) as H.
    destruct (tempo_loop (inputs w) (log w)) as [[t w1]|]; [|discriminate].
    injection Ha as <- <-. destruct H as (pre & line & m & _ & _ & _ & _ & -> & _).
    exists [mkFact tempo_disponibile (converti_tempo_in_categoria m);
            mkFact azione "chiediPreferenze"].
    split; [reflexivity|]. intros f [<-|[<-|[]]]; [|exact I].
    apply converti_tempo_in_categoria_ok.
  - unfold chiedi_preferenze in Ha.
    destruct (chiedi_preferenze_alimentari w) as [[l w1]|]; [|discriminate].
    injection Ha as <- <-.
    exists (map (mkFact preferenza) (map (fun p => lower (strip p)) l) ++ [trovaRicetta]).
    split; [rewrite map_app, <- declare_all_map; reflexivity|].
    intros f Hf. apply in_app_or in Hf. destruct Hf as [Hf|[<-|[]]]; [|exact I].
    apply in_map_iff in Hf. destruct Hf as (v & <- & Hv).
    apply in_map_iff in Hv. destruct Hv as (y & <- & _). apply norm_idem.
  - injection Ha as <- <-. exists [mkFact candidato "Pasta al Pomodoro"].
    split; [reflexivity|]. intros f [<-|[]]. cbn. auto.
  - injection Ha as <- <-. exists [mkFact candidato "Uova Strapazzate"].
    split; [reflexivity|]. intros f [<-|[]]. cbn. auto.
  - injection Ha as <- <-. exists [mkFact candidato "Insalata Mista"].
    split; [reflexivity|]. intros f [<-|[]]. cbn. auto.
  - destruct (scegli_in_lista _ _ _ _ _ Ha) as (v & Hv & ->).
    eexists. split; [reflexivity|]. intros f [<-|[<-|[]]]; [exact Hv | exact I].
  - unfold nessuna_ricetta_trovata in Ha. injection Ha as <- _.
    exists [termina]. split; [reflexivity|]. intros f [<-|[]]. exact I.
  - unfold valuta_ricetta_con_bayes in Ha.
    destruct (lookup "ricetta" b) as [ricetta|]; [|discriminate].
    destruct (calcola_rischio_o_successo_ricetta K ricetta (fatti_tempo facts)
                (emit (EBayes ricetta (fatti_tempo facts)) w)) as [[v w1]|] eqn:E;
      [|discriminate].
    injection Ha as <- <-.
    exists [mkFact valutazione_ricetta v; mkFact azione "stampaRisultato"].
    split; [reflexivity|]. intros f [<-|[<-|[]]]; [|exact I].
    exact (valutazione_nota K _ _ _ _ _ E).
  - unfold stampare_risultato_finale in Ha.
    destruct (lookup "ricetta" b) as [ricetta|]; [|discriminate].
    destruct (lookup "valutazione" b); [|discriminate].
    destruct (_stampa_dettagli_ricetta K ricetta w) as [alt w1].
    exists [termina].
    assert (Hf : forall f, In f [termina] -> ammesso K facts f)
      by (intros f [<-|[]]; exact I).
    destruct alt as [alt|].
    + destruct (is_empty alt); [injection Ha as <- _; auto|].
      destruct (alternativa_loop (inputs w1) (log w1)) as [[risposta w2]|];
        [|discriminate].
      destruct (String.eqb risposta "s"); injection Ha as <- _; auto.
    + injection Ha as <- _. auto.
  - injection Ha as <- _. exists []. split; [reflexivity|]. intros f [].
Qed.


(** *** The invariant *)

Lemma ammesso_mono (K : Collab) (facts facts' : list Fact) (f : Fact) :
  incl facts facts' -> ammesso K facts f -> ammesso K facts' f.
Proof. intro H. unfold ammesso. destruct (field f); auto. Qed.

Lemma filter_tutti {A : Type} (t : A -> bool) (l : list A) :
  Forall (fun a => t a = true) l -> filter t l = l.
Proof.
  induction 1 as [|a l Ha _ IH]; cbn [filter]; [reflexivity|]. now rewrite Ha, IH.
Qed.

Lemma sano_reset (K : Collab) : sano K (reset deffacts).
Proof.
  split; [apply EngineClaims.wf_state_reset|]. split; [|split].
  - intros f [<-|[]]. exact I.
  - constructor.
  - intros b [].
Qed.

Lemma sano_step (K : Collab) (st : State) (w : World) (a : Activation) (h : bool)
      (st' : State) (w' : World) :
  sano K st -> step (rules K) st w = Fired a h st' w' ->
  sano K st' /\ fired st' = a :: fired st.
Proof.
  intros (Hwf & Hamm & Hnd & Hfir) Hstep.
  pose proof (step_wf _ _ _ _ _ _ _ Hwf Hstep) as Hwf'.
  apply step_fired in Hstep.
  destruct Hstep as (r & effs & Ht & Hr & Ha & Hh & Hst & Hcyc & Hf).
  destruct (azione_ammessa K _ r _ _ _ _ _ Hr Ha) as (fs & -> & Hfs).
  destruct (declared (S (cycle st)) fs (store st)) as (D1 & D2 & D3).
  rewrite <- Hst in D1, D2, D3.
  apply top_in, in_agenda in Ht. destruct Ht as [Hm Hnf].
  assert (Hincl : incl (entries (store st)) (entries (store st'))) by exact D1.
  assert (Hfacts : incl (wm st) (wm st')).
  { intros f Hin. destruct (entry_of_fact st f Hin) as (x & Hx & <-).
    apply fact_of_entry, D1, Hx. }
  assert (Hsa : supported (store st) a = true).
  { apply supported_true. exact (matches_grounded (rules K) _ a Hm). }
  assert (Hfeq : fired st' = a :: fired st).
  { rewrite Hf. apply filter_tutti. constructor.
    - apply (supported_mono _ _ a Hincl Hsa).
    - destruct Hwf as [_ Hsup]. rewrite Forall_forall in *.
      intros b Hb. apply (supported_mono _ _ b Hincl), Hsup, Hb. }
  split; [|exact Hfeq]. split; [exact Hwf'|]. split; [|split].
  - intros f Hin. destruct (entry_of_fact st' f Hin) as (x & Hx & <-).
    apply (ammesso_mono K (wm st) (wm st') _ Hfacts).
    destruct (D2 x Hx) as [Hold|Hnew]; [apply Hamm, fact_of_entry, Hold | apply Hfs, Hnew].
  - rewrite Hfeq. cbn [map]. constructor; [|exact Hnd].
    intro Hin. apply in_map_iff in Hin. destruct Hin as (c & Hk & Hc).
    unfold chiave in Hk. injection Hk as Hk1 Hk2.
    exact (proj1 (refracted_false st a) Hnf c Hc (eq_sym Hk1) (eq_sym Hk2)).
  - assert (Hstart : forall p, In p start -> exists p', In p' start /\ snd p' = snd p)
      by (intros p Hp; exists p; auto).
    rewrite Hfeq. intros b [<-|Hb].
    + apply in_matches in Hm. destruct Hm as (r' & Hr' & Hin).
      destruct (mono_conds _ _ (affermate r') Hincl
                  (affermate_positive K r' (nth_error_In _ _ Hr'))
                  start start _ Hstart (senza_negazioni _ _ _ _ Hin))
        as (q & Hq & Hs).
      exists r', q. auto.
    + destruct (Hfir b Hb) as (r' & q0 & Hr' & Hin & Hs0).
      destruct (mono_conds _ _ (affermate r') Hincl
                  (affermate_positive K r' (nth_error_In _ _ Hr'))
                  start start _ Hstart Hin)
        as (q & Hq & Hs).
      exists r', q. split; [exact Hr'|]. split; [exact Hq | congruence].
Qed.

(** The rules with their negations dropped: every rule and binding of the
    refraction set is among their matches. *)
Lemma sano_fired (K : Collab) (st : State) (b : Activation) :
  sano K st -> In b (fired st) ->
  exists c, In c (matches (map (fun r => mkRule (r_name r) (affermate r) (r_salience r)
                                                (r_action r)) (rules K))
                          (entries (store st))) /\
            chiave c = chiave b.
Proof.
  intros (_ & _ & _ & Hfir) Hb. destruct (Hfir b Hb) as (r & q & Hr & Hin & Hs).
  exists (mkAct (a_rule b) (fst q) (snd q)). split.
  - apply in_matches. eexists. split; [apply map_nth_error, Hr|].
    cbn [a_support a_binding r_conds]. destruct q. exact Hin.
  - unfold chiave. cbn [a_rule a_binding]. now rewrite Hs.
Qed.

Lemma sano_quanti (K : Collab) (st : State) :
  sano K st ->
  quanti candidato (entries (store st)) <= 3 /\
  quanti ricetta_suggerita (entries (store st)) <= 3 /\
  quanti valutazione_ricetta (entries (store st)) <= 10.
Proof.
  intros (((_ & Hnd & _) & _) & Hamm & _).
  assert (Hc : forall e, In e (entries (store st)) -> field (content e) = candidato ->
                         In (value (content e)) ricettario).
  { intros e He Hf. specialize (Hamm _ (fact_of_entry st e He)).
    unfold ammesso in Hamm. rewrite Hf in Hamm. exact Hamm. }
  split; [|split].
  - exact (quanti_le _ candidato ricettario Hnd Hc).
  - apply (quanti_le _ ricetta_suggerita ricettario Hnd).
    intros e He Hf. specialize (Hamm _ (fact_of_entry st e He)).
    unfold ammesso in Hamm. rewrite Hf in Hamm.
    destruct (entry_of_fact st _ Hamm) as (x & Hx & Hcx).
    specialize (Hc x Hx). rewrite Hcx in Hc. apply Hc. reflexivity.
  - etransitivity; [|apply (valutazioni_length K)].
    apply (quanti_le _ valutazione_ricetta (valutazioni K) Hnd).
    intros e He Hf. specialize (Hamm _ (fact_of_entry st e He)).
    unfold ammesso in Hamm. rewrite Hf in Hamm. exact Hamm.
Qed.

Lemma sano_bound (K : Collab) (st : State) :
  sano K st -> List.length (fired st) <= cicli_massimi.
Proof.
  intro Hs. pose proof (sano_quanti K st Hs) as (Hc & Hr & Hv).
  pose proof Hs as (((_ & Hnd & _) & _) & _ & Hndf & _).
  rewrite <- (length_map chiave (fired st)).
  etransitivity.
  { apply NoDup_incl_length; [exact Hndf|]. intros k Hk.
    apply in_map_iff in Hk. destruct Hk as (b & <- & Hb).
    destruct (sano_fired K st b Hs Hb) as (c & Hin & <-). apply in_map, Hin. }
  rewrite length_map.
  etransitivity; [apply (peso_matches _ _ Hnd)|].
  cbv [rules map affermate filter non_negata r_conds peso_lista peso fold_right list_sum].
  unfold cicli_massimi.
  set (qc := quanti candidato (entries (store st))) in *.
  set (qr := quanti ricetta_suggerita (entries (store st))) in *.
  set (qv := quanti valutazione_ricetta (entries (store st))) in *.
  nia.
Qed.

(** A run keeps the invariant, and adds to the refraction set exactly what
    it fires; out of fuel, it has fired as many times as it had fuel. *)
Lemma run_sano (K : Collab) (n : nat) :
  forall st w,
    sano K st ->
    sano K (final (run (rules K) n st w)) /\
    List.length (fired (final (run (rules K) n st w)))
    = List.length (trace (run (rules K) n st w)) + List.length (fired st) /\
    (status (run (rules K) n st w) = OutOfFuel ->
     List.length (trace (run (rules K) n st w)) = n).
Proof.
  induction n as [|n IH]; intros st w Hs; cbn [run].
  - cbn [status trace final List.length]. auto.
  - destruct (step (rules K) st w) as [| b | a [|] st' w'] eqn:E;
      cbn [status trace final List.length].
    + split; [exact Hs|]. split; [reflexivity | discriminate].
    + split; [exact Hs|]. split; [reflexivity | discriminate].
    + destruct (sano_step K st w a true st' w' Hs E) as [Hs' Hf].
      split; [exact Hs'|]. split; [rewrite Hf; reflexivity | discriminate].
    + destruct (sano_step K st w a false st' w' Hs E) as [Hs' Hf].
      destruct (IH st' w' Hs') as (I1 & I2 & I3).
      split; [exact I1|]. split.
      * rewrite I2, Hf. cbn [List.length]. lia.
      * intro H. rewrite (I3 H). reflexivity.
Qed.


Lemma run_fuel (K : Collab) (n : nat) :
  forall st w m,
    status (run (rules K) n st w) <> OutOfFuel -> n <= m ->
    run (rules K) m st w = run (rules K) n st w.
Proof.
  induction n as [|n IH]; intros st w m Hs Hm; cbn [run] in *.
  - exfalso. apply Hs. reflexivity.
  - destruct m as [|m]; [lia|]. cbn [run].
    destruct (step (rules K) st w) as [| b | a [|] st' w']; try reflexivity.
    cbn [status] in Hs. rewrite (IH st' w' m Hs); [reflexivity | lia].
Qed.

(** A consultation given more than [cicli_massimi] cycles has come to rest
    or is waiting. *)
Lemma consultazione_limitata (K : Collab) (fuel : nat) (lines : list string) :
  cicli_massimi < fuel ->
  (status (avvia_consulente_ricette K fuel lines) = Done \/
   status (avvia_consulente_ricette K fuel lines) = Blocked) /\
  (status (avvia_consulente_ricette K fuel lines) = Done ->
   In termina (wm (final (avvia_consulente_ricette K fuel lines)))).
Proof.
  intros Hfuel. set (c := avvia_consulente_ricette K fuel lines).
  destruct (run_sano K fuel (reset deffacts) (mkWorld lines []) (sano_reset K))
    as (Hs & Hlen & Hout).
  fold (avvia_consulente_ricette K fuel lines) in Hs, Hlen, Hout. fold c in Hs, Hlen, Hout.
  pose proof (sano_bound K _ Hs) as Hb. rewrite Hlen in Hb.
  destruct (Progresso.consultazione K fuel lines) as (Hh & _ & Hd). fold c in Hh, Hd.
  split.
  - destruct (status c); auto; [contradiction|]. specialize (Hout eq_refl). lia.
  - intro H. apply Hd, H.
Qed.

(** X10. Every consultation is finite.  Whatever the user types and whatever
    the evaluator and the ontology answer, a consultation fires at most 45
    rules; given more cycles than that it has either come to rest, with
    [azione="termina"] asserted, or is waiting for the user at a prompt, and
    more cycles change nothing. *)
Theorem consultazione_finita (K : Collab) (fuel : nat) (lines : list string) :
  cicli_massimi < fuel ->
  let c := avvia_consulente_ricette K fuel lines in
  List.length (trace c) <= cicli_massimi /\
  (status c = Done \/ status c = Blocked) /\
  (status c = Done -> In termina (wm (final c))) /\
  (forall fuel', fuel <= fuel' -> avvia_consulente_ricette K fuel' lines = c).
Proof.
  intros Hfuel c.
  destruct (run_sano K fuel (reset deffacts) (mkWorld lines []) (sano_reset K))
    as (Hs & Hlen & Hout).
  fold (avvia_consulente_ricette K fuel lines) in Hs, Hlen, Hout. fold c in Hs, Hlen, Hout.
  pose proof (sano_bound K _ Hs) as Hb. rewrite Hlen in Hb.
  cbn [reset fired List.length] in Hb.
  destruct (Progresso.consultazione K fuel lines) as (Hh & _ & Hd). fold c in Hh, Hd.
  assert (Hno : status c <> OutOfFuel) by (intro H; apply Hout in H; lia).
  split; [lia|]. split; [|split].
  - destruct (status c); auto; contradiction.
  - intro H. apply Hd, H.
  - intros fuel' Hle. apply run_fuel; assumption.
Qed.

Lemma consultazione_finita_witness :
  let c := avvia_consulente_ricette collab_base 46 ["pasta, pomodoro"; "30"; ""; "1"] in
  List.length (trace c) <= cicli_massimi /\ (status c = Done \/ status c = Blocked).
Proof.
  assert (H : cicli_massimi < 46) by (unfold cicli_massimi; lia).
  destruct (consultazione_finita collab_base 46 ["pasta, pomodoro"; "30"; ""; "1"] H)
    as (H1 & H2 & _).
  split; [exact H1 | exact H2].
Defined.

(** X11. What working memory can hold.  At every point of every
    consultation no fact is stored twice; ingredients and preferences are
    stripped and in lower case; the time is "poco", "medio" or "molto";
    every candidate is one of the three recipes of the rule base; every
    suggested recipe is a candidate that is in working memory; every
    valuation is a text that the evaluator can return. *)
Theorem memoria_ammessa (K : Collab) (fuel : nat) (lines : list string) :
  let facts := wm (final (avvia_consulente_ricette K fuel lines)) in
  NoDup facts /\
  (forall f, In f facts -> ammesso K facts f) /\
  (forall v, In (mkFact ricetta_suggerita v) facts ->
             In (mkFact candidato v) facts /\ In v ricettario).
Proof.
  intro facts.
  destruct (run_sano K fuel (reset deffacts) (mkWorld lines []) (sano_reset K))
    as (Hs & _ & _).
  fold (avvia_consulente_ricette K fuel lines) in Hs.
  destruct Hs as (((_ & Hnd & _) & _) & Hamm & _).
  split; [exact Hnd|]. split; [exact Hamm|].
  intros v Hv. pose proof (Hamm _ Hv) as Hc. unfold ammesso in Hc. cbn in Hc.
  split; [exact Hc|]. exact (Hamm _ Hc).
Qed.

End MisuraFacts.

(** ** The sessions of the program *)

Module PrincipaleFacts.
Import Text Interfaccia Engine Consulente Notions Consiglio Misura Principale.
Import EngineFacts PromptFacts ConsiglioFacts MisuraFacts.

Lemma consuma_refl (w : World) : consuma w w.
Proof. exists []. reflexivity. Qed.

Lemma consuma_trans (w1 w2 w3 : World) : consuma w1 w2 -> consuma w2 w3 -> consuma w1 w3.
Proof.
  intros (p & Hp) (q & Hq). exists (p ++ q). rewrite Hp, Hq, app_assoc. reflexivity.
Qed.

Lemma consuma_emit (e : Event) (w : World) : consuma w (emit e w).
Proof. exists []. reflexivity. Qed.

Lemma consuma_input (p : Prompt) (w w' : World) (l : string) :
  input p w = Some (l, w') -> consuma w w'.
Proof.
  unfold input. destruct (inputs w) as [|x r] eqn:E; [discriminate|].
  intro H. injection H as _ <-. exists [x]. rewrite E. reflexivity.
Qed.

Lemma consuma_loop (ins : list string) (lg lg' : list Event) (w' : World) (pre : list string)
      (line : string) :
  ins = pre ++ line :: inputs w' -> consuma (mkWorld ins lg) w'.
Proof. intros ->. exists (pre ++ [line]). cbn. rewrite <- app_assoc. reflexivity. Qed.

Lemma consuma_rete (ins : list string) :
  forall lg s w', rete_loop ins lg = Some (s, w') -> consuma (mkWorld ins lg) w'.
Proof.
  induction ins as [|line rest IH]; intros lg s w'; cbn [rete_loop]; [discriminate|].
  destruct (String.eqb (strip line) "1" || String.eqb (strip line) "2").
  - intro H. injection H as _ <-. exists [line]. reflexivity.
  - intro H. destruct (IH _ _ _ H) as (pre & Hpre). exists (line :: pre).
    cbn in *. now rewrite Hpre.
Qed.

(** An action reads the lines in order. *)
Lemma azione_consuma (K : Collab) (i : nat) (r : Rule) (b : Binding)
      (facts : list Fact) (w w' : World) (effs : list Effect) :
  nth_error (rules K) i = Some r ->
  r_action r b facts w = Some (effs, w') -> consuma w w'.
Proof.
  intros Hr Ha. each_rule Hr; cbn [r_action] in Ha.
  - unfold chiedi_ingredienti, chiedi_ingredienti_disponibili in Ha.
    destruct (input PIngredienti w) as [[line w1]|] eqn:E; [|discriminate].
    apply consuma_input in E.
    destruct (is_empty (strip line)); [injection Ha as _ <-; exact E|].
    destruct (map _ _); injection Ha as _ <-; exact E.
  - unfold chiedi_tempo, chiedi_tempo_disponibile in Ha.
    pose proof (tempo_loop_spec (inputs w) (log w)) as H.
    destruct (tempo_loop (inputs w) (log w)) as [[t w1]|]; [|discriminate].
    injection Ha as _ <-. destruct H as (pre & line & m & Hin & _).
    destruct w as [ins lg]. exact (consuma_loop _ lg lg _ pre line Hin).
  - unfold chiedi_preferenze, chiedi_preferenze_alimentari in Ha.
    destruct (input PPreferenze w) as [[line w1]|] eqn:E; [|discriminate].
    apply consuma_input in E.
    destruct (is_empty (lower (strip line)) || String.eqb (lower (strip line)) "nessuna");
      injection Ha as _ <-; exact E.
  - injection Ha as _ <-. apply consuma_refl.
  - injection Ha as _ <-. apply consuma_refl.
  - injection Ha as _ <-. apply consuma_refl.
  - unfold scegli_candidati in Ha.
    assert (Hmany :
      match
        match scelta_loop (List.length (distinct (values_of candidato facts)))
                (inputs (emit (EElenco (distinct (values_of candidato facts))) w))
                (log (emit (EElenco (distinct (values_of candidato facts))) w)) with
        | Some (scelta, w2) =>
            Some (nth (Z.to_nat (scelta - 1)) (distinct (values_of candidato facts)) "", w2)
        | None => None
        end
      with
      | Some (ricetta_scelta, w') =>
          Some ([DeclareFact (mkFact ricetta_suggerita ricetta_scelta);
                 DeclareFact (mkFact azione "valutaRicetta")], w')
      | None => None
      end = Some (effs, w') -> consuma w w').
    { pose proof (scelta_loop_spec (List.length (distinct (values_of candidato facts)))
                    (inputs (emit (EElenco (distinct (values_of candidato facts))) w))
                    (log (emit (EElenco (distinct (values_of candidato facts))) w))) as H.
      destruct (scelta_loop (List.length (distinct (values_of candidato facts)))
                  (inputs (emit (EElenco (distinct (values_of candidato facts))) w))
                  (log (emit (EElenco (distinct (values_of candidato facts))) w)))
        as [[z w2]|]; [|discriminate].
      destruct H as (pre & line & Hin & _). intro E. injection E as _ <-.
      exists (pre ++ [line]). cbn [emit inputs] in Hin. rewrite Hin, <- app_assoc.
      reflexivity. }
    destruct (distinct (values_of candidato facts)) as [|x [|y rest]].
    + exact (Hmany Ha).
    + injection Ha as _ <-. apply consuma_emit.
    + exact (Hmany Ha).
  - unfold nessuna_ricetta_trovata in Ha. injection Ha as _ <-.
    destruct (values_of ingrediente facts); [apply consuma_refl | apply consuma_emit].
  - unfold valuta_ricetta_con_bayes in Ha.
    destruct (lookup "ricetta" b) as [ricetta|]; [|discriminate].
    destruct (calcola_rischio_o_successo_ricetta K ricetta (fatti_tempo facts)
                (emit (EBayes ricetta (fatti_tempo facts)) w)) as [[v w1]|] eqn:E;
      [|discriminate].
    injection Ha as _ <-.
    apply (consuma_trans _ _ _ (consuma_emit (EBayes ricetta (fatti_tempo facts)) w)).
    unfold calcola_rischio_o_successo_ricetta in E.
    destruct (rete_ok K); cbn [negb] in E; [|injection E as _ <-; apply consuma_refl].
    destruct (rete_loop (inputs (emit (EBayes ricetta (fatti_tempo facts)) w))
                (log (emit (EBayes ricetta (fatti_tempo facts)) w)))
      as [[s w2]|] eqn:El; [|discriminate].
    apply consuma_rete in El.
    destruct (inferenza K _ _); injection E as _ <-; exact El.
  - unfold stampare_risultato_finale in Ha.
    destruct (lookup "ricetta" b) as [ricetta|]; [|discriminate].
    destruct (lookup "valutazione" b); [|discriminate].
    unfold _stampa_dettagli_ricetta, trova_dettagli_ricetta_in_ontologia in Ha.
    pose proof (consuma_emit (EDettagli ricetta) w) as H0.
    destruct (match ontologia K ricetta with
              | Some d => d_alternativa d
              | None => None
              end) as [alt|]; [|injection Ha as _ <-; exact H0].
    destruct (is_empty alt); [injection Ha as _ <-; exact H0|].
    pose proof (alternativa_loop_spec (inputs (emit (EDettagli ricetta) w))
                  (log (emit (EDettagli ricetta) w))) as H.
    destruct (alternativa_loop (inputs (emit (EDettagli ricetta) w))
                (log (emit (EDettagli ricetta) w))) as [[risposta w2]|]; [|discriminate].
    destruct H as (pre & line & Hin & _).
    assert (H2 : consuma w w2).
    { exists (pre ++ [line]). cbn [emit inputs] in Hin. rewrite Hin, <- app_assoc.
      reflexivity. }
    destruct (String.eqb risposta "s"); injection Ha as _ <-; [|exact H2].
    cbn [snd]. apply (consuma_trans _ _ _ H2), consuma_emit.
  - injection Ha as _ <-. apply consuma_emit.
Qed.

Lemma run_consuma (K : Collab) (n : nat) :
  forall st w, consuma w (world (run (rules K) n st w)).
Proof.
  induction n as [|n IH]; intros st w; cbn [run]; [apply consuma_refl|].
  destruct (step (rules K) st w) as [| b | a [|] st' w'] eqn:E; cbn [world];
    try apply consuma_refl.
  - apply step_fired in E. destruct E as (r & effs & _ & Hr & Ha & _).
    exact (azione_consuma K _ r _ _ _ _ _ Hr Ha).
  - apply (consuma_trans _ w'); [|apply IH].
    apply step_fired in E. destruct E as (r & effs & _ & Hr & Ha & _).
    exact (azione_consuma K _ r _ _ _ _ _ Hr Ha).
Qed.

Lemma nuova_loop_spec (ins : list string) :
  match nuova_loop ins with
  | Some (r, rest) =>
      exists pre line,
        ins = pre ++ line :: rest /\
        forallb (fun l => negb (si_no l)) pre = true /\
        r = lower (strip line) /\ (r = "s" \/ r = "n")
  | None => forallb (fun l => negb (si_no l)) ins = true
  end.
Proof.
  induction ins as [|line rest IH]; cbn [nuova_loop forallb]; [reflexivity|].
  assert (Hv : si_no line = (String.eqb (lower (strip line)) "s"
                             || String.eqb (lower (strip line)) "n")) by reflexivity.
  destruct (String.eqb (lower (strip line)) "s" || String.eqb (lower (strip line)) "n")
    eqn:E.
  - exists [], line. split; [reflexivity|]. split; [reflexivity|]. split; [reflexivity|].
    apply orb_true_iff in E. destruct E as [E|E]; [left | right]; apply String.eqb_eq, E.
  - rewrite Hv. cbn [negb andb].
    destruct (nuova_loop rest) as [[r rest']|]; [|exact IH].
    destruct IH as (pre & l & -> & Hpre & Hr & Hsn).
    exists (line :: pre), l. repeat split; auto.
    cbn [forallb]. rewrite Hv. exact Hpre.
Qed.

(** What [main] does with the lines typed, whatever [avvia_sistema] does. *)
Lemma main_sessioni (avvia : list string -> Consulenza) (chiuso : bool) (giri : nat) :
  forall ins cs f,
    main avvia chiuso giri ins = (cs, f) -> sessioni avvia chiuso ins cs f.
Proof.
  induction giri as [|g IH]; intros ins cs f H; cbn [main] in H.
  - injection H as <- <-. constructor.
  - assert (Hq : alla_domanda (avvia ins) ->
                 match nuova_loop (righe (avvia ins)) with
                 | Some (risposta, rest) =>
                     if String.eqb risposta "n" then ([avvia ins], Some (Uscita rest))
                     else let '(cs, f) := main avvia chiuso g rest in (avvia ins :: cs, f)
                 | None => ([avvia ins], Some (if chiuso then Interrotto else InAttesa))
                 end = (cs, f) ->
                 sessioni avvia chiuso ins cs f).
    { intros Ha E. pose proof (nuova_loop_spec (righe (avvia ins))) as Hn.
      destruct (nuova_loop (righe (avvia ins))) as [[r rest]|].
      - destruct Hn as (pre & line & Hin & Hpre & Hr & Hsn).
        destruct Hsn as [Hs|Hnn]; subst r.
        + rewrite Hs in E. cbn [String.eqb Ascii.eqb Bool.eqb] in E.
          destruct (main avvia chiuso g rest) as [cs' f'] eqn:Em.
          injection E as <- <-.
          exact (ancora avvia chiuso ins pre line rest cs' f' Ha Hin Hpre Hs
                   (IH rest cs' f' Em)).
        + rewrite Hnn in E. cbn [String.eqb Ascii.eqb Bool.eqb] in E.
          injection E as <- <-.
          exact (uscita avvia chiuso ins pre line rest Ha Hin Hpre Hnn).
      - injection E as <- <-. exact (senza_risposta avvia chiuso ins Ha Hn). }
    destruct (esito (avvia ins)) eqn:Ee.
    + apply Hq; [left; exact Ee | exact H].
    + apply Hq; [right; exact Ee | exact H].
    + injection H as <- <-. exact (in_consulenza avvia chiuso ins Ee).
    + injection H as <- <-. exact (incompiuta avvia chiuso ins Ee).
Qed.

(** A call of [avvia_sistema] of the program is regular, and the lines it
    leaves are lines it was given. *)
Lemma avvia_regolare (K : Collab) (chiuso : bool) (ins : list string) :
  regolare chiuso (avvia_sistema K chiuso ins) /\
  exists pre, ins = pre ++ righe (avvia_sistema K chiuso ins).
Proof.
  unfold avvia_sistema, regolare.
  set (c := avvia_consulente_ricette K (S cicli_massimi) ins).
  destruct (consultazione_limitata K (S cicli_massimi) ins (Nat.lt_succ_diag_r _))
    as (Hst & Hterm).
  fold c in Hst, Hterm.
  pose proof (run_consuma K (S cicli_massimi) (reset deffacts) (mkWorld ins [])) as (p & Hp).
  fold (avvia_consulente_ricette K (S cicli_massimi) ins) in Hp. fold c in Hp.
  cbn [inputs] in Hp.
  destruct Hst as [Hd|Hb].
  - rewrite Hd. cbn [esito corsa righe]. split; [split; [exact Hd | exact (Hterm Hd)]|].
    exists p. exact Hp.
  - rewrite Hb. cbn [esito corsa righe]. split.
    + destruct chiuso; cbn [esito corsa righe]; auto.
    + exists ins. destruct chiuso; cbn [righe]; now rewrite app_nil_r.
Qed.

(** [main] of the program comes to a stand within as many calls as there are
    lines, and one more. *)
Lemma main_termina (K : Collab) (chiuso : bool) (giri : nat) :
  forall ins,
    List.length ins < giri ->
    exists cs f,
      main (avvia_sistema K chiuso) chiuso giri ins = (cs, Some f) /\
      Forall (regolare chiuso) cs.
Proof.
  induction giri as [|g IH]; intros ins Hlen; [lia|].
  cbn [main]. destruct (avvia_regolare K chiuso ins) as (Hreg & pre0 & Hpre0).
  set (x := avvia_sistema K chiuso ins) in *.
  assert (Hq : exists cs f,
             match nuova_loop (righe x) with
             | Some (risposta, rest) =>
                 if String.eqb risposta "n" then ([x], Some (Uscita rest))
                 else let '(cs, f) := main (avvia_sistema K chiuso) chiuso g rest in
                      (x :: cs, f)
             | None => ([x], Some (if chiuso then Interrotto else InAttesa))
             end = (cs, Some f) /\ Forall (regolare chiuso) cs).
  { pose proof (nuova_loop_spec (righe x)) as Hn.
    destruct (nuova_loop (righe x)) as [[r rest]|].
    - destruct Hn as (pre & line & Hin & Hp & Hr & Hsn).
      destruct Hsn as [Hs|Hnn]; subst r.
      + rewrite Hs. cbn [String.eqb Ascii.eqb Bool.eqb].
        assert (Hrest : List.length rest < g).
        { rewrite Hpre0, Hin, !length_app in Hlen. cbn [List.length] in Hlen. lia. }
        destruct (IH rest Hrest) as (cs & f & Hm & Hall). rewrite Hm.
        exists (x :: cs), f. split; [reflexivity | constructor; assumption].
      + rewrite Hnn. cbn [String.eqb Ascii.eqb Bool.eqb].
        exists [x], (Uscita rest). split; [reflexivity | repeat constructor; assumption].
    - eexists; eexists. split; [reflexivity | repeat constructor; assumption]. }
  unfold regolare in Hreg. destruct (esito x) eqn:Ee.
  - exact Hq.
  - exact Hq.
  - exists [x], InAttesa. split; [reflexivity|]. repeat constructor.
    unfold regolare. rewrite Ee. exact Hreg.
  - destruct Hreg.
Qed.

(** After a call that has raised, on a closed input, nothing is left to
    answer the question. *)
Lemma eccezione_interrompe (avvia : list string -> Consulenza) (chiuso : bool)
      (ins : list string) (cs : list Consulenza) (f : option Fine) :
  sessioni avvia chiuso ins cs f ->
  Forall (regolare chiuso) cs ->
  (exists x, In x cs /\ esito x = Eccezione) ->
  chiuso = true /\ f = Some Interrotto /\
  exists x, last cs x = x /\ In x cs /\ esito x = Eccezione.
Proof.
  induction 1 as [ins|ins He|ins He|ins Ha Hno|ins pre line resto Ha Hin Hpre Hn
                  |ins pre line resto cs f Ha Hin Hpre Hs Hss IH];
    intros Hall (x & Hx & Hex).
  - destruct Hx.
  - destruct Hx as [<-|[]]. congruence.
  - destruct Hx as [<-|[]]. congruence.
  - destruct Hx as [<-|[]]. inversion Hall as [|? ? Hreg _]; subst.
    unfold regolare in Hreg. rewrite Hex in Hreg. destruct Hreg as (-> & _).
    split; [reflexivity|]. split; [reflexivity|].
    exists (avvia ins). cbn. auto.
  - destruct Hx as [<-|[]]. inversion Hall as [|? ? Hreg _]; subst.
    unfold regolare in Hreg. rewrite Hex in Hreg. destruct Hreg as (_ & _ & Hr).
    rewrite Hr in Hin. destruct pre; discriminate Hin.
  - inversion Hall as [|? ? Hreg Hall']; subst.
    destruct Hx as [<-|Hx].
    + unfold regolare in Hreg. rewrite Hex in Hreg. destruct Hreg as (_ & _ & Hr).
      rewrite Hr in Hin. destruct pre; discriminate Hin.
    + destruct (IH Hall' (ex_intro _ x (conj Hx Hex))) as (Hc & Hf & y & Hl & Hy & Hey).
      split; [exact Hc|]. split; [exact Hf|].
      exists y. split; [|split; [now right | exact Hey]].
      destruct cs as [|c0 cs0]; [destruct Hy|]. exact Hl.
Qed.

(** X12. The sessions of the program.  Whatever [avvia_sistema] does, [main]
    calls it on the lines left by what came before; after a call that
    returned, and after a call whose exception its handler caught, it puts
    the question, repeated until the answer is "s" or "n", in any case and
    with any white space around it; "s" leads to the next call and only "n"
    ends the program; when the lines are used up first, the program is
    waiting for a line, in a consultation or at the question, or, on a
    closed input, is ended by the [EOFError] of the question.  With the
    rule base, [main] comes to such a stand for every input; a consultation
    that returned has come to rest with [azione="termina"] asserted; a
    consultation raises only at a prompt, at the end of a closed input,
    where every line has been read, so that it is the last one and the
    question that follows ends the program.  A call that raises with lines
    left is followed by the question like one that returned: two such calls
    on "s", "boh", "N", "s" end at "N". *)
Theorem sessioni_del_programma :
  (forall (avvia : list string -> Consulenza) (chiuso : bool) (giri : nat)
          (ins : list string) (cs : list Consulenza) (f : option Fine),
      main avvia chiuso giri ins = (cs, f) -> sessioni avvia chiuso ins cs f) /\
  (forall (K : Collab) (chiuso : bool) (ins : list string),
      exists cs f,
        main (avvia_sistema K chiuso) chiuso (S (List.length ins)) ins = (cs, Some f) /\
        sessioni (avvia_sistema K chiuso) chiuso ins cs (Some f) /\
        Forall (regolare chiuso) cs /\
        ((exists x, In x cs /\ esito x = Eccezione) ->
         chiuso = true /\ f = Interrotto /\
         exists x, last cs x = x /\ In x cs /\ esito x = Eccezione)) /\
  main solleva_subito false 3 ["s"; "boh"; "N"; "s"]
  = ([solleva_subito ["s"; "boh"; "N"; "s"]; solleva_subito ["boh"; "N"; "s"]],
     Some (Uscita ["s"])).
Proof.
  split; [|split].
  - intros avvia chiuso giri ins cs f. apply main_sessioni.
  - intros K chiuso ins.
    destruct (main_termina K chiuso (S (List.length ins)) ins (Nat.lt_succ_diag_r _))
      as (cs & f & Hm & Hall).
    exists cs, f. split; [exact Hm|].
    pose proof (main_sessioni _ _ _ _ _ _ Hm) as Hs.
    split; [exact Hs|]. split; [exact Hall|].
    intro Hx. destruct (eccezione_interrompe _ _ _ _ _ Hs Hall Hx) as (Hc & Hf & Hl).
    split; [exact Hc|]. split; [congruence | exact Hl].
  - reflexivity.
Qed.

End PrincipaleFacts.

(** ** The recipes proposed *)

Module ProposteFacts.
Import Text Interfaccia Engine Consulente Notions Misura Proposte.
Import StoreFacts EngineFacts RuleFacts PromptFacts Domande Progresso MisuraFacts.

Lemma vuoto_o_no {A : Type} (l : list A) : l = [] <-> ~ exists q, In q l.
Proof.
  destruct l as [|a l]; split; intro H; try reflexivity.
  - intros (q & []).
  - discriminate.
  - exfalso. apply H. exists a. now left.
Qed.

(** A condition without variables extends a partial match exactly when it
    holds in working memory. *)
Lemma eval_cond_vale (es : list Entry) (c : Cond) :
  chiusa c = true ->
  forall p, (exists q, In q (eval_cond es c p)) <-> vale (map content es) c.
Proof.
  induction c as [f v|f x|c IH|cs IH] using Cond_induction; cbn [chiusa vale];
    intros Hc p.
  - split.
    + intros (q & Hq). apply in_FieldEquals in Hq. destruct Hq as (e & He & Hce & _).
      rewrite <- Hce. apply in_map, He.
    + intro H. apply in_map_iff in H. destruct H as (e & Hce & He).
      eexists. apply in_FieldEquals. exists e. eauto.
  - destruct x as [x|]; [discriminate|]. split.
    + intros (q & Hq). apply in_Exists in Hq. destruct Hq as (e & He & Hf & _).
      exists (value (content e)). rewrite <- Hf.
      replace (mkFact (field (content e)) (value (content e))) with (content e)
        by (destruct (content e); reflexivity).
      apply in_map, He.
    + intros (v & H). apply in_map_iff in H. destruct H as (e & Hce & He).
      eexists. apply in_Exists. exists e. split; [exact He|].
      split; [rewrite Hce; reflexivity | now left].
  - specialize (IH Hc p). split.
    + intros (q & Hq). apply in_Not in Hq. destruct Hq as [_ Hn].
      intro Hv. apply IH in Hv. apply vuoto_o_no in Hn. contradiction.
    + intro Hn. exists p. apply in_Not. split; [reflexivity|].
      apply vuoto_o_no. intro H. apply Hn, IH, H.
  - split.
    + intros (q & Hq). apply in_Or in Hq. destruct Hq as (c & Hin & Hq).
      revert Hc Hin. induction IH as [|c0 cs Hc0 _ IHcs]; intros Hc Hin; [destruct Hin|].
      apply andb_true_iff in Hc. destruct Hc as [H1 H2].
      destruct Hin as [->|Hin]; [left; apply (Hc0 H1 p); eauto | right; exact (IHcs H2 Hin)].
    + revert Hc. induction IH as [|c0 cs Hc0 _ IHcs]; intros Hc Hv; [destruct Hv|].
      apply andb_true_iff in Hc. destruct Hc as [H1 H2].
      destruct Hv as [Hv|Hv].
      * apply (Hc0 H1 p) in Hv. destruct Hv as (q & Hq).
        destruct (in_Or_branch es (c0 :: cs) c0 p q (or_introl eq_refl) Hq)
          as (q' & Hq' & _).
        exists q'. exact Hq'.
      * destruct (IHcs H2 Hv) as (q & Hq).
        apply in_Or in Hq. destruct Hq as (c & Hin & Hq).
        destruct (in_Or_branch es (c0 :: cs) c p q (or_intror Hin) Hq)
          as (q' & Hq' & _).
        exists q'. exact Hq'.
Qed.

Lemma eval_conds_vale (es : list Entry) (cs : list Cond) :
  forallb chiusa cs = true ->
  forall ps, (exists q, In q (eval_conds es cs ps)) <->
             ps <> [] /\ Forall (vale (map content es)) cs.
Proof.
  induction cs as [|c r IH]; cbn [forallb]; intros Hc ps.
  - cbn [eval_conds]. split.
    + intros (q & Hq). split; [|constructor]. intros ->. exact Hq.
    + intros [Hne _]. destruct ps as [|p ps]; [contradiction|]. exists p. now left.
  - apply andb_true_iff in Hc. destruct Hc as [H1 H2]. split.
    + intros (q & Hq). apply in_eval_conds_cons in Hq.
      destruct Hq as (p & p' & Hp & Hp' & Hq). split; [intros ->; exact Hp|].
      constructor.
      * apply (eval_cond_vale es c H1 p). eauto.
      * apply (IH H2 [p']). eauto.
    + intros [Hne Hall]. inversion Hall as [|? ? Hv Hr]; subst.
      destruct ps as [|p ps]; [contradiction|].
      apply (eval_cond_vale es c H1 p) in Hv. destruct Hv as (p' & Hp').
      assert (Hne' : [p'] <> []) by discriminate.
      destruct (proj2 (IH H2 [p']) (conj Hne' Hr)) as (q & Hq).
      exists q. apply in_eval_conds_cons. exists p, p'. split; [now left|]. auto.
Qed.

(** *** The candidates and the rules that assert them *)

Ltac non_candidato H :=
  repeat match type of H with
         | In _ (_ ++ _) => apply in_app_or in H; destruct H as [H|H]
         | In _ (declare_all _ _) =>
             unfold declare_all in H; apply in_map_iff in H;
             destruct H as (? & H & _); discriminate H
         | In _ (_ :: _) => destruct H as [H|H]; [discriminate H|]
         | In _ [] => destruct H
         end.

Lemma azione_candidati (K : Collab) (i : nat) (r : Rule) (b : Binding)
      (facts : list Fact) (w w' : World) (effs : list Effect) (v : string) :
  nth_error (rules K) i = Some r ->
  r_action r b facts w = Some (effs, w') ->
  (In (DeclareFact (mkFact candidato v)) effs <->
   i = 3 /\ v = "Pasta al Pomodoro" \/
   i = 4 /\ v = "Uova Strapazzate" \/
   i = 5 /\ v = "Insalata Mista").
Proof.
  intros Hr Ha.
  assert (Hno : i <> 3 -> i <> 4 -> i <> 5 ->
                ~ In (DeclareFact (mkFact candidato v)) effs ->
                (In (DeclareFact (mkFact candidato v)) effs <->
                 i = 3 /\ v = "Pasta al Pomodoro" \/
                 i = 4 /\ v = "Uova Strapazzate" \/
                 i = 5 /\ v = "Insalata Mista")).
  { intros H3 H4 H5 Hn. split; [intro H; contradiction|]. intros [[H _]|[[H _]|[H _]]]; lia. }
  each_rule Hr; cbn [r_action] in Ha.
  - apply Hno; try lia. intro H. unfold chiedi_ingredienti in Ha.
    destruct (chiedi_ingredienti_disponibili w) as [[[|x l] w1]|]; try discriminate;
      injection Ha as <- <-; non_candidato H.
  - apply Hno; try lia. intro H. unfold chiedi_tempo in Ha.
    destruct (chiedi_tempo_disponibile w) as [[t w1]|]; [|discriminate].
    injection Ha as <- <-. non_candidato H.
  - apply Hno; try lia. intro H. unfold chiedi_preferenze in Ha.
    destruct (chiedi_preferenze_alimentari w) as [[l w1]|]; [|discriminate].
    injection Ha as <- <-. non_candidato H.
  - injection Ha as <- <-. split.
    + intros [H|[]]. injection H as <-. auto.
    + intros [[_ ->]|[[H _]|[H _]]]; [now left | lia | lia].
  - injection Ha as <- <-. split.
    + intros [H|[]]. injection H as <-. auto.
    + intros [[H _]|[[_ ->]|[H _]]]; [lia | now left | lia].
  - injection Ha as <- <-. split.
    + intros [H|[]]. injection H as <-. auto.
    + intros [[H _]|[[H _]|[_ ->]]]; [lia | lia | now left].
  - apply Hno; try lia. intro H.
    destruct (scegli_in_lista _ _ _ _ _ Ha) as (x & _ & ->). cbn [map] in H.
    non_candidato H.
  - apply Hno; try lia. intro H. unfold nessuna_ricetta_trovata in Ha.
    injection Ha as <- _. non_candidato H.
  - apply Hno; try lia. intro H. unfold valuta_ricetta_con_bayes in Ha.
    destruct (lookup "ricetta" b) as [ricetta|]; [|discriminate].
    destruct (calcola_rischio_o_successo_ricetta K ricetta (fatti_tempo facts)
                (emit (EBayes ricetta (fatti_tempo facts)) w)) as [[x w1]|];
      [|discriminate].
    injection Ha as <- <-. non_candidato H.
  - apply Hno; try lia. intro H. unfold stampare_risultato_finale in Ha.
    destruct (lookup "ricetta" b) as [ricetta|]; [|discriminate].
    destruct (lookup "valutazione" b); [|discriminate].
    destruct (_stampa_dettagli_ricetta K ricetta w) as [alt w1].
    destruct alt as [alt|].
    + destruct (is_empty alt).
      * injection Ha as Ha _. rewrite <- Ha in H. non_candidato H.
      * destruct (alternativa_loop (inputs w1) (log w1)) as [[risposta w2]|];
          [|discriminate].
        destruct (String.eqb risposta "s"); injection Ha as Ha _; rewrite <- Ha in H;
          non_candidato H.
    + injection Ha as Ha _. rewrite <- Ha in H. non_candidato H.
  - apply Hno; try lia. intro H. injection Ha as <- _. destruct H.
Qed.

Lemma proposte_reset : proposte (reset deffacts).
Proof.
  assert (Hno : forall k, ~ rule_fired (reset deffacts) k) by (intros k (b & [] & _)).
  repeat split; intro H; try (destruct (Hno _ H));
    destruct H as [H|[]]; discriminate H.
Qed.

Lemma proposte_step (K : Collab) (st : State) (w : World) (a : Activation) (h : bool)
      (st' : State) (w' : World) :
  sano K st -> proposte st -> step (rules K) st w = Fired a h st' w' -> proposte st'.
Proof.
  intros Hs Hp Hstep. destruct (sano_step K st w a h st' w' Hs Hstep) as [_ Hfeq].
  apply step_fired in Hstep.
  destruct Hstep as (r & effs & _ & Hr & Ha & _ & Hst & _ & _).
  pose proof (fun v => azione_candidati K _ r _ _ _ _ _ v Hr Ha) as Hc.
  destruct (azione_ammessa K _ r _ _ _ _ _ Hr Ha) as (fs & -> & _).
  destruct (declared (S (cycle st)) fs (store st)) as (D1 & D2 & D3).
  rewrite <- Hst in D1, D2, D3.
  assert (Hfired : forall k, rule_fired st' k <-> a_rule a = k \/ rule_fired st k).
  { intro k. unfold rule_fired. rewrite Hfeq. split.
    - intros (b & [<-|Hb] & Hk); [left; exact Hk | right; exists b; auto].
    - intros [Hk | (b & Hb & Hk)].
      + exists a. split; [now left | exact Hk].
      + exists b. split; [now right | exact Hk]. }
  assert (Hwm : forall v, In (mkFact candidato v) (wm st') <->
                          In (mkFact candidato v) (wm st) \/
                          In (DeclareFact (mkFact candidato v)) (map DeclareFact fs)).
  { intro v. split.
    - intro Hin. destruct (entry_of_fact st' _ Hin) as (x & Hx & Hcx).
      destruct (D2 x Hx) as [Hold|Hnew].
      + left. rewrite <- Hcx. apply fact_of_entry, Hold.
      + right. apply in_map. rewrite <- Hcx. exact Hnew.
    - intros [Hin|Hin].
      + destruct (entry_of_fact st _ Hin) as (x & Hx & Hcx).
        rewrite <- Hcx. apply fact_of_entry, D1, Hx.
      + apply in_map_iff in Hin. destruct Hin as (f & Hf & Hin).
        injection Hf as ->. apply D3, Hin. }
  destruct Hp as (P3 & P4 & P5).
  pose proof (Hfired 3) as F3. pose proof (Hfired 4) as F4. pose proof (Hfired 5) as F5.
  pose proof (Hwm "Pasta al Pomodoro") as W3. pose proof (Hc "Pasta al Pomodoro") as C3.
  pose proof (Hwm "Uova Strapazzate") as W4. pose proof (Hc "Uova Strapazzate") as C4.
  pose proof (Hwm "Insalata Mista") as W5. pose proof (Hc "Insalata Mista") as C5.
  clear Hfired Hwm Hc D1 D2 D3 Hr Ha Hst Hfeq Hs.
  split; [|split]; split; intro H.
  - apply W3. apply F3 in H. destruct H as [H|H].
    + right. apply C3. left. split; [exact H | reflexivity].
    + left. apply P3, H.
  - apply F3. apply W3 in H. destruct H as [H|H]; [right; apply P3, H|].
    apply C3 in H.
    destruct H as [[H _]|[[_ H]|[_ H]]]; [now left | discriminate H | discriminate H].
  - apply W4. apply F4 in H. destruct H as [H|H].
    + right. apply C4. right. left. split; [exact H | reflexivity].
    + left. apply P4, H.
  - apply F4. apply W4 in H. destruct H as [H|H]; [right; apply P4, H|].
    apply C4 in H.
    destruct H as [[_ H]|[[H _]|[_ H]]]; [discriminate H | now left | discriminate H].
  - apply W5. apply F5 in H. destruct H as [H|H].
    + right. apply C5. right. right. split; [exact H | reflexivity].
    + left. apply P5, H.
  - apply F5. apply W5 in H. destruct H as [H|H]; [right; apply P5, H|].
    apply C5 in H.
    destruct H as [[_ H]|[[_ H]|[H _]]]; [discriminate H | discriminate H | now left].
Qed.

Lemma run_proposte (K : Collab) (n : nat) :
  forall st w,
    sano K st -> proposte st -> proposte (final (run (rules K) n st w)).
Proof.
  induction n as [|n IH]; intros st w Hs Hp; cbn [run]; [exact Hp|].
  destruct (step (rules K) st w) as [| b | a [|] st' w'] eqn:E; cbn [final];
    try exact Hp.
  - exact (proposte_step K st w a true st' w' Hs Hp E).
  - apply IH.
    + exact (proj1 (sano_step K st w a false st' w' Hs E)).
    + exact (proposte_step K st w a false st' w' Hs Hp E).
Qed.

(** A rule without variables and without negations has fired, once the
    agenda is empty, exactly when its conditions hold; if it has fired they
    hold, whatever the agenda. *)
Lemma regola_chiusa (K : Collab) (st : State) (i : nat) (r : Rule) :
  sano K st ->
  nth_error (rules K) i = Some r ->
  forallb chiusa (r_conds r) = true ->
  forallb non_negata (r_conds r) = true ->
  (rule_fired st i -> Forall (vale (wm st)) (r_conds r)) /\
  (agenda (rules K) st = [] -> Forall (vale (wm st)) (r_conds r) -> rule_fired st i).
Proof.
  intros (_ & _ & _ & Hfir) Hr Hch Hnn. split.
  - intros (b & Hb & Hk). destruct (Hfir b Hb) as (r' & q0 & Hr' & Hin & _).
    rewrite Hk, Hr in Hr'. injection Hr' as <-.
    unfold affermate in Hin. rewrite filter_tutti in Hin.
    + apply (eval_conds_vale _ _ Hch start). eauto.
    + apply Forall_forall. rewrite forallb_forall in Hnn. exact Hnn.
  - intros Hag Hall.
    assert (Hne : start <> []) by discriminate.
    destruct (proj2 (eval_conds_vale (entries (store st)) _ Hch start) (conj Hne Hall))
      as (q & Hq).
    apply (quiete_fired K st (mkAct i (fst q) (snd q)) Hag). apply in_matches. exists r.
    split; [exact Hr|]. cbn [a_support a_binding]. destruct q. exact Hq.
Qed.

Lemma has_field_value (f : Field) (st : State) :
  has_field f st -> exists v, In (mkFact f v) (wm st).
Proof.
  intros (x & Hx & Hf). exists (value x). rewrite <- Hf. destruct x. exact Hx.
Qed.

(** What a consultation that has come to rest has proposed. *)
Lemma proposte_a_riposo (K : Collab) (st : State) :
  progresso K st -> sano K st -> proposte st -> agenda (rules K) st = [] ->
  (In (mkFact candidato "Pasta al Pomodoro") (wm st) <->
   In trovaRicetta (wm st) /\
   In (mkFact ingrediente "pasta") (wm st) /\
   In (mkFact ingrediente "pomodoro") (wm st) /\
   (In (mkFact tempo_disponibile "medio") (wm st) \/
    In (mkFact tempo_disponibile "molto") (wm st))) /\
  (In (mkFact candidato "Uova Strapazzate") (wm st) <->
   In trovaRicetta (wm st) /\
   In (mkFact ingrediente "uova") (wm st) /\
   In (mkFact tempo_disponibile "poco") (wm st)) /\
  (In (mkFact candidato "Insalata Mista") (wm st) <->
   In trovaRicetta (wm st) /\
   In (mkFact ingrediente "lattuga") (wm st) /\
   In (mkFact ingrediente "pomodoro") (wm st) /\
   In (mkFact tempo_disponibile "poco") (wm st)) /\
  ((exists v, In (mkFact candidato v) (wm st)) <->
   (exists v, In (mkFact ricetta_suggerita v) (wm st))) /\
  ((exists v, In (mkFact candidato v) (wm st)) ->
   exists v, In (mkFact valutazione_ricetta v) (wm st)).
Proof.
  intros Hpr Hs (P3 & P4 & P5) Hag.
  destruct (regola_chiusa K st 3 _ Hs eq_refl eq_refl eq_refl) as [A3 B3].
  destruct (regola_chiusa K st 4 _ Hs eq_refl eq_refl eq_refl) as [A4 B4].
  destruct (regola_chiusa K st 5 _ Hs eq_refl eq_refl eq_refl) as [A5 B5].
  cbn [r_conds] in A3, B3, A4, B4, A5, B5.
  assert (H3 : In (mkFact candidato "Pasta al Pomodoro") (wm st) <->
               In trovaRicetta (wm st) /\
               In (mkFact ingrediente "pasta") (wm st) /\
               In (mkFact ingrediente "pomodoro") (wm st) /\
               (In (mkFact tempo_disponibile "medio") (wm st) \/
                In (mkFact tempo_disponibile "molto") (wm st))).
  { split.
    - intro H. apply P3, A3 in H.
      inversion H as [|? ? H1 T1]; subst. inversion T1 as [|? ? H2 T2]; subst.
      inversion T2 as [|? ? H3 T3]; subst. inversion T3 as [|? ? H4 T4]; subst.
      cbn [vale] in H1, H2, H3, H4. unfold trovaRicetta. tauto.
    - intros (H1 & H2 & H3 & H4). apply P3, (B3 Hag).
      constructor; [exact H1|]. constructor; [exact H2|]. constructor; [exact H3|].
      constructor; [cbn [vale]; tauto | constructor]. }
  assert (H4 : In (mkFact candidato "Uova Strapazzate") (wm st) <->
               In trovaRicetta (wm st) /\
               In (mkFact ingrediente "uova") (wm st) /\
               In (mkFact tempo_disponibile "poco") (wm st)).
  { split.
    - intro H. apply P4, A4 in H.
      inversion H as [|? ? H1 T1]; subst. inversion T1 as [|? ? H2 T2]; subst.
      inversion T2 as [|? ? H3' T3]; subst.
      cbn [vale] in H1, H2, H3'. unfold trovaRicetta. tauto.
    - intros (H1 & H2 & H3'). apply P4, (B4 Hag). repeat constructor; cbn [vale]; auto. }
  assert (H5 : In (mkFact candidato "Insalata Mista") (wm st) <->
               In trovaRicetta (wm st) /\
               In (mkFact ingrediente "lattuga") (wm st) /\
               In (mkFact ingrediente "pomodoro") (wm st) /\
               In (mkFact tempo_disponibile "poco") (wm st)).
  { split.
    - intro H. apply P5, A5 in H.
      inversion H as [|? ? H1 T1]; subst. inversion T1 as [|? ? H2 T2]; subst.
      inversion T2 as [|? ? H3' T3]; subst. inversion T3 as [|? ? H4' T4]; subst.
      cbn [vale] in H1, H2, H3', H4'. unfold trovaRicetta. tauto.
    - intros (H1 & H2 & H3' & H4'). apply P5, (B5 Hag).
      repeat constructor; cbn [vale]; auto. }
  split; [exact H3|]. split; [exact H4|]. split; [exact H5|].
  pose proof Hs as (_ & Hamm & _).
  pose proof Hpr as (_ & _ & _ & _ & _ & P6 & _ & P8 & _).
  assert (Hboth : (exists v, In (mkFact candidato v) (wm st)) ->
                  (exists v, In (mkFact ricetta_suggerita v) (wm st)) /\
                  (exists v, In (mkFact valutazione_ricetta v) (wm st))).
  { intros (v & Hv).
    assert (Ht : In trovaRicetta (wm st)).
    { pose proof (Hamm _ Hv) as Hr. unfold ammesso in Hr. cbn in Hr.
      destruct Hr as [<-|[<-|[<-|[]]]]; [apply H3 in Hv | apply H4 in Hv | apply H5 in Hv];
        tauto. }
    destruct (entry_of_fact st _ Ht) as (e & He & Hce).
    destruct (entry_of_fact st _ Hv) as (x & Hx & Hcx).
    assert (F6 : rule_fired st 6).
    { apply (quiete_fired K st (mkAct 6 [eid e; eid x] [(senza_nome, value (content x))]) Hag).
      apply (DueCandidati.scegli_per_candidato K _ e x He Hce Hx).
      rewrite Hcx. reflexivity. }
    destruct (P6 F6) as [Hsug Hval].
    split; [exact (has_field_value _ _ Hsug)|].
    destruct (has_field_entry _ _ Hsug) as (xs & Hxs & Hfs).
    destruct (entry_of_fact st _ Hval) as (ev & Hev & Hcv).
    assert (F8 : rule_fired st 8).
    { apply (quiete_fired K st (mkAct 8 [eid ev; eid xs] [("ricetta", value (content xs))]) Hag).
      apply (valuta_per_ricetta K _ ev xs Hev Hcv Hxs Hfs). }
    destruct (P8 F8) as [Hv8 _]. exact (has_field_value _ _ Hv8). }
  split.
  - split; [intro H; exact (proj1 (Hboth H))|].
    intros (v & Hv). exists v. pose proof (Hamm _ Hv) as Hc. exact Hc.
  - intro H. exact (proj2 (Hboth H)).
Qed.

(** X13. Which recipes are proposed.  In a consultation that has come to
    rest each of the three recipes is a candidate exactly when working
    memory holds [azione="trovaRicetta"] and the ingredients and the time of
    its rule: pasta and tomato with medium or much time, eggs with little
    time, lettuce and tomato with little time; a recipe is suggested exactly
    when there is a candidate, and then a valuation is stored too. *)
Theorem ricette_proposte (K : Collab) (fuel : nat) (lines : list string) :
  status (avvia_consulente_ricette K fuel lines) = Done ->
  let facts := wm (final (avvia_consulente_ricette K fuel lines)) in
  (In (mkFact candidato "Pasta al Pomodoro") facts <->
   In trovaRicetta facts /\
   In (mkFact ingrediente "pasta") facts /\
   In (mkFact ingrediente "pomodoro") facts /\
   (In (mkFact tempo_disponibile "medio") facts \/
    In (mkFact tempo_disponibile "molto") facts)) /\
  (In (mkFact candidato "Uova Strapazzate") facts <->
   In trovaRicetta facts /\
   In (mkFact ingrediente "uova") facts /\
   In (mkFact tempo_disponibile "poco") facts) /\
  (In (mkFact candidato "Insalata Mista") facts <->
   In trovaRicetta facts /\
   In (mkFact ingrediente "lattuga") facts /\
   In (mkFact ingrediente "pomodoro") facts /\
   In (mkFact tempo_disponibile "poco") facts) /\
  ((exists v, In (mkFact candidato v) facts) <->
   (exists v, In (mkFact ricetta_suggerita v) facts)) /\
  ((exists v, In (mkFact candidato v) facts) ->
   exists v, In (mkFact valutazione_ricetta v) facts).
Proof.
  intros Hd facts. unfold facts, avvia_consulente_ricette in *.
  destruct (run_progresso K fuel (reset deffacts) (mkWorld lines []) (progresso_reset K))
    as (Hpr & Hq & _).
  destruct (run_sano K fuel (reset deffacts) (mkWorld lines []) (sano_reset K))
    as (Hs & _).
  pose proof (run_proposte K fuel (reset deffacts) (mkWorld lines [])
                (sano_reset K) proposte_reset) as Hp.
  exact (proposte_a_riposo K _ Hpr Hs Hp (Hq Hd)).
Qed.

Lemma ricette_proposte_witness :
  In (mkFact candidato "Pasta al Pomodoro")
     (wm (final (avvia_consulente_ricette collab_base 9
                   ["pasta, pomodoro"; "30"; ""; "1"]))) <->
  In trovaRicetta
     (wm (final (avvia_consulente_ricette collab_base 9
                   ["pasta, pomodoro"; "30"; ""; "1"]))) /\
  In (mkFact ingrediente "pasta")
     (wm (final (avvia_consulente_ricette collab_base 9
                   ["pasta, pomodoro"; "30"; ""; "1"]))) /\
  In (mkFact ingrediente "pomodoro")
     (wm (final (avvia_consulente_ricette collab_base 9
                   ["pasta, pomodoro"; "30"; ""; "1"]))) /\
  (In (mkFact tempo_disponibile "medio")
      (wm (final (avvia_consulente_ricette collab_base 9
                    ["pasta, pomodoro"; "30"; ""; "1"]))) \/
   In (mkFact tempo_disponibile "molto")
      (wm (final (avvia_consulente_ricette collab_base 9
                    ["pasta, pomodoro"; "30"; ""; "1"])))).
Proof.
  assert (H : status (avvia_consulente_ricette collab_base 9
                        ["pasta, pomodoro"; "30"; ""; "1"]) = Done)
    by (vm_compute; reflexivity).
  exact (proj1 (ricette_proposte collab_base 9 ["pasta, pomodoro"; "30"; ""; "1"] H)).
Defined.

End ProposteFacts.

(** ** How often a rule fires *)

Module VolteFacts.
Import Text Interfaccia Engine Consulente Notions Misura Volte.
Import StoreFacts EngineFacts RuleFacts PromptFacts Domande Progresso MisuraFacts.

Lemma quanti_app (f : Field) (l1 l2 : list Entry) :
  quanti f (l1 ++ l2) = quanti f l1 + quanti f l2.
Proof. unfold quanti. now rewrite filter_app, length_app. Qed.

(** Asserting facts adds at most as many facts of a field as are asserted. *)
Lemma quanti_declared (f : Field) (cyc : nat) (fs : list Fact) :
  forall s,
    quanti f (entries (fold_left (apply_effect cyc) (map DeclareFact fs) s))
    <= quanti f (entries s)
       + List.length (filter (fun g => if Field_eq_dec (field g) f then true else false) fs).
Proof.
  induction fs as [|g fs IH]; intro s; cbn [map fold_left filter]; [lia|].
  etransitivity; [apply IH|].
  assert (H : quanti f (entries (apply_effect cyc s (DeclareFact g)))
              <= quanti f (entries s) + if Field_eq_dec (field g) f then 1 else 0).
  { cbn [apply_effect]. unfold insert. destruct (present g s); cbn [fst entries]; [lia|].
    rewrite quanti_app. unfold quanti at 2. cbn [filter content].
    destruct (Field_eq_dec (field g) f); cbn [List.length]; lia. }
  destruct (Field_eq_dec (field g) f); cbn [List.length]; lia.
Qed.

Ltac non_tempo H :=
  repeat match type of H with
         | In _ (_ ++ _) => apply in_app_or in H; destruct H as [H|H]
         | In _ (declare_all _ _) =>
             unfold declare_all in H; apply in_map_iff in H;
             destruct H as (? & H & _); discriminate H
         | In _ (_ :: _) => destruct H as [H|H]; [discriminate H|]
         | In _ [] => destruct H
         end.

(** Only [chiedi_tempo] asserts a time, and one. *)
Lemma azione_tempo_solo (K : Collab) (i : nat) (r : Rule) (b : Binding)
      (facts : list Fact) (w w' : World) (fs : list Fact) :
  nth_error (rules K) i = Some r ->
  r_action r b facts w = Some (map DeclareFact fs, w') ->
  List.length (filter (fun g => if Field_eq_dec (field g) tempo_disponibile
                                then true else false) fs)
  <= if Nat.eqb i 1 then 1 else 0.
Proof.
  intros Hr Ha.
  assert (Hno : (forall v, ~ In (DeclareFact (mkFact tempo_disponibile v))
                             (map DeclareFact fs)) ->
                List.length (filter (fun g => if Field_eq_dec (field g) tempo_disponibile
                                              then true else false) fs) <= 0).
  { intro H. rewrite filter_nil; [cbn; lia|]. intros g Hg.
    destruct (Field_eq_dec (field g) tempo_disponibile) as [Hf|]; [|reflexivity].
    exfalso. apply (H (value g)). apply in_map. rewrite <- Hf. destruct g. exact Hg. }
  each_rule Hr; cbn [r_action Nat.eqb] in *.
  - apply Hno. intros v H. unfold chiedi_ingredienti in Ha.
    destruct (chiedi_ingredienti_disponibili w) as [[[|x l] w1]|]; try discriminate;
      injection Ha as Ha _; rewrite <- Ha in H; non_tempo H.
  - unfold chiedi_tempo in Ha.
    destruct (chiedi_tempo_disponibile w) as [[t w1]|]; [|discriminate].
    injection Ha as Ha _. change [DeclareFact (mkFact tempo_disponibile t);
                                  DeclareFact (mkFact azione "chiediPreferenze")]
      with (map DeclareFact [mkFact tempo_disponibile t; mkFact azione "chiediPreferenze"])
      in Ha.
    assert (Hinj : forall l1 l2 : list Fact, map DeclareFact l1 = map DeclareFact l2 ->
                                             l1 = l2).
    { induction l1 as [|x l1 IH]; intros [|y l2] H; try discriminate; [reflexivity|].
      cbn [map] in H. injection H as -> H. f_equal. apply IH, H. }
    apply Hinj in Ha. subst fs. cbn. lia.
  - apply Hno. intros v H. unfold chiedi_preferenze in Ha.
    destruct (chiedi_preferenze_alimentari w) as [[l w1]|]; [|discriminate].
    injection Ha as Ha _. rewrite <- Ha in H. non_tempo H.
  - apply Hno. intros v H. injection Ha as Ha _. rewrite <- Ha in H. non_tempo H.
  - apply Hno. intros v H. injection Ha as Ha _. rewrite <- Ha in H. non_tempo H.
  - apply Hno. intros v H. injection Ha as Ha _. rewrite <- Ha in H. non_tempo H.
  - apply Hno. intros v H.
    destruct (scegli_in_lista _ _ _ _ _ Ha) as (x & _ & Hx). rewrite Hx in H.
    cbn [map] in H. non_tempo H.
  - apply Hno. intros v H. unfold nessuna_ricetta_trovata in Ha.
    injection Ha as Ha _. rewrite <- Ha in H. non_tempo H.
  - apply Hno. intros v H. unfold valuta_ricetta_con_bayes in Ha.
    destruct (lookup "ricetta" b) as [ricetta|]; [|discriminate].
    destruct (calcola_rischio_o_successo_ricetta K ricetta (fatti_tempo facts)
                (emit (EBayes ricetta (fatti_tempo facts)) w)) as [[x w1]|];
      [|discriminate].
    injection Ha as Ha _. rewrite <- Ha in H. non_tempo H.
  - apply Hno. intros v H. unfold stampare_risultato_finale in Ha.
    destruct (lookup "ricetta" b) as [ricetta|]; [|discriminate].
    destruct (lookup "valutazione" b); [|discriminate].
    destruct (_stampa_dettagli_ricetta K ricetta w) as [alt w1].
    destruct alt as [alt|].
    + destruct (is_empty alt).
      * injection Ha as Ha _. rewrite <- Ha in H. non_tempo H.
      * destruct (alternativa_loop (inputs w1) (log w1)) as [[risposta w2]|];
          [|discriminate].
        destruct (String.eqb risposta "s"); injection Ha as Ha _; rewrite <- Ha in H;
          non_tempo H.
    + injection Ha as Ha _. rewrite <- Ha in H. non_tempo H.
  - apply Hno. intros v H. injection Ha as Ha _. rewrite <- Ha in H. destruct H.
Qed.


(** The activations of a rule with a single condition [Fact(f=v)] that are
    matched or in a sane refraction set are one activation. *)
Lemma attivazione_unica (K : Collab) (st : State) (i : nat) (nm : string) (f : Field)
      (v : string) (sal : Q) (act : Action) (a b : Activation) :
  sano K st ->
  nth_error (rules K) i = Some (mkRule nm [FieldEquals f v] sal act) ->
  In a (matches (rules K) (entries (store st))) -> a_rule a = i ->
  In b (fired st) -> a_rule b = i -> chiave a = chiave b.
Proof.
  intros (Hwf & _ & _ & Hfir) Hr Ha Hai Hb Hbi.
  apply in_matches in Ha. destruct Ha as (ra & Hra & Hina).
  rewrite Hai, Hr in Hra. injection Hra as <-. cbn [r_conds] in Hina.
  apply single_fact_rule in Hina. destruct Hina as (e & He & Hce & Hqa).
  destruct (Hfir b Hb) as (rb & q & Hrb & Hinb & Hsq).
  rewrite Hbi, Hr in Hrb. injection Hrb as <-. unfold affermate in Hinb.
  cbn [r_conds filter non_negata] in Hinb.
  apply single_fact_rule in Hinb. destruct Hinb as (e' & He' & Hce' & Hqb).
  subst q. cbn [snd] in Hsq. injection Hqa as _ Hba.
  unfold chiave. congruence.
Qed.

Lemma tempo_unico_reset : tempo_unico (reset deffacts).
Proof. left. reflexivity. Qed.

Lemma tempo_unico_step (K : Collab) (st : State) (w : World) (a : Activation) (h : bool)
      (st' : State) (w' : World) :
  sano K st -> tempo_unico st -> step (rules K) st w = Fired a h st' w' ->
  tempo_unico st'.
Proof.
  intros Hs Ht Hstep. destruct (sano_step K st w a h st' w' Hs Hstep) as [_ Hfeq].
  apply step_fired in Hstep.
  destruct Hstep as (r & effs & Htop & Hr & Ha & _ & Hst & _ & _).
  destruct (azione_ammessa K _ r _ _ _ _ _ Hr Ha) as (fs & -> & _).
  pose proof (azione_tempo_solo K _ r _ _ _ _ fs Hr Ha) as Hn.
  pose proof (quanti_declared tempo_disponibile (S (cycle st)) fs (store st)) as Hq.
  rewrite <- Hst in Hq.
  apply top_in, in_agenda in Htop. destruct Htop as [Hm Hnf].
  assert (Hkeep : forall k, rule_fired st k -> rule_fired st' k).
  { intros k (b & Hb & Hk). exists b. rewrite Hfeq. split; [now right | exact Hk]. }
  destruct (Nat.eqb_spec (a_rule a) 1) as [H1|H1].
  - right. split; [exists a; rewrite Hfeq; split; [now left | exact H1]|].
    assert (Hz : quanti tempo_disponibile (entries (store st)) = 0).
    { destruct Ht as [Hz|[(b & Hb & Hb1) _]]; [exact Hz|]. exfalso.
      pose proof (attivazione_unica K st 1 "chiedi_tempo" azione "chiediTempo" 9%Q
                    chiedi_tempo a b Hs eq_refl Hm H1 Hb Hb1) as Hk.
      unfold chiave in Hk. injection Hk as Hk1 Hk2.
      exact (proj1 (refracted_false st a) Hnf b Hb Hk1 Hk2). }
    lia.
  - destruct Ht as [Hz|[Hf Hle]]; [left; lia | right]. split; [apply Hkeep, Hf | lia].
Qed.

(** A run keeps the invariants; its refraction set is what it started with
    and what it fired, last first. *)
Lemma run_volte (K : Collab) (n : nat) :
  forall st w,
    sano K st -> tempo_unico st ->
    tempo_unico (final (run (rules K) n st w)) /\
    fired (final (run (rules K) n st w)) = rev (trace (run (rules K) n st w)) ++ fired st.
Proof.
  induction n as [|n IH]; intros st w Hs Ht; cbn [run].
  - cbn [final trace rev app]. auto.
  - destruct (step (rules K) st w) as [| b | a [|] st' w'] eqn:E;
      cbn [final trace rev app]; auto.
    + destruct (sano_step K st w a true st' w' Hs E) as [_ Hf].
      split; [exact (tempo_unico_step K st w a true st' w' Hs Ht E) | exact Hf].
    + destruct (sano_step K st w a false st' w' Hs E) as [Hs' Hf].
      destruct (IH st' w' Hs' (tempo_unico_step K st w a false st' w' Hs Ht E))
        as [I1 I2].
      split; [exact I1|]. rewrite I2, Hf, <- app_assoc. reflexivity.
Qed.

(** *** Counting the firings of one rule *)

Lemma eval_conds_snoc (es : list Entry) (cs : list Cond) (c : Cond) :
  forall ps, eval_conds es (cs ++ [c]) ps = flat_map (eval_cond es c) (eval_conds es cs ps).
Proof.
  induction cs as [|d cs IH]; intro ps; cbn [app eval_conds]; [reflexivity|]. apply IH.
Qed.

(** The two alternatives on one field match at most as many facts as the
    field has. *)
Lemma peso_alternativa (es : list Entry) (f : Field) (v1 v2 : string) (p : Partial) :
  v1 <> v2 ->
  List.length (eval_cond es (Or_ [FieldEquals f v1; FieldEquals f v2]) p) <= quanti f es.
Proof.
  intro Hne. cbn [eval_cond]. rewrite app_nil_r.
  etransitivity; [apply unione_length|].
  unfold quanti. induction es as [|e es IH]; cbn [flat_map filter]; [cbn; lia|].
  rewrite !length_app in *.
  destruct (Fact_eq_dec (content e) (mkFact f v1)) as [H1|H1];
    destruct (Fact_eq_dec (content e) (mkFact f v2)) as [H2|H2];
    destruct (Field_eq_dec (field (content e)) f) as [Hf|Hf];
    cbn [List.length];
    try (exfalso; rewrite H1 in H2; injection H2 as H2; contradiction);
    try (exfalso; apply Hf; rewrite H1; reflexivity);
    try (exfalso; apply Hf; rewrite H2; reflexivity);
    unfold Partial in *; cbn [List.length app] in *; lia.
Qed.

(** The firings of the rule with index [k] that a sane state remembers are
    at most the matches of its conditions that are not negations. *)
Lemma spari_le (K : Collab) (st : State) (k : nat) (r : Rule) :
  sano K st ->
  nth_error (rules K) k = Some r ->
  List.length (filter (fun b => Nat.eqb (a_rule b) k) (fired st))
  <= List.length (eval_conds (entries (store st)) (affermate r) start).
Proof.
  intros (_ & _ & Hnd & Hfir) Hr.
  rewrite <- (length_map a_binding), <- (length_map snd (eval_conds _ _ _)).
  apply NoDup_incl_length.
  - clear Hfir. induction (fired st) as [|b l IH]; cbn [filter map]; [constructor|].
    cbn [map] in Hnd. inversion Hnd as [|? ? Hn Hl]; subst.
    destruct (Nat.eqb_spec (a_rule b) k) as [Hk|Hk]; [|apply IH, Hl].
    cbn [map]. constructor; [|apply IH, Hl].
    intro Hin. apply in_map_iff in Hin. destruct Hin as (c & Hc & Hin).
    apply filter_In in Hin. destruct Hin as [Hin Hck]. apply Nat.eqb_eq in Hck.
    apply Hn. apply in_map_iff. exists c. split; [|exact Hin].
    unfold chiave. congruence.
  - intros x Hx. apply in_map_iff in Hx. destruct Hx as (b & <- & Hb).
    apply filter_In in Hb. destruct Hb as [Hb Hk].
    apply Nat.eqb_eq in Hk. destruct (Hfir b Hb) as (r' & q & Hr' & Hin & Hs).
    rewrite Hk, Hr in Hr'. injection Hr' as <-.
    apply in_map_iff. exists q. auto.
Qed.

Lemma spari_limitati (K : Collab) (st : State) :
  sano K st -> tempo_unico st ->
  (forall k, In k [0; 1; 2; 3; 4; 5; 7; 10] ->
             List.length (filter (fun b => Nat.eqb (a_rule b) k) (fired st)) <= 1) /\
  List.length (filter (fun b => Nat.eqb (a_rule b) 6) (fired st)) <= 3 /\
  List.length (filter (fun b => Nat.eqb (a_rule b) 8) (fired st)) <= 3.
Proof.
  intros Hs Ht. pose proof (sano_quanti K st Hs) as (Hc & Hr & _).
  pose proof Hs as (((_ & Hnd & _) & _) & _).
  assert (Hpeso : forall k r, nth_error (rules K) k = Some r ->
            List.length (filter (fun b => Nat.eqb (a_rule b) k) (fired st))
            <= peso_lista (entries (store st)) (affermate r)).
  { intros k r Hk. etransitivity; [apply (spari_le K st k r Hs Hk)|].
    pose proof (peso_conds (entries (store st)) (affermate r) Hnd start) as H.
    unfold start in H at 2. cbn [List.length] in H. lia. }
  split; [|split].
  - intros k Hk. cbn [In] in Hk.
    destruct Hk as [<-|[<-|[<-|[<-|[<-|[<-|[<-|[<-|[]]]]]]]]];
      try (match goal with
           | |- List.length (filter (fun b => Nat.eqb (a_rule b) ?k) _) <= _ =>
               etransitivity; [apply (Hpeso k _ eq_refl)|]
           end; cbn; lia).
    etransitivity; [apply (spari_le K st 3 _ Hs eq_refl)|].
    unfold affermate. cbn [r_conds filter non_negata].
    change [FieldEquals azione "trovaRicetta"; FieldEquals ingrediente "pasta";
            FieldEquals ingrediente "pomodoro";
            Or_ [FieldEquals tempo_disponibile "medio";
                 FieldEquals tempo_disponibile "molto"]]
      with ([FieldEquals azione "trovaRicetta"; FieldEquals ingrediente "pasta";
             FieldEquals ingrediente "pomodoro"]
            ++ [Or_ [FieldEquals tempo_disponibile "medio";
                     FieldEquals tempo_disponibile "molto"]]).
    rewrite eval_conds_snoc.
    pose proof (peso_conds (entries (store st))
                  [FieldEquals azione "trovaRicetta"; FieldEquals ingrediente "pasta";
                   FieldEquals ingrediente "pomodoro"] Hnd start) as H3.
    unfold start in H3 at 2. cbn [List.length] in H3.
    assert (Hq : quanti tempo_disponibile (entries (store st)) <= 1)
      by (destruct Ht as [Hz|[_ Hle]]; lia).
    etransitivity.
    { apply (length_flat_map_le _ 1). intro p. etransitivity; [|exact Hq].
      apply peso_alternativa. discriminate. }
    rewrite Nat.mul_1_l. etransitivity; [exact H3|]. cbn. lia.
  - etransitivity; [apply (Hpeso 6 _ eq_refl)|]. cbn. lia.
  - etransitivity; [apply (Hpeso 8 _ eq_refl)|]. cbn. lia.
Qed.


(** *** Names and indices *)

Lemma nome_indice (K : Collab) (b : Activation) (r : Rule) (k : nat) (r' : Rule) :
  nth_error (rules K) (a_rule b) = Some r ->
  nth_error (rules K) k = Some r' ->
  (name_of (rules K) b = r_name r' <-> a_rule b = k).
Proof.
  intros Hr Hk. unfold name_of. rewrite Hr. destruct b as [i sup bnd].
  cbn [a_rule] in *.
  each_rule Hr; each_rule Hk; cbn [r_name]; split; intro H;
    first [reflexivity | discriminate H].
Qed.

Lemma spari_filter (K : Collab) (nome : string) (k : nat) (r : Rule) (l : list Activation) :
  (forall a, In a l -> exists r0, nth_error (rules K) (a_rule a) = Some r0) ->
  nth_error (rules K) k = Some r -> r_name r = nome ->
  count_occ string_dec (map (name_of (rules K)) l) nome
  = List.length (filter (fun b => Nat.eqb (a_rule b) k) l).
Proof.
  intros Hall Hk Hn. induction l as [|a l IH]; [reflexivity|].
  cbn [map count_occ filter].
  rewrite IH by (intros x Hx; apply Hall; now right).
  destruct (Hall a (or_introl eq_refl)) as (r0 & Hr0).
  pose proof (nome_indice K a r0 k r Hr0 Hk) as Hiff. rewrite Hn in Hiff.
  destruct (string_dec (name_of (rules K) a) nome) as [He|He];
    destruct (Nat.eqb_spec (a_rule a) k) as [Hi|Hi]; cbn [List.length];
    try reflexivity.
  - exfalso. apply Hi, Hiff, He.
  - exfalso. apply He, Hiff, Hi.
Qed.

Lemma quanti_uno (f : Field) (es : list Entry) (e e' : Entry) :
  quanti f es <= 1 -> In e es -> In e' es ->
  field (content e) = f -> field (content e') = f -> e = e'.
Proof.
  unfold quanti. intros Hq He He' Hf Hf'.
  set (t := fun x : Entry => if Field_eq_dec (field (content x)) f then true else false)
    in *.
  assert (Hte : In e (filter t es)).
  { apply filter_In. split; [exact He|]. unfold t.
    destruct (Field_eq_dec (field (content e)) f); [reflexivity | contradiction]. }
  assert (Hte' : In e' (filter t es)).
  { apply filter_In. split; [exact He'|]. unfold t.
    destruct (Field_eq_dec (field (content e')) f); [reflexivity | contradiction]. }
  destruct (filter t es) as [|x [|y l]]; cbn [List.length] in Hq.
  - destruct Hte.
  - destruct Hte as [<-|[]], Hte' as [<-|[]]. reflexivity.
  - lia.
Qed.

(** X14. How often a rule fires.  In every consultation no rule fires twice
    with the same binding; the three asking rules, the three candidate
    rules, the fallback rule and the closing rule fire at most once each;
    [scegli_candidati] and [valuta_ricetta_con_bayes] fire at most three
    times each, and they do fire twice each in the consultation with eggs,
    lettuce and tomato where the user chooses one candidate and then the
    other; and working memory never holds two times. *)
Theorem regole_una_volta (K : Collab) (fuel : nat) (lines : list string) :
  let c := avvia_consulente_ricette K fuel lines in
  NoDup (trace c) /\
  NoDup (map chiave (trace c)) /\
  (forall nome, In nome una_sola_volta -> spari K nome c <= 1) /\
  spari K "scegli_candidati" c <= 3 /\
  spari K "valuta_ricetta_con_bayes" c <= 3 /\
  (forall v v', In (mkFact tempo_disponibile v) (wm (final c)) ->
                In (mkFact tempo_disponibile v') (wm (final c)) -> v = v') /\
  (let d := avvia_consulente_ricette collab_base 13
              ["uova, lattuga, pomodoro"; "10"; ""; "1"; "2"; "1"; "1"] in
   status d = Done /\
   spari collab_base "scegli_candidati" d = 2 /\
   spari collab_base "valuta_ricetta_con_bayes" d = 2).
Proof.
  intro c0. subst c0. unfold avvia_consulente_ricette.
  destruct (run_sano K fuel (reset deffacts) (mkWorld lines []) (sano_reset K))
    as (Hs & _).
  destruct (run_volte K fuel (reset deffacts) (mkWorld lines []) (sano_reset K)
              tempo_unico_reset) as (Ht & Hfeq).
  set (c := run (rules K) fuel (reset deffacts) (mkWorld lines [])) in *.
  cbn [reset fired] in Hfeq. rewrite app_nil_r in Hfeq.
  pose proof Hs as (_ & _ & Hnd & Hfir).
  assert (Hidx : forall a, In a (trace c) ->
                           exists r0, nth_error (rules K) (a_rule a) = Some r0).
  { intros a Ha. destruct (Hfir a) as (r0 & q & Hr0 & _); [|eauto].
    rewrite Hfeq. apply in_rev in Ha. exact Ha. }
  assert (Hcount : forall k, List.length (filter (fun b => Nat.eqb (a_rule b) k) (trace c))
                             = List.length (filter (fun b => Nat.eqb (a_rule b) k)
                                                   (fired (final c)))).
  { intro k. rewrite Hfeq, filter_rev, length_rev. reflexivity. }
  destruct (spari_limitati K (final c) Hs Ht) as (H1 & H6 & H8).
  assert (Hchiavi : NoDup (map chiave (trace c))).
  { apply NoDup_rev in Hnd. rewrite Hfeq, <- map_rev, rev_involutive in Hnd. exact Hnd. }
  split; [|split; [|split; [|split; [|split; [|split]]]]].
  - exact (NoDup_map_inv chiave (trace c) Hchiavi).
  - exact Hchiavi.
  - intros nome Hn. unfold spari, names. unfold una_sola_volta in Hn. cbn [In] in Hn.
    destruct Hn as [<-|[<-|[<-|[<-|[<-|[<-|[<-|[<-|[]]]]]]]]].
    + rewrite (spari_filter K "chiedi_ingredienti" 0 _ _ Hidx eq_refl eq_refl), Hcount. apply H1. cbn. tauto.
    + rewrite (spari_filter K "chiedi_tempo" 1 _ _ Hidx eq_refl eq_refl), Hcount. apply H1. cbn. tauto.
    + rewrite (spari_filter K "chiedi_preferenze" 2 _ _ Hidx eq_refl eq_refl), Hcount. apply H1. cbn. tauto.
    + rewrite (spari_filter K "suggerisci_pasta_pomodoro" 3 _ _ Hidx eq_refl eq_refl), Hcount. apply H1. cbn. tauto.
    + rewrite (spari_filter K "suggerisci_uova_strapazzate" 4 _ _ Hidx eq_refl eq_refl), Hcount. apply H1. cbn. tauto.
    + rewrite (spari_filter K "suggerisci_insalata" 5 _ _ Hidx eq_refl eq_refl), Hcount. apply H1. cbn. tauto.
    + rewrite (spari_filter K "nessuna_ricetta_trovata" 7 _ _ Hidx eq_refl eq_refl), Hcount. apply H1. cbn. tauto.
    + rewrite (spari_filter K "terminare_esecuzione" 10 _ _ Hidx eq_refl eq_refl), Hcount. apply H1. cbn. tauto.
  - unfold spari, names.
    rewrite (spari_filter K "scegli_candidati" 6 _ _ Hidx eq_refl eq_refl), Hcount. exact H6.
  - unfold spari, names.
    rewrite (spari_filter K "valuta_ricetta_con_bayes" 8 _ _ Hidx eq_refl eq_refl), Hcount. exact H8.
  - intros v v' Hv Hv'.
    destruct (entry_of_fact _ _ Hv) as (e & He & Hce).
    destruct (entry_of_fact _ _ Hv') as (e' & He' & Hce').
    assert (Hq : quanti tempo_disponibile (entries (store (final c))) <= 1)
      by (destruct Ht as [Hz|[_ Hle]]; lia).
    assert (Heq : e = e').
    { apply (quanti_uno tempo_disponibile _ e e' Hq He He').
      - rewrite Hce. reflexivity.
      - rewrite Hce'. reflexivity. }
    subst e'. rewrite Hce in Hce'. injection Hce' as ->. reflexivity.
  - vm_compute. auto.
Qed.

End VolteFacts.

(** ** The validation script *)

Module ValutazioneFacts.
Import Valutazione.

Lemma leggi_scrivi (col : Colonna) (v : Z) (r : Riga) : leggi col (scrivi col v r) = v.
Proof. destruct col; reflexivity. Qed.

Lemma aggiungi_mancanti_ok (col : Colonna) (prima : Riga) (mancanti : list Z) :
  forall coda,
    aggiungi_mancanti col mancanti (prima :: coda)
    = Some (prima :: coda ++ map (fun v => scrivi col v prima) mancanti).
Proof.
  induction mancanti as [|v rest IH]; intro coda; cbn [aggiungi_mancanti aggiungi map].
  - now rewrite app_nil_r.
  - cbn [app]. rewrite IH, <- app_assoc. reflexivity.
Qed.

Lemma completa_colonna_ok (col : Colonna) (stati : list Z) (prima : Riga)
      (coda : list Riga) :
  exists agg,
    completa_colonna (prima :: coda) (col, stati) = Some (prima :: coda ++ agg) /\
    Forall (fun r => exists v, In v stati /\ r = scrivi col v prima) agg /\
    List.length agg <= List.length stati /\
    forall v, In v stati -> In v (map (leggi col) (prima :: coda ++ agg)).
Proof.
  unfold completa_colonna.
  set (presenti := nodup Z.eq_dec (map (leggi col) (prima :: coda))).
  set (mancanti := filter (fun v => negb (existsb (Z.eqb v) presenti)) stati).
  exists (map (fun v => scrivi col v prima) mancanti).
  split; [apply aggiungi_mancanti_ok|]. split; [|split].
  - apply Forall_forall. intros r Hr. apply in_map_iff in Hr.
    destruct Hr as (v & <- & Hv). apply filter_In in Hv. exists v. tauto.
  - rewrite length_map. apply filter_length_le.
  - intros v Hv. destruct (existsb (Z.eqb v) presenti) eqn:E.
    + apply existsb_exists in E. destruct E as (x & Hx & Hvx).
      apply Z.eqb_eq in Hvx. subst x. unfold presenti in Hx. apply nodup_In in Hx.
      change (prima :: coda ++ map (fun v0 => scrivi col v0 prima) mancanti)
        with ((prima :: coda) ++ map (fun v0 => scrivi col v0 prima) mancanti).
      rewrite map_app. apply in_or_app. now left.
    + change (prima :: coda ++ map (fun v0 => scrivi col v0 prima) mancanti)
        with ((prima :: coda) ++ map (fun v0 => scrivi col v0 prima) mancanti).
      rewrite map_app. apply in_or_app. right.
      apply in_map_iff. exists (scrivi col v prima). split; [apply leggi_scrivi|].
      apply (in_map (fun v0 => scrivi col v0 prima)).
      apply filter_In. split; [exact Hv|]. now rewrite E.
Qed.

(** What the completion of a frame with a first row gives, a column of
    [DOMINI] after the other. *)
Lemma completa_ok (prima : Riga) (ds : list (Colonna * list Z)) :
  forall coda,
    exists agg,
      fold_left (fun acc d => match acc with
                              | None => None
                              | Some df => completa_colonna df d
                              end) ds (Some (prima :: coda))
      = Some (prima :: coda ++ agg) /\
      Forall (fun r => exists col v, r = scrivi col v prima) agg /\
      List.length agg <= list_sum (map (fun d => List.length (snd d)) ds) /\
      forall col stati v, In (col, stati) ds -> In v stati ->
                          In v (map (leggi col) (prima :: coda ++ agg)).
Proof.
  induction ds as [|[col stati] ds IH]; intro coda; cbn [fold_left].
  - exists []. rewrite app_nil_r. split; [reflexivity|]. split; [constructor|].
    split; [cbn; lia|]. intros col stati v [].
  - destruct (completa_colonna_ok col stati prima coda) as (a1 & -> & F1 & L1 & C1).
    destruct (IH (coda ++ a1)) as (a2 & E2 & F2 & L2 & C2).
    exists (a1 ++ a2). rewrite app_assoc. split; [exact E2|]. split; [|split].
    + apply Forall_app. split; [|exact F2].
      apply Forall_forall. intros r Hr. rewrite Forall_forall in F1.
      destruct (F1 r Hr) as (v & _ & ->). eauto.
    + rewrite length_app. cbn [map list_sum fold_right snd]. unfold list_sum in L2.
      apply Nat.add_le_mono; [exact L1 | exact L2].
    + intros c s v [H|H] Hv.
      * injection H as <- <-. specialize (C1 v Hv).
        change (prima :: (coda ++ a1) ++ a2) with ((prima :: coda ++ a1) ++ a2).
        rewrite map_app. apply in_or_app. now left.
      * exact (C2 c s v H Hv).
Qed.

(** X15. The completion of a training fold.  For a fold with at least one
    row the loop over [DOMINI] returns the rows of the fold, in order,
    followed by at most ten added rows, each the first row of the fold with
    one column changed; afterwards every state of every variable occurs in
    its column.  On an empty fold the loop fails at the first missing
    state. *)
Theorem completa_copre (train_data_fold : list Riga) :
  train_data_fold <> [] ->
  exists agg,
    completa train_data_fold = Some (train_data_fold ++ agg) /\
    List.length agg <= 10 /\
    Forall (fun r => exists col v,
                r = scrivi col v (hd (mkRiga 0 0 0 0) train_data_fold)) agg /\
    (forall col stati v, In (col, stati) DOMINI -> In v stati ->
                         In v (map (leggi col) (train_data_fold ++ agg))) /\
    completa [] = None.
Proof.
  intro Hne. destruct train_data_fold as [|prima coda]; [contradiction|].
  destruct (completa_ok prima DOMINI coda) as (agg & E & F & L & C).
  exists agg. split; [exact E|]. split; [exact L|]. split; [exact F|].
  split; [exact C | reflexivity].
Qed.

Lemma completa_copre_witness :
  exists agg,
    completa [mkRiga 1 0 1 1] = Some ([mkRiga 1 0 1 1] ++ agg) /\
    List.length agg <= 10.
Proof.
  assert (H : [mkRiga 1 0 1 1] <> []) by discriminate.
  destruct (completa_copre [mkRiga 1 0 1 1] H) as (agg & E & L & _).
  exists agg. split; [exact E | exact L].
Defined.

Lemma predizione_nan (rete : Riga -> option Z) (test_row : Riga) :
  predizione rete test_row = None.
Proof. reflexivity. Qed.

(** X16. The validation never gets a prediction.  The script calls
    [inferenza(dati=...)] while the parameter of the method is [evidenze]:
    whatever the network would answer, every call raises, every entry of
    [y_pred_list] is [np.nan], the cleaned lists are empty and no fold
    records its metrics. *)
Theorem nessuna_predizione (rete : Riga -> option Z) (X_test : list Riga)
        (y_test_true : list Z) :
  y_pred_list rete X_test = repeat None (List.length X_test) /\
  y_pred_clean (y_pred_list rete X_test) = [] /\
  y_test_clean y_test_true (y_pred_list rete X_test) = [] /\
  registra (y_pred_list rete X_test) = false /\
  (forall valida : Riga -> option Z,
      chiama parametri_inferenza
             (fun args => match args with
                          | (_, evidenze) :: _ => valida evidenze
                          | [] => None
                          end)
             [("evidenze", hd (mkRiga 0 0 0 0) X_test)]
      = Some (valida (hd (mkRiga 0 0 0 0) X_test))).
Proof.
  assert (H1 : y_pred_list rete X_test = repeat None (List.length X_test)).
  { unfold y_pred_list. induction X_test as [|r l IH]; [reflexivity|].
    cbn [map List.length repeat]. rewrite IH, predizione_nan. reflexivity. }
  assert (H2 : forall n, y_pred_clean (repeat None n) = []).
  { induction n as [|n IH]; [reflexivity|]. exact IH. }
  split; [exact H1|]. rewrite H1. split; [apply H2|]. split; [|split].
  - generalize (List.length X_test). intro n. revert y_test_true.
    induction n as [|n IH]; intros [|y l]; try reflexivity. cbn. apply IH.
  - unfold registra. now rewrite H2.
  - intro valida. reflexivity.
Qed.

End ValutazioneFacts.
